(** * dbc_fft.h: a shallow embedding of the scalar FFT engine

    The development follows [src/dbc_fft.h] function by function.  The
    header is instantiated once per element type ([DBCF_Type]) and is
    configured by preprocessor macros; here the element type is a type
    class ([Elem]) and the macros are a record ([Config]).  The SIMD
    back-end is compiled out ([DBC_FFT_NO_SIMD], which is also what the
    [long double] instantiation gets), so [dbcF_init] does nothing and
    [DBCF_butterfly_multipass_optimized] is undefined.

    Integers of type [dbcf_index] are modelled as [Z]; the index
    computations of the engine stay far below the width of [ptrdiff_t]
    for any array that fits in memory, so no wrap-around is written. *)

From Stdlib Require Import ZArith QArith Qround Qreals Reals Lia Lra List Bool.
Import ListNotations.

Local Open Scope Z_scope.

(** ** Compile-time configuration *)

Record Config : Type := mkConfig {
  DBC_FFT_NO_BITREVERSE_TABLE : bool;
  DBC_FFT_NO_NPOT : bool;
  DBCF_TMP_BUF_LOG2 : Z;
  DBCF_Q : Z
}.

(** [#define DBCF_Q (((DBCF_TMP_BUF_LOG2)>>1)<6?((DBCF_TMP_BUF_LOG2)>>1):6)] *)
Definition default_Q (tmp_buf_log2 : Z) : Z :=
  if Z.shiftr tmp_buf_log2 1 <? 6 then Z.shiftr tmp_buf_log2 1 else 6.

Definition default_config : Config :=
  mkConfig false false 10 (default_Q 10).

(** The two [dbcF_static_assert_*] typedefs. *)
Definition static_asserts (cfg : Config) : Prop :=
  DBCF_TMP_BUF_LOG2 cfg >= 2 /\
  DBCF_Q cfg >= 1 /\ 2 * DBCF_Q cfg <= DBCF_TMP_BUF_LOG2 cfg.

Definition DBCF_POW2 (n : Z) : Z := Z.shiftl 1 n.
Definition DBCF_TMP_BUF_SIZE (cfg : Config) : Z := DBCF_POW2 (DBCF_TMP_BUF_LOG2 cfg).
Definition DBCF_TWIDDLES_BUF_LOG2 (cfg : Config) : Z := DBCF_TMP_BUF_LOG2 cfg - 1.
Definition DBCF_TWIDDLES_BUF_SIZE (cfg : Config) : Z := DBCF_POW2 (DBCF_TWIDDLES_BUF_LOG2 cfg).

Definition DBCF_ERROR_INVALID_ARGUMENT : Z := -1.
Definition DBCF_ERROR_OUT_OF_MEMORY : Z := -2.

(** ** The 8-bit bit-reversal table *)

(** [DBCF_R1 .. DBCF_R8]: [DBCF_R k n c] is the expansion of the macro
    [DBCF_R]k[(n,c)]. *)
Fixpoint DBCF_R (k : nat) (n c : Z) : list Z :=
  match k with
  | O => [n]
  | S O => [n; n + c]
  | S k' => DBCF_R k' n (2 * c) ++ DBCF_R k' (n + c) (2 * c)
  end.

Definition dbcF_bitreverse_table : list Z :=
  Eval cbv in
  [0; 0] ++ DBCF_R 1 0 1 ++ DBCF_R 2 0 1 ++ DBCF_R 3 0 1 ++ DBCF_R 4 0 1
         ++ DBCF_R 5 0 1 ++ DBCF_R 6 0 1 ++ DBCF_R 7 0 1 ++ DBCF_R 8 0 1.

(** [(dbcF_bitreverse_table+off)[i]].  A read outside the 512 entries is
    undefined in C; the model returns 0 there. *)
Definition table_at (off i : Z) : Z :=
  if (off + i <? 0) then 0 else nth (Z.to_nat (off + i)) dbcF_bitreverse_table 0.

(** ** [dbcF_bitreverse] *)

(** The branch-free body used under [DBC_FFT_NO_BITREVERSE_TABLE], up to
    the recursive call. *)
Definition nibble_swap (i bits : Z) : Z :=
  let j := Z.land i 255 in
  let b := if bits <? 8 then bits else 8 in
  let j := Z.lxor (Z.shiftr j 4) (Z.shiftl j 4) in
  let j := Z.lxor (Z.shiftr (Z.land j 204) 2) (Z.shiftl (Z.land j 51) 2) in
  let j := Z.lxor (Z.shiftr (Z.land j 170) 1) (Z.shiftl (Z.land j 85) 1) in
  Z.shiftr j (8 - b).

(** The recursion is on [bits], which drops by 8 per call; [fuel] bounds
    the number of calls and [Z.to_nat bits] is always enough. *)
Fixpoint bitreverse_fuel (no_table : bool) (fuel : nat) (i bits : Z) : Z :=
  if no_table then
    let j := nibble_swap i bits in
    if bits >? 8 then
      match fuel with
      | O => j
      | S fuel' =>
          Z.lxor (Z.shiftl j (bits - 8))
                 (bitreverse_fuel no_table fuel' (Z.shiftr i 8) (bits - 8))
      end
    else j
  else
    if bits <=? 8 then table_at (DBCF_POW2 bits) i
    else
      match fuel with
      | O => 0
      | S fuel' =>
          Z.lxor (Z.shiftl (table_at 256 (Z.land i 255)) (bits - 8))
                 (bitreverse_fuel no_table fuel' (Z.shiftr i 8) (bits - 8))
      end.

Definition bitreverse_with (no_table : bool) (i bits : Z) : Z :=
  bitreverse_fuel no_table (Z.to_nat bits) i bits.

(** [dbcF_bitreverse(i,bits)] on unbounded integers: what the C function
    returns as long as no shift leaves [dbcf_index], which holds for
    [bits] below the width of that type.  [dbcF_bitreverse_w] is the
    function on an index type of [w] bits. *)
Definition dbcF_bitreverse (cfg : Config) (i bits : Z) : Z :=
  bitreverse_with (DBC_FFT_NO_BITREVERSE_TABLE cfg) i bits.

(** Reference bit reversal, bit by bit: bit [k] of the result is bit
    [b-1-k] of the argument. *)
Fixpoint rev_bits (b : nat) (i : Z) : Z :=
  match b with
  | O => 0
  | S b' => Z.lor (Z.shiftl (Z.land i 1) (Z.of_nat b')) (rev_bits b' (Z.shiftr i 1))
  end.

(** ** The element type [DBCF_Type]

    The engine is generated once per element type.  What it needs of the
    type is collected here: the literal constructor [DBCF_LITERAL], the
    arithmetic operators, the comparison [!=], the cast from
    [dbcf_index], [sizeof], and the two optional replacement hooks
    [DBCF_cexpm1] and [DBCF_cexpm1_npot] ([None] when the macro is not
    defined). *)
Class Elem (T : Type) : Type := {
  DBCF_LITERAL : Q -> T;
  Tadd : T -> T -> T;
  Tsub : T -> T -> T;
  Tmul : T -> T -> T;
  Tdiv : T -> T -> T;
  Tneg : T -> T;
  Tne : T -> T -> bool;
  of_index : Z -> T;
  sizeof : Z;
  DBCF_cexpm1 : option (Z -> T * T);
  DBCF_cexpm1_npot : option (Z -> Z -> T * T)
}.

Declare Scope elem_scope.
Delimit Scope elem_scope with E.
Infix "+" := Tadd : elem_scope.
Infix "-" := Tsub : elem_scope.
Infix "*" := Tmul : elem_scope.
Infix "/" := Tdiv : elem_scope.
Notation "- x" := (Tneg x) : elem_scope.

(** ** Memory

    A pointer is null or a block with an offset counted in elements.
    Every allocation (a caller's array, a stack array, a [dbcf_malloc]
    buffer) is a block of its own.  Only the dereference of a null pointer
    is tracked as undefined behaviour; bounds and initialisation are not.
    [heap_ok] is the injectable allocator: it tells whether a request of
    that many bytes succeeds. *)
Inductive ptr : Type :=
| Null
| Ptr (b : Z) (o : Z).

Definition padd (p : ptr) (k : Z) : ptr :=
  match p with
  | Null => Null
  | Ptr b o => Ptr b (o + k)
  end.

Definition ptr_eqb (p q : ptr) : bool :=
  match p, q with
  | Null, Null => true
  | Ptr b o, Ptr b' o' => (b =? b') && (o =? o')
  | _, _ => false
  end.

Definition is_null (p : ptr) : bool :=
  match p with Null => true | Ptr _ _ => false end.

Record mem (T : Type) : Type := mkMem {
  cells : Z -> Z -> T;
  next_block : Z;
  heap_ok : Z -> bool
}.
Arguments mkMem {T}.
Arguments cells {T}.
Arguments next_block {T}.
Arguments heap_ok {T}.

Inductive result (T A : Type) : Type :=
| Ok (a : A) (m : mem T)
| Fault
| OutOfFuel.
Arguments Ok {T A}.
Arguments Fault {T A}.
Arguments OutOfFuel {T A}.

Definition M (T A : Type) : Type := mem T -> result T A.

Definition ret {T A} (a : A) : M T A := fun m => Ok a m.

Definition bind {T A B} (c : M T A) (k : A -> M T B) : M T B :=
  fun m => match c m with
           | Ok a m' => k a m'
           | Fault => Fault
           | OutOfFuel => OutOfFuel
           end.

Notation "x <- c ;; k" := (bind c (fun x => k))
  (at level 61, c at next level, right associativity).
Notation "c ;; k" := (bind c (fun _ => k))
  (at level 61, right associativity).

Definition upd {T} (f : Z -> Z -> T) (b o : Z) (v : T) : Z -> Z -> T :=
  fun b' o' => if (b' =? b) && (o' =? o) then v else f b' o'.

(** [*p] *)
Definition load {T} (p : ptr) : M T T :=
  fun m => match p with
           | Null => Fault
           | Ptr b o => Ok (cells m b o) m
           end.

(** [*p = v] *)
Definition store {T} (p : ptr) (v : T) : M T unit :=
  fun m => match p with
           | Null => Fault
           | Ptr b o => Ok tt (mkMem (upd (cells m) b o v) (next_block m) (heap_ok m))
           end.

(** A stack array: a fresh block. *)
Definition alloca {T} : M T ptr :=
  fun m => Ok (Ptr (next_block m) 0) (mkMem (cells m) (next_block m + 1) (heap_ok m)).

Definition dbcf_malloc {T} (bytes : Z) : M T ptr :=
  fun m => if heap_ok m bytes
           then Ok (Ptr (next_block m) 0) (mkMem (cells m) (next_block m + 1) (heap_ok m))
           else Ok Null m.

Definition dbcf_free {T} (p : ptr) : M T unit := ret tt.

(** [for(i=lo;i<hi;++i) body], with the variables the body updates
    carried in [s]. *)
Fixpoint for_count {T St} (cnt : nat) (i : Z) (s : St) (body : Z -> St -> M T St) : M T St :=
  match cnt with
  | O => ret s
  | S cnt' => s' <- body i s ;; for_count cnt' (i + 1) s' body
  end.

Definition for_fold {T St} (lo hi : Z) (s : St) (body : Z -> St -> M T St) : M T St :=
  for_count (Z.to_nat (hi - lo)) lo s body.

Definition for_loop {T} (lo hi : Z) (body : Z -> M T unit) : M T unit :=
  for_fold lo hi tt (fun i _ => body i).

Section Engine.

Context {T : Type} {E : Elem T} (cfg : Config).

Local Open Scope elem_scope.

Definition DBCF_ZERO : T := DBCF_LITERAL 0.0.
Definition DBCF_ONE : T := DBCF_LITERAL 1.0.

(** [p[i]] and [p[i] = v] *)
Definition aref (p : ptr) (i : Z) : M T T := load (padd p i).
Definition aset (p : ptr) (i : Z) (v : T) : M T unit := store (padd p i) v.

(** ** [dbcF_cexpm1], [dbcF_cexp] *)

Definition cexpm1_table : list (T * T) :=
  [ (  DBCF_LITERAL 0.0e0                                       , DBCF_LITERAL 0.0e0                                       );
    (- DBCF_LITERAL 2.0e0                                       , DBCF_LITERAL 0.0e0                                       );
    (- DBCF_LITERAL 1.0e0                                       , DBCF_LITERAL 1.0e0                                       );
    (- DBCF_LITERAL 2.928932188134524755991556378951509607151e-1, DBCF_LITERAL 7.071067811865475244008443621048490392848e-1);
    (- DBCF_LITERAL 7.612046748871324387181681060321171317758e-2, DBCF_LITERAL 3.826834323650897717284599840303988667613e-1);
    (- DBCF_LITERAL 1.921471959676955087381776386576096302606e-2, DBCF_LITERAL 1.950903220161282678482848684770222409276e-1);
    (- DBCF_LITERAL 4.815273327803113755163046890520078424525e-3, DBCF_LITERAL 9.801714032956060199419556388864184586113e-2);
    (- DBCF_LITERAL 1.204543794827607285228395240899305556796e-3, DBCF_LITERAL 4.906767432741801425495497694268265831474e-2);
    (- DBCF_LITERAL 3.011813037957798842343503338278031499389e-4, DBCF_LITERAL 2.454122852291228803173452945928292506546e-2);
    (- DBCF_LITERAL 7.529816085545907835350880361677564939353e-5, DBCF_LITERAL 1.227153828571992607940826195100321214037e-2);
    (- DBCF_LITERAL 1.882471739885734300956227143228382608274e-5, DBCF_LITERAL 6.135884649154475359640234590372580917057e-3);
    (- DBCF_LITERAL 4.706190423828488419874299880100447012366e-6, DBCF_LITERAL 3.067956762965976270145365490919842518944e-3);
    (- DBCF_LITERAL 1.176548298090070974289828473980951732077e-6, DBCF_LITERAL 1.533980186284765612303697150264079079954e-3);
    (- DBCF_LITERAL 2.941371177808397717822612343228837361006e-7, DBCF_LITERAL 7.669903187427045269385683579485766431409e-4);
    (- DBCF_LITERAL 7.353428214885526851929261214305179884431e-8, DBCF_LITERAL 3.834951875713955890724616811813812633950e-4);
    (- DBCF_LITERAL 1.838357070619165308459709028549492394875e-8, DBCF_LITERAL 1.917475973107033074399095619890009334688e-4);
    (- DBCF_LITERAL 4.595892687109028066860393851041105696810e-9, DBCF_LITERAL 9.587379909597734587051721097647635118706e-5) ].

(** The Taylor branch, for [log2n] beyond the table. *)
Definition cexpm1_taylor (log2n : Z) : T * T :=
  let n := Z.shiftl 1 log2n in
  let C1 := DBCF_LITERAL 1.0e0 in
  let C2 := DBCF_LITERAL 5.0e-1 in
  let C3 := DBCF_LITERAL 1.666666666666666666666666666666666666666e-1 in
  let C4 := DBCF_LITERAL 4.166666666666666666666666666666666666666e-2 in
  let C5 := DBCF_LITERAL 8.333333333333333333333333333333333333333e-3 in
  let C6 := DBCF_LITERAL 1.388888888888888888888888888888888888888e-3 in
  let C7 := DBCF_LITERAL 1.984126984126984126984126984126984126984e-4 in
  let C8 := DBCF_LITERAL 2.480158730158730158730158730158730158730e-5 in
  let x := DBCF_LITERAL 6.283185307179586476925286766559005768 / of_index n in
  let x2 := x * x in
  ((- x2) * (C2 - x2 * (C4 - x2 * (C6 - x2 * C8))),
   x * (C1 - x2 * (C3 - x2 * (C5 - x2 * C7)))).

(** The results [*real], [*imag] are returned as a pair.  A negative
    [log2n] indexes the table out of bounds in C; the model reads entry 0
    there. *)
Definition dbcF_cexpm1 (log2n : Z) : T * T :=
  match DBCF_cexpm1 with
  | Some f => f log2n
  | None =>
      if log2n <? Z.of_nat (length cexpm1_table)
      then nth (Z.to_nat log2n) cexpm1_table (DBCF_ZERO, DBCF_ZERO)
      else cexpm1_taylor log2n
  end.

Definition dbcF_cexp (log2n : Z) : T * T :=
  let (re, im) := dbcF_cexpm1 log2n in (DBCF_ONE + re, im).

(** [dbcF_cexp(log2n,real,imag)] with the results stored through the
    pointers, in the order of the source. *)
Definition dbcF_cexp_to (log2n : Z) (real imag : ptr) : M T unit :=
  let (re, im) := dbcF_cexpm1 log2n in
  store real re ;;
  store imag im ;;
  r <- load real ;;
  store real (DBCF_ONE + r).

(** ** [dbcF_compute_twiddles] *)

Definition dbcF_compute_twiddles (log2n log2b : Z) (real imag : ptr) (inverse : bool)
  : M T unit :=
  aset real 0 DBCF_ZERO ;;
  aset imag 0 DBCF_ZERO ;;
  for_loop 0 log2b (fun i =>
    let k := DBCF_POW2 i in
    let (x, y) := dbcF_cexpm1 (log2n - i) in
    let y := if negb inverse then - y else y in
    for_loop 0 k (fun j =>
      rj <- aref real j ;; ij <- aref imag j ;;
      aset real (k + j) ((x * rj - y * ij) + (x + rj)) ;;
      rj <- aref real j ;; ij <- aref imag j ;;
      aset imag (k + j) ((y * rj + x * ij) + (y + ij)))) ;;
  for_loop 0 (DBCF_POW2 log2b) (fun i =>
    ri <- aref real i ;;
    aset real i (DBCF_ONE + ri)).

(** ** [dbcF_cexpm1_npot], [dbcF_compute_twiddles_npot] *)

Definition cexpm1_npot_step (x2 : T) (st : T * T * T) : T * T * T :=
  let '(Cv, Sv, Iv) := st in
  let J := DBCF_LITERAL 2.0 * Iv + DBCF_LITERAL 3.0 in
  let K := Iv + Iv + DBCF_LITERAL 3.0 in
  let J := J * J in
  let Cv := DBCF_LITERAL 1.0 - x2 * Cv / (J + K) in
  let Sv := DBCF_LITERAL 1.0 - x2 * Sv / (J - K) in
  let Iv := Iv - DBCF_LITERAL 1.0 in
  (Cv, Sv, Iv).

(** [C], [S] and [I] of the source are [Cv], [Sv] and [Iv]; the loop
    [for(i=32;i>=0;--i)] runs 33 times and does not use [i]. *)
Definition dbcF_cexpm1_npot (p q : Z) : T * T :=
  match DBCF_cexpm1_npot with
  | Some f => f p q
  | None =>
      let x := DBCF_LITERAL 6.283185307179586476925286766559005768 * of_index p / of_index q in
      let x2 := x * x in
      let '(Cv, Sv, _) :=
        Nat.iter 33 (cexpm1_npot_step x2) (DBCF_ONE, DBCF_ONE, DBCF_LITERAL 32.0) in
      let Cv := (- Cv) * DBCF_LITERAL 0.5 * x2 in
      let Sv := Sv * x in
      (Cv, Sv)
  end.

(** [for(i=1;i<h;i*=2)]: [i] at least doubles, so [Z.to_nat h] steps of
    fuel are enough. *)
Fixpoint doubling_loop (fuel : nat) (i h : Z) (body : Z -> M T unit) : M T unit :=
  if i <? h then
    match fuel with
    | O => fun _ => OutOfFuel
    | S fuel' => body i ;; doubling_loop fuel' (i * 2) h body
    end
  else ret tt.

Definition dbcF_compute_twiddles_npot (n : Z) (real imag : ptr) (inverse : bool)
  : M T unit :=
  let m := Z.shiftr n 1 in
  let h := Z.shiftr (m + 2) 1 in
  if n <? 1 then ret tt else
  aset real 0 DBCF_ZERO ;;
  aset imag 0 DBCF_ZERO ;;
  doubling_loop (Z.to_nat h) 1 h (fun i =>
    let (X, Y) := dbcF_cexpm1_npot i n in
    let Y := if negb inverse then - Y else Y in
    let j := if h <? i * 2 then (h - i)%Z else i in
    for_loop 0 j (fun k =>
      rk <- aref real k ;; ik <- aref imag k ;;
      aset real (i + k) ((X * rk - Y * ik) + (X + rk)) ;;
      rk <- aref real k ;; ik <- aref imag k ;;
      aset imag (i + k) ((Y * rk + X * ik) + (Y + ik)))) ;;
  for_loop 0 h (fun i => ri <- aref real i ;; aset real i (DBCF_ONE + ri)) ;;
  for_loop h m (fun i =>
    r <- aref real (m - i) ;; aset real i (- r) ;;
    r <- aref imag (m - i) ;; aset imag i r) ;;
  for_loop 0 m (fun i =>
    r <- aref real i ;; aset real (m + i) (- r) ;;
    r <- aref imag i ;; aset imag (m + i) (- r)).

(** ** Bit-reversal permutations *)

(** The index [j] of the direct loops: [idx[i]] with the table,
    [dbcF_bitreverse(i,log2n)] without. *)
Definition rev_index (log2n i : Z) : Z :=
  if DBC_FFT_NO_BITREVERSE_TABLE cfg
  then dbcF_bitreverse cfg i log2n
  else table_at (DBCF_POW2 log2n) i.

Fixpoint bitreversal_swap_fuel (fuel : nat) (log2n : Z)
    (src : ptr) (src_stride : Z) (dst : ptr) (dst_stride : Z) : M T unit :=
  let n := DBCF_POW2 log2n in
  let h := Z.shiftr n 1 in
  if log2n <=? 8 then
    for_loop 0 n (fun i =>
      let j := rev_index log2n i in
      x <- aref src (i * src_stride) ;;
      y <- aref dst (j * dst_stride) ;;
      aset src (i * src_stride) y ;;
      aset dst (j * dst_stride) x)
  else
    match fuel with
    | O => fun _ => OutOfFuel
    | S fuel' =>
        bitreversal_swap_fuel fuel' (log2n - 1) src (2 * src_stride) dst dst_stride ;;
        bitreversal_swap_fuel fuel' (log2n - 1) (padd src src_stride) (2 * src_stride)
                              (padd dst (h * dst_stride)) dst_stride
    end.

Definition dbcF_bitreversal_swap (log2n : Z)
    (src : ptr) (src_stride : Z) (dst : ptr) (dst_stride : Z) : M T unit :=
  bitreversal_swap_fuel (Z.to_nat log2n) log2n src src_stride dst dst_stride.

(** The three loops of the Carter-Gatlin branch for one middle block [b]. *)
Definition cg_tile_index (log2n a b c : Z) : Z :=
  Z.lxor (Z.lxor (Z.shiftl a (log2n - DBCF_Q cfg)) (Z.shiftl b (DBCF_Q cfg))) c.

Definition cg_tmp_index (a c : Z) : Z := Z.lxor (Z.shiftl a (DBCF_Q cfg)) c.

Definition cg_block (log2n log2m : Z) (dst : ptr) (dst_stride : Z) (tmp : ptr) (b : Z)
  : M T unit :=
  let pow2q := DBCF_POW2 (DBCF_Q cfg) in
  let ib := dbcF_bitreverse cfg b log2m in
  if ib <? b then ret tt else
  for_loop 0 pow2q (fun a =>
    for_loop 0 pow2q (fun c =>
      v <- aref dst (cg_tile_index log2n a b c * dst_stride) ;;
      aset tmp (cg_tmp_index a c) v)) ;;
  for_loop 0 pow2q (fun c =>
    let ic := dbcF_bitreverse cfg c (DBCF_Q cfg) in
    for_loop 0 pow2q (fun a =>
      let ia := dbcF_bitreverse cfg a (DBCF_Q cfg) in
      let i := cg_tile_index log2n ic ib ia in
      t <- aref dst (i * dst_stride) ;;
      v <- aref tmp (cg_tmp_index a c) ;;
      aset dst (i * dst_stride) v ;;
      aset tmp (cg_tmp_index a c) t)) ;;
  if negb (b =? ib) then
    for_loop 0 pow2q (fun a =>
      for_loop 0 pow2q (fun c =>
        v <- aref tmp (cg_tmp_index a c) ;;
        aset dst (cg_tile_index log2n a b c * dst_stride) v))
  else ret tt.

Fixpoint bitreversal_permutation_fuel (fuel : nat) (log2n : Z)
    (src : ptr) (src_stride : Z) (dst : ptr) (dst_stride : Z) (tmp : ptr) : M T unit :=
  let n := DBCF_POW2 log2n in
  let h := Z.shiftr n 1 in
  if src_stride =? 0 then
    x <- aref src 0 ;;
    for_loop 0 n (fun i => aset dst (i * dst_stride) x)
  else if ptr_eqb src dst then
    (* In-place case. *)
    if log2n <=? 8 then
      for_loop 0 n (fun i =>
        let j := rev_index log2n i in
        if i <? j then
          x <- aref dst (i * dst_stride) ;;
          y <- aref dst (j * dst_stride) ;;
          aset dst (i * dst_stride) y ;;
          aset dst (j * dst_stride) x
        else ret tt)
    else if (log2n <=? 2 * DBCF_Q cfg + 2) || (log2n <=? 16) then
      match fuel with
      | O => fun _ => OutOfFuel
      | S fuel' =>
          dbcF_bitreversal_swap (log2n - 2) (padd dst dst_stride) (2 * dst_stride)
                                (padd dst (h * dst_stride)) (2 * dst_stride) ;;
          bitreversal_permutation_fuel fuel' (log2n - 2) dst (2 * dst_stride)
                                       dst (2 * dst_stride) tmp ;;
          bitreversal_permutation_fuel fuel' (log2n - 2)
                                       (padd dst ((h + 1) * dst_stride)) (2 * dst_stride)
                                       (padd dst ((h + 1) * dst_stride)) (2 * dst_stride) tmp
      end
    else
      let log2m := (log2n - 2 * DBCF_Q cfg)%Z in
      let m := DBCF_POW2 log2m in
      for_loop 0 m (cg_block log2n log2m dst dst_stride tmp)
  else
    if log2n <=? 8 then
      for_loop 0 n (fun i =>
        let j := rev_index log2n i in
        x <- aref src (i * src_stride) ;;
        aset dst (j * dst_stride) x)
    else
      match fuel with
      | O => fun _ => OutOfFuel
      | S fuel' =>
          if log2n <=? 16 then
            bitreversal_permutation_fuel fuel' (log2n - 1) src (2 * src_stride)
                                         dst dst_stride tmp ;;
            bitreversal_permutation_fuel fuel' (log2n - 1) (padd src src_stride) (2 * src_stride)
                                         (padd dst (h * dst_stride)) dst_stride tmp
          else
            for_loop 0 h (fun i =>
              x <- aref src ((2 * i) * src_stride) ;;
              aset dst (i * dst_stride) x ;;
              x <- aref src ((2 * i + 1) * src_stride) ;;
              aset dst ((i + h) * dst_stride) x) ;;
            bitreversal_permutation_fuel fuel' (log2n - 1) dst dst_stride dst dst_stride tmp ;;
            bitreversal_permutation_fuel fuel' (log2n - 1)
                                         (padd dst (h * dst_stride)) dst_stride
                                         (padd dst (h * dst_stride)) dst_stride tmp
      end.

Definition dbcF_bitreversal_permutation (log2n : Z)
    (src : ptr) (src_stride : Z) (dst : ptr) (dst_stride : Z) (tmp : ptr) : M T unit :=
  bitreversal_permutation_fuel (Z.to_nat log2n) log2n src src_stride dst dst_stride tmp.

(** ** [dbcF_fft8] *)

Definition dbcF_fft8 (real imag : ptr) (real_stride imag_stride : Z)
    (inverse : bool) (c : T) : M T unit :=
  r0 <- aref real (0 * real_stride) ;; i0 <- aref imag (0 * imag_stride) ;;
  r1 <- aref real (1 * real_stride) ;; i1 <- aref imag (1 * imag_stride) ;;
  r2 <- aref real (2 * real_stride) ;; i2 <- aref imag (2 * imag_stride) ;;
  r3 <- aref real (3 * real_stride) ;; i3 <- aref imag (3 * imag_stride) ;;
  r4 <- aref real (4 * real_stride) ;; i4 <- aref imag (4 * imag_stride) ;;
  r5 <- aref real (5 * real_stride) ;; i5 <- aref imag (5 * imag_stride) ;;
  r6 <- aref real (6 * real_stride) ;; i6 <- aref imag (6 * imag_stride) ;;
  r7 <- aref real (7 * real_stride) ;; i7 <- aref imag (7 * imag_stride) ;;
  let R0 := r0 + r1 in let R1 := r0 - r1 in let I0 := i0 + i1 in let I1 := i0 - i1 in
  let R2 := r2 + r3 in let R3 := r2 - r3 in let I2 := i2 + i3 in let I3 := i2 - i3 in
  let R4 := r4 + r5 in let R5 := r4 - r5 in let I4 := i4 + i5 in let I5 := i4 - i5 in
  let R6 := r6 + r7 in let R7 := r6 - r7 in let I6 := i6 + i7 in let I7 := i6 - i7 in
  if negb inverse then
    let r0 := R0 + R2 in let i0 := I0 + I2 in
    let r1 := R1 + I3 in let i1 := I1 - R3 in
    let r2 := R0 - R2 in let i2 := I0 - I2 in
    let r3 := R1 - I3 in let i3 := I1 + R3 in
    let r4 := R4 + R6 in let i4 := I4 + I6 in
    let r5 := R5 + I7 in let i5 := I5 - R7 in
    let r6 := R4 - R6 in let i6 := I4 - I6 in
    let r7 := R5 - I7 in let i7 := I5 + R7 in
    let p5 := c * (r5 + i5) in let m5 := c * (r5 - i5) in
    let p7 := c * (r7 + i7) in let m7 := c * (r7 - i7) in
    aset real (0 * real_stride) (r0 + r4) ;; aset imag (0 * imag_stride) (i0 + i4) ;;
    aset real (1 * real_stride) (r1 + p5) ;; aset imag (1 * imag_stride) (i1 - m5) ;;
    aset real (2 * real_stride) (r2 + i6) ;; aset imag (2 * imag_stride) (i2 - r6) ;;
    aset real (3 * real_stride) (r3 - m7) ;; aset imag (3 * imag_stride) (i3 - p7) ;;
    aset real (4 * real_stride) (r0 - r4) ;; aset imag (4 * imag_stride) (i0 - i4) ;;
    aset real (5 * real_stride) (r1 - p5) ;; aset imag (5 * imag_stride) (i1 + m5) ;;
    aset real (6 * real_stride) (r2 - i6) ;; aset imag (6 * imag_stride) (i2 + r6) ;;
    aset real (7 * real_stride) (r3 + m7) ;; aset imag (7 * imag_stride) (i3 + p7)
  else
    let r0 := R0 + R2 in let i0 := I0 + I2 in
    let r1 := R1 - I3 in let i1 := I1 + R3 in
    let r2 := R0 - R2 in let i2 := I0 - I2 in
    let r3 := R1 + I3 in let i3 := I1 - R3 in
    let r4 := R4 + R6 in let i4 := I4 + I6 in
    let r5 := R5 - I7 in let i5 := I5 + R7 in
    let r6 := R4 - R6 in let i6 := I4 - I6 in
    let r7 := R5 + I7 in let i7 := I5 - R7 in
    let p5 := c * (r5 + i5) in let m5 := c * (r5 - i5) in
    let p7 := c * (r7 + i7) in let m7 := c * (r7 - i7) in
    aset real (0 * real_stride) (r0 + r4) ;; aset imag (0 * imag_stride) (i0 + i4) ;;
    aset real (1 * real_stride) (r1 + m5) ;; aset imag (1 * imag_stride) (i1 + p5) ;;
    aset real (2 * real_stride) (r2 - i6) ;; aset imag (2 * imag_stride) (i2 + r6) ;;
    aset real (3 * real_stride) (r3 - p7) ;; aset imag (3 * imag_stride) (i3 + m7) ;;
    aset real (4 * real_stride) (r0 - r4) ;; aset imag (4 * imag_stride) (i0 - i4) ;;
    aset real (5 * real_stride) (r1 - m5) ;; aset imag (5 * imag_stride) (i1 - p5) ;;
    aset real (6 * real_stride) (r2 + i6) ;; aset imag (6 * imag_stride) (i2 - r6) ;;
    aset real (7 * real_stride) (r3 + p7) ;; aset imag (7 * imag_stride) (i3 - m7).

(** ** Butterflies *)

(** One radix-2 butterfly on [LR[j]], [LI[k]], [HR[j]], [HI[k]] with the
    twiddle [(c, s)]: the body shared by the loops below. *)
Definition butterfly_step (LR LI HR HI : ptr) (j k : Z) (c s : T) : M T unit :=
  xl <- aref LR j ;; yl <- aref LI k ;;
  xr <- aref HR j ;; yr <- aref HI k ;;
  let x := c * xr - s * yr in
  let y := s * xr + c * yr in
  aset LR j (xl + x) ;;
  aset LI k (yl + y) ;;
  aset HR j (xl - x) ;;
  aset HI k (yl - y).

(** The multipliers [C] and [S] of the source are [Cm] and [Sm]. *)
Fixpoint butterfly_block_fuel (fuel : nat) (log2n log2b : Z)
    (LR LI HR HI : ptr) (real_stride imag_stride : Z) (Cm Sm : T)
    (inverse : bool) (tr ti : ptr) : M T unit :=
  let b := DBCF_POW2 log2b in
  let h := Z.shiftr b 1 in
  if log2b <=? DBCF_TWIDDLES_BUF_LOG2 cfg then
    jk <- for_fold 0 b (0, 0)%Z (fun i '(j, k) =>
      tri <- aref tr i ;; tii <- aref ti i ;;
      let c := Cm * tri - Sm * tii in
      let s := Sm * tri + Cm * tii in
      butterfly_step LR LI HR HI j k c s ;;
      ret ((j + real_stride)%Z, (k + imag_stride)%Z)) ;;
    ret tt
  else
    match fuel with
    | O => fun _ => OutOfFuel
    | S fuel' =>
        let (X, Y) := dbcF_cexp (log2n - log2b + 1) in
        let Y := if negb inverse then - Y else Y in
        butterfly_block_fuel fuel' log2n (log2b - 1) LR LI HR HI
                             real_stride imag_stride Cm Sm inverse tr ti ;;
        butterfly_block_fuel fuel' log2n (log2b - 1)
                             (padd LR (h * real_stride)) (padd LI (h * imag_stride))
                             (padd HR (h * real_stride)) (padd HI (h * imag_stride))
                             real_stride imag_stride
                             (Cm * X - Sm * Y) (Sm * X + Cm * Y) inverse tr ti
    end.

Definition dbcF_butterfly_block (log2n log2b : Z)
    (LR LI HR HI : ptr) (real_stride imag_stride : Z) (Cm Sm : T)
    (inverse : bool) (tr ti : ptr) : M T unit :=
  butterfly_block_fuel (Z.to_nat log2b) log2n log2b LR LI HR HI
                       real_stride imag_stride Cm Sm inverse tr ti.

(** [LR+=n*real_stride; LI+=n*imag_stride; HR+=...; HI+=...] *)
Definition advance (n real_stride imag_stride : Z) (P : ptr * ptr * ptr * ptr)
  : ptr * ptr * ptr * ptr :=
  let '(LR, LI, HR, HI) := P in
  (padd LR (n * real_stride), padd LI (n * imag_stride),
   padd HR (n * real_stride), padd HI (n * imag_stride)).

(** [for(d=0;d<h;d+=2)], by pairs. *)
Fixpoint for_step2 (cnt : nat) (d : Z) (jk : Z * Z) (body : Z -> Z * Z -> M T (Z * Z))
  : M T (Z * Z) :=
  match cnt with
  | O => ret jk
  | S cnt' => jk' <- body d jk ;; for_step2 cnt' (d + 2) jk' body
  end.

Definition dbcF_butterfly_pass (log2n log2c : Z) (real imag : ptr)
    (real_stride imag_stride : Z) (inverse : bool) (log2t : Z) (tr ti : ptr) : M T unit :=
  let n := DBCF_POW2 log2n in
  let h := Z.shiftr n 1 in
  let c := DBCF_POW2 log2c in
  let P0 := (real, imag, padd real (h * real_stride), padd imag (h * imag_stride)) in
  if log2n =? 0 then ret tt else
  if log2n - 1 <=? log2t then
    if h >? 1 then
      for_fold 0 c P0 (fun i '(LR, LI, HR, HI) =>
        for_step2 (Z.to_nat ((h + 1) / 2)) 0 (0, 0)%Z (fun d '(j, k) =>
          Cv <- aref tr d ;; Sv <- aref ti d ;;
          butterfly_step LR LI HR HI j k Cv Sv ;;
          let j := (j + real_stride)%Z in let k := (k + imag_stride)%Z in
          Cv <- aref tr (d + 1) ;; Sv <- aref ti (d + 1) ;;
          butterfly_step LR LI HR HI j k Cv Sv ;;
          ret ((j + real_stride)%Z, (k + imag_stride)%Z)) ;;
        ret (advance n real_stride imag_stride (LR, LI, HR, HI))) ;;
      ret tt
    else
      for_fold 0 c P0 (fun i '(LR, LI, HR, HI) =>
        xl <- aref LR 0 ;; yl <- aref LI 0 ;;
        xr <- aref HR 0 ;; yr <- aref HI 0 ;;
        aset LR 0 (xl + xr) ;; aset LI 0 (yl + yr) ;;
        aset HR 0 (xl - xr) ;; aset HI 0 (yl - yr) ;;
        ret (advance n real_stride imag_stride (LR, LI, HR, HI))) ;;
      ret tt
  else
    for_fold 0 c P0 (fun i '(LR, LI, HR, HI) =>
      dbcF_butterfly_block log2n (log2n - 1) LR LI HR HI real_stride imag_stride
                           DBCF_ONE DBCF_ZERO inverse tr ti ;;
      ret (advance n real_stride imag_stride (LR, LI, HR, HI))) ;;
    ret tt.

(** [while(depth>0)]: [depth] drops by 3 or by 1 in each round. *)
Fixpoint butterfly_multipass_fuel (fuel : nat) (log2n log2c depth : Z) (real imag : ptr)
    (real_stride imag_stride : Z) (inverse : bool) (tr ti : ptr) : M T unit :=
  if depth >? 0 then
    match fuel with
    | O => fun _ => OutOfFuel
    | S fuel' =>
        if (depth =? log2n) && (depth >=? 3) then
          let m := DBCF_POW2 (log2n + log2c - 3) in
          dbcF_cexp_to 3 tr ti ;;
          for_loop 0 m (fun j =>
            c <- aref tr 0 ;;
            dbcF_fft8 (padd real (8 * real_stride * j)) (padd imag (8 * imag_stride * j))
                      real_stride imag_stride inverse c) ;;
          butterfly_multipass_fuel fuel' log2n log2c (depth - 3) real imag
                                   real_stride imag_stride inverse tr ti
        else
          let log2d := (log2n - depth + 1)%Z in
          let log2t := if log2d - 1 <? DBCF_TWIDDLES_BUF_LOG2 cfg
                       then (log2d - 1)%Z else DBCF_TWIDDLES_BUF_LOG2 cfg in
          dbcF_compute_twiddles log2d log2t tr ti inverse ;;
          dbcF_butterfly_pass log2d (log2c + log2n - log2d) real imag
                              real_stride imag_stride inverse log2t tr ti ;;
          butterfly_multipass_fuel fuel' log2n log2c (depth - 1) real imag
                                   real_stride imag_stride inverse tr ti
    end
  else ret tt.

Definition dbcF_butterfly_multipass (log2n log2c depth : Z) (real imag : ptr)
    (real_stride imag_stride : Z) (inverse : bool) (tr ti : ptr) : M T unit :=
  butterfly_multipass_fuel (Z.to_nat depth) log2n log2c depth real imag
                           real_stride imag_stride inverse tr ti.

Fixpoint butterfly_fuel (fuel : nat) (log2n : Z) (real imag : ptr)
    (real_stride imag_stride : Z) (inverse : bool) (tmp : ptr) : M T unit :=
  let tr := tmp in
  let ti := padd tmp (DBCF_TWIDDLES_BUF_SIZE cfg) in
  if log2n >? 12 then
    match fuel with
    | O => fun _ => OutOfFuel
    | S fuel' =>
        butterfly_fuel fuel' (log2n - 1) real imag real_stride imag_stride inverse tmp ;;
        butterfly_fuel fuel' (log2n - 1)
                       (padd real (DBCF_POW2 (log2n - 1) * real_stride))
                       (padd imag (DBCF_POW2 (log2n - 1) * imag_stride))
                       real_stride imag_stride inverse tmp ;;
        dbcF_butterfly_multipass log2n 0 1 real imag real_stride imag_stride inverse tr ti
    end
  else
    dbcF_butterfly_multipass log2n 0 log2n real imag real_stride imag_stride inverse tr ti.

Definition dbcF_butterfly (log2n : Z) (real imag : ptr)
    (real_stride imag_stride : Z) (inverse : bool) (tmp : ptr) : M T unit :=
  butterfly_fuel (Z.to_nat log2n) log2n real imag real_stride imag_stride inverse tmp.

(** ** The power-of-two driver *)

(** [while(n) {n>>=1;++log2n;}] *)
Fixpoint log2_loop (fuel : nat) (n log2n : Z) : M T Z :=
  if n =? 0 then ret log2n
  else match fuel with
       | O => fun _ => OutOfFuel
       | S fuel' => log2_loop fuel' (Z.shiftr n 1) (log2n + 1)
       end.

Definition dbcF_fft_pot (num_elements : Z) (src_real src_imag : ptr)
    (src_real_stride src_imag_stride : Z) (dst_real dst_imag : ptr)
    (dst_real_stride dst_imag_stride : Z) (inverse : bool) (scale : T) : M T Z :=
  dummy <- alloca ;;
  aset dummy 0 DBCF_ZERO ;;
  aset dummy 1 DBCF_ZERO ;;
  tmp <- alloca ;;
  log2n <- log2_loop (Z.to_nat num_elements) num_elements (-1) ;;
  let '(src_real, src_real_stride) :=
    if is_null src_real then (dummy, 0%Z) else (src_real, src_real_stride) in
  let '(src_imag, src_imag_stride) :=
    if is_null src_imag then (padd dummy 1, 0%Z) else (src_imag, src_imag_stride) in
  dbcF_bitreversal_permutation log2n src_real src_real_stride dst_real dst_real_stride tmp ;;
  dbcF_bitreversal_permutation log2n src_imag src_imag_stride dst_imag dst_imag_stride tmp ;;
  dbcF_butterfly log2n dst_real dst_imag dst_real_stride dst_imag_stride inverse tmp ;;
  (if Tne scale DBCF_ONE then
     for_loop 0 num_elements (fun i =>
       r <- aref dst_real i ;; aset dst_real i (r * scale) ;;
       r <- aref dst_imag i ;; aset dst_imag i (r * scale))
   else ret tt) ;;
  ret 0%Z.

(** ** The Bluestein driver *)

(** [while(DBCF_POW2(log2m)<2*n-1) {++log2m;M=M+M;}] *)
Fixpoint log2m_loop (fuel : nat) (n log2m : Z) (Mv : T) : M T (Z * T) :=
  if DBCF_POW2 log2m <? 2 * n - 1 then
    match fuel with
    | O => fun _ => OutOfFuel
    | S fuel' => log2m_loop fuel' n (log2m + 1) (Mv + Mv)
    end
  else ret (log2m, Mv).

(** [j+=(2*i+1); if(j>=2*n) j-=2*n;] *)
Definition chirp_next (n i j : Z) : Z :=
  let j := (j + (2 * i + 1))%Z in
  if j >=? 2 * n then (j - 2 * n)%Z else j.

Definition dbcF_fft_npot (n : Z) (src_real src_imag : ptr)
    (src_real_stride src_imag_stride : Z) (dst_real dst_imag : ptr)
    (dst_real_stride dst_imag_stride : Z) (inverse : bool) (scale : T) : M T Z :=
  let alignment := 0%Z in
  lm <- log2m_loop (Z.to_nat (2 * n)) n 0 DBCF_ONE ;;
  let '(log2m, Mv) := lm in
  let m := DBCF_POW2 log2m in
  buf <- dbcf_malloc ((4 * m + 4 * n) * sizeof + alignment) ;;
  if is_null buf then ret DBCF_ERROR_OUT_OF_MEMORY else
  let ar := padd buf (0 * m) in
  let ai := padd buf (1 * m) in
  let br := padd buf (2 * m) in
  let bi := padd buf (3 * m) in
  let tr := padd buf (4 * m + 0 * n) in
  let ti := padd buf (4 * m + 2 * n) in
  dbcF_compute_twiddles_npot (2 * n) tr ti inverse ;;
  for_fold 0 n 0%Z (fun i j =>
    c <- aref tr j ;; s <- aref ti j ;;
    x <- aref src_real (i * src_real_stride) ;;
    y <- aref src_imag (i * src_imag_stride) ;;
    aset ar i (x * c - y * s) ;;
    aset ai i (x * s + y * c) ;;
    aset br i c ;;
    aset bi i (- s) ;;
    (if i >? 0 then
       aset br (m - i) c ;;
       aset bi (m - i) (- s)
     else ret tt) ;;
    ret (chirp_next n i j)) ;;
  for_loop n m (fun i =>
    aset ar i DBCF_ZERO ;;
    aset ai i DBCF_ZERO) ;;
  for_loop n (m - n + 1) (fun i =>
    aset br i DBCF_ZERO ;;
    aset bi i DBCF_ZERO) ;;
  dbcF_fft_pot m ar ai 1 1 ar ai 1 1 false (DBCF_ONE / Mv) ;;
  dbcF_fft_pot m br bi 1 1 br bi 1 1 false DBCF_ONE ;;
  for_loop 0 m (fun i =>
    c <- aref br i ;; s <- aref bi i ;; x <- aref ar i ;; y <- aref ai i ;;
    aset ar i (c * x - s * y) ;;
    aset ai i (c * y + s * x)) ;;
  dbcF_fft_pot m ar ai 1 1 ar ai 1 1 true scale ;;
  for_fold 0 n 0%Z (fun i j =>
    c <- aref tr j ;; s <- aref ti j ;; x <- aref ar i ;; y <- aref ai i ;;
    aset dst_real (i * dst_real_stride) (c * x - s * y) ;;
    aset dst_imag (i * dst_imag_stride) (c * y + s * x) ;;
    ret (chirp_next n i j)) ;;
  dbcf_free buf ;;
  ret 0%Z.

(** ** The entry surface *)

(** Empty without SIMD. *)
Definition dbcF_init : M T unit := ret tt.

Definition dbcF_fft (num_elements : Z) (src_real src_imag : ptr)
    (src_real_stride src_imag_stride : Z) (dst_real dst_imag : ptr)
    (dst_real_stride dst_imag_stride : Z) (inverse : bool) (scale : T) : M T Z :=
  dbcF_init ;;
  if num_elements <? 1 then ret 0%Z else
  if ptr_eqb src_real dst_real && negb (src_real_stride =? dst_real_stride)
  then ret DBCF_ERROR_INVALID_ARGUMENT else
  if ptr_eqb src_imag dst_imag && negb (src_imag_stride =? dst_imag_stride)
  then ret DBCF_ERROR_INVALID_ARGUMENT else
  if ptr_eqb src_imag dst_real then ret DBCF_ERROR_INVALID_ARGUMENT else
  if ptr_eqb src_real dst_imag then ret DBCF_ERROR_INVALID_ARGUMENT else
  if negb (Z.land num_elements (num_elements - 1) =? 0) then
    if DBC_FFT_NO_NPOT cfg then ret DBCF_ERROR_INVALID_ARGUMENT
    else dbcF_fft_npot num_elements src_real src_imag src_real_stride src_imag_stride
                       dst_real dst_imag dst_real_stride dst_imag_stride inverse scale
  else
    dbcF_fft_pot num_elements src_real src_imag src_real_stride src_imag_stride
                 dst_real dst_imag dst_real_stride dst_imag_stride inverse scale.

(** [dbc_fft_?c], [dbc_ifft_?c]: contiguous planar. *)
Definition dbc_fft_c (num_elements : Z) (src_real src_imag dst_real dst_imag : ptr)
    (scale : T) : M T Z :=
  dbcF_fft num_elements src_real src_imag 1 1 dst_real dst_imag 1 1 false scale.

Definition dbc_ifft_c (num_elements : Z) (src_real src_imag dst_real dst_imag : ptr)
    (scale : T) : M T Z :=
  dbcF_fft num_elements src_real src_imag 1 1 dst_real dst_imag 1 1 true scale.

(** [dbc_fft_?i], [dbc_ifft_?i]: interleaved. *)
Definition dbc_fft_i (num_elements : Z) (src dst : ptr) (scale : T) : M T Z :=
  dbcF_fft num_elements
           src (if is_null src then src else padd src 1)
           (if is_null src then 0 else 2)%Z (if is_null src then 0 else 2)%Z
           dst (padd dst 1)
           (if is_null src then 0 else 2)%Z (if is_null src then 0 else 2)%Z
           false scale.

Definition dbc_ifft_i (num_elements : Z) (src dst : ptr) (scale : T) : M T Z :=
  dbcF_fft num_elements
           src (if is_null src then src else padd src 1)
           (if is_null src then 0 else 2)%Z (if is_null src then 0 else 2)%Z
           dst (padd dst 1)
           (if is_null src then 0 else 2)%Z (if is_null src then 0 else 2)%Z
           true scale.

(** [dbc_fft_?s], [dbc_ifft_?s]: strided planar. *)
Definition dbc_fft_s (num_elements : Z) (src_real src_imag : ptr)
    (src_real_stride src_imag_stride : Z) (dst_real dst_imag : ptr)
    (dst_real_stride dst_imag_stride : Z) (scale : T) : M T Z :=
  dbcF_fft num_elements src_real src_imag src_real_stride src_imag_stride
           dst_real dst_imag dst_real_stride dst_imag_stride false scale.

Definition dbc_ifft_s (num_elements : Z) (src_real src_imag : ptr)
    (src_real_stride src_imag_stride : Z) (dst_real dst_imag : ptr)
    (dst_real_stride dst_imag_stride : Z) (scale : T) : M T Z :=
  dbcF_fft num_elements src_real src_imag src_real_stride src_imag_stride
           dst_real dst_imag dst_real_stride dst_imag_stride true scale.

End Engine.

(** ** Element types

    Exact rationals (kept in lowest terms, so that equal values are equal
    terms) for running the engine, and the real numbers for stating what
    it computes.  A literal denotes its exact decimal value in both. *)
Definition Elem_Q : Elem Q := {|
  DBCF_LITERAL q := Qred q;
  Tadd a b := Qred (a + b);
  Tsub a b := Qred (a - b);
  Tmul a b := Qred (a * b);
  Tdiv a b := Qred (a / b);
  Tneg a := Qred (- a);
  Tne a b := negb (Qeq_bool a b);
  of_index z := inject_Z z;
  sizeof := 16;
  DBCF_cexpm1 := None;
  DBCF_cexpm1_npot := None
|}.

(** Decimal fixed point with 45 fractional digits, stored as the scaled
    integer and rounded down: a cheap element type for running the
    Bluestein driver. *)
Definition fix_one : Z := 10 ^ 45.

Definition Elem_fix : Elem Z := {|
  DBCF_LITERAL q := Qfloor (q * inject_Z fix_one);
  Tadd a b := a + b;
  Tsub a b := a - b;
  Tmul a b := (a * b) / fix_one;
  Tdiv a b := (a * fix_one) / b;
  Tneg a := - a;
  Tne a b := negb (a =? b);
  of_index z := z * fix_one;
  sizeof := 16;
  DBCF_cexpm1 := None;
  DBCF_cexpm1_npot := None
|}.

(** The hooks are left as parameters of the instance over the reals. *)
Definition Elem_R (cexpm1 : option (Z -> R * R)) (cexpm1_npot : option (Z -> Z -> R * R))
  : Elem R := {|
  DBCF_LITERAL q := Q2R q;
  Tadd := Rplus;
  Tsub := Rminus;
  Tmul := Rmult;
  Tdiv := Rdiv;
  Tneg := Ropp;
  Tne a b := if Req_dec_T a b then false else true;
  of_index := IZR;
  sizeof := 8;
  DBCF_cexpm1 := cexpm1;
  DBCF_cexpm1_npot := cexpm1_npot
|}.

(** What a call leaves behind: the returned value and the contents of an
    array read back from the final memory. *)
Definition read_array {T} (m : mem T) (p : ptr) (stride : Z) (n : nat) : list T :=
  match p with
  | Null => []
  | Ptr b o => map (fun i => cells m b (o + Z.of_nat i * stride)) (seq 0 n)
  end.

(** A memory with the given blocks (block [k+1] holds the [k]-th list from
    offset 0, and [fill] elsewhere) and an allocator that always succeeds
    or always fails. *)
Definition mem_of {T} (fill : T) (blocks : list (list T)) (heap : bool) : mem T :=
  mkMem (fun b o => if (b <? 1) || (o <? 0) then fill
                    else nth (Z.to_nat o) (nth (Z.to_nat (b - 1)) blocks []) fill)
        (Z.of_nat (length blocks) + 1)
        (fun _ => heap).

(** ** [dbcF_deinterleave], [dbcF_interleave]

    The two helpers are compiled only together with a SIMD back-end
    ([DBCF_butterfly_multipass_optimized]); they are scalar code
    themselves. *)

Section Interleave.

Context {T : Type} (cfg : Config).

Definition dbcF_deinterleave (dst : ptr) (log2n : Z) (tmp : ptr) : M T unit :=
  let n := DBCF_POW2 log2n in
  let h := Z.shiftr n 1 in
  if n <=? 2 then ret tt else
  if n <=? DBCF_TMP_BUF_SIZE cfg then
    let h := Z.shiftr n 1 in
    let real := tmp in
    let imag := padd tmp h in
    for_loop 0 h (fun i =>
      x <- aref dst (2 * i + 0) ;; aset real i x ;;
      y <- aref dst (2 * i + 1) ;; aset imag i y) ;;
    for_loop 0 n (fun i => x <- aref tmp i ;; aset dst i x)
  else
    dbcF_bitreversal_permutation cfg log2n dst 1 dst 1 tmp ;;
    dbcF_bitreversal_permutation cfg (log2n - 1) dst 1 dst 1 tmp ;;
    dbcF_bitreversal_permutation cfg (log2n - 1) (padd dst h) 1 (padd dst h) 1 tmp.

Definition dbcF_interleave (dst : ptr) (log2n : Z) (tmp : ptr) : M T unit :=
  let n := DBCF_POW2 log2n in
  let h := Z.shiftr n 1 in
  if n <=? 2 then ret tt else
  if n <=? DBCF_TMP_BUF_SIZE cfg then
    let h := Z.shiftr n 1 in
    let real := dst in
    let imag := padd dst h in
    for_loop 0 h (fun i =>
      x <- aref real i ;; aset tmp (2 * i + 0) x ;;
      y <- aref imag i ;; aset tmp (2 * i + 1) y) ;;
    for_loop 0 n (fun i => x <- aref tmp i ;; aset dst i x)
  else
    dbcF_bitreversal_permutation cfg (log2n - 1) dst 1 dst 1 tmp ;;
    dbcF_bitreversal_permutation cfg (log2n - 1) (padd dst h) 1 (padd dst h) 1 tmp ;;
    dbcF_bitreversal_permutation cfg log2n dst 1 dst 1 tmp.

End Interleave.

(** * Specification vocabulary

    The predicates the statements below are written with. *)

(** ** Bit reversal *)

(** [rev p k]: the reversal of the low [p] bits of [k]. *)
Definition rev (p k : Z) : Z := rev_bits (Z.to_nat p) k.

(** The integers [0 .. n-1]. *)
Definition upto (n : Z) : list Z := map Z.of_nat (seq 0 (Z.to_nat n)).

(** The 8-bit base cases of [dbcF_bitreverse], checked on every input. *)
Definition base_case_ok (no_table : bool) : bool :=
  forallb (fun bits =>
    forallb (fun i => bitreverse_fuel no_table 0 i bits =? rev_bits (Z.to_nat bits) i)
            (upto (2 ^ bits)))
    (upto 9).

(** ** The entry surface *)

(** The four pointer comparisons of [dbcF_fft]. *)
Definition alias_rejected (src_real src_imag : ptr) (src_real_stride src_imag_stride : Z)
    (dst_real dst_imag : ptr) (dst_real_stride dst_imag_stride : Z) : bool :=
  (ptr_eqb src_real dst_real && negb (src_real_stride =? dst_real_stride))
  || (ptr_eqb src_imag dst_imag && negb (src_imag_stride =? dst_imag_stride))
  || ptr_eqb src_imag dst_real
  || ptr_eqb src_real dst_imag.

(** What a call returned and what it left in the listed arrays. *)
Definition outcome {T} (r : result T Z) (arrays : list (ptr * Z * nat))
  : option (Z * list (list T)) :=
  match r with
  | Ok code m => Some (code, map (fun '(p, stride, n) => read_array m p stride n) arrays)
  | _ => None
  end.

(** ** Strided arrays in memory *)

(** The arrays [(bs, os, ss)] and [(bd, od, sd)] of length [n] share no
    cell. *)
Definition disjoint_views (bs os ss bd od sd n : Z) : Prop :=
  forall i j, 0 <= i < n -> 0 <= j < n -> bs = bd -> os + i * ss <> od + j * sd.

(** The index with the fields [a], [b], [c], the outer fields in radix
    [P2] and the middle one in radix [Mm]. *)
Definition tile_idx (Mm P2 a b c : Z) : Z := a * (Mm * P2) + b * P2 + c.

Section Views.

Context {T : Type}.

(** The memory after one store. *)
Definition set_cell (m : mem T) (b o : Z) (v : T) : mem T :=
  mkMem (upd (cells m) b o v) (next_block m) (heap_ok m).

(** [cell m b o s k]: element [k] of the array at block [b], offset [o],
    stride [s]. *)
Definition cell (m : mem T) (b o s k : Z) : T := cells m b (o + k * s).

(** Nothing changed outside the array [(b, o, s)] of length [n] and the
    block [bt]. *)
Definition frame (bt b o s n : Z) (m m' : mem T) : Prop :=
  forall b' o', b' <> bt ->
    (b' = b -> forall k, 0 <= k < n -> o' <> o + k * s) ->
    cells m' b' o' = cells m b' o'.

(** Nothing changed outside two arrays of length [n]. *)
Definition frame2 (ba oa sa bb ob sb n : Z) (m m' : mem T) : Prop :=
  forall b' o',
    (b' = ba -> forall k, 0 <= k < n -> o' <> oa + k * sa) ->
    (b' = bb -> forall k, 0 <= k < n -> o' <> ob + k * sb) ->
    cells m' b' o' = cells m b' o'.

(** What every in-place regime has to establish for the array
    [(b, o, s)] of [2^p] elements. *)
Definition permuted (p b o s : Z) (m m' : mem T) : Prop :=
  forall k, 0 <= k < 2 ^ p -> cell m' b o s (rev p k) = cell m b o s k.

(** [dbcF_bitreversal_swap]: element [i] of the first array and element
    [rev i] of the second change places. *)
Definition swapped (p ba oa sa bb ob sb : Z) (m m' : mem T) : Prop :=
  (forall i, 0 <= i < 2 ^ p -> cell m' ba oa sa i = cell m bb ob sb (rev p i)) /\
  (forall i, 0 <= i < 2 ^ p -> cell m' bb ob sb (rev p i) = cell m ba oa sa i) /\
  frame2 ba oa sa bb ob sb (2 ^ p) m m'.

(** What every out-of-place regime has to establish. *)
Definition scattered (p bs os ss bd od sd : Z) (m m' : mem T) : Prop :=
  forall k, 0 <= k < 2 ^ p -> cell m' bd od sd (rev p k) = cell m bs os ss k.

(** One round of the blocked loop over the middle field [b] of an index
    of [p = w + 2*Qv] bits, with [P2 = 2^Qv] and [Mm = 2^w]: the tiles
    [b] and [rev w b] are exchanged, every other tile is as before. *)
Definition block_done (p w Qv P2 Mm bd od sd bt b : Z) (X Y : mem T) : Prop :=
  (forall a c, 0 <= a < P2 -> 0 <= c < P2 ->
     cell Y bd od sd (tile_idx Mm P2 a b c)
     = cell X bd od sd (tile_idx Mm P2 (rev Qv c) (rev w b) (rev Qv a))) /\
  (forall a c, 0 <= a < P2 -> 0 <= c < P2 ->
     cell Y bd od sd (tile_idx Mm P2 a (rev w b) c)
     = cell X bd od sd (tile_idx Mm P2 (rev Qv c) b (rev Qv a))) /\
  (forall a b' c, 0 <= a < P2 -> 0 <= b' < Mm -> 0 <= c < P2 ->
     b' <> b -> b' <> rev w b ->
     cell Y bd od sd (tile_idx Mm P2 a b' c) = cell X bd od sd (tile_idx Mm P2 a b' c)) /\
  frame bt bd od sd (2 ^ p) X Y.

End Views.

(** ** Twiddle factors over the reals *)

(** The angle [2*pi*k/2^log2n]. *)
Definition twiddle_angle (log2n k : Z) : R := (2 * PI * IZR k / IZR (2 ^ log2n))%R.

(** [exp(2*pi*i/2^k) - 1] as the pair (cos - 1, sin). *)
Definition expm1_exact (k : Z) : R * R :=
  ((cos (twiddle_angle k 1) - 1)%R, sin (twiddle_angle k 1)).

Definition signed (inverse : bool) (x : R) : R := if inverse then x else (- x)%R.

(** The tables at [(br, or)] and [(bi, oi)] hold (cos - 1, +-sin) on the
    first [upto] entries. *)
Definition filled_m1 (log2n : Z) (inverse : bool) (br or bi oi upto : Z) (m : mem R) : Prop :=
  forall k, 0 <= k < upto ->
    cells m br (or + k) = (cos (twiddle_angle log2n k) - 1)%R /\
    cells m bi (oi + k) = signed inverse (sin (twiddle_angle log2n k)).

(** After the doubling, the last loop of [dbcF_compute_twiddles] adds one
    to the real parts, entry by entry. *)
Definition filled_upto (log2n log2b : Z) (inverse : bool) (br or bi oi done : Z)
    (m : mem R) : Prop :=
  (forall k, 0 <= k < done -> cells m br (or + k) = cos (twiddle_angle log2n k)) /\
  (forall k, done <= k < 2 ^ log2b ->
     cells m br (or + k) = (cos (twiddle_angle log2n k) - 1)%R) /\
  (forall k, 0 <= k < 2 ^ log2b ->
     cells m bi (oi + k) = signed inverse (sin (twiddle_angle log2n k))).

(** ** Memories of the examples *)

Definition twiddle_mem : mem R := mkMem (fun _ _ => 0%R) 3 (fun _ => true).

Definition alias_mem : mem Q := mem_of 0%Q [[1; 2]; [3; 4]; [9; 9]]%Q true.

Definition stride_mem : mem Q := mem_of 0%Q [[1; 2]; [3; 4]; [9; 9]; [9; 9]]%Q true.

Definition oom_mem : mem Q :=
  mem_of 0%Q [[1; 2; 3]; [4; 5; 6]; [9; 9; 9]; [9; 9; 9]]%Q false.

(** Eight elements at stride 2 in block 1; block 2 is scratch. *)
Definition perm_mem : mem Q :=
  mem_of 0%Q [[10; 0; 11; 0; 12; 0; 13; 0; 14; 0; 15; 0; 16; 0; 17; 0]; []]%Q true.

(** Two arrays of four elements, in blocks 1 and 2. *)
Definition swap_mem : mem Q := mem_of 0%Q [[10; 11; 12; 13]; [20; 21; 22; 23]]%Q true.

(** ** The discrete Fourier transform over the reals

    A complex number is a pair (real part, imaginary part). *)

Definition Cadd (a b : R * R) : R * R := ((fst a + fst b)%R, (snd a + snd b)%R).

Definition Csub (a b : R * R) : R * R := ((fst a - fst b)%R, (snd a - snd b)%R).

Definition Cmul (a b : R * R) : R * R :=
  ((fst a * fst b - snd a * snd b)%R, (snd a * fst b + fst a * snd b)%R).

Definition Cscale (s : R) (a : R * R) : R * R := ((fst a * s)%R, (snd a * s)%R).

(** [exp(-i*theta)] for the forward transform, [exp(+i*theta)] for the
    inverse one. *)
Definition cis (inverse : bool) (theta : R) : R * R :=
  (cos theta, signed inverse (sin theta)).

(** [exp(-+2*pi*i*t/n)] *)
Definition root (inverse : bool) (n t : Z) : R * R :=
  cis inverse (2 * PI * IZR t / IZR n)%R.

Fixpoint Csum (n : nat) (f : nat -> R * R) : R * R :=
  match n with
  | O => (0%R, 0%R)
  | S n' => Cadd (Csum n' f) (f n')
  end.

(** [Y[j] = sum over k in [0,n) of x[k] * exp(-+2*pi*i*j*k/n)] *)
Definition dft (inverse : bool) (n : Z) (x : Z -> R * R) (j : Z) : R * R :=
  Csum (Z.to_nat n) (fun k => Cmul (x (Z.of_nat k)) (root inverse n (j * Z.of_nat k))).

(** The decimation-in-time recursion on an array [a] in bit-reversed
    order: the transform of the [2^d] elements from [b] on is made of the
    transforms of the two halves. *)
Fixpoint dit (inverse : bool) (d : nat) (a : Z -> R * R) (b j : Z) : R * R :=
  match d with
  | O => a b
  | S d' =>
      let h := 2 ^ Z.of_nat d' in
      Cadd (dit inverse d' a b (j mod h))
           (Cmul (cis inverse (twiddle_angle (Z.of_nat d) j))
                 (dit inverse d' a (b + h) (j mod h)))
  end.

(** Element [k] of the complex array whose real parts are at
    [(br, or, sr)] and whose imaginary parts are at [(bi, oi, si)]. *)
Definition cplx (m : mem R) (br or sr bi oi si k : Z) : R * R :=
  (cell m br or sr k, cell m bi oi si k).

(** Radix-2 butterflies on the pairs [(L+t, H+t)], [t < cnt], of an
    array of [N] complex elements, with the twiddle [w t]: [X0] is the
    array before and [X1] the array after. *)
Definition bfly_range (N L H cnt : Z) (w : Z -> R * R) (X0 X1 : Z -> R * R) : Prop :=
  (forall t, 0 <= t < cnt ->
     X1 (L + t) = Cadd (X0 (L + t)) (Cmul (w t) (X0 (H + t))) /\
     X1 (H + t) = Csub (X0 (L + t)) (Cmul (w t) (X0 (H + t)))) /\
  (forall q, 0 <= q < N -> ~ (L <= q < L + cnt) -> ~ (H <= q < H + cnt) -> X1 q = X0 q).

(** The twiddle table of level [d] in block [bt]: the first [2^log2t]
    entries of [tr] (at offset [otr]) and [ti] (at offset [oti]). *)
Definition table_ok (inverse : bool) (d log2t bt otr oti : Z) (m : mem R) : Prop :=
  forall t, 0 <= t < 2 ^ log2t ->
    (cells m bt (otr + t), cells m bt (oti + t)) = cis inverse (twiddle_angle d t).

(** Every block of [2^d] elements of the array holds the level-[d]
    recursion on [a]. *)
Definition level_done (inverse : bool) (N d : Z) (a X : Z -> R * R) : Prop :=
  forall k, 0 <= k < N ->
    X k = dit inverse (Z.to_nat d) a (k - k mod 2 ^ d) (k mod 2 ^ d).

(** One pass of butterflies over [c] blocks of [n = 2*h] elements. *)
Definition pass_done (n h c : Z) (w : Z -> R * R) (X0 X1 : Z -> R * R) : Prop :=
  forall i t, 0 <= i < c -> 0 <= t < h ->
    X1 (i * n + t) = Cadd (X0 (i * n + t)) (Cmul (w t) (X0 (i * n + h + t))) /\
    X1 (i * n + h + t) = Csub (X0 (i * n + t)) (Cmul (w t) (X0 (i * n + h + t))).

(** The four pointers [LR], [LI], [HR], [HI] of a pass at the block that
    starts at element [B], with the upper half [h] elements on. *)
Definition block_ptrs (br or sr bi oi si B h : Z) : ptr * ptr * ptr * ptr :=
  (Ptr br (or + B * sr), Ptr bi (oi + B * si),
   Ptr br (or + (B + h) * sr), Ptr bi (oi + (B + h) * si)).

(** A computation that, when it returns, has changed no cell outside
    block [bt]. *)
Definition only_block {T A} (bt : Z) (c : M T A) : Prop :=
  forall m a m', c m = Ok a m' -> forall b o, b <> bt -> cells m' b o = cells m b o.

(** Nothing changed outside two arrays of length [n] and the block
    [bt]. *)
Definition frame2t {T} (bt ba oa sa bb ob sb n : Z) (m m' : mem T) : Prop :=
  forall b o, b <> bt ->
    (b = ba -> forall k, 0 <= k < n -> o <> oa + k * sa) ->
    (b = bb -> forall k, 0 <= k < n -> o <> ob + k * sb) ->
    cells m' b o = cells m b o.

(** Element [k] of a source channel: a null pointer stands for an array
    of zeros. *)
Definition src_val (m : mem R) (src : ptr) (stride k : Z) : R :=
  match src with
  | Null => 0%R
  | Ptr b o => cells m b (o + k * stride)
  end.

(** A source channel the power-of-two driver can take for the
    destination array [(bd, od, sd)] of [n] elements: null, broadcast,
    the destination itself, or an array that shares no cell with it. *)
Definition src_fits (src : ptr) (stride bd od sd n nb : Z) : Prop :=
  match src with
  | Null => True
  | Ptr bs os =>
      bs < nb /\
      (stride = 0 \/ (bs = bd /\ os = od /\ stride = sd) \/
       disjoint_views bs os stride bd od sd n)
  end.

(** The source channel shares no cell with the array [(bd, od, sd)]. *)
Definition src_apart (src : ptr) (stride bd od sd n : Z) : Prop :=
  match src with
  | Null => True
  | Ptr bs os => disjoint_views bs os stride bd od sd n
  end.

(** ** Memories of the further examples *)

(** Four real arrays of four elements, in blocks 1 to 4. *)
Definition pot_mem : mem R :=
  mem_of 0%R [[1; 2; 3; 4]; [0; 0; 0; 0]; [9; 9; 9; 9]; [9; 9; 9; 9]]%R true.

(** Eight interleaved complex numbers in block 1. *)
Definition pair_mem : mem R :=
  mem_of 0%R [[1; 0; 2; 0; 3; 0; 4; 0; 5; 0; 6; 0; 7; 0; 8; 0]]%R true.

(** A [DBCF_cexpm1] hook that returns the exact value. *)
Definition exact_seeds : option (Z -> R * R) := Some expm1_exact.

(** Two complex numbers in blocks 1 and 2, and the one-entry twiddle
    table of level 1 in block 3: [tr[0] = 1] at offset 0, [ti[0] = 0] at
    offset 1. *)
Definition pass_mem : mem R := mem_of 0%R [[5; 7]; [1; 2]; [1; 0]]%R true.

(** Four interleaved pairs in block 1; block 2 is scratch. *)
Definition lace_mem : mem Q :=
  mem_of 0%Q [[10; 20; 11; 21; 12; 22; 13; 23]; []]%Q true.

(** ** The chirp-z route for the other sizes *)

(** Circular convolution of two arrays of [m] complex numbers. *)
Definition cconv (m : Z) (a b : Z -> R * R) (t : Z) : R * R :=
  Csum (Z.to_nat m) (fun k => Cmul (a (Z.of_nat k)) (b ((t - Z.of_nat k) mod m))).

(** [exp(2*pi*i*p/q) - 1] as the pair (cos - 1, sin). *)
Definition expm1_npot_exact (p q : Z) : R * R :=
  ((cos (2 * PI * IZR p / IZR q) - 1)%R, sin (2 * PI * IZR p / IZR q)).

(** A [DBCF_cexpm1_npot] hook that returns the exact value. *)
Definition exact_seeds_npot : option (Z -> Z -> R * R) := Some expm1_npot_exact.

(** The table of [dbcF_compute_twiddles_npot]: entry [k] of the arrays at
    [(br, or)] and [(bi, oi)] is [exp(-+2*pi*i*k/n)], for [k < upto]. *)
Definition npot_table (inverse : bool) (n br or bi oi upto : Z) (m : mem R) : Prop :=
  forall k, 0 <= k < upto ->
    (cells m br (or + k), cells m bi (oi + k)) = root inverse n k.

(** The same with [cos - 1] in place of [cos], as the doubling loop
    leaves it. *)
Definition npot_table_m1 (inverse : bool) (n br or bi oi upto : Z) (m : mem R) : Prop :=
  forall k, 0 <= k < upto ->
    cells m br (or + k) = (fst (root inverse n k) - 1)%R /\
    cells m bi (oi + k) = snd (root inverse n k).

(** Nothing changed outside the first [n] cells of the arrays at
    [(br, or)] and [(bi, oi)]. *)
Definition table_frame {T} (n br or bi oi : Z) (m m' : mem T) : Prop :=
  forall b o,
    (b = br -> forall k, 0 <= k < n -> o <> or + k) ->
    (b = bi -> forall k, 0 <= k < n -> o <> oi + k) ->
    cells m' b o = cells m b o.

(** Element [k] of the complex array in block [b] whose real parts start
    at offset [or] and whose imaginary parts start at offset [oi]. *)
Definition pair_at (m : mem R) (b or oi k : Z) : R * R :=
  (cells m b (or + k), cells m b (oi + k)).

(** A computation that, when it returns, has released no block and has
    left the allocator as it was. *)
Definition grows {T A} (c : M T A) : Prop :=
  forall m a m', c m = Ok a m' ->
    next_block m <= next_block m' /\ heap_ok m' = heap_ok m.

(** Three complex numbers in blocks 1 and 2, room for the result in
    blocks 3 and 4. *)
Definition npot_mem : mem R :=
  mem_of 0%R [[1; 2; 3]; [0; 0; 0]; [9; 9; 9]; [9; 9; 9]]%R true.

(** ** [dbcF_bitreverse] on an index type of [w] bits

    [dbcf_index] is [ptrdiff_t], a two's-complement integer of [w] bits
    (64 on the LP64 and LLP64 targets).  [wrap w z] is the value such a
    variable holds after a computation whose exact result is [z].  The
    left shifts are the only operations of [dbcF_bitreverse] that can
    leave the range; [&], [^] and [>>] (arithmetic on a negative value)
    cannot.  A left shift that overflows is undefined in C: the model
    takes the result modulo [2^w], as the two's-complement targets do. *)
Definition wrap (w z : Z) : Z := (z + 2 ^ (w - 1)) mod 2 ^ w - 2 ^ (w - 1).

(** [a << k] in [w] bits. *)
Definition shl (w a k : Z) : Z := wrap w (Z.shiftl a k).

Definition nibble_swap_w (w i bits : Z) : Z :=
  let j := Z.land i 255 in
  let b := if bits <? 8 then bits else 8 in
  let j := Z.lxor (Z.shiftr j 4) (shl w j 4) in
  let j := Z.lxor (Z.shiftr (Z.land j 204) 2) (shl w (Z.land j 51) 2) in
  let j := Z.lxor (Z.shiftr (Z.land j 170) 1) (shl w (Z.land j 85) 1) in
  Z.shiftr j (8 - b).

Fixpoint bitreverse_fuel_w (w : Z) (no_table : bool) (fuel : nat) (i bits : Z) : Z :=
  if no_table then
    let j := nibble_swap_w w i bits in
    if bits >? 8 then
      match fuel with
      | O => j
      | S fuel' =>
          Z.lxor (shl w j (bits - 8))
                 (bitreverse_fuel_w w no_table fuel' (Z.shiftr i 8) (bits - 8))
      end
    else j
  else
    if bits <=? 8 then table_at (shl w 1 bits) i
    else
      match fuel with
      | O => 0
      | S fuel' =>
          Z.lxor (shl w (table_at 256 (Z.land i 255)) (bits - 8))
                 (bitreverse_fuel_w w no_table fuel' (Z.shiftr i 8) (bits - 8))
      end.

(** [dbcF_bitreverse(i,bits)] with a [dbcf_index] of [w] bits. *)
Definition dbcF_bitreverse_w (w : Z) (cfg : Config) (i bits : Z) : Z :=
  bitreverse_fuel_w w (DBC_FFT_NO_BITREVERSE_TABLE cfg) (Z.to_nat bits) i bits.

(** ** A memory whose allocator fails from a threshold

    The blocks of [oom_mem]; the allocator serves a request below 700
    bytes and returns null for a larger one. *)
Definition scarce_mem : mem Q :=
  mkMem (cells oom_mem) (next_block oom_mem) (fun bytes => bytes <? 700).

(** ** The seeds and the unit circle

    [|1 + s|^2 - 1] for a seed [s = (re, im)]: zero when [1 + s] is
    [exp(i*theta)] for some angle. *)
Definition off_circle (s : R * R) : R :=
  ((1 + fst s) * (1 + fst s) + snd s * snd s - 1)%R.

(** * Bit-level facts *)

Lemma POW2_eq (n : Z) : DBCF_POW2 n = 2 ^ n.
Proof. apply Z.shiftl_1_l. Qed.

Lemma lor_lt_pow2 (a b n : Z) :
  0 <= a < 2 ^ n -> 0 <= b < 2 ^ n -> 0 <= Z.lor a b < 2 ^ n.
Proof.
  intros Ha Hb. split; [apply Z.lor_nonneg; lia|].
  destruct (Z.eq_dec (Z.lor a b) 0) as [->|Hne]; [lia|].
  assert (0 <= Z.lor a b) by (apply Z.lor_nonneg; lia).
  apply Z.log2_lt_pow2; [lia|].
  rewrite Z.log2_lor by lia.
  destruct (Z.eq_dec a 0) as [->|]; destruct (Z.eq_dec b 0) as [->|];
    try (apply Z.max_lub_lt; apply Z.log2_lt_pow2; lia).
  - rewrite Z.lor_0_l in Hne. lia.
  - rewrite Z.lor_0_l in Hne. rewrite Z.max_r by (apply Z.log2_nonneg).
    apply Z.log2_lt_pow2; lia.
  - rewrite Z.max_l by (apply Z.log2_nonneg). apply Z.log2_lt_pow2; lia.
Qed.

Lemma testbit_high (a n k : Z) :
  0 <= a < 2 ^ n -> n <= k -> Z.testbit a k = false.
Proof.
  intros Ha Hk.
  destruct (Z.eq_dec a 0) as [->|Hne]; [apply Z.bits_0|].
  apply Z.bits_above_log2; [lia|].
  assert (Z.log2 a < n) by (apply Z.log2_lt_pow2; lia). lia.
Qed.

Lemma land_1_cases (i : Z) : Z.land i 1 = 0 \/ Z.land i 1 = 1.
Proof.
  assert (E : Z.land i 1 = i mod 2 ^ 1)
    by (rewrite <- Z.land_ones by lia; reflexivity).
  rewrite E. change (2 ^ 1) with 2.
  pose proof (Z.mod_pos_bound i 2 ltac:(lia)). lia.
Qed.

Lemma rev_bits_range (b : nat) (i : Z) : 0 <= rev_bits b i < 2 ^ Z.of_nat b.
Proof.
  revert i. induction b as [|b IH]; intro i.
  - simpl. lia.
  - cbn [rev_bits].
    assert (E : 2 ^ Z.of_nat (S b) = 2 * 2 ^ Z.of_nat b).
    { rewrite Nat2Z.inj_succ, Z.pow_succ_r by lia. reflexivity. }
    specialize (IH (Z.shiftr i 1)).
    apply lor_lt_pow2; [|lia].
    destruct (land_1_cases i) as [->| ->].
    + rewrite Z.shiftl_0_l. lia.
    + rewrite Z.shiftl_1_l. lia.
Qed.

Lemma rev_bits_testbit (b : nat) (i k : Z) :
  0 <= k ->
  Z.testbit (rev_bits b i) k = (k <? Z.of_nat b) && Z.testbit i (Z.of_nat b - 1 - k).
Proof.
  revert i k. induction b as [|b IH]; intros i k Hk.
  - simpl. rewrite Z.bits_0. destruct (k <? 0) eqn:E; [lia|reflexivity].
  - cbn [rev_bits]. rewrite Z.lor_spec, IH by lia.
    rewrite Z.shiftl_spec by lia. rewrite Z.land_spec.
    rewrite Nat2Z.inj_succ.
    destruct (Z.ltb_spec k (Z.of_nat b)) as [Hlt|Hge].
    + rewrite (Z.testbit_neg_r i (k - Z.of_nat b)) by lia.
      rewrite Z.shiftr_spec by lia.
      destruct (Z.ltb_spec k (Z.succ (Z.of_nat b))); [|lia].
      simpl. f_equal. lia.
    + rewrite orb_false_r.
      destruct (Z.ltb_spec k (Z.succ (Z.of_nat b))) as [Hlt'|Hge'].
      * replace (k - Z.of_nat b) with 0 by lia.
        replace (Z.succ (Z.of_nat b) - 1 - k) with 0 by lia.
        simpl. apply andb_true_r.
      * change 1 with (Z.ones 1) at 1.
        rewrite Z.ones_spec_high by lia. apply andb_false_r.
Qed.

Lemma rev_bits_involutive (b : nat) (i : Z) :
  0 <= i < 2 ^ Z.of_nat b -> rev_bits b (rev_bits b i) = i.
Proof.
  intro Hi. apply Z.bits_inj'. intros k Hk.
  rewrite rev_bits_testbit by lia.
  destruct (Z.ltb_spec k (Z.of_nat b)) as [Hlt|Hge].
  - rewrite rev_bits_testbit by lia.
    destruct (Z.ltb_spec (Z.of_nat b - 1 - k) (Z.of_nat b)); [|lia].
    simpl. f_equal. lia.
  - simpl. symmetry. apply (testbit_high i (Z.of_nat b)); lia.
Qed.

Lemma in_upto (n i : Z) : 0 <= i < n -> In i (upto n).
Proof.
  intro H. unfold upto. apply in_map_iff. exists (Z.to_nat i). split; [lia|].
  apply in_seq. lia.
Qed.

Lemma base_cases (no_table : bool) : base_case_ok no_table = true.
Proof. destruct no_table; vm_compute; reflexivity. Qed.

Lemma bitreverse_fuel_small (no_table : bool) (fuel : nat) (i bits : Z) :
  bits <= 8 -> bitreverse_fuel no_table fuel i bits = bitreverse_fuel no_table 0 i bits.
Proof.
  intro H. destruct fuel; [reflexivity|]. cbn [bitreverse_fuel].
  destruct no_table.
  - destruct (Z.gtb_spec bits 8); [lia|reflexivity].
  - destruct (Z.leb_spec bits 8); [reflexivity|lia].
Qed.

Lemma bitreverse_base (no_table : bool) (fuel : nat) (i bits : Z) :
  0 <= bits <= 8 -> 0 <= i < 2 ^ bits ->
  bitreverse_fuel no_table fuel i bits = rev_bits (Z.to_nat bits) i.
Proof.
  intros Hb Hi. rewrite bitreverse_fuel_small by lia.
  pose proof (base_cases no_table) as H. unfold base_case_ok in H.
  rewrite forallb_forall in H. specialize (H bits (in_upto 9 bits ltac:(lia))).
  rewrite forallb_forall in H. specialize (H i (in_upto _ i Hi)).
  apply Z.eqb_eq in H. exact H.
Qed.

Lemma land_255_range (i : Z) : 0 <= Z.land i 255 < 2 ^ 8.
Proof.
  change 255 with (Z.ones 8). rewrite Z.land_ones by lia.
  apply Z.mod_pos_bound. lia.
Qed.

Lemma land_255_idem (i : Z) : Z.land (Z.land i 255) 255 = Z.land i 255.
Proof. rewrite <- Z.land_assoc. reflexivity. Qed.

(** The most significant byte of the result, as either variant computes it. *)
Lemma top_byte_table (i : Z) :
  table_at 256 (Z.land i 255) = rev_bits 8 (Z.land i 255).
Proof.
  pose proof (bitreverse_base false 0 (Z.land i 255) 8 ltac:(lia) (land_255_range i)) as H.
  exact H.
Qed.

Lemma top_byte_nibble (i bits : Z) :
  8 <= bits -> nibble_swap i bits = rev_bits 8 (Z.land i 255).
Proof.
  intro Hb.
  pose proof (bitreverse_base true 0 (Z.land i 255) 8 ltac:(lia) (land_255_range i)) as H.
  change (nibble_swap (Z.land i 255) 8 = rev_bits 8 (Z.land i 255)) in H.
  rewrite <- H. unfold nibble_swap. rewrite land_255_idem.
  destruct (Z.ltb_spec bits 8); [lia|]. reflexivity.
Qed.

Lemma rev_bits_split (b : Z) (i : Z) :
  8 < b ->
  Z.lxor (Z.shiftl (rev_bits 8 (Z.land i 255)) (b - 8))
         (rev_bits (Z.to_nat (b - 8)) (Z.shiftr i 8))
  = rev_bits (Z.to_nat b) i.
Proof.
  intro Hb. apply Z.bits_inj'. intros k Hk.
  rewrite Z.lxor_spec, Z.shiftl_spec by lia.
  rewrite (rev_bits_testbit (Z.to_nat b)), (rev_bits_testbit (Z.to_nat (b - 8))) by lia.
  rewrite !Z2Nat.id by lia.
  destruct (Z.ltb_spec k (b - 8)) as [H1|H1].
  - rewrite Z.testbit_neg_r by lia.
    destruct (Z.ltb_spec k b); [|lia]. simpl.
    rewrite Z.shiftr_spec by lia. f_equal. lia.
  - rewrite rev_bits_testbit by lia. change (Z.of_nat 8) with 8.
    rewrite xorb_false_r.
    destruct (Z.ltb_spec (k - (b - 8)) 8) as [H2|H2];
      destruct (Z.ltb_spec k b) as [H3|H3]; try lia.
    cbn [andb]. rewrite Z.land_spec. change 255 with (Z.ones 8).
      rewrite Z.ones_spec_low by lia. rewrite andb_true_r. f_equal. lia.
Qed.

Lemma bitreverse_fuel_spec (no_table : bool) (fuel : nat) :
  forall i bits, 0 <= bits -> bits <= 8 + 8 * Z.of_nat fuel -> 0 <= i < 2 ^ bits ->
  bitreverse_fuel no_table fuel i bits = rev_bits (Z.to_nat bits) i.
Proof.
  induction fuel as [|fuel IH]; intros i bits Hb Hf Hi.
  - apply bitreverse_base; lia.
  - destruct (Z.le_gt_cases bits 8) as [Hs|Hl]; [apply bitreverse_base; lia|].
    assert (Hi' : 0 <= Z.shiftr i 8 < 2 ^ (bits - 8)).
    { rewrite Z.shiftr_div_pow2 by lia. split; [apply Z.div_pos; lia|].
      apply Z.div_lt_upper_bound; [lia|]. rewrite <- Z.pow_add_r by lia.
      replace (8 + (bits - 8)) with bits by lia. lia. }
    cbn [bitreverse_fuel]. destruct no_table.
    + destruct (Z.gtb_spec bits 8); [|lia].
      rewrite IH by lia. rewrite top_byte_nibble by lia. apply rev_bits_split. lia.
    + destruct (Z.leb_spec bits 8); [lia|].
      rewrite IH by lia. rewrite top_byte_table. apply rev_bits_split. lia.
Qed.

Lemma bitreverse_with_spec (no_table : bool) (i bits : Z) :
  0 <= bits -> 0 <= i < 2 ^ bits ->
  bitreverse_with no_table i bits = rev_bits (Z.to_nat bits) i.
Proof.
  intros Hb Hi. unfold bitreverse_with. apply bitreverse_fuel_spec; lia.
Qed.

Lemma dbcF_bitreverse_spec (cfg : Config) (i bits : Z) :
  0 <= bits -> 0 <= i < 2 ^ bits ->
  dbcF_bitreverse cfg i bits = rev_bits (Z.to_nat bits) i.
Proof. apply bitreverse_with_spec. Qed.

(** * The index reversal within the index type *)

Lemma wrap_small (w z : Z) :
  1 <= w -> - 2 ^ (w - 1) <= z < 2 ^ (w - 1) -> wrap w z = z.
Proof.
  intros Hw Hz. unfold wrap.
  assert (Hp : 2 ^ w = 2 * 2 ^ (w - 1)).
  { replace w with (Z.succ (w - 1)) at 1 by lia. rewrite Z.pow_succ_r by lia. reflexivity. }
  rewrite Z.mod_small by lia. lia.
Qed.

Lemma shl_small (w a k n : Z) :
  1 <= w -> 0 <= k -> 0 <= n -> n + k <= w - 1 -> 0 <= a < 2 ^ n ->
  shl w a k = Z.shiftl a k.
Proof.
  intros Hw Hk Hn Hnk Ha. unfold shl. apply wrap_small; [exact Hw|].
  rewrite Z.shiftl_mul_pow2 by exact Hk.
  assert (0 < 2 ^ k) by (apply Z.pow_pos_nonneg; lia).
  assert (0 < 2 ^ (w - 1)) by (apply Z.pow_pos_nonneg; lia).
  assert (2 ^ n * 2 ^ k <= 2 ^ (w - 1)).
  { rewrite <- Z.pow_add_r by lia. apply Z.pow_le_mono_r; lia. }
  split; [nia|]. nia.
Qed.

Lemma land_mask_range (x c k : Z) :
  0 <= k -> Z.land c (Z.ones k) = c -> 0 <= Z.land x c < 2 ^ k.
Proof.
  intros Hk Hc. rewrite <- Hc, Z.land_assoc, Z.land_ones by exact Hk.
  apply Z.mod_pos_bound. apply Z.pow_pos_nonneg; lia.
Qed.

Lemma nibble_swap_w_exact (w i bits : Z) :
  16 <= w -> nibble_swap_w w i bits = nibble_swap i bits.
Proof.
  intro Hw. unfold nibble_swap_w, nibble_swap. cbv zeta.
  rewrite (shl_small w (Z.land i 255) 4 8)
    by first [lia | apply (land_mask_range i 255 8); [lia|reflexivity]].
  rewrite (shl_small w (Z.land _ 51) 2 6)
    by first [lia | apply (land_mask_range _ 51 6); [lia|reflexivity]].
  rewrite (shl_small w (Z.land _ 85) 1 7)
    by first [lia | apply (land_mask_range _ 85 7); [lia|reflexivity]].
  reflexivity.
Qed.

Lemma table_byte_range (i : Z) : 0 <= table_at 256 (Z.land i 255) < 2 ^ 8.
Proof. rewrite top_byte_table. apply (rev_bits_range 8). Qed.

Lemma nibble_byte_range (i bits : Z) : 8 <= bits -> 0 <= nibble_swap i bits < 2 ^ 8.
Proof. intro H. rewrite top_byte_nibble by exact H. apply (rev_bits_range 8). Qed.

(** Below the width of the index type no shift overflows: the [w]-bit
    function and the function on unbounded integers agree. *)
Lemma bitreverse_fuel_w_exact (w : Z) (no_table : bool) (fuel : nat) :
  16 <= w ->
  forall i bits, 0 <= bits <= w - 1 ->
    bitreverse_fuel_w w no_table fuel i bits = bitreverse_fuel no_table fuel i bits.
Proof.
  intro Hw. induction fuel as [|fuel IH]; intros i bits Hb;
    cbn [bitreverse_fuel_w bitreverse_fuel]; destruct no_table.
  - rewrite nibble_swap_w_exact by exact Hw. reflexivity.
  - destruct (Z.leb_spec bits 8) as [Hs|Hl]; [|reflexivity].
    rewrite (shl_small w 1 bits 1) by lia. reflexivity.
  - rewrite nibble_swap_w_exact by exact Hw.
    destruct (Z.gtb_spec bits 8) as [Hl|Hs]; [|reflexivity].
    rewrite IH by lia.
    rewrite (shl_small w (nibble_swap i bits) (bits - 8) 8)
      by first [lia | apply nibble_byte_range; lia].
    reflexivity.
  - destruct (Z.leb_spec bits 8) as [Hs|Hl].
    + rewrite (shl_small w 1 bits 1) by lia. reflexivity.
    + rewrite IH by lia.
      rewrite (shl_small w (table_at 256 (Z.land i 255)) (bits - 8) 8)
        by first [lia | apply table_byte_range].
      reflexivity.
Qed.

Lemma bitreverse_w_exact (w : Z) (cfg : Config) (i bits : Z) :
  16 <= w -> 0 <= bits <= w - 1 ->
  dbcF_bitreverse_w w cfg i bits = dbcF_bitreverse cfg i bits.
Proof.
  intros Hw Hb. unfold dbcF_bitreverse_w, dbcF_bitreverse, bitreverse_with.
  apply bitreverse_fuel_w_exact; assumption.
Qed.

Lemma bitreverse_w_spec (w : Z) (cfg : Config) (i bits : Z) :
  16 <= w -> 0 <= bits <= w - 1 -> 0 <= i < 2 ^ bits ->
  dbcF_bitreverse_w w cfg i bits = rev_bits (Z.to_nat bits) i.
Proof.
  intros Hw Hb Hi. rewrite bitreverse_w_exact by assumption.
  apply dbcF_bitreverse_spec; lia.
Qed.

(** * The entry surface *)

Section EntrySurface.

Context {T : Type} {E : Elem T} (cfg : Config).

Lemma bind_ok_inv {A B} (c : M T A) (k : A -> M T B) (m m' : mem T) (b : B) :
  bind c k m = Ok b m' -> exists a m1, c m = Ok a m1 /\ k a m1 = Ok b m'.
Proof.
  unfold bind. destruct (c m) as [a m1| |]; try discriminate.
  intro H. exists a, m1. split; [reflexivity|exact H].
Qed.

Lemma fft_pot_code n sr si srs sis dr di drs dis inv scale (m m' : mem T) r :
  dbcF_fft_pot cfg n sr si srs sis dr di drs dis inv scale m = Ok r m' -> r = 0.
Proof.
  unfold dbcF_fft_pot. intro H.
  repeat (apply bind_ok_inv in H; destruct H as (? & ? & _ & H)).
  destruct (if is_null sr then _ else _), (if is_null si then _ else _).
  repeat (apply bind_ok_inv in H; destruct H as (? & ? & _ & H)).
  unfold ret in H. congruence.
Qed.

Lemma fft_npot_code n sr si srs sis dr di drs dis inv scale (m m' : mem T) r :
  dbcF_fft_npot cfg n sr si srs sis dr di drs dis inv scale m = Ok r m' ->
  r = 0 \/ r = DBCF_ERROR_OUT_OF_MEMORY.
Proof.
  unfold dbcF_fft_npot. intro H.
  apply bind_ok_inv in H. destruct H as ([log2m Mv] & ? & _ & H).
  apply bind_ok_inv in H. destruct H as (buf & ? & _ & H).
  destruct (is_null buf).
  - unfold ret in H. right. congruence.
  - repeat (apply bind_ok_inv in H; destruct H as (? & ? & _ & H)).
    unfold ret in H. left. congruence.
Qed.

Lemma fft_small n sr si srs sis dr di drs dis inv scale (m : mem T) :
  n < 1 ->
  dbcF_fft cfg n sr si srs sis dr di drs dis inv scale m = Ok 0 m.
Proof.
  intro Hn. unfold dbcF_fft, dbcF_init, bind, ret.
  destruct (Z.ltb_spec n 1); [reflexivity|lia].
Qed.

Lemma fft_rejects n sr si srs sis dr di drs dis inv scale (m : mem T) :
  1 <= n ->
  alias_rejected sr si srs sis dr di drs dis = true ->
  dbcF_fft cfg n sr si srs sis dr di drs dis inv scale m
  = Ok DBCF_ERROR_INVALID_ARGUMENT m.
Proof.
  intros Hn Ha. unfold dbcF_fft, dbcF_init, bind, ret.
  destruct (Z.ltb_spec n 1); [lia|].
  unfold alias_rejected in Ha.
  destruct (ptr_eqb sr dr && negb (srs =? drs)); [reflexivity|].
  destruct (ptr_eqb si di && negb (sis =? dis)); [reflexivity|].
  destruct (ptr_eqb si dr); [reflexivity|].
  destruct (ptr_eqb sr di); [reflexivity|]. discriminate.
Qed.

Lemma fft_dispatch n sr si srs sis dr di drs dis inv scale (m : mem T) :
  1 <= n ->
  alias_rejected sr si srs sis dr di drs dis = false ->
  dbcF_fft cfg n sr si srs sis dr di drs dis inv scale m =
  if negb (Z.land n (n - 1) =? 0) then
    if DBC_FFT_NO_NPOT cfg then Ok DBCF_ERROR_INVALID_ARGUMENT m
    else dbcF_fft_npot cfg n sr si srs sis dr di drs dis inv scale m
  else dbcF_fft_pot cfg n sr si srs sis dr di drs dis inv scale m.
Proof.
  intros Hn Ha. unfold dbcF_fft, dbcF_init, bind, ret.
  destruct (Z.ltb_spec n 1); [lia|].
  unfold alias_rejected in Ha.
  apply orb_false_iff in Ha. destruct Ha as [Ha H4].
  apply orb_false_iff in Ha. destruct Ha as [Ha H3].
  apply orb_false_iff in Ha. destruct Ha as [H1 H2].
  rewrite H1, H2, H3, H4.
  destruct (negb (Z.land n (n - 1) =? 0)); [destruct (DBC_FFT_NO_NPOT cfg)|]; reflexivity.
Qed.

Lemma fft_accepts n sr si srs sis dr di drs dis inv scale (m m' : mem T) :
  1 <= n ->
  DBC_FFT_NO_NPOT cfg = false \/ Z.land n (n - 1) = 0 ->
  alias_rejected sr si srs sis dr di drs dis = false ->
  dbcF_fft cfg n sr si srs sis dr di drs dis inv scale m
  <> Ok DBCF_ERROR_INVALID_ARGUMENT m'.
Proof.
  intros Hn Hc Ha H. rewrite fft_dispatch in H by assumption.
  destruct (Z.eqb_spec (Z.land n (n - 1)) 0) as [Hp|Hp]; cbn [negb] in H.
  - apply fft_pot_code in H. unfold DBCF_ERROR_INVALID_ARGUMENT in H. lia.
  - destruct Hc as [Hc|Hc]; [|contradiction]. rewrite Hc in H.
    apply fft_npot_code in H.
    unfold DBCF_ERROR_INVALID_ARGUMENT, DBCF_ERROR_OUT_OF_MEMORY in H. lia.
Qed.

Lemma log2m_loop_returns (n : Z) (m : mem T) (fuel : nat) :
  forall log2m Mv, 0 <= log2m -> 2 * n - 1 <= 2 ^ (log2m + Z.of_nat fuel) ->
  exists l Mv', 0 <= l /\ log2m_loop fuel n log2m Mv m = Ok (l, Mv') m.
Proof.
  induction fuel as [|fuel IH]; intros log2m Mv Hl Hf; cbn [log2m_loop];
    rewrite POW2_eq; destruct (Z.ltb_spec (2 ^ log2m) (2 * n - 1)) as [Hlt|Hge].
  - rewrite Z.add_0_r in Hf. lia.
  - exists log2m, Mv. split; [lia|reflexivity].
  - apply IH; [lia|]. rewrite Nat2Z.inj_succ in Hf.
    replace (log2m + 1 + Z.of_nat fuel) with (log2m + Z.succ (Z.of_nat fuel)) by lia.
    exact Hf.
  - exists log2m, Mv. split; [lia|reflexivity].
Qed.

(** The size loop stops at the least [q] with [2*n - 1 <= 2^q]. *)
Lemma log2m_loop_least (n q : Z) (m : mem T) (fuel : nat) :
  0 <= q -> 2 * n - 1 <= 2 ^ q -> 2 ^ q < 2 * (2 * n - 1) ->
  forall log2m Mv, 0 <= log2m <= q -> q - log2m <= Z.of_nat fuel ->
  exists Mv', log2m_loop fuel n log2m Mv m = Ok (q, Mv') m.
Proof.
  intros Hq Hge Hlt.
  induction fuel as [|fuel IH]; intros log2m Mv Hl Hf; cbn [log2m_loop];
    rewrite POW2_eq; destruct (Z.ltb_spec (2 ^ log2m) (2 * n - 1)) as [Hs|Hs].
  - assert (log2m < q); [|lia].
    apply (Z.pow_lt_mono_r_iff 2); lia.
  - assert (log2m = q) as ->; [|exists Mv; reflexivity].
    destruct (Z.eq_dec log2m q) as [|Hne]; [assumption|exfalso].
    assert (2 ^ (log2m + 1) <= 2 ^ q) by (apply Z.pow_le_mono_r; lia).
    rewrite Z.pow_add_r in * by lia. lia.
  - assert (log2m < q) by (apply (Z.pow_lt_mono_r_iff 2); lia).
    apply IH; lia.
  - assert (log2m = q) as ->; [|exists Mv; reflexivity].
    destruct (Z.eq_dec log2m q) as [|Hne]; [assumption|exfalso].
    assert (2 ^ (log2m + 1) <= 2 ^ q) by (apply Z.pow_le_mono_r; lia).
    rewrite Z.pow_add_r in * by lia. lia.
Qed.

(** The one request of the Bluestein driver: [4*m + 4*n] elements, [m]
    the least power of two that is at least [2*n - 1]. *)
Lemma fft_npot_oom n q sr si srs sis dr di drs dis inv scale (m : mem T) :
  1 <= n ->
  0 <= q -> 2 * n - 1 <= 2 ^ q -> 2 ^ q < 2 * (2 * n - 1) ->
  heap_ok m ((4 * 2 ^ q + 4 * n) * sizeof + 0) = false ->
  dbcF_fft_npot cfg n sr si srs sis dr di drs dis inv scale m
  = Ok DBCF_ERROR_OUT_OF_MEMORY m.
Proof.
  intros Hn Hq Hge Hlt Hheap. unfold dbcF_fft_npot.
  destruct (log2m_loop_least n q m (Z.to_nat (2 * n)) Hq Hge Hlt 0 DBCF_ONE ltac:(lia))
    as (Mv' & Hrun).
  { rewrite Z2Nat.id by lia.
    pose proof (Z.pow_gt_lin_r 2 q ltac:(lia) Hq).
    destruct (Z.eq_dec q 0) as [->|Hq0]; [lia|].
    assert (2 ^ q = 2 * 2 ^ (q - 1)) as Hp.
    { replace q with (Z.succ (q - 1)) at 1 by lia. rewrite Z.pow_succ_r by lia. reflexivity. }
    pose proof (Z.pow_gt_lin_r 2 (q - 1) ltac:(lia) ltac:(lia)). lia. }
  unfold bind at 1. rewrite Hrun.
  unfold bind at 1. unfold dbcf_malloc. rewrite POW2_eq, Hheap.
  reflexivity.
Qed.

End EntrySurface.

(** * Running loops on the memory *)

Section Loops.

Context {T : Type}.

Lemma upd_same (f : Z -> Z -> T) b o v : upd f b o v b o = v.
Proof. unfold upd. rewrite !Z.eqb_refl. reflexivity. Qed.

Lemma upd_other (f : Z -> Z -> T) b o v b' o' :
  b' <> b \/ o' <> o -> upd f b o v b' o' = f b' o'.
Proof.
  intro H. unfold upd.
  destruct (Z.eqb_spec b' b); destruct (Z.eqb_spec o' o); try reflexivity. lia.
Qed.

Lemma aref_run (b o i : Z) (m : mem T) :
  aref (Ptr b o) i m = Ok (cells m b (o + i)) m.
Proof. reflexivity. Qed.

Lemma aset_run (b o i : Z) (v : T) (m : mem T) :
  aset (Ptr b o) i v m = Ok tt (set_cell m b (o + i) v).
Proof. reflexivity. Qed.

Lemma for_count_inv {St} (I : Z -> St -> mem T -> Prop) (body : Z -> St -> M T St) (cnt : nat) :
  forall i s m,
    I i s m ->
    (forall j s m, i <= j < i + Z.of_nat cnt -> I j s m ->
       exists s' m', body j s m = Ok s' m' /\ I (j + 1) s' m') ->
    exists s' m', for_count cnt i s body m = Ok s' m' /\ I (i + Z.of_nat cnt) s' m'.
Proof.
  induction cnt as [|cnt IH]; intros i s m HI Hstep.
  - exists s, m. split; [reflexivity|]. rewrite Z.add_0_r. exact HI.
  - cbn [for_count]. unfold bind.
    destruct (Hstep i s m ltac:(lia) HI) as (s1 & m1 & Hb & HI1). rewrite Hb.
    destruct (IH (i + 1) s1 m1 HI1) as (s2 & m2 & Hr & HI2).
    { intros j s' m' Hj. apply Hstep. lia. }
    exists s2, m2. split; [exact Hr|].
    replace (i + Z.of_nat (S cnt)) with (i + 1 + Z.of_nat cnt) by lia. exact HI2.
Qed.

Lemma for_fold_inv {St} (I : Z -> St -> mem T -> Prop) (lo hi : Z) (s : St)
    (body : Z -> St -> M T St) (m : mem T) :
  lo <= hi ->
  I lo s m ->
  (forall j s m, lo <= j < hi -> I j s m ->
     exists s' m', body j s m = Ok s' m' /\ I (j + 1) s' m') ->
  exists s' m', for_fold lo hi s body m = Ok s' m' /\ I hi s' m'.
Proof.
  intros Hle HI Hstep. unfold for_fold.
  destruct (for_count_inv I body (Z.to_nat (hi - lo)) lo s m HI) as (s' & m' & Hr & HI').
  { intros j s0 m0 Hj. apply Hstep. lia. }
  exists s', m'. split; [exact Hr|].
  replace hi with (lo + Z.of_nat (Z.to_nat (hi - lo))) at 1 by lia. exact HI'.
Qed.

Lemma for_loop_inv (I : Z -> mem T -> Prop) (lo hi : Z) (body : Z -> M T unit) (m : mem T) :
  lo <= hi ->
  I lo m ->
  (forall j m, lo <= j < hi -> I j m -> exists m', body j m = Ok tt m' /\ I (j + 1) m') ->
  exists m', for_loop lo hi body m = Ok tt m' /\ I hi m'.
Proof.
  intros Hle HI Hstep. unfold for_loop.
  destruct (for_fold_inv (fun i _ m => I i m) lo hi tt (fun i _ => body i) m Hle HI)
    as ([] & m' & Hr & HI').
  { intros j [] m0 Hj HI0. destruct (Hstep j m0 Hj HI0) as (m1 & Hb & H1).
    exists tt, m1. split; assumption. }
  exists m'. split; assumption.
Qed.

Lemma for_loop_empty (lo hi : Z) (body : Z -> M T unit) (m : mem T) :
  hi <= lo -> for_loop lo hi body m = Ok tt m.
Proof.
  intro H. unfold for_loop, for_fold.
  replace (Z.to_nat (hi - lo)) with 0%nat by lia. reflexivity.
Qed.

(** The first round of a loop that runs at least once. *)
Lemma for_loop_first (lo hi : Z) (body : Z -> M T unit) (m : mem T) :
  lo < hi ->
  for_loop lo hi body m = bind (body lo) (fun _ => for_loop (lo + 1) hi body) m.
Proof.
  intro H. unfold for_loop, for_fold.
  replace (Z.to_nat (hi - lo)) with (S (Z.to_nat (hi - (lo + 1)))) by lia.
  cbn [for_count]. unfold bind. destruct (body lo m) as [[] m1| |]; reflexivity.
Qed.

(** Sequencing two computations that are known to return. *)
Lemma bind_run {A B} (c : M T A) (k : A -> M T B) (m m1 : mem T) (a : A) :
  c m = Ok a m1 -> bind c k m = k a m1.
Proof. intro H. unfold bind. rewrite H. reflexivity. Qed.

End Loops.

Section Cells.

Context {T : Type}.

Lemma cells_set_same (m : mem T) b o v : cells (set_cell m b o v) b o = v.
Proof. apply upd_same. Qed.

Lemma cells_set_other (m : mem T) b o v b' o' :
  b' <> b \/ o' <> o -> cells (set_cell m b o v) b' o' = cells m b' o'.
Proof. apply upd_other. Qed.

End Cells.

Arguments set_cell : simpl never.

(** Run the leading loads and stores of a computation. *)
Ltac run_mem :=
  repeat first
    [ rewrite (bind_run _ _ _ _ _ (aref_run _ _ _ _)); cbv beta
    | rewrite (bind_run _ _ _ _ _ (aset_run _ _ _ _ _)); cbv beta
    | rewrite aref_run
    | rewrite aset_run ].

(** Turn [exists m', c m = Ok tt m' /\ P m'] into [P] of the memory the
    loads and stores of [c] produce. *)
Ltac run_exists :=
  match goal with
  | |- exists m', ?c ?m = Ok ?a m' /\ _ =>
      let H := fresh "Hrun" in
      eassert (H : c m = Ok a _) by (run_mem; reflexivity);
      eexists; split; [exact H|]; clear H
  end.

Ltac cells_other := rewrite cells_set_other by (first [left; congruence | right; lia]).
Ltac cells_norm := repeat first [rewrite cells_set_same | cells_other].

Lemma bind_nested {T A B C} (c : M T A) (k1 : A -> M T B) (k2 : B -> M T C) (m : mem T) :
  bind (bind c k1) k2 m = bind c (fun a => bind (k1 a) k2) m.
Proof. unfold bind. destruct (c m); reflexivity. Qed.

(** Run the leading loads and stores, also through nested sequences. *)
Ltac run_all :=
  repeat first
    [ rewrite (bind_run _ _ _ _ _ (aref_run _ _ _ _)); cbv beta
    | rewrite (bind_run _ _ _ _ _ (aset_run _ _ _ _ _)); cbv beta
    | rewrite aref_run
    | rewrite aset_run
    | rewrite bind_nested
    | progress cbv beta iota ].

(** * Bit reversal of composite indices *)

Lemma shiftl_lxor_add (x y q : Z) :
  0 <= q -> 0 <= y < 2 ^ q -> Z.lxor (Z.shiftl x q) y = x * 2 ^ q + y.
Proof.
  intros Hq Hy. rewrite <- Z.add_nocarry_lxor.
  - rewrite Z.shiftl_mul_pow2 by lia. reflexivity.
  - apply Z.bits_inj'. intros k Hk. rewrite Z.land_spec, Z.bits_0.
    destruct (Z.lt_ge_cases k q).
    + rewrite Z.shiftl_spec_low by lia. reflexivity.
    + rewrite (testbit_high y q k) by lia. apply andb_false_r.
Qed.

Lemma testbit_concat (x y q k : Z) :
  0 <= q -> 0 <= y < 2 ^ q -> 0 <= k ->
  Z.testbit (x * 2 ^ q + y) k = if k <? q then Z.testbit y k else Z.testbit x (k - q).
Proof.
  intros Hq Hy Hk. rewrite <- shiftl_lxor_add by lia.
  rewrite Z.lxor_spec.
  destruct (Z.ltb_spec k q).
  - rewrite Z.shiftl_spec_low by lia. reflexivity.
  - rewrite Z.shiftl_spec by lia. rewrite (testbit_high y q k) by lia.
    apply xorb_false_r.
Qed.

Lemma rev_bits_concat (p q : nat) (x y : Z) :
  0 <= x < 2 ^ Z.of_nat p -> 0 <= y < 2 ^ Z.of_nat q ->
  rev_bits (p + q) (x * 2 ^ Z.of_nat q + y)
  = rev_bits q y * 2 ^ Z.of_nat p + rev_bits p x.
Proof.
  intros Hx Hy. apply Z.bits_inj'. intros k Hk.
  rewrite rev_bits_testbit by lia.
  rewrite (testbit_concat (rev_bits q y) (rev_bits p x) (Z.of_nat p) k)
    by (try apply rev_bits_range; lia).
  rewrite Nat2Z.inj_add.
  destruct (Z.ltb_spec k (Z.of_nat p)) as [H1|H1].
  - rewrite rev_bits_testbit by lia.
    destruct (Z.ltb_spec k (Z.of_nat p + Z.of_nat q)); [|lia].
    destruct (Z.ltb_spec k (Z.of_nat p)); [|lia]. cbn [andb].
    rewrite testbit_concat by lia.
    destruct (Z.ltb_spec (Z.of_nat p + Z.of_nat q - 1 - k) (Z.of_nat q)); [lia|].
    f_equal. lia.
  - rewrite rev_bits_testbit by lia.
    destruct (Z.ltb_spec k (Z.of_nat p + Z.of_nat q)) as [H2|H2];
      destruct (Z.ltb_spec (k - Z.of_nat p) (Z.of_nat q)) as [H3|H3]; try lia;
      cbn [andb]; try reflexivity.
    rewrite testbit_concat by lia.
    destruct (Z.ltb_spec (Z.of_nat p + Z.of_nat q - 1 - k) (Z.of_nat q)); [|lia].
    f_equal. lia.
Qed.

Lemma rev_bits_1 (x : Z) : 0 <= x < 2 -> rev_bits 1 x = x.
Proof.
  intro H. assert (C : x = 0 \/ x = 1) by lia. destruct C as [-> | ->]; reflexivity.
Qed.

(** Even and odd indices: the two halves of the out-of-place recursion. *)
Lemma rev_bits_even (b : nat) (x : Z) :
  0 <= x < 2 ^ Z.of_nat b -> rev_bits (S b) (2 * x) = rev_bits b x.
Proof.
  intro Hx. replace (S b) with (b + 1)%nat by lia.
  replace (2 * x) with (x * 2 ^ Z.of_nat 1 + 0) by (change (2 ^ Z.of_nat 1) with 2; lia).
  rewrite rev_bits_concat by (change (2 ^ Z.of_nat 1) with 2; lia).
  reflexivity.
Qed.

Lemma rev_bits_odd (b : nat) (x : Z) :
  0 <= x < 2 ^ Z.of_nat b -> rev_bits (S b) (2 * x + 1) = 2 ^ Z.of_nat b + rev_bits b x.
Proof.
  intro Hx. replace (S b) with (b + 1)%nat by lia.
  replace (2 * x + 1) with (x * 2 ^ Z.of_nat 1 + 1) by (change (2 ^ Z.of_nat 1) with 2; lia).
  rewrite rev_bits_concat by (change (2 ^ Z.of_nat 1) with 2; lia).
  change (rev_bits 1 1) with 1. lia.
Qed.

(** An index of the in-place split: top bit [hi], low bit [lo], middle [x]. *)
Lemma rev_bits_split4 (b : nat) (hi lo x : Z) :
  0 <= hi < 2 -> 0 <= lo < 2 -> 0 <= x < 2 ^ Z.of_nat b ->
  rev_bits (S (S b)) (hi * 2 ^ Z.of_nat (S b) + 2 * x + lo)
  = lo * 2 ^ Z.of_nat (S b) + 2 * rev_bits b x + hi.
Proof.
  intros Hh Hl Hx.
  assert (E : 2 ^ Z.of_nat (S b) = 2 * 2 ^ Z.of_nat b)
    by (rewrite Nat2Z.inj_succ, Z.pow_succ_r by lia; reflexivity).
  replace (S (S b)) with ((1 + b) + 1)%nat by lia.
  replace (hi * 2 ^ Z.of_nat (S b) + 2 * x + lo)
    with ((hi * 2 ^ Z.of_nat b + x) * 2 ^ Z.of_nat 1 + lo)
    by (change (2 ^ Z.of_nat 1) with 2; lia).
  rewrite rev_bits_concat.
  - rewrite rev_bits_concat by (change (2 ^ Z.of_nat 1) with 2; lia).
    rewrite !rev_bits_1 by lia.
    replace (Z.of_nat (1 + b)) with (Z.of_nat (S b)) by lia.
    change (2 ^ Z.of_nat 1) with 2. lia.
  - replace (Z.of_nat (1 + b)) with (Z.of_nat (S b)) by lia. nia.
  - change (2 ^ Z.of_nat 1) with 2. lia.
Qed.

(** An index of the blocked algorithm: fields [a], [b], [c] of [q], [w]
    and [q] bits. *)
Lemma rev_bits_tile (q w : nat) (a b c : Z) :
  0 <= a < 2 ^ Z.of_nat q -> 0 <= b < 2 ^ Z.of_nat w -> 0 <= c < 2 ^ Z.of_nat q ->
  rev_bits (q + w + q) (a * 2 ^ Z.of_nat (w + q) + b * 2 ^ Z.of_nat q + c)
  = rev_bits q c * 2 ^ Z.of_nat (w + q) + rev_bits w b * 2 ^ Z.of_nat q + rev_bits q a.
Proof.
  intros Ha Hb Hc.
  assert (E : 2 ^ Z.of_nat (w + q) = 2 ^ Z.of_nat w * 2 ^ Z.of_nat q)
    by (rewrite Nat2Z.inj_add, Z.pow_add_r by lia; reflexivity).
  assert (E' : 2 ^ Z.of_nat (q + w) = 2 ^ Z.of_nat q * 2 ^ Z.of_nat w)
    by (rewrite Nat2Z.inj_add, Z.pow_add_r by lia; reflexivity).
  replace (a * 2 ^ Z.of_nat (w + q) + b * 2 ^ Z.of_nat q + c)
    with ((a * 2 ^ Z.of_nat w + b) * 2 ^ Z.of_nat q + c) by (rewrite E; ring).
  rewrite rev_bits_concat.
  - rewrite rev_bits_concat by lia. rewrite E, E'. ring.
  - rewrite E'. nia.
  - lia.
Qed.

(** * Twiddle factors over the reals *)

Section Twiddles.

Variables (hook : option (Z -> R * R)) (hook_npot : option (Z -> Z -> R * R)).

Let ER : Elem R := Elem_R hook hook_npot.
Local Existing Instance ER.

Local Open Scope R_scope.

Lemma R_ZERO : @DBCF_ZERO R ER = 0.
Proof. unfold DBCF_ZERO. cbn. unfold Q2R. cbn. lra. Qed.

Lemma R_ONE : @DBCF_ONE R ER = 1.
Proof. unfold DBCF_ONE. cbn. unfold Q2R. cbn. lra. Qed.

Lemma pow2_IZR_pos (n : Z) : (0 <= n)%Z -> 0 < IZR (2 ^ n).
Proof. intro H. apply IZR_lt. apply Z.pow_pos_nonneg; lia. Qed.

Lemma angle_add (log2n a b : Z) :
  (0 <= log2n)%Z ->
  twiddle_angle log2n (a + b) = twiddle_angle log2n a + twiddle_angle log2n b.
Proof.
  intro H. unfold twiddle_angle. rewrite plus_IZR.
  pose proof (pow2_IZR_pos log2n H). field. lra.
Qed.

Lemma angle_pow2 (log2n i : Z) :
  (0 <= i <= log2n)%Z ->
  twiddle_angle log2n (2 ^ i) = twiddle_angle (log2n - i) 1.
Proof.
  intro H. unfold twiddle_angle.
  replace (2 ^ log2n)%Z with (2 ^ (log2n - i) * 2 ^ i)%Z
    by (rewrite <- Z.pow_add_r by lia; f_equal; lia).
  rewrite mult_IZR.
  pose proof (pow2_IZR_pos i ltac:(lia)). pose proof (pow2_IZR_pos (log2n - i) ltac:(lia)).
  field. lra.
Qed.

Lemma angle_0 (log2n : Z) : twiddle_angle log2n 0 = 0.
Proof. unfold twiddle_angle. unfold Rdiv. rewrite Rmult_0_r, Rmult_0_l. reflexivity. Qed.

Variables (log2n log2b : Z) (inverse : bool) (br or bi oi : Z).

Hypothesis Hrange : (0 <= log2b <= log2n)%Z.

(** The two tables do not share a cell. *)
Hypothesis Hdisj :
  forall a b, (0 <= a < 2 ^ log2b)%Z -> (0 <= b < 2 ^ log2b)%Z ->
              br <> bi \/ (or + a)%Z <> (oi + b)%Z.

(** The seeds the doubling uses are exact. *)
Hypothesis Hseed :
  forall i, (0 <= i < log2b)%Z -> dbcF_cexpm1 (log2n - i) = expm1_exact (log2n - i).

Lemma pow2_mono (a b : Z) : (0 <= a <= b)%Z -> (2 ^ a <= 2 ^ b)%Z.
Proof. intro H. apply Z.pow_le_mono_r; lia. Qed.

Lemma doubling_value (i j : Z) :
  (0 <= i < log2b)%Z ->
  let x := cos (twiddle_angle (log2n - i) 1) - 1 in
  let y := sin (twiddle_angle (log2n - i) 1) in
  let y' := if negb inverse then - y else y in
  let rj := cos (twiddle_angle log2n j) - 1 in
  let ij := signed inverse (sin (twiddle_angle log2n j)) in
  (x * rj - y' * ij) + (x + rj) = cos (twiddle_angle log2n (2 ^ i + j)) - 1 /\
  (y' * rj + x * ij) + (y' + ij) = signed inverse (sin (twiddle_angle log2n (2 ^ i + j))).
Proof.
  intros Hi x y y' rj ij.
  rewrite angle_add by lia. rewrite angle_pow2 by lia.
  rewrite cos_plus, sin_plus. subst x y y' rj ij. unfold signed.
  destruct inverse; cbn [negb]; split; ring.
Qed.

Lemma inner_step (i j : Z) (m : mem R) :
  (0 <= i < log2b)%Z -> (0 <= j < 2 ^ i)%Z ->
  filled_m1 log2n inverse br or bi oi (2 ^ i + j) m ->
  let k := DBCF_POW2 i in
  let x := cos (twiddle_angle (log2n - i) 1) - 1 in
  let y := sin (twiddle_angle (log2n - i) 1) in
  let y' := if negb inverse then Tneg y else y in
  exists m',
    (rj <- aref (Ptr br or) j ;; ij <- aref (Ptr bi oi) j ;;
     aset (Ptr br or) (k + j) (Tadd (Tsub (Tmul x rj) (Tmul y' ij)) (Tadd x rj)) ;;
     rj <- aref (Ptr br or) j ;; ij <- aref (Ptr bi oi) j ;;
     aset (Ptr bi oi) (k + j) (Tadd (Tadd (Tmul y' rj) (Tmul x ij)) (Tadd y' ij))) m
    = Ok tt m' /\ filled_m1 log2n inverse br or bi oi (2 ^ i + j + 1) m'.
Proof.
  intros Hi Hj Hm k x y y'. subst k. rewrite POW2_eq.
  assert (Hp : (2 ^ (i + 1) <= 2 ^ log2b)%Z) by (apply pow2_mono; lia).
  assert (Hp' : (2 ^ (i + 1) = 2 * 2 ^ i)%Z) by (rewrite Z.pow_add_r by lia; lia).
  destruct (Hm j ltac:(lia)) as [Hr Hi'].
  run_exists.
  cbn [Tadd Tsub Tmul Tneg ER Elem_R].
  assert (E1 : cells (set_cell m br (or + (2 ^ i + j))
                  (x * cells m br (or + j) - y' * cells m bi (oi + j)
                   + (x + cells m br (or + j)))) br (or + j) = cells m br (or + j)).
  { apply cells_set_other. right. lia. }
  assert (E2 : cells (set_cell m br (or + (2 ^ i + j))
                  (x * cells m br (or + j) - y' * cells m bi (oi + j)
                   + (x + cells m br (or + j)))) bi (oi + j) = cells m bi (oi + j)).
  { apply cells_set_other.
    destruct (Hdisj (2 ^ i + j)%Z j ltac:(lia) ltac:(lia)) as [H|H]; [left|right]; congruence. }
  rewrite E1, E2, Hr, Hi'.
  pose proof (doubling_value i j Hi) as [Vr Vi]. cbv zeta in Vr, Vi.
  fold x y in Vr, Vi.
  replace (if negb inverse then - y else y) with y' in Vr, Vi by reflexivity.
  rewrite Vr, Vi.
  intros q Hq.
  destruct (Z.eq_dec q (2 ^ i + j)) as [->|Hne].
  - split.
    + rewrite cells_set_other.
      * apply cells_set_same.
      * destruct (Hdisj (2 ^ i + j)%Z (2 ^ i + j)%Z ltac:(lia) ltac:(lia)) as [H|H];
          [left|right]; congruence.
    + apply cells_set_same.
  - destruct (Hm q ltac:(lia)) as [Hqr Hqi]. split.
    + rewrite cells_set_other.
      * rewrite cells_set_other by (right; lia). exact Hqr.
      * destruct (Hdisj q (2 ^ i + j)%Z ltac:(lia) ltac:(lia)) as [H|H];
          [left|right]; congruence.
    + rewrite cells_set_other by (right; lia).
      rewrite cells_set_other; [exact Hqi|].
      destruct (Hdisj (2 ^ i + j)%Z q ltac:(lia) ltac:(lia)) as [H|H];
        [left|right]; congruence.
Qed.

Lemma outer_step (i : Z) (m : mem R) :
  (0 <= i < log2b)%Z ->
  filled_m1 log2n inverse br or bi oi (2 ^ i) m ->
  exists m',
    ((let k := DBCF_POW2 i in
     let (x, y) := dbcF_cexpm1 (log2n - i) in
     let y := if negb inverse then Tneg y else y in
     for_loop 0 k (fun j =>
       rj <- aref (Ptr br or) j ;; ij <- aref (Ptr bi oi) j ;;
       aset (Ptr br or) (k + j) (Tadd (Tsub (Tmul x rj) (Tmul y ij)) (Tadd x rj)) ;;
       rj <- aref (Ptr br or) j ;; ij <- aref (Ptr bi oi) j ;;
       aset (Ptr bi oi) (k + j) (Tadd (Tadd (Tmul y rj) (Tmul x ij)) (Tadd y ij))))
     : M R unit) m
    = Ok tt m' /\ filled_m1 log2n inverse br or bi oi (2 ^ (i + 1)) m'.
Proof.
  intros Hi Hm. rewrite Hseed by exact Hi. unfold expm1_exact. cbv zeta.
  assert (Hpos : (0 < 2 ^ i)%Z) by (apply Z.pow_pos_nonneg; lia).
  destruct (for_loop_inv (fun j m => filled_m1 log2n inverse br or bi oi (2 ^ i + j) m) 0 (DBCF_POW2 i)
              (fun j =>
                 rj <- aref (Ptr br or) j ;; ij <- aref (Ptr bi oi) j ;;
                 aset (Ptr br or) (DBCF_POW2 i + j)
                   (Tadd (Tsub (Tmul (cos (twiddle_angle (log2n - i) 1) - 1) rj)
                               (Tmul (if negb inverse
                                      then Tneg (sin (twiddle_angle (log2n - i) 1))
                                      else sin (twiddle_angle (log2n - i) 1)) ij))
                         (Tadd (cos (twiddle_angle (log2n - i) 1) - 1) rj)) ;;
                 rj <- aref (Ptr br or) j ;; ij <- aref (Ptr bi oi) j ;;
                 aset (Ptr bi oi) (DBCF_POW2 i + j)
                   (Tadd (Tadd (Tmul (if negb inverse
                                      then Tneg (sin (twiddle_angle (log2n - i) 1))
                                      else sin (twiddle_angle (log2n - i) 1)) rj)
                               (Tmul (cos (twiddle_angle (log2n - i) 1) - 1) ij))
                         (Tadd (if negb inverse
                                then Tneg (sin (twiddle_angle (log2n - i) 1))
                                else sin (twiddle_angle (log2n - i) 1)) ij))) m)
    as (m' & Hrun & Hpost).
  - rewrite POW2_eq. lia.
  - rewrite Z.add_0_r. exact Hm.
  - intros j m0 Hj Hm0. rewrite POW2_eq in Hj.
    destruct (inner_step i j m0 Hi ltac:(lia) Hm0) as (m1 & Hr1 & Hp1).
    exists m1. split; [exact Hr1|].
    replace (2 ^ i + (j + 1))%Z with (2 ^ i + j + 1)%Z by lia. exact Hp1.
  - exists m'. split; [exact Hrun|].
    rewrite POW2_eq in Hpost.
    replace (2 ^ (i + 1))%Z with (2 ^ i + 2 ^ i)%Z
      by (rewrite Z.pow_add_r by lia; lia).
    exact Hpost.
Qed.

Lemma final_step (i : Z) (m : mem R) :
  (0 <= i < 2 ^ log2b)%Z ->
  filled_upto log2n log2b inverse br or bi oi i m ->
  exists m',
    (ri <- aref (Ptr br or) i ;; aset (Ptr br or) i (Tadd DBCF_ONE ri)) m = Ok tt m' /\
    filled_upto log2n log2b inverse br or bi oi (i + 1) m'.
Proof.
  intros Hi (Hdone & Htodo & Him). run_exists.
  rewrite R_ONE. cbn [Tadd ER Elem_R].
  split; [|split]; intros k Hk.
  - destruct (Z.eq_dec k i) as [->|Hne].
    + rewrite cells_set_same, Htodo by lia. lra.
    + rewrite cells_set_other by (right; lia). apply Hdone. lia.
  - rewrite cells_set_other by (right; lia). apply Htodo. lia.
  - rewrite cells_set_other; [apply Him; lia|].
    destruct (Hdisj i k ltac:(lia) ltac:(lia)) as [H|H]; [left|right]; congruence.
Qed.

Lemma compute_twiddles_run (m : mem R) :
  exists m',
    dbcF_compute_twiddles log2n log2b (Ptr br or) (Ptr bi oi) inverse m = Ok tt m' /\
    filled_upto log2n log2b inverse br or bi oi (2 ^ log2b) m'.
Proof.
  unfold dbcF_compute_twiddles.
  assert (Hpos : (0 < 2 ^ log2b)%Z) by (apply Z.pow_pos_nonneg; lia).
  run_mem. rewrite R_ZERO.
  set (m0 := set_cell (set_cell m br (or + 0) 0) bi (oi + 0) 0).
  assert (H0 : filled_m1 log2n inverse br or bi oi (2 ^ 0) m0).
  { intros k Hk. change (2 ^ 0)%Z with 1%Z in Hk. assert (k = 0%Z) by lia. subst k.
    rewrite angle_0, cos_0, sin_0. subst m0. split.
    - rewrite cells_set_other.
      + rewrite cells_set_same. lra.
      + destruct (Hdisj 0 0 ltac:(lia) ltac:(lia)) as [H|H]; [left|right]; congruence.
    - rewrite cells_set_same. unfold signed. destruct inverse; lra. }
  destruct (for_loop_inv (fun i m => filled_m1 log2n inverse br or bi oi (2 ^ i) m) 0 log2b
              (fun i =>
                 let k := DBCF_POW2 i in
                 let (x, y) := dbcF_cexpm1 (log2n - i) in
                 let y := if negb inverse then Tneg y else y in
                 for_loop 0 k (fun j =>
                   rj <- aref (Ptr br or) j ;; ij <- aref (Ptr bi oi) j ;;
                   aset (Ptr br or) (k + j) (Tadd (Tsub (Tmul x rj) (Tmul y ij)) (Tadd x rj)) ;;
                   rj <- aref (Ptr br or) j ;; ij <- aref (Ptr bi oi) j ;;
                   aset (Ptr bi oi) (k + j) (Tadd (Tadd (Tmul y rj) (Tmul x ij)) (Tadd y ij))))
              m0 ltac:(lia) H0) as (m1 & Hrun1 & Hpost1).
  { intros i m' Hi Hm'. apply outer_step; assumption. }
  rewrite (bind_run _ _ _ _ _ Hrun1).
  destruct (for_loop_inv (filled_upto log2n log2b inverse br or bi oi) 0 (DBCF_POW2 log2b)
              (fun i => ri <- aref (Ptr br or) i ;; aset (Ptr br or) i (Tadd DBCF_ONE ri))
              m1) as (m2 & Hrun2 & Hpost2).
  - rewrite POW2_eq. lia.
  - split; [|split]; intros k Hk; try lia; apply Hpost1; lia.
  - intros i m' Hi Hm'. rewrite POW2_eq in Hi. apply final_step; assumption.
  - exists m2. split; [exact Hrun2|]. rewrite POW2_eq in Hpost2. exact Hpost2.
Qed.

End Twiddles.

Lemma Q2R_lit0 : Q2R 0.0e0 = 0%R.
Proof. unfold Q2R. cbn [Qnum Qden]. lra. Qed.

Lemma Q2R_lit1 : Q2R 1.0e0 = 1%R.
Proof. unfold Q2R. cbn [Qnum Qden]. lra. Qed.

Lemma Q2R_lit2 : Q2R 2.0e0 = 2%R.
Proof. unfold Q2R. cbn [Qnum Qden]. lra. Qed.

(** The built-in table is exact on its first three rows. *)
Lemma builtin_seed_exact (hook_npot : option (Z -> Z -> R * R)) (k : Z) :
  0 <= k <= 2 ->
  @dbcF_cexpm1 R (Elem_R None hook_npot) k = expm1_exact k.
Proof.
  intro Hk. unfold expm1_exact, twiddle_angle.
  assert (C : k = 0 \/ k = 1 \/ k = 2) by lia.
  destruct C as [-> | [-> | ->]].
  - change (@dbcF_cexpm1 R (Elem_R None hook_npot) 0) with (Q2R 0.0e0, Q2R 0.0e0).
    rewrite Q2R_lit0. change (2 ^ 0) with 1.
    replace (2 * PI * 1 / 1)%R with (2 * PI)%R by field.
    rewrite cos_2PI, sin_2PI. f_equal. lra.
  - change (@dbcF_cexpm1 R (Elem_R None hook_npot) 1) with ((- Q2R 2.0e0)%R, Q2R 0.0e0).
    rewrite Q2R_lit0, Q2R_lit2. change (2 ^ 1) with 2.
    replace (2 * PI * 1 / 2)%R with PI by field.
    rewrite cos_PI, sin_PI. f_equal. lra.
  - change (@dbcF_cexpm1 R (Elem_R None hook_npot) 2) with ((- Q2R 1.0e0)%R, Q2R 1.0e0).
    rewrite Q2R_lit1. change (2 ^ 2) with 4.
    replace (2 * PI * 1 / 4)%R with (PI / 2)%R by field.
    rewrite cos_PI2, sin_PI2. f_equal. lra.
Qed.

(** The seed of the fourth row is a 40-digit decimal, not [cos(pi/4) - 1]. *)
Lemma builtin_seed_rounded (hook_npot : option (Z -> Z -> R * R)) :
  @dbcF_cexpm1 R (Elem_R None hook_npot) 3 <> expm1_exact 3.
Proof.
  unfold expm1_exact, twiddle_angle.
  change (@dbcF_cexpm1 R (Elem_R None hook_npot) 3)
    with ((- Q2R 2.928932188134524755991556378951509607151e-1)%R,
          Q2R 7.071067811865475244008443621048490392848e-1).
  intro H. injection H as Hc _. change (Z.pow_pos 2 3) with 8 in Hc.
  replace (2 * PI * 1 / 8)%R with (PI / 4)%R in Hc by field.
  rewrite cos_PI4 in Hc.
  assert (Hs : (1 / sqrt 2 * (1 / sqrt 2) = 1 / 2)%R).
  { pose proof (sqrt_sqrt 2 ltac:(lra)) as S2.
    assert (sqrt 2 <> 0)%R by (intro Z0; rewrite Z0 in S2; lra).
    field_simplify; [|assumption]. rewrite <- Rsqr_pow2, Rsqr_sqrt by lra. reflexivity. }
  assert (Hv : (1 / sqrt 2 = 1 + - Q2R 2.928932188134524755991556378951509607151e-1)%R) by lra.
  rewrite Hv in Hs. unfold Q2R in Hs. cbn in Hs. lra.
Qed.

(** * The bit-reversal permutation on strided arrays *)

Lemma addr_inj (o s i j : Z) : s <> 0 -> o + i * s = o + j * s -> i = j.
Proof. intros Hs H. apply (Z.mul_cancel_r i j s Hs). lia. Qed.

Lemma pow2_pos (p : Z) : 0 <= p -> 0 < 2 ^ p.
Proof. intro H. apply Z.pow_pos_nonneg; lia. Qed.

Lemma pow2_succ (p : Z) : 0 < p -> 2 ^ p = 2 * 2 ^ (p - 1).
Proof.
  intro H. replace p with (Z.succ (p - 1)) at 1 by lia.
  rewrite Z.pow_succ_r by lia. reflexivity.
Qed.

Lemma shiftr_pow2_half (p : Z) : 0 < p -> Z.shiftr (DBCF_POW2 p) 1 = 2 ^ (p - 1).
Proof.
  intro H. rewrite POW2_eq, Z.shiftr_div_pow2 by lia. change (2 ^ 1) with 2.
  rewrite (pow2_succ p H). rewrite Z.mul_comm, Z.div_mul by lia. reflexivity.
Qed.

Section Permutation.

Context {T : Type} {E : Elem T} (cfg : Config).

Lemma rev_range (p k : Z) : 0 <= p -> 0 <= rev p k < 2 ^ p.
Proof.
  intro Hp. unfold rev. pose proof (rev_bits_range (Z.to_nat p) k) as H.
  rewrite Z2Nat.id in H by lia. exact H.
Qed.

Lemma rev_invol (p k : Z) : 0 <= p -> 0 <= k < 2 ^ p -> rev p (rev p k) = k.
Proof.
  intros Hp Hk. unfold rev. apply rev_bits_involutive. rewrite Z2Nat.id by lia. exact Hk.
Qed.

Lemma rev_inj (p i j : Z) :
  0 <= p -> 0 <= i < 2 ^ p -> 0 <= j < 2 ^ p -> rev p i = rev p j -> i = j.
Proof.
  intros Hp Hi Hj H. rewrite <- (rev_invol p i), <- (rev_invol p j) by assumption.
  rewrite H. reflexivity.
Qed.

Lemma bitreverse_rev (k p : Z) :
  0 <= p -> 0 <= k < 2 ^ p -> dbcF_bitreverse cfg k p = rev p k.
Proof. intros. apply dbcF_bitreverse_spec; assumption. Qed.

Lemma rev_index_rev (p i : Z) :
  0 <= p <= 8 -> 0 <= i < 2 ^ p -> rev_index cfg p i = rev p i.
Proof.
  intros Hp Hi. unfold rev_index.
  destruct (DBC_FFT_NO_BITREVERSE_TABLE cfg) eqn:Ht.
  - apply bitreverse_rev; lia.
  - unfold rev. rewrite <- (bitreverse_with_spec false i p) by lia.
    unfold bitreverse_with. destruct (Z.to_nat p); cbn [bitreverse_fuel];
      destruct (Z.leb_spec p 8); try lia; reflexivity.
Qed.

Lemma rev_even (p x : Z) : 0 < p -> 0 <= x < 2 ^ (p - 1) -> rev p (2 * x) = rev (p - 1) x.
Proof.
  intros Hp Hx. unfold rev. replace (Z.to_nat p) with (S (Z.to_nat (p - 1))) by lia.
  apply rev_bits_even. rewrite Z2Nat.id by lia. exact Hx.
Qed.

Lemma rev_odd (p x : Z) :
  0 < p -> 0 <= x < 2 ^ (p - 1) -> rev p (2 * x + 1) = 2 ^ (p - 1) + rev (p - 1) x.
Proof.
  intros Hp Hx. unfold rev. replace (Z.to_nat p) with (S (Z.to_nat (p - 1))) by lia.
  rewrite rev_bits_odd by (rewrite Z2Nat.id by lia; exact Hx).
  rewrite Z2Nat.id by lia. reflexivity.
Qed.

Lemma rev_split4 (p hi lo x : Z) :
  1 < p -> 0 <= hi < 2 -> 0 <= lo < 2 -> 0 <= x < 2 ^ (p - 2) ->
  rev p (hi * 2 ^ (p - 1) + 2 * x + lo) = lo * 2 ^ (p - 1) + 2 * rev (p - 2) x + hi.
Proof.
  intros Hp Hh Hl Hx. unfold rev.
  replace (Z.to_nat p) with (S (S (Z.to_nat (p - 2)))) by lia.
  replace (p - 1) with (Z.of_nat (S (Z.to_nat (p - 2)))) by lia.
  apply rev_bits_split4; try assumption. rewrite Z2Nat.id by lia. exact Hx.
Qed.

Lemma cell_sub (m : mem T) (b o s c0 c1 k : Z) :
  cell m b (o + c0 * s) (c1 * s) k = cell m b o s (c0 + c1 * k).
Proof. unfold cell. f_equal. ring. Qed.

Lemma cell_set_same (m : mem T) (b o s k : Z) (v : T) :
  cell (set_cell m b (o + k * s) v) b o s k = v.
Proof. unfold cell. apply cells_set_same. Qed.

Lemma cell_set_other (m : mem T) (b a : Z) (v : T) (b' o' s' k : Z) :
  b' <> b \/ o' + k * s' <> a ->
  cell (set_cell m b a v) b' o' s' k = cell m b' o' s' k.
Proof. unfold cell. apply cells_set_other. Qed.

Lemma cell_even (m : mem T) (b o s x : Z) : cell m b o (2 * s) x = cell m b o s (2 * x).
Proof. unfold cell. f_equal. ring. Qed.

Lemma cell_odd (m : mem T) (b o s x : Z) :
  cell m b (o + s) (2 * s) x = cell m b o s (2 * x + 1).
Proof. unfold cell. f_equal. ring. Qed.

Lemma cell_shift (m : mem T) (b o s h x : Z) :
  cell m b (o + h * s) s x = cell m b o s (h + x).
Proof. unfold cell. f_equal. ring. Qed.

Lemma frame_refl bt b o s n (m : mem T) : frame bt b o s n m m.
Proof. intros b' o' _ _. reflexivity. Qed.

Lemma frame_set bt b o s n (m m' : mem T) k v :
  0 <= k < n -> frame bt b o s n m m' ->
  frame bt b o s n m (set_cell m' b (o + k * s) v).
Proof.
  intros Hk Hf b' o' Hbt Hout. rewrite cells_set_other.
  - apply Hf; assumption.
  - destruct (Z.eq_dec b' b) as [->|]; [right|left; assumption].
    apply Hout; [reflexivity|assumption].
Qed.

Lemma frame_set_tmp bt b o s n (m m' : mem T) o0 v :
  frame bt b o s n m m' -> frame bt b o s n m (set_cell m' bt o0 v).
Proof.
  intros Hf b' o' Hbt Hout. rewrite cells_set_other by (left; assumption).
  apply Hf; assumption.
Qed.

Lemma frame_trans bt b o s n (m m1 m2 : mem T) :
  frame bt b o s n m m1 -> frame bt b o s n m1 m2 -> frame bt b o s n m m2.
Proof.
  intros H1 H2 b' o' Hbt Hout. rewrite H2 by assumption. apply H1; assumption.
Qed.

(** A frame for a part of the array is a frame for the array. *)
Lemma frame_sub bt b o s n c0 c1 n' (m m' : mem T) :
  (forall k, 0 <= k < n' -> 0 <= c0 + c1 * k < n) ->
  frame bt b (o + c0 * s) (c1 * s) n' m m' -> frame bt b o s n m m'.
Proof.
  intros Hsub Hf b' o' Hbt Hout. apply Hf; [assumption|].
  intros Hb k Hk. replace (o + c0 * s + k * (c1 * s)) with (o + (c0 + c1 * k) * s) by ring.
  apply Hout; [assumption|]. apply Hsub. exact Hk.
Qed.

(** An element of the array whose index is not of the form [c0 + c1*k]
    is outside that part. *)
Lemma frame_sub_cell bt b o s c0 c1 n' (m m' : mem T) j :
  s <> 0 -> b <> bt ->
  (forall k, 0 <= k < n' -> j <> c0 + c1 * k) ->
  frame bt b (o + c0 * s) (c1 * s) n' m m' ->
  cell m' b o s j = cell m b o s j.
Proof.
  intros Hs Hbt Hj Hf. unfold cell. apply Hf; [assumption|].
  intros _ k Hk Heq. apply (Hj k Hk). apply (addr_inj o s); [assumption|].
  rewrite Heq. ring.
Qed.

Lemma permuted_of_pull (p b o s : Z) (m m' : mem T) :
  0 <= p ->
  (forall k, 0 <= k < 2 ^ p -> cell m' b o s k = cell m b o s (rev p k)) ->
  permuted p b o s m m'.
Proof.
  intros Hp H k Hk. rewrite H by (apply rev_range; lia).
  rewrite rev_invol by assumption. reflexivity.
Qed.

(** ** In place, [log2n <= 8]: swap the pairs [(i, rev i)] with [i < rev i] *)

Lemma inplace_direct (bt p b o s : Z) (m : mem T) :
  0 <= p <= 8 -> s <> 0 ->
  exists m',
    for_loop 0 (DBCF_POW2 p) (fun i =>
      let j := rev_index cfg p i in
      if i <? j then
        x <- aref (Ptr b o) (i * s) ;;
        y <- aref (Ptr b o) (j * s) ;;
        aset (Ptr b o) (i * s) y ;;
        aset (Ptr b o) (j * s) x
      else ret tt) m = Ok tt m' /\
    permuted p b o s m m' /\ frame bt b o s (2 ^ p) m m'.
Proof.
  intros Hp Hs. rewrite POW2_eq.
  pose proof (pow2_pos p ltac:(lia)) as Hn.
  set (Inv := fun (t : Z) (m' : mem T) =>
    (forall k, 0 <= k < 2 ^ p ->
       cell m' b o s k = if (k <? t) || (rev p k <? t)
                         then cell m b o s (rev p k) else cell m b o s k) /\
    frame bt b o s (2 ^ p) m m').
  destruct (for_loop_inv Inv 0 (2 ^ p)
              (fun i =>
                 let j := rev_index cfg p i in
                 if i <? j then
                   x <- aref (Ptr b o) (i * s) ;;
                   y <- aref (Ptr b o) (j * s) ;;
                   aset (Ptr b o) (i * s) y ;;
                   aset (Ptr b o) (j * s) x
                 else ret tt) m) as (m' & Hrun & Hcells & Hframe).
  - lia.
  - split; [|apply frame_refl]. intros k Hk.
    pose proof (rev_range p k ltac:(lia)).
    destruct (Z.ltb_spec k 0); [lia|]. destruct (Z.ltb_spec (rev p k) 0); [lia|]. reflexivity.
  - intros t m1 Ht [Hc Hf]. cbv zeta. rewrite rev_index_rev by lia.
    pose proof (rev_range p t ltac:(lia)) as Hj.
    pose proof (rev_invol p t ltac:(lia) Ht) as Hjj.
    remember (rev p t) as j eqn:Ej.
    destruct (Z.ltb_spec t j) as [Hlt|Hge].
    + run_exists. split.
      * intros k Hk.
        pose proof (rev_range p k ltac:(lia)) as Hrk.
        pose proof (rev_invol p k ltac:(lia) Hk) as Hrr.
        fold (cell m1 b o s t). fold (cell m1 b o s j).
        unfold cell at 1.
        destruct (Z.eq_dec k j) as [->|Hkj].
        -- rewrite cells_set_same. rewrite Hc by lia. rewrite <- ?Ej, ?Hjj.
           destruct (Z.ltb_spec t t); [lia|]. destruct (Z.ltb_spec j t); [lia|].
           destruct (Z.ltb_spec j (t + 1)); [lia|]. destruct (Z.ltb_spec t (t + 1)); [|lia].
           reflexivity.
        -- rewrite cells_set_other
             by (right; intro Heq; apply Hkj; apply (addr_inj o s); assumption).
           destruct (Z.eq_dec k t) as [->|Hkt].
           ++ rewrite cells_set_same. rewrite Hc by lia. rewrite <- ?Ej, ?Hjj.
              destruct (Z.ltb_spec j t); [lia|]. destruct (Z.ltb_spec t t); [lia|].
              destruct (Z.ltb_spec t (t + 1)); [|lia]. reflexivity.
           ++ rewrite cells_set_other
                by (right; intro Heq; apply Hkt; apply (addr_inj o s); assumption).
              fold (cell m1 b o s k). rewrite Hc by lia.
              assert (rev p k <> t).
              { intro Heq. apply Hkj. rewrite <- Hrr, Heq. symmetry. exact Ej. }
              destruct (Z.ltb_spec k t); destruct (Z.ltb_spec k (t + 1)); try lia;
                destruct (Z.ltb_spec (rev p k) t); destruct (Z.ltb_spec (rev p k) (t + 1));
                try lia; reflexivity.
      * apply frame_set; [lia|]. apply frame_set; [lia|]. exact Hf.
    + exists m1. split; [reflexivity|]. split; [|exact Hf].
      intros k Hk. rewrite Hc by lia.
      pose proof (rev_range p k ltac:(lia)) as Hrk.
      pose proof (rev_invol p k ltac:(lia) Hk) as Hrr.
      destruct (Z.eq_dec k t) as [->|Hkt].
      * rewrite <- ?Ej. destruct (Z.ltb_spec t t); [lia|]. destruct (Z.ltb_spec t (t + 1)); [|lia].
        cbn [orb]. destruct (Z.ltb_spec j t); [reflexivity|].
        assert (j = t) by lia. congruence.
      * assert (rev p k = t -> k < t).
        { intro Heq. assert (k = j) by (rewrite <- Hrr, Heq; symmetry; exact Ej). lia. }
        destruct (Z.ltb_spec k t); destruct (Z.ltb_spec k (t + 1)); try lia;
          destruct (Z.ltb_spec (rev p k) t); destruct (Z.ltb_spec (rev p k) (t + 1));
          try lia; reflexivity.
  - exists m'. split; [exact Hrun|]. split; [|exact Hframe].
    apply permuted_of_pull; [lia|]. intros k Hk. rewrite Hcells by lia.
    destruct (Z.ltb_spec k (2 ^ p)); [reflexivity|lia].
Qed.

End Permutation.

Section Exchange.

Context {T : Type} {E : Elem T} (cfg : Config).

Lemma swap_direct (p ba oa sa bb ob sb : Z) (m : mem T) :
  0 <= p <= 8 -> sa <> 0 -> sb <> 0 ->
  disjoint_views ba oa sa bb ob sb (2 ^ p) ->
  exists m',
    for_loop 0 (DBCF_POW2 p) (fun i =>
      let j := rev_index cfg p i in
      x <- aref (Ptr ba oa) (i * sa) ;;
      y <- aref (Ptr bb ob) (j * sb) ;;
      aset (Ptr ba oa) (i * sa) y ;;
      aset (Ptr bb ob) (j * sb) x) m = Ok tt m' /\
    swapped p ba oa sa bb ob sb m m'.
Proof.
  intros Hp Hsa Hsb Hd. rewrite POW2_eq.
  pose proof (pow2_pos p ltac:(lia)) as Hn.
  set (Inv := fun (t : Z) (m' : mem T) =>
    (forall i, 0 <= i < 2 ^ p ->
       cell m' ba oa sa i = (if i <? t then cell m bb ob sb (rev p i) else cell m ba oa sa i) /\
       cell m' bb ob sb (rev p i)
       = (if i <? t then cell m ba oa sa i else cell m bb ob sb (rev p i))) /\
    frame2 ba oa sa bb ob sb (2 ^ p) m m').
  destruct (for_loop_inv Inv 0 (2 ^ p)
              (fun i =>
                 let j := rev_index cfg p i in
                 x <- aref (Ptr ba oa) (i * sa) ;;
                 y <- aref (Ptr bb ob) (j * sb) ;;
                 aset (Ptr ba oa) (i * sa) y ;;
                 aset (Ptr bb ob) (j * sb) x) m) as (m' & Hrun & Hcells & Hframe).
  - lia.
  - split; [|intros b' o' _ _; reflexivity].
    intros i Hi. destruct (Z.ltb_spec i 0); [lia|]. split; reflexivity.
  - intros t m1 Ht [Hc Hf]. cbv zeta. rewrite rev_index_rev by lia.
    pose proof (rev_range p t ltac:(lia)) as Hj.
    run_exists. split.
    + intros i Hi. pose proof (rev_range p i ltac:(lia)) as Hri.
      destruct (Hc i Hi) as [Hca Hcb]. destruct (Hc t Ht) as [Hta Htb].
      destruct (Z.ltb_spec t t); [lia|].
      fold (cell m1 bb ob sb (rev p t)). fold (cell m1 ba oa sa t).
      split.
      * rewrite cell_set_other.
        2:{ destruct (Z.eq_dec ba bb) as [Hbb|Hbb]; [right|left; exact Hbb].
            apply Hd; assumption. }
        destruct (Z.eq_dec i t) as [->|Hit].
        -- rewrite cell_set_same. rewrite Htb.
           destruct (Z.ltb_spec t (t + 1)); [reflexivity|lia].
        -- rewrite cell_set_other
             by (right; intro Heq; apply Hit; apply (addr_inj oa sa); assumption).
           rewrite Hca.
           destruct (Z.ltb_spec i t); destruct (Z.ltb_spec i (t + 1)); try lia; reflexivity.
      * destruct (Z.eq_dec i t) as [->|Hit].
        -- rewrite cell_set_same. rewrite Hta.
           destruct (Z.ltb_spec t (t + 1)); [reflexivity|lia].
        -- rewrite cell_set_other.
           2:{ right. intro Heq. apply Hit. apply (rev_inj p); try lia.
               apply (addr_inj ob sb); assumption. }
           rewrite cell_set_other.
           2:{ destruct (Z.eq_dec bb ba) as [Hbb|Hbb]; [right|left; exact Hbb].
               intro Heq. symmetry in Heq. revert Heq.
               apply Hd; [assumption|assumption|congruence]. }
           rewrite Hcb.
           destruct (Z.ltb_spec i t); destruct (Z.ltb_spec i (t + 1)); try lia; reflexivity.
    + intros b' o' HA HB.
      rewrite cells_set_other.
      2:{ destruct (Z.eq_dec b' bb) as [->|]; [right|left; assumption].
          apply HB; [reflexivity|assumption]. }
      rewrite cells_set_other.
      2:{ destruct (Z.eq_dec b' ba) as [->|]; [right|left; assumption].
          apply HA; [reflexivity|assumption]. }
      apply Hf; assumption.
  - exists m'. split; [exact Hrun|]. split; [|split; [|exact Hframe]].
    + intros i Hi. destruct (Hcells i Hi) as [H _]. rewrite H.
      destruct (Z.ltb_spec i (2 ^ p)); [reflexivity|lia].
    + intros i Hi. destruct (Hcells i Hi) as [_ H]. rewrite H.
      destruct (Z.ltb_spec i (2 ^ p)); [reflexivity|lia].
Qed.

Lemma even_or_odd (i n : Z) :
  0 <= i < 2 * n -> exists x, 0 <= x < n /\ (i = 2 * x \/ i = 2 * x + 1).
Proof.
  intro Hi. exists (i / 2). pose proof (Z.div_mod i 2 ltac:(lia)).
  pose proof (Z.mod_pos_bound i 2 ltac:(lia)). lia.
Qed.

Lemma swap_spec (fuel : nat) :
  forall (p ba oa sa bb ob sb : Z) (m : mem T),
    0 <= p -> p <= 8 + Z.of_nat fuel -> sa <> 0 -> sb <> 0 ->
    disjoint_views ba oa sa bb ob sb (2 ^ p) ->
    exists m',
      bitreversal_swap_fuel cfg fuel p (Ptr ba oa) sa (Ptr bb ob) sb m = Ok tt m' /\
      swapped p ba oa sa bb ob sb m m'.
Proof.
  induction fuel as [|fuel IH]; intros p ba oa sa bb ob sb m Hp Hf Hsa Hsb Hd;
    cbn [bitreversal_swap_fuel]; destruct (Z.leb_spec p 8) as [Hle|Hgt];
    try (apply swap_direct; [lia|assumption|assumption|assumption]); [lia|].
  rewrite shiftr_pow2_half by lia. cbn [padd].
  pose proof (pow2_succ p ltac:(lia)) as Hpow.
  pose proof (pow2_pos (p - 1) ltac:(lia)) as Hh.
  set (h := 2 ^ (p - 1)) in *.
  destruct (IH (p - 1) ba oa (2 * sa) bb ob sb m) as (m1 & Hrun1 & S1a & S1b & F1);
    [lia|lia|lia|assumption| |].
  { intros i j Hi Hj Hb Heq. apply (Hd (2 * i) j); [lia|lia|assumption|lia]. }
  destruct (IH (p - 1) ba (oa + sa) (2 * sa) bb (ob + h * sb) sb m1)
    as (m2 & Hrun2 & S2a & S2b & F2); [lia|lia|lia|assumption| |].
  { intros i j Hi Hj Hb Heq. apply (Hd (2 * i + 1) (h + j)); [lia|lia|assumption|lia]. }
  exists m2. split; [rewrite (bind_run _ _ _ _ _ Hrun1); exact Hrun2|].
  fold h in S1a, S1b, F1, S2a, S2b, F2.
  assert (Hrevr : forall x, 0 <= x < h -> 0 <= rev (p - 1) x < h)
    by (intros x _; apply rev_range; lia).
  split; [|split].
  - intros i Hi. destruct (even_or_odd i h ltac:(lia)) as (x & Hx & [-> | ->]).
    + rewrite rev_even by (fold h; lia).
      rewrite <- (S1a x Hx), cell_even. unfold cell. apply F2.
      * intros _ k Hk Heq. assert (2 * x = 2 * k + 1); [|lia].
        apply (addr_inj oa sa); [assumption|lia].
      * intros Hb k Hk Heq. apply (Hd (2 * x) (h + k)); [lia|lia|congruence|lia].
    + rewrite rev_odd by (fold h; lia). fold h.
      rewrite <- cell_odd, (S2a x Hx), cell_shift. unfold cell. apply F1.
      * intros Hb k Hk Heq. apply (Hd (2 * k) (h + rev (p - 1) x));
          [lia|specialize (Hrevr x Hx); lia|congruence|lia].
      * intros _ k Hk Heq. assert (h + rev (p - 1) x = k); [|specialize (Hrevr x Hx); lia].
        apply (addr_inj ob sb); [assumption|lia].
  - intros i Hi. destruct (even_or_odd i h ltac:(lia)) as (x & Hx & [-> | ->]).
    + rewrite rev_even by (fold h; lia).
      rewrite <- cell_even, <- (S1b x Hx). unfold cell. apply F2.
      * intros Hb k Hk Heq. apply (Hd (2 * k + 1) (rev (p - 1) x));
          [lia|specialize (Hrevr x Hx); lia|congruence|lia].
      * intros _ k Hk Heq. assert (rev (p - 1) x = h + k); [|specialize (Hrevr x Hx); lia].
        apply (addr_inj ob sb); [assumption|lia].
    + rewrite rev_odd by (fold h; lia). fold h.
      rewrite <- cell_shift, (S2b x Hx), cell_odd. unfold cell. apply F1.
      * intros _ k Hk Heq. assert (2 * x + 1 = 2 * k); [|lia].
        apply (addr_inj oa sa); [assumption|lia].
      * intros Hb k Hk Heq. apply (Hd (2 * x + 1) k); [lia|lia|congruence|lia].
  - intros b' o' HA HB. rewrite F2, F1; try reflexivity.
    + intros Hb k Hk Heq. apply (HA Hb (2 * k)); lia.
    + intros Hb k Hk Heq. apply (HB Hb k); lia.
    + intros Hb k Hk Heq. apply (HA Hb (2 * k + 1)); lia.
    + intros Hb k Hk Heq. apply (HB Hb (h + k)); lia.
Qed.

Lemma dbcF_bitreversal_swap_spec (p ba oa sa bb ob sb : Z) (m : mem T) :
  0 <= p -> sa <> 0 -> sb <> 0 ->
  disjoint_views ba oa sa bb ob sb (2 ^ p) ->
  exists m',
    dbcF_bitreversal_swap cfg p (Ptr ba oa) sa (Ptr bb ob) sb m = Ok tt m' /\
    swapped p ba oa sa bb ob sb m m'.
Proof. intros. apply swap_spec; try assumption. lia. Qed.

End Exchange.

(** * Doubly nested loops that move elements *)

Lemma radix_inj (P a c a' c' : Z) :
  0 <= c < P -> 0 <= c' < P -> a * P + c = a' * P + c' -> a = a' /\ c = c'.
Proof.
  intros Hc Hc' H.
  assert (a = a').
  { destruct (Z.lt_trichotomy a a') as [Hlt|[Heq|Hgt]]; [|exact Heq|]; exfalso; nia. }
  subst a'. split; [reflexivity|lia].
Qed.

Lemma radix_range (P n a c : Z) : 0 <= a < n -> 0 <= c < P -> 0 <= a * P + c < n * P.
Proof. intros. nia. Qed.

Section Nested.

Context {T : Type}.

Lemma for_loop2_inv (I : Z -> mem T -> Prop) (n1 n2 : Z) (body : Z -> Z -> M T unit)
    (m : mem T) :
  0 <= n1 -> 0 <= n2 ->
  I 0 m ->
  (forall i j m, 0 <= i < n1 -> 0 <= j < n2 -> I (i * n2 + j) m ->
     exists m', body i j m = Ok tt m' /\ I (i * n2 + j + 1) m') ->
  exists m', for_loop 0 n1 (fun i => for_loop 0 n2 (body i)) m = Ok tt m' /\ I (n1 * n2) m'.
Proof.
  intros H1 H2 H0 Hstep.
  apply (for_loop_inv (fun i m => I (i * n2) m)); [lia|exact H0|].
  intros i m0 Hi HI.
  destruct (for_loop_inv (fun j m => I (i * n2 + j) m) 0 n2 (body i) m0) as (m1 & Hrun & HI1).
  - lia.
  - rewrite Z.add_0_r. exact HI.
  - intros j m1 Hj HJ. destruct (Hstep i j m1 Hi Hj HJ) as (m2 & Hb & HI2).
    exists m2. split; [exact Hb|]. replace (i * n2 + (j + 1)) with (i * n2 + j + 1) by lia.
    exact HI2.
  - exists m1. split; [exact Hrun|].
    replace ((i + 1) * n2) with (i * n2 + n2) by ring. exact HI1.
Qed.

(** [dst[fd i j] = src[fs i j]] for all [i], [j]. *)
Lemma gather2 (bs os : Z) (fs : Z -> Z -> Z) (bd od : Z) (fd : Z -> Z -> Z)
    (n1 n2 : Z) (m : mem T) :
  0 <= n1 -> 0 <= n2 ->
  (forall i j i' j', 0 <= i < n1 -> 0 <= j < n2 -> 0 <= i' < n1 -> 0 <= j' < n2 ->
     fd i j = fd i' j' -> i = i' /\ j = j') ->
  (forall i j i' j', 0 <= i < n1 -> 0 <= j < n2 -> 0 <= i' < n1 -> 0 <= j' < n2 ->
     bs = bd -> os + fs i j <> od + fd i' j') ->
  exists m',
    for_loop 0 n1 (fun i => for_loop 0 n2 (fun j =>
      v <- aref (Ptr bs os) (fs i j) ;; aset (Ptr bd od) (fd i j) v)) m = Ok tt m' /\
    (forall i j, 0 <= i < n1 -> 0 <= j < n2 ->
       cells m' bd (od + fd i j) = cells m bs (os + fs i j)) /\
    (forall b o, (b = bd -> forall i j, 0 <= i < n1 -> 0 <= j < n2 -> o <> od + fd i j) ->
       cells m' b o = cells m b o).
Proof.
  intros H1 H2 Hinj Hdisj.
  set (Inv := fun (u : Z) (m' : mem T) =>
    (forall i j, 0 <= i < n1 -> 0 <= j < n2 -> i * n2 + j < u ->
       cells m' bd (od + fd i j) = cells m bs (os + fs i j)) /\
    (forall b o, (b = bd -> forall i j, 0 <= i < n1 -> 0 <= j < n2 -> i * n2 + j < u ->
                          o <> od + fd i j) ->
       cells m' b o = cells m b o)).
  destruct (for_loop2_inv Inv n1 n2
              (fun i j => v <- aref (Ptr bs os) (fs i j) ;; aset (Ptr bd od) (fd i j) v) m
              H1 H2) as (m' & Hrun & Hdone & Hrest).
  - split; [intros i j Hi Hj Hu; nia|]. intros b o _. reflexivity.
  - intros i j m1 Hi Hj [Hd Hr]. run_exists. split.
    + intros i' j' Hi' Hj' Hu.
      destruct (Z.eq_dec (i' * n2 + j') (i * n2 + j)) as [Heq|Hne].
      * apply radix_inj in Heq; [|lia|lia]. destruct Heq as [-> ->].
        rewrite cells_set_same. apply Hr.
        intros Hb i0 j0 Hi0 Hj0 _. apply Hdisj; assumption.
      * rewrite cells_set_other.
        -- apply Hd; [assumption|assumption|lia].
        -- right. intro Heq. apply Hne.
           assert (fd i' j' = fd i j) by lia.
           destruct (Hinj i' j' i j) as [-> ->]; try assumption. reflexivity.
    + intros b o Hout. rewrite cells_set_other.
      * apply Hr. intros Hb i0 j0 Hi0 Hj0 Hu. apply Hout; try assumption. lia.
      * destruct (Z.eq_dec b bd) as [Hb|Hb]; [right|left; exact Hb].
        apply Hout; try assumption. lia.
  - exists m'. split; [exact Hrun|]. split.
    + intros i j Hi Hj. apply Hdone; try assumption. nia.
    + intros b o Hout. apply Hrest. intros Hb i j Hi Hj _. apply Hout; assumption.
Qed.

(** [a[fa i j]] and [b[fb i j]] change places for all [i], [j]. *)
Lemma exchange2 (ba oa : Z) (fa : Z -> Z -> Z) (bb ob : Z) (fb : Z -> Z -> Z)
    (n1 n2 : Z) (m : mem T) :
  0 <= n1 -> 0 <= n2 ->
  (forall i j i' j', 0 <= i < n1 -> 0 <= j < n2 -> 0 <= i' < n1 -> 0 <= j' < n2 ->
     fa i j = fa i' j' -> i = i' /\ j = j') ->
  (forall i j i' j', 0 <= i < n1 -> 0 <= j < n2 -> 0 <= i' < n1 -> 0 <= j' < n2 ->
     fb i j = fb i' j' -> i = i' /\ j = j') ->
  ba <> bb ->
  exists m',
    for_loop 0 n1 (fun i => for_loop 0 n2 (fun j =>
      t <- aref (Ptr ba oa) (fa i j) ;;
      v <- aref (Ptr bb ob) (fb i j) ;;
      aset (Ptr ba oa) (fa i j) v ;;
      aset (Ptr bb ob) (fb i j) t)) m = Ok tt m' /\
    (forall i j, 0 <= i < n1 -> 0 <= j < n2 ->
       cells m' ba (oa + fa i j) = cells m bb (ob + fb i j) /\
       cells m' bb (ob + fb i j) = cells m ba (oa + fa i j)) /\
    (forall b o,
       (b = ba -> forall i j, 0 <= i < n1 -> 0 <= j < n2 -> o <> oa + fa i j) ->
       (b = bb -> forall i j, 0 <= i < n1 -> 0 <= j < n2 -> o <> ob + fb i j) ->
       cells m' b o = cells m b o).
Proof.
  intros H1 H2 Hia Hib Hab.
  set (Inv := fun (u : Z) (m' : mem T) =>
    (forall i j, 0 <= i < n1 -> 0 <= j < n2 ->
       if i * n2 + j <? u
       then cells m' ba (oa + fa i j) = cells m bb (ob + fb i j) /\
            cells m' bb (ob + fb i j) = cells m ba (oa + fa i j)
       else cells m' ba (oa + fa i j) = cells m ba (oa + fa i j) /\
            cells m' bb (ob + fb i j) = cells m bb (ob + fb i j)) /\
    (forall b o,
       (b = ba -> forall i j, 0 <= i < n1 -> 0 <= j < n2 -> o <> oa + fa i j) ->
       (b = bb -> forall i j, 0 <= i < n1 -> 0 <= j < n2 -> o <> ob + fb i j) ->
       cells m' b o = cells m b o)).
  destruct (for_loop2_inv Inv n1 n2
              (fun i j =>
                 t <- aref (Ptr ba oa) (fa i j) ;;
                 v <- aref (Ptr bb ob) (fb i j) ;;
                 aset (Ptr ba oa) (fa i j) v ;;
                 aset (Ptr bb ob) (fb i j) t) m H1 H2) as (m' & Hrun & Hdone & Hrest).
  - split; [|intros b o _ _; reflexivity].
    intros i j Hi Hj. destruct (Z.ltb_spec (i * n2 + j) 0); [nia|]. split; reflexivity.
  - intros i j m1 Hi Hj [Hd Hr]. run_exists. split.
    + intros i' j' Hi' Hj'.
      pose proof (Hd i j Hi Hj) as Hcur. pose proof (Hd i' j' Hi' Hj') as Hoth.
      destruct (Z.ltb_spec (i * n2 + j) (i * n2 + j)); [lia|]. destruct Hcur as [Hca Hcb].
      destruct (Z.eq_dec (i' * n2 + j') (i * n2 + j)) as [Heq|Hne].
      * apply radix_inj in Heq; [|lia|lia]. destruct Heq as [-> ->].
        destruct (Z.ltb_spec (i * n2 + j) (i * n2 + j + 1)); [|lia].
        rewrite cells_set_same.
        rewrite cells_set_other by (left; exact Hab). rewrite cells_set_same.
        split; assumption.
      * assert (Na : fa i' j' <> fa i j).
        { intro Heq. apply Hne. destruct (Hia i' j' i j) as [-> ->]; try assumption.
          reflexivity. }
        assert (Nb : fb i' j' <> fb i j).
        { intro Heq. apply Hne. destruct (Hib i' j' i j) as [-> ->]; try assumption.
          reflexivity. }
        rewrite (cells_set_other _ bb _ _ ba) by (left; exact Hab).
        rewrite (cells_set_other _ ba _ _ ba) by (right; lia).
        rewrite (cells_set_other _ bb _ _ bb) by (right; lia).
        rewrite (cells_set_other _ ba _ _ bb) by (left; congruence).
        destruct (Z.ltb_spec (i' * n2 + j') (i * n2 + j));
          destruct (Z.ltb_spec (i' * n2 + j') (i * n2 + j + 1)); try lia; exact Hoth.
    + intros b o HA HB.
      rewrite cells_set_other.
      2:{ destruct (Z.eq_dec b bb) as [Hb|Hb]; [right|left; exact Hb].
          apply HB; assumption. }
      rewrite cells_set_other.
      2:{ destruct (Z.eq_dec b ba) as [Hb|Hb]; [right|left; exact Hb].
          apply HA; assumption. }
      apply Hr; assumption.
  - exists m'. split; [exact Hrun|]. split; [|exact Hrest].
    intros i j Hi Hj. pose proof (Hdone i j Hi Hj) as H.
    destruct (Z.ltb_spec (i * n2 + j) (n1 * n2)); [exact H|nia].
Qed.

End Nested.

(** * The blocked in-place algorithm of Carter and Gatlin *)

Section Blocked.

Context {T : Type} {E : Elem T} (cfg : Config).

(** [p] is [log2n], [w] is [log2m = log2n - 2*Q]. *)
Variables (p w : Z).
Hypothesis HQ : 1 <= DBCF_Q cfg.
Hypothesis Hw : 0 <= w.
Hypothesis Hp : p = w + 2 * DBCF_Q cfg.

Let Qv : Z := DBCF_Q cfg.
Let P2 : Z := 2 ^ Qv.
Let Mm : Z := 2 ^ w.

Lemma P2_pos : 0 < P2.
Proof. apply pow2_pos. unfold Qv. lia. Qed.

Lemma Mm_pos : 0 < Mm.
Proof. apply pow2_pos. exact Hw. Qed.

Lemma pow_p : 2 ^ p = P2 * (Mm * P2).
Proof.
  unfold P2, Mm, Qv. rewrite Hp. rewrite <- !Z.pow_add_r by lia. f_equal. lia.
Qed.

Lemma pow_pQ : 2 ^ (p - Qv) = Mm * P2.
Proof.
  unfold P2, Mm, Qv. rewrite Hp. rewrite <- !Z.pow_add_r by lia. f_equal. lia.
Qed.

Lemma cg_tmp_index_eq (a c : Z) : 0 <= c < P2 -> cg_tmp_index cfg a c = a * P2 + c.
Proof. intro Hc. unfold cg_tmp_index. apply shiftl_lxor_add; [lia|exact Hc]. Qed.

Lemma cg_tile_index_eq (a b c : Z) :
  0 <= b < Mm -> 0 <= c < P2 -> cg_tile_index cfg p a b c = tile_idx Mm P2 a b c.
Proof.
  intros Hb Hc. unfold cg_tile_index, tile_idx. fold Qv.
  pose proof P2_pos. pose proof Mm_pos.
  rewrite (Z.shiftl_mul_pow2 b Qv) by (unfold Qv; lia). fold P2.
  rewrite (shiftl_lxor_add a (b * P2) (p - Qv)).
  - rewrite pow_pQ.
    replace (a * (Mm * P2) + b * P2) with ((a * Mm + b) * P2) by ring.
    rewrite <- (Z.shiftl_mul_pow2 _ Qv) by (unfold Qv; lia).
    rewrite shiftl_lxor_add by (unfold Qv; lia || exact Hc).
    rewrite Z.shiftl_mul_pow2 by (unfold Qv; lia). reflexivity.
  - unfold Qv. lia.
  - rewrite pow_pQ. nia.
Qed.

Lemma tile_idx_range (a b c : Z) :
  0 <= a < P2 -> 0 <= b < Mm -> 0 <= c < P2 -> 0 <= tile_idx Mm P2 a b c < 2 ^ p.
Proof. intros Ha Hb Hc. rewrite pow_p. unfold tile_idx. nia. Qed.

Lemma tile_idx_inj (a b c a' b' c' : Z) :
  0 <= b < Mm -> 0 <= c < P2 -> 0 <= b' < Mm -> 0 <= c' < P2 ->
  tile_idx Mm P2 a b c = tile_idx Mm P2 a' b' c' -> a = a' /\ b = b' /\ c = c'.
Proof.
  intros Hb Hc Hb' Hc' H. unfold tile_idx in H.
  replace (a * (Mm * P2) + b * P2 + c) with ((a * Mm + b) * P2 + c) in H by ring.
  replace (a' * (Mm * P2) + b' * P2 + c') with ((a' * Mm + b') * P2 + c') in H by ring.
  apply radix_inj in H; [|assumption|assumption]. destruct H as [H1 H2].
  apply radix_inj in H1; [|assumption|assumption]. tauto.
Qed.

Lemma tile_idx_decomp (k : Z) :
  0 <= k < 2 ^ p ->
  exists a b c, 0 <= a < P2 /\ 0 <= b < Mm /\ 0 <= c < P2 /\ k = tile_idx Mm P2 a b c.
Proof.
  intro Hk. rewrite pow_p in Hk. pose proof P2_pos. pose proof Mm_pos.
  exists (k / (Mm * P2)), ((k / P2) mod Mm), (k mod P2).
  assert (HMP : 0 < Mm * P2) by nia.
  pose proof (Z.mod_pos_bound k P2 ltac:(lia)).
  pose proof (Z.mod_pos_bound (k / P2) Mm ltac:(lia)).
  pose proof (Z.div_mod k P2 ltac:(lia)) as D1.
  pose proof (Z.div_mod (k / P2) Mm ltac:(lia)) as D2.
  assert (D3 : k / P2 / Mm = k / (Mm * P2)).
  { rewrite Z.div_div by lia. f_equal. ring. }
  rewrite D3 in D2.
  assert (R : 0 <= k / (Mm * P2) < P2).
  { split; [apply Z.div_pos; lia|]. apply Z.div_lt_upper_bound; [lia|]. nia. }
  repeat split; try lia. unfold tile_idx. nia.
Qed.

Lemma rev_tile_idx (a b c : Z) :
  0 <= a < P2 -> 0 <= b < Mm -> 0 <= c < P2 ->
  rev p (tile_idx Mm P2 a b c) = tile_idx Mm P2 (rev Qv c) (rev w b) (rev Qv a).
Proof.
  intros Ha Hb Hc. unfold rev, tile_idx.
  replace (Z.to_nat p) with (Z.to_nat Qv + Z.to_nat w + Z.to_nat Qv)%nat
    by (unfold Qv; lia).
  assert (E1 : 2 ^ Z.of_nat (Z.to_nat w + Z.to_nat Qv) = Mm * P2).
  { unfold Mm, P2. rewrite <- Z.pow_add_r by (unfold Qv; lia). f_equal. unfold Qv. lia. }
  assert (E2 : 2 ^ Z.of_nat (Z.to_nat Qv) = P2).
  { unfold P2. f_equal. unfold Qv. lia. }
  assert (E3 : 2 ^ Z.of_nat (Z.to_nat w) = Mm).
  { unfold Mm. f_equal. lia. }
  rewrite <- E1, <- E2.
  rewrite rev_bits_tile; rewrite ?E2, ?E3; try assumption. reflexivity.
Qed.

Variables (bd od sd bt ot : Z).
Hypothesis Hsd : sd <> 0.
Hypothesis Hbt : bd <> bt.

Lemma rev_Q_range (a : Z) : 0 <= rev Qv a < P2.
Proof. apply rev_range. unfold Qv. lia. Qed.

Lemma bitrev_Q (a : Z) :
  0 <= a < P2 -> dbcF_bitreverse cfg a (DBCF_Q cfg) = rev (DBCF_Q cfg) a.
Proof. intro Ha. apply bitreverse_rev; [lia|exact Ha]. Qed.

Lemma rev_invol_Q (a : Z) : 0 <= a < P2 -> rev (DBCF_Q cfg) (rev (DBCF_Q cfg) a) = a.
Proof. intro Ha. apply rev_invol; [lia|exact Ha]. Qed.

Lemma rev_inj_Q (a a' : Z) :
  0 <= a < P2 -> 0 <= a' < P2 -> rev (DBCF_Q cfg) a = rev (DBCF_Q cfg) a' -> a = a'.
Proof. intros Ha Ha'. apply rev_inj; [lia|exact Ha|exact Ha']. Qed.

Lemma tmp_inj (a c a' c' : Z) :
  0 <= c < P2 -> 0 <= c' < P2 ->
  cg_tmp_index cfg a c = cg_tmp_index cfg a' c' -> a = a' /\ c = c'.
Proof.
  intros Hc Hc' H. rewrite !cg_tmp_index_eq in H by assumption.
  apply radix_inj in H; assumption.
Qed.

Lemma tile_addr_inj (a b c a' b' c' : Z) :
  0 <= b < Mm -> 0 <= c < P2 -> 0 <= b' < Mm -> 0 <= c' < P2 ->
  od + tile_idx Mm P2 a b c * sd = od + tile_idx Mm P2 a' b' c' * sd -> a = a' /\ b = b' /\ c = c'.
Proof.
  intros Hb Hc Hb' Hc' H. apply addr_inj in H; [|exact Hsd].
  apply tile_idx_inj in H; assumption.
Qed.

Lemma cg_block_spec (b : Z) (X : mem T) :
  0 <= b < Mm ->
  exists Y,
    cg_block cfg p w (Ptr bd od) sd (Ptr bt ot) b X = Ok tt Y /\
    if rev w b <? b then Y = X else block_done p w Qv P2 Mm bd od sd bt b X Y.
Proof.
  intro Hb. unfold cg_block. rewrite bitreverse_rev by (fold Mm; lia).
  pose proof (rev_range w b Hw) as Hib. fold Mm in Hib.
  pose proof (rev_invol w b Hw Hb) as Hibb.
  remember (rev w b) as ib eqn:Eib.
  pose proof P2_pos as HP2.
  rewrite POW2_eq. fold Qv. fold P2.
  destruct (Z.ltb_spec ib b) as [Hlt|Hge]; [exists X; split; reflexivity|].
  (* the tile is copied to the scratch *)
  destruct (gather2 bd od (fun a c => cg_tile_index cfg p a b c * sd)
              bt ot (fun a c => cg_tmp_index cfg a c) P2 P2 X) as (m1 & Hrun1 & G1 & F1);
    [lia|lia| | |].
  { intros a c a' c' _ Hc _ Hc' H. apply tmp_inj in H; assumption. }
  { intros a c a' c' _ _ _ _ Hbb. exfalso. apply Hbt. exact Hbb. }
  (* the tile is exchanged with the mirror tile *)
  destruct (exchange2 bd od
              (fun c a => cg_tile_index cfg p (dbcF_bitreverse cfg c Qv) ib
                                        (dbcF_bitreverse cfg a Qv) * sd)
              bt ot (fun c a => cg_tmp_index cfg a c) P2 P2 m1)
    as (m2 & Hrun2 & G2 & F2); [lia|lia| | |exact Hbt|].
  { intros c a c' a' Hc Ha Hc' Ha' H.
    rewrite !bitrev_Q in H by assumption.
    rewrite !cg_tile_index_eq in H by (try apply rev_Q_range; assumption).
    assert (H' : od + tile_idx Mm P2 (rev Qv c) ib (rev Qv a) * sd
                 = od + tile_idx Mm P2 (rev Qv c') ib (rev Qv a') * sd)
      by (f_equal; exact H).
    apply tile_addr_inj in H'; try apply rev_Q_range; try assumption.
    destruct H' as (H1 & _ & H2).
    split; apply rev_inj_Q; assumption. }
  { intros c a c' a' Hc Ha Hc' Ha' H. apply tmp_inj in H; try assumption. tauto. }
  (* facts about [m2], in terms of [X] *)
  assert (T2 : forall a c, 0 <= a < P2 -> 0 <= c < P2 ->
            cells m2 bt (ot + cg_tmp_index cfg a c)
            = cell X bd od sd (tile_idx Mm P2 (rev Qv c) ib (rev Qv a))).
  { intros a c Ha Hc. destruct (G2 c a Hc Ha) as [_ H]. rewrite H.
    rewrite !bitrev_Q by assumption.
    rewrite cg_tile_index_eq by (try apply rev_Q_range; assumption).
    unfold cell. apply F1. intros Hbb. exfalso. apply Hbt. exact Hbb. }
  assert (D2 : forall a c, 0 <= a < P2 -> 0 <= c < P2 ->
            cell m2 bd od sd (tile_idx Mm P2 a ib c)
            = cell X bd od sd (tile_idx Mm P2 (rev Qv c) b (rev Qv a))).
  { intros a c Ha Hc.
    destruct (G2 (rev Qv a) (rev Qv c) (rev_Q_range a) (rev_Q_range c)) as [H _].
    rewrite !bitrev_Q in H by apply rev_Q_range.
    rewrite !rev_invol_Q in H by assumption.
    rewrite cg_tile_index_eq in H by assumption.
    unfold cell at 1. rewrite H. rewrite G1 by apply rev_Q_range.
    rewrite cg_tile_index_eq by (try apply rev_Q_range; assumption). reflexivity. }
  assert (O2 : forall a b' c, 0 <= a < P2 -> 0 <= b' < Mm -> 0 <= c < P2 -> b' <> ib ->
            cell m2 bd od sd (tile_idx Mm P2 a b' c) = cell X bd od sd (tile_idx Mm P2 a b' c)).
  { intros a b' c Ha Hb' Hc Hne. unfold cell. rewrite F2.
    - apply F1. intros Hbb. exfalso. apply Hbt. exact Hbb.
    - intros _ c0 a0 Hc0 Ha0 H.
      rewrite !bitrev_Q in H by assumption.
      rewrite cg_tile_index_eq in H by (try apply rev_Q_range; assumption).
      apply tile_addr_inj in H; try apply rev_Q_range; try assumption. tauto.
    - intros Hbb. exfalso. apply Hbt. exact Hbb. }
  assert (Fr2 : frame bt bd od sd (2 ^ p) X m2).
  { intros b' o' Hb' Hout. rewrite F2.
    - apply F1. intros Hbb. exfalso. apply Hb'. exact Hbb.
    - intros Hbb c0 a0 Hc0 Ha0.
      rewrite !bitrev_Q by assumption.
      rewrite cg_tile_index_eq by (try apply rev_Q_range; assumption).
      apply Hout; [exact Hbb|]. apply tile_idx_range; try apply rev_Q_range; assumption.
    - intros Hbb. exfalso. apply Hb'. exact Hbb. }
  destruct (Z.eqb_spec b ib) as [Heq|Hne]; cbn [negb].
  - (* the tile is its own mirror *)
    exists m2. split.
    { rewrite (bind_run _ _ _ _ _ Hrun1). rewrite (bind_run _ _ _ _ _ Hrun2). reflexivity. }
    assert (Hrb : rev w b = b) by congruence.
    unfold block_done. rewrite Hrb. rewrite <- Heq in D2, O2.
    split; [exact D2|]. split; [exact D2|]. split; [|exact Fr2].
    intros a b' c Ha Hb' Hc Hn1 _. apply O2; assumption.
  - (* the scratch is copied back *)
    destruct (gather2 bt ot (fun a c => cg_tmp_index cfg a c)
                bd od (fun a c => cg_tile_index cfg p a b c * sd) P2 P2 m2)
      as (m3 & Hrun3 & G3 & F3); [lia|lia| | |].
    { intros a c a' c' Ha Hc Ha' Hc' H.
      rewrite !cg_tile_index_eq in H by assumption.
      assert (H' : od + tile_idx Mm P2 a b c * sd = od + tile_idx Mm P2 a' b c' * sd)
        by (f_equal; exact H).
      apply tile_addr_inj in H'; try assumption. tauto. }
    { intros a c a' c' _ _ _ _ Hbb. exfalso. apply Hbt. symmetry. exact Hbb. }
    exists m3. split.
    { rewrite (bind_run _ _ _ _ _ Hrun1). rewrite (bind_run _ _ _ _ _ Hrun2). exact Hrun3. }
    assert (K3 : forall a b' c, 0 <= a < P2 -> 0 <= b' < Mm -> 0 <= c < P2 -> b' <> b ->
              cell m3 bd od sd (tile_idx Mm P2 a b' c) = cell m2 bd od sd (tile_idx Mm P2 a b' c)).
    { intros a b' c Ha Hb' Hc Hn. unfold cell. apply F3.
      intros _ a0 c0 Ha0 Hc0 H. rewrite cg_tile_index_eq in H by assumption.
      apply tile_addr_inj in H; try assumption. tauto. }
    unfold block_done. rewrite <- Eib.
    split; [|split; [|split]].
    + intros a c Ha Hc. unfold cell at 1. rewrite <- cg_tile_index_eq by assumption.
      rewrite G3 by assumption. apply T2; assumption.
    + intros a c Ha Hc. rewrite K3 by (try assumption; lia). apply D2; assumption.
    + intros a b' c Ha Hb' Hc Hn1 Hn2. rewrite K3 by assumption. apply O2; assumption.
    + intros b' o' Hb' Hout. rewrite F3.
      * apply Fr2; assumption.
      * intros Hbb a0 c0 Ha0 Hc0. rewrite cg_tile_index_eq by assumption.
        apply Hout; [exact Hbb|]. apply tile_idx_range; assumption.
Qed.

Lemma cg_loop_spec (X : mem T) :
  exists Y,
    for_loop 0 (DBCF_POW2 w) (cg_block cfg p w (Ptr bd od) sd (Ptr bt ot)) X = Ok tt Y /\
    permuted p bd od sd X Y /\ frame bt bd od sd (2 ^ p) X Y.
Proof.
  rewrite POW2_eq. fold Mm. pose proof Mm_pos as HM. pose proof P2_pos as HP2.
  set (Inv := fun (t : Z) (m : mem T) =>
    (forall a b' c, 0 <= a < P2 -> 0 <= b' < Mm -> 0 <= c < P2 ->
       cell m bd od sd (tile_idx Mm P2 a b' c)
       = if (b' <? t) || (rev w b' <? t)
         then cell X bd od sd (tile_idx Mm P2 (rev Qv c) (rev w b') (rev Qv a))
         else cell X bd od sd (tile_idx Mm P2 a b' c)) /\
    frame bt bd od sd (2 ^ p) X m).
  destruct (for_loop_inv Inv 0 Mm (cg_block cfg p w (Ptr bd od) sd (Ptr bt ot)) X)
    as (Y & Hrun & Hcells & Hframe).
  - lia.
  - split; [|apply frame_refl]. intros a b' c Ha Hb' Hc.
    pose proof (rev_range w b' Hw).
    destruct (Z.ltb_spec b' 0); [lia|]. destruct (Z.ltb_spec (rev w b') 0); [lia|]. reflexivity.
  - intros b m1 Hb [Hc Hf].
    destruct (cg_block_spec b m1 Hb) as (m2 & Hrun2 & Hspec).
    exists m2. split; [exact Hrun2|].
    pose proof (rev_range w b Hw) as Hrb. fold Mm in Hrb.
    pose proof (rev_invol w b Hw Hb) as Hrrb.
    destruct (Z.ltb_spec (rev w b) b) as [Hlt|Hge].
    + subst m2. split; [|exact Hf].
      intros a b' c Ha Hb' Hc'. rewrite Hc by assumption.
      pose proof (rev_range w b' Hw) as Hrb'. fold Mm in Hrb'.
      assert (rev w b' = b -> b' < b).
      { intro Heq. assert (b' = rev w b); [|lia].
        rewrite <- (rev_invol w b' Hw Hb'). rewrite Heq. reflexivity. }
      destruct (Z.eq_dec b' b) as [->|Hne].
      * destruct (Z.ltb_spec b b); [lia|]. destruct (Z.ltb_spec b (b + 1)); [|lia].
        destruct (Z.ltb_spec (rev w b) b); [|lia]. reflexivity.
      * destruct (Z.ltb_spec b' b); destruct (Z.ltb_spec b' (b + 1)); try lia;
          destruct (Z.ltb_spec (rev w b') b); destruct (Z.ltb_spec (rev w b') (b + 1));
          try lia; reflexivity.
    + destruct Hspec as (D1 & D2 & D3 & D4). split; [|eapply frame_trans; eassumption].
      intros a b' c Ha Hb' Hc'.
      pose proof (rev_range w b' Hw) as Hrb'. fold Mm in Hrb'.
      pose proof (rev_invol w b' Hw Hb') as Hrrb'.
      destruct (Z.eq_dec b' b) as [->|Hne].
      * rewrite D1 by assumption. rewrite Hc by (try apply rev_Q_range; assumption).
        rewrite Hrrb.
        destruct (Z.ltb_spec (rev w b) b); [lia|]. destruct (Z.ltb_spec b b); [lia|].
        destruct (Z.ltb_spec b (b + 1)); [|lia]. reflexivity.
      * destruct (Z.eq_dec b' (rev w b)) as [->|Hne'].
        -- rewrite D2 by assumption. rewrite Hc by (try apply rev_Q_range; assumption).
           rewrite Hrrb.
           destruct (Z.ltb_spec b b); [lia|]. destruct (Z.ltb_spec (rev w b) b); [lia|].
           destruct (Z.ltb_spec b (b + 1)); [|lia]. cbn [orb]. rewrite orb_true_r. reflexivity.
        -- rewrite D3 by assumption. rewrite Hc by assumption.
           assert (rev w b' <> b).
           { intro Heq. apply Hne'. rewrite <- Hrrb', Heq. reflexivity. }
           destruct (Z.ltb_spec b' b); destruct (Z.ltb_spec b' (b + 1)); try lia;
             destruct (Z.ltb_spec (rev w b') b); destruct (Z.ltb_spec (rev w b') (b + 1));
             try lia; reflexivity.
  - exists Y. split; [exact Hrun|]. split; [|exact Hframe].
    apply permuted_of_pull; [lia|]. intros k Hk.
    destruct (tile_idx_decomp k Hk) as (a & b' & c & Ha & Hb' & Hc & ->).
    rewrite Hcells by assumption. rewrite rev_tile_idx by assumption.
    destruct (Z.ltb_spec b' Mm); [reflexivity|lia].
Qed.

End Blocked.

(** * The permutation routine, regime by regime *)

Section Regimes.

Context {T : Type} {E : Elem T} (cfg : Config).

Hypothesis Hasserts : static_asserts cfg.

Variables (bt ot : Z).

Lemma ptr_eqb_refl (q : ptr) : ptr_eqb q q = true.
Proof. destruct q as [|b o]; [reflexivity|]. cbn. rewrite !Z.eqb_refl. reflexivity. Qed.

Lemma ptr_eqb_neq (b o b' o' : Z) :
  (b = b' -> o <> o') -> ptr_eqb (Ptr b o) (Ptr b' o') = false.
Proof.
  intro H. cbn. destruct (Z.eqb_spec b b'); [|reflexivity].
  destruct (Z.eqb_spec o o'); [|reflexivity]. exfalso. apply H; assumption.
Qed.

Lemma frame_cell (b o s j o' s' n' : Z) (m m' : mem T) :
  frame bt b o' s' n' m m' -> b <> bt ->
  (forall k, 0 <= k < n' -> o + j * s <> o' + k * s') ->
  cell m' b o s j = cell m b o s j.
Proof. intros Hf Hb Hne. unfold cell. apply Hf; [exact Hb|]. intros _. exact Hne. Qed.

Lemma frame2_cell (b o s j oa sa ob sb n' : Z) (m m' : mem T) :
  frame2 b oa sa b ob sb n' m m' ->
  (forall k, 0 <= k < n' -> o + j * s <> oa + k * sa) ->
  (forall k, 0 <= k < n' -> o + j * s <> ob + k * sb) ->
  cell m' b o s j = cell m b o s j.
Proof. intros Hf Ha Hb. unfold cell. apply Hf; intros _; assumption. Qed.

Lemma four_cases (k h : Z) :
  0 <= k < 2 * h -> h = 2 * (h / 2) ->
  exists hi lo x, 0 <= hi < 2 /\ 0 <= lo < 2 /\ 0 <= x < h / 2 /\ k = hi * h + 2 * x + lo.
Proof.
  intros Hk Hh.
  destruct (Z.lt_ge_cases k h) as [Hlt|Hge].
  - exists 0, (k mod 2), (k / 2). Z.div_mod_to_equations. lia.
  - exists 1, ((k - h) mod 2), ((k - h) / 2). Z.div_mod_to_equations. lia.
Qed.

(** The in-place split: the exchange of the [0X1] and [1X0] elements and
    the two in-place permutations of the [0X0] and [1X1] elements make up
    the permutation of the whole. *)
Lemma split_compose (p b o s : Z) (m m1 m2 m3 : mem T) :
  1 < p -> s <> 0 -> b <> bt ->
  let h := 2 ^ (p - 1) in
  swapped (p - 2) b (o + s) (2 * s) b (o + h * s) (2 * s) m m1 ->
  permuted (p - 2) b o (2 * s) m1 m2 ->
  frame bt b o (2 * s) (2 ^ (p - 2)) m1 m2 ->
  permuted (p - 2) b (o + (h + 1) * s) (2 * s) m2 m3 ->
  frame bt b (o + (h + 1) * s) (2 * s) (2 ^ (p - 2)) m2 m3 ->
  permuted p b o s m m3 /\ frame bt b o s (2 ^ p) m m3.
Proof.
  intros Hp Hs Hb h (S1a & S1b & F1) P2 F2 P3 F3.
  assert (Hh : h = 2 * 2 ^ (p - 2)).
  { unfold h. rewrite (pow2_succ (p - 1)) by lia. do 2 f_equal. lia. }
  assert (Hn : 2 ^ p = 2 * h) by (unfold h; apply pow2_succ; lia).
  pose proof (pow2_pos (p - 2) ltac:(lia)) as Hq.
  set (q := 2 ^ (p - 2)) in *.
  assert (Hr : forall x, 0 <= rev (p - 2) x < q) by (intro x; apply rev_range; lia).
  assert (Hh2 : h / 2 = q) by (rewrite Hh, Z.mul_comm; apply Z.div_mul; lia).
  split.
  - intros k Hk.
    destruct (four_cases k h ltac:(lia)) as (hi & lo & x & Hhi & Hlo & Hx & ->).
    { rewrite Hh2. exact Hh. }
    rewrite Hh2 in Hx.
    rewrite rev_split4 by (fold q; lia). fold h.
    pose proof (Hr x) as Hrx.
    assert (Chi : hi = 0 \/ hi = 1) by lia. assert (Clo : lo = 0 \/ lo = 1) by lia.
    destruct Chi as [-> | ->]; destruct Clo as [-> | ->].
    + (* 0X0 *)
      replace (0 * h + 2 * (rev (p - 2) x) + 0) with (2 * (rev (p - 2) x)) by lia.
      replace (0 * h + 2 * x + 0) with (2 * x) by lia.
      rewrite (frame_cell _ _ _ _ _ _ _ _ _ F3 Hb).
      2:{ intros j Hj Heq. assert (2 * (rev (p - 2) x) = h + 1 + 2 * j); [|lia].
          apply (addr_inj o s); [assumption|lia]. }
      rewrite <- cell_even, (P2 x Hx), cell_even.
      apply (frame2_cell _ _ _ _ _ _ _ _ _ _ _ F1).
      * intros j Hj Heq. assert (2 * x = 1 + 2 * j); [|lia].
        apply (addr_inj o s); [assumption|lia].
      * intros j Hj Heq. assert (2 * x = h + 2 * j); [|lia].
        apply (addr_inj o s); [assumption|lia].
    + (* 0X1 *)
      replace (1 * h + 2 * (rev (p - 2) x) + 0) with (h + 2 * (rev (p - 2) x)) by lia.
      replace (0 * h + 2 * x + 1) with (2 * x + 1) by lia.
      rewrite (frame_cell _ _ _ _ _ _ _ _ _ F3 Hb).
      2:{ intros j Hj Heq. assert (h + 2 * (rev (p - 2) x) = h + 1 + 2 * j); [|lia].
          apply (addr_inj o s); [assumption|lia]. }
      rewrite (frame_cell _ _ _ _ _ _ _ _ _ F2 Hb).
      2:{ intros j Hj Heq. assert (h + 2 * (rev (p - 2) x) = 2 * j); [|lia].
          apply (addr_inj o s); [assumption|lia]. }
      rewrite <- cell_odd, <- (S1b x Hx). unfold cell. f_equal. ring.
    + (* 1X0 *)
      replace (0 * h + 2 * (rev (p - 2) x) + 1) with (2 * (rev (p - 2) x) + 1) by lia.
      replace (1 * h + 2 * x + 0) with (h + 2 * x) by lia.
      rewrite (frame_cell _ _ _ _ _ _ _ _ _ F3 Hb).
      2:{ intros j Hj Heq. assert (2 * (rev (p - 2) x) + 1 = h + 1 + 2 * j); [|lia].
          apply (addr_inj o s); [assumption|lia]. }
      rewrite (frame_cell _ _ _ _ _ _ _ _ _ F2 Hb).
      2:{ intros j Hj Heq. assert (2 * (rev (p - 2) x) + 1 = 2 * j); [|lia].
          apply (addr_inj o s); [assumption|lia]. }
      rewrite <- cell_odd, (S1a (rev (p - 2) x) Hrx). rewrite rev_invol by (fold q; lia).
      unfold cell. f_equal. ring.
    + (* 1X1 *)
      replace (1 * h + 2 * (rev (p - 2) x) + 1) with (h + 1 + 2 * (rev (p - 2) x)) by lia.
      replace (1 * h + 2 * x + 1) with (h + 1 + 2 * x) by lia.
      rewrite <- (cell_sub m3 b o s (h + 1) 2 (rev (p - 2) x)), (P3 x Hx), cell_sub.
      rewrite (frame_cell _ _ _ _ _ _ _ _ _ F2 Hb).
      2:{ intros j Hj Heq. assert (h + 1 + 2 * x = 2 * j); [|lia].
          apply (addr_inj o s); [assumption|lia]. }
      apply (frame2_cell _ _ _ _ _ _ _ _ _ _ _ F1).
      * intros j Hj Heq. assert (h + 1 + 2 * x = 1 + 2 * j); [|lia].
        apply (addr_inj o s); [assumption|lia].
      * intros j Hj Heq. assert (h + 1 + 2 * x = h + 2 * j); [|lia].
        apply (addr_inj o s); [assumption|lia].
  - intros b' o' Hb' Hout.
    rewrite F3; [rewrite F2; [apply F1|assumption|]|assumption|].
    + intros Hbb j Hj Heq. apply (Hout Hbb (1 + 2 * j)); lia.
    + intros Hbb j Hj Heq. apply (Hout Hbb (h + 2 * j)); lia.
    + intros Hbb j Hj Heq. apply (Hout Hbb (2 * j)); lia.
    + intros Hbb j Hj Heq. apply (Hout Hbb (h + 1 + 2 * j)); lia.
Qed.

Lemma Q_pos : 1 <= DBCF_Q cfg.
Proof. destruct Hasserts as (_ & H & _). lia. Qed.

(** ** In place *)

Lemma inplace_spec (fuel : nat) :
  forall (p b o s : Z) (m : mem T),
    0 <= p -> p <= Z.of_nat fuel -> s <> 0 -> b <> bt ->
    exists m',
      bitreversal_permutation_fuel cfg fuel p (Ptr b o) s (Ptr b o) s (Ptr bt ot) m
      = Ok tt m' /\
      permuted p b o s m m' /\ frame bt b o s (2 ^ p) m m'.
Proof.
  induction fuel as [|fuel IH]; intros p b o s m Hp Hf Hs Hb;
    cbn [bitreversal_permutation_fuel];
    (destruct (Z.eqb_spec s 0) as [|_]; [contradiction|]);
    rewrite ptr_eqb_refl;
    destruct (Z.leb_spec p 8) as [Hle|Hgt];
    try (apply inplace_direct; [lia|assumption]); [lia|].
  destruct ((p <=? 2 * DBCF_Q cfg + 2) || (p <=? 16)) eqn:Hsplit.
  - (* recursive split *)
    rewrite shiftr_pow2_half by lia. cbn [padd].
    pose proof (pow2_pos (p - 2) ltac:(lia)) as Hq.
    assert (Hh : 2 ^ (p - 1) = 2 * 2 ^ (p - 2)).
    { rewrite (pow2_succ (p - 1)) by lia. do 2 f_equal. lia. }
    destruct (dbcF_bitreversal_swap_spec cfg (p - 2) b (o + s) (2 * s)
                b (o + 2 ^ (p - 1) * s) (2 * s) m) as (m1 & Hrun1 & S1); [lia|lia|lia| |].
    { intros i j Hi Hj _ Heq. assert (1 + 2 * i = 2 ^ (p - 1) + 2 * j); [|lia].
      apply (addr_inj o s); [assumption|lia]. }
    destruct (IH (p - 2) b o (2 * s) m1) as (m2 & Hrun2 & P2 & F2); [lia|lia|lia|assumption|].
    destruct (IH (p - 2) b (o + (2 ^ (p - 1) + 1) * s) (2 * s) m2)
      as (m3 & Hrun3 & P3 & F3); [lia|lia|lia|assumption|].
    exists m3. split.
    { rewrite (bind_run _ _ _ _ _ Hrun1). rewrite (bind_run _ _ _ _ _ Hrun2). exact Hrun3. }
    apply (split_compose p b o s m m1 m2 m3); try assumption. lia.
  - (* blocked *)
    apply orb_false_iff in Hsplit. destruct Hsplit as [H1 _].
    apply Z.leb_gt in H1.
    apply (cg_loop_spec cfg p (p - 2 * DBCF_Q cfg)); try assumption.
    + apply Q_pos.
    + lia.
    + lia.
Qed.

(** ** Broadcast *)

Lemma broadcast_spec (p bs os bd od sd : Z) (m : mem T) :
  0 <= p ->
  exists m',
    (x <- aref (Ptr bs os) 0 ;;
     for_loop 0 (DBCF_POW2 p) (fun i => aset (Ptr bd od) (i * sd) x)) m = Ok tt m' /\
    (forall k, 0 <= k < 2 ^ p -> cell m' bd od sd k = cells m bs (os + 0)) /\
    frame bt bd od sd (2 ^ p) m m'.
Proof.
  intro Hp. run_mem. rewrite POW2_eq. pose proof (pow2_pos p Hp) as Hn.
  apply (for_loop_inv (fun t m' =>
           (forall k, 0 <= k < t -> cell m' bd od sd k = cells m bs (os + 0)) /\
           frame bt bd od sd (2 ^ p) m m')); [lia| |].
  - split; [intros k Hk; lia|apply frame_refl].
  - intros t m1 Ht [Hc Hf]. run_exists. split.
    + intros k Hk. destruct (Z.eq_dec (od + k * sd) (od + t * sd)) as [Heq|Hne].
      * unfold cell. rewrite Heq. apply cells_set_same.
      * rewrite cell_set_other by (right; exact Hne). apply Hc.
        assert (k <> t) by (intro; subst; contradiction). lia.
    + apply frame_set; [lia|exact Hf].
Qed.

(** ** Out of place *)

Lemma scatter_direct (p bs os ss bd od sd : Z) (m : mem T) :
  0 <= p <= 8 -> sd <> 0 -> bs <> bt ->
  disjoint_views bs os ss bd od sd (2 ^ p) ->
  exists m',
    for_loop 0 (DBCF_POW2 p) (fun i =>
      let j := rev_index cfg p i in
      x <- aref (Ptr bs os) (i * ss) ;;
      aset (Ptr bd od) (j * sd) x) m = Ok tt m' /\
    scattered p bs os ss bd od sd m m' /\ frame bt bd od sd (2 ^ p) m m'.
Proof.
  intros Hp Hsd Hbs Hd. rewrite POW2_eq. pose proof (pow2_pos p ltac:(lia)) as Hn.
  destruct (for_loop_inv (fun t m' =>
              (forall k, 0 <= k < t -> cell m' bd od sd (rev p k) = cell m bs os ss k) /\
              frame bt bd od sd (2 ^ p) m m') 0 (2 ^ p)
              (fun i =>
                 let j := rev_index cfg p i in
                 x <- aref (Ptr bs os) (i * ss) ;;
                 aset (Ptr bd od) (j * sd) x) m) as (m' & Hrun & Hc & Hf).
  - lia.
  - split; [intros k Hk; lia|apply frame_refl].
  - intros t m1 Ht [Hc Hf]. cbv zeta. rewrite rev_index_rev by lia.
    pose proof (rev_range p t ltac:(lia)) as Hrt.
    run_exists. split.
    + intros k Hk. pose proof (rev_range p k ltac:(lia)) as Hrk.
      destruct (Z.eq_dec k t) as [->|Hne].
      * rewrite cell_set_same. apply Hf; [exact Hbs|].
        intros Hbb j Hj. apply Hd; [lia|lia|exact Hbb].
      * rewrite cell_set_other.
        -- apply Hc. lia.
        -- right. intro Heq. apply Hne. apply (rev_inj p); try lia.
           apply (addr_inj od sd); assumption.
    + apply frame_set; [lia|exact Hf].
  - exists m'. split; [exact Hrun|]. split; [|exact Hf]. intros k Hk. apply Hc. lia.
Qed.

(** The first pass of the large out-of-place case: even elements to the
    lower half, odd elements to the upper half. *)
Lemma deal_pass (p bs os ss bd od sd : Z) (m : mem T) :
  0 < p -> sd <> 0 -> bs <> bt ->
  disjoint_views bs os ss bd od sd (2 ^ p) ->
  let h := 2 ^ (p - 1) in
  exists m',
    for_loop 0 h (fun i =>
      x <- aref (Ptr bs os) ((2 * i) * ss) ;;
      aset (Ptr bd od) (i * sd) x ;;
      x <- aref (Ptr bs os) ((2 * i + 1) * ss) ;;
      aset (Ptr bd od) ((i + h) * sd) x) m = Ok tt m' /\
    (forall x, 0 <= x < h ->
       cell m' bd od sd x = cell m bs os ss (2 * x) /\
       cell m' bd od sd (h + x) = cell m bs os ss (2 * x + 1)) /\
    frame bt bd od sd (2 ^ p) m m'.
Proof.
  intros Hp Hsd Hbs Hd h.
  pose proof (pow2_pos (p - 1) ltac:(lia)) as Hh. fold h in Hh.
  assert (Hn : 2 ^ p = 2 * h) by (apply pow2_succ; lia).
  destruct (for_loop_inv (fun t m' =>
              (forall x, 0 <= x < t ->
                 cell m' bd od sd x = cell m bs os ss (2 * x) /\
                 cell m' bd od sd (h + x) = cell m bs os ss (2 * x + 1)) /\
              frame bt bd od sd (2 ^ p) m m') 0 h
              (fun i =>
                 x <- aref (Ptr bs os) ((2 * i) * ss) ;;
                 aset (Ptr bd od) (i * sd) x ;;
                 x <- aref (Ptr bs os) ((2 * i + 1) * ss) ;;
                 aset (Ptr bd od) ((i + h) * sd) x) m) as (m' & Hrun & Hc & Hf).
  - lia.
  - split; [intros k Hk; lia|apply frame_refl].
  - intros t m1 Ht [Hc Hf]. run_exists.
    assert (Fr1 : frame bt bd od sd (2 ^ p) m
                    (set_cell m1 bd (od + t * sd) (cells m1 bs (os + 2 * t * ss))))
      by (apply frame_set; [lia|exact Hf]).
    assert (R0 : cells m1 bs (os + 2 * t * ss) = cell m bs os ss (2 * t)).
    { apply Hf; [exact Hbs|]. intros Hbb j Hj. apply Hd; [lia|lia|exact Hbb]. }
    assert (R1 : cells (set_cell m1 bd (od + t * sd) (cells m1 bs (os + 2 * t * ss)))
                   bs (os + (2 * t + 1) * ss) = cell m bs os ss (2 * t + 1)).
    { apply Fr1; [exact Hbs|]. intros Hbb j Hj. apply Hd; [lia|lia|exact Hbb]. }
    rewrite R1, R0. split.
    + intros x Hx. destruct (Z.eq_dec x t) as [->|Hne].
      * split.
        -- rewrite cell_set_other.
           ++ apply cell_set_same.
           ++ right. intro Heq. assert (t = t + h); [|lia].
              apply (addr_inj od sd); [assumption|lia].
        -- replace (h + t) with (t + h) by lia. apply cell_set_same.
      * destruct (Hc x ltac:(lia)) as [H1 H2]. split.
        -- rewrite !cell_set_other; [exact H1| |].
           ++ right. intro Heq. apply Hne. apply (addr_inj od sd); assumption.
           ++ right. intro Heq. assert (x = t + h); [|lia].
              apply (addr_inj od sd); assumption.
        -- rewrite !cell_set_other; [exact H2| |].
           ++ right. intro Heq. assert (h + x = t); [|lia].
              apply (addr_inj od sd); assumption.
           ++ right. intro Heq. assert (h + x = t + h); [|lia].
              apply (addr_inj od sd); assumption.
    + apply frame_set; [lia|]. apply frame_set; [lia|exact Hf].
  - exists m'. split; [exact Hrun|]. split; [exact Hc|exact Hf].
Qed.

Lemma outofplace_spec (fuel : nat) :
  forall (p bs os ss bd od sd : Z) (m : mem T),
    0 <= p -> p <= Z.of_nat fuel -> ss <> 0 -> sd <> 0 -> bs <> bt -> bd <> bt ->
    disjoint_views bs os ss bd od sd (2 ^ p) ->
    exists m',
      bitreversal_permutation_fuel cfg fuel p (Ptr bs os) ss (Ptr bd od) sd (Ptr bt ot) m
      = Ok tt m' /\
      scattered p bs os ss bd od sd m m' /\ frame bt bd od sd (2 ^ p) m m'.
Proof.
  induction fuel as [|fuel IH]; intros p bs os ss bd od sd m Hp Hf Hss Hsd Hbs Hbd Hd;
    cbn [bitreversal_permutation_fuel];
    (destruct (Z.eqb_spec ss 0) as [|_]; [contradiction|]);
    (rewrite ptr_eqb_neq
       by (intros Hbb Heq; apply (Hd 0 0);
           [pose proof (pow2_pos p Hp); lia|pose proof (pow2_pos p Hp); lia|exact Hbb|lia]));
    destruct (Z.leb_spec p 8) as [Hle|Hgt];
    try (apply scatter_direct; [lia|assumption|assumption|assumption]); [lia|].
  rewrite shiftr_pow2_half by lia. cbn [padd].
  pose proof (pow2_pos (p - 1) ltac:(lia)) as Hh.
  assert (Hn : 2 ^ p = 2 * 2 ^ (p - 1)) by (apply pow2_succ; lia).
  assert (Hr : forall x, 0 <= rev (p - 1) x < 2 ^ (p - 1)) by (intro x; apply rev_range; lia).
  destruct (Z.leb_spec p 16) as [Hle16|Hgt16].
  - (* recursion on the even and the odd elements *)
    destruct (IH (p - 1) bs os (2 * ss) bd od sd m) as (m1 & Hrun1 & S1 & F1);
      [lia|lia|lia|assumption|assumption|assumption| |].
    { intros i j Hi Hj Hbb Heq. apply (Hd (2 * i) j); [lia|lia|assumption|lia]. }
    destruct (IH (p - 1) bs (os + ss) (2 * ss) bd (od + 2 ^ (p - 1) * sd) sd m1)
      as (m2 & Hrun2 & S2 & F2); [lia|lia|lia|assumption|assumption|assumption| |].
    { intros i j Hi Hj Hbb Heq.
      apply (Hd (2 * i + 1) (2 ^ (p - 1) + j)); [lia|lia|assumption|lia]. }
    exists m2. split; [rewrite (bind_run _ _ _ _ _ Hrun1); exact Hrun2|]. split.
    + intros k Hk.
      destruct (even_or_odd k (2 ^ (p - 1)) ltac:(lia)) as (x & Hx & [-> | ->]).
      * rewrite rev_even by lia. rewrite <- cell_even, <- (S1 x Hx).
        apply (frame_cell _ _ _ _ _ _ _ _ _ F2 Hbd).
        intros j Hj Heq. specialize (Hr x).
        assert (rev (p - 1) x = 2 ^ (p - 1) + j); [|lia].
        apply (addr_inj od sd); [assumption|lia].
      * rewrite rev_odd by lia. rewrite <- cell_shift, (S2 x Hx), cell_odd.
        unfold cell. apply F1; [exact Hbs|].
        intros Hbb j Hj. apply Hd; [lia|lia|exact Hbb].
    + intros b' o' Hb' Hout. rewrite F2, F1; try assumption; try reflexivity.
      * intros Hbb j Hj. apply Hout; [exact Hbb|lia].
      * intros Hbb j Hj Heq. apply (Hout Hbb (2 ^ (p - 1) + j)); lia.
  - (* one pass to the destination, then in place on its halves *)
    destruct (deal_pass p bs os ss bd od sd m) as (m1 & Hrun1 & D1 & F1);
      [lia|assumption|assumption|assumption|].
    destruct (inplace_spec fuel (p - 1) bd od sd m1) as (m2 & Hrun2 & P2 & F2);
      [lia|lia|assumption|assumption|].
    destruct (inplace_spec fuel (p - 1) bd (od + 2 ^ (p - 1) * sd) sd m2)
      as (m3 & Hrun3 & P3 & F3); [lia|lia|assumption|assumption|].
    exists m3. split.
    { rewrite (bind_run _ _ _ _ _ Hrun1). rewrite (bind_run _ _ _ _ _ Hrun2). exact Hrun3. }
    split.
    + intros k Hk.
      destruct (even_or_odd k (2 ^ (p - 1)) ltac:(lia)) as (x & Hx & [-> | ->]).
      * rewrite rev_even by lia. destruct (D1 x Hx) as [<- _]. rewrite <- (P2 x Hx).
        apply (frame_cell _ _ _ _ _ _ _ _ _ F3 Hbd).
        intros j Hj Heq. specialize (Hr x).
        assert (rev (p - 1) x = 2 ^ (p - 1) + j); [|lia].
        apply (addr_inj od sd); [assumption|lia].
      * rewrite rev_odd by lia. destruct (D1 x Hx) as [_ <-].
        rewrite <- cell_shift, (P3 x Hx), cell_shift.
        apply (frame_cell _ _ _ _ _ _ _ _ _ F2 Hbd).
        intros j Hj Heq. assert (2 ^ (p - 1) + x = j); [|lia].
        apply (addr_inj od sd); [assumption|lia].
    + intros b' o' Hb' Hout. rewrite F3, F2, F1; try assumption; try reflexivity.
      * intros Hbb j Hj. apply Hout; [exact Hbb|lia].
      * intros Hbb j Hj Heq. apply (Hout Hbb (2 ^ (p - 1) + j)); lia.
Qed.

(** ** All regimes *)

Lemma permutation_spec (p bs os ss bd od sd : Z) (m : mem T) :
  0 <= p -> sd <> 0 -> bd <> bt -> bs <> bt ->
  ss = 0 \/ (bs = bd /\ os = od /\ ss = sd) \/ disjoint_views bs os ss bd od sd (2 ^ p) ->
  exists m',
    dbcF_bitreversal_permutation cfg p (Ptr bs os) ss (Ptr bd od) sd (Ptr bt ot) m
    = Ok tt m' /\
    (forall k, 0 <= k < 2 ^ p ->
       cells m' bd (od + dbcF_bitreverse cfg k p * sd) = cells m bs (os + k * ss)) /\
    frame bt bd od sd (2 ^ p) m m'.
Proof.
  intros Hp Hsd Hbd Hbs Hreg. unfold dbcF_bitreversal_permutation.
  destruct (Z.eq_dec ss 0) as [->|Hss].
  - (* broadcast *)
    destruct (broadcast_spec p bs os bd od sd m Hp) as (m' & Hrun & Hc & Hf).
    exists m'. split; [|split; [|exact Hf]].
    + destruct (Z.to_nat p); cbn [bitreversal_permutation_fuel]; exact Hrun.
    + intros k Hk. rewrite bitreverse_rev by assumption.
      fold (cell m' bd od sd (rev p k)). rewrite Hc by (apply rev_range; lia).
      f_equal. ring.
  - destruct Hreg as [H0|[(-> & -> & ->)|Hd]]; [contradiction| |].
    + (* in place *)
      destruct (inplace_spec (Z.to_nat p) p bd od sd m) as (m' & Hrun & Hc & Hf);
        [lia|lia|assumption|assumption|].
      exists m'. split; [exact Hrun|]. split; [|exact Hf].
      intros k Hk. rewrite bitreverse_rev by assumption. apply Hc. exact Hk.
    + (* out of place *)
      destruct (outofplace_spec (Z.to_nat p) p bs os ss bd od sd m) as (m' & Hrun & Hc & Hf);
        try assumption; try lia.
      exists m'. split; [exact Hrun|]. split; [|exact Hf].
      intros k Hk. rewrite bitreverse_rev by assumption. apply Hc. exact Hk.
Qed.

End Regimes.

(** * The claims *)

(** ** The planar entry points at unit strides

    The concrete scenarios of the specification, run on exact rationals. *)

Example scenario_single_element :
  outcome (@dbc_fft_c Q Elem_Q default_config 1 (Ptr 1 0) (Ptr 2 0) (Ptr 3 0) (Ptr 4 0) 2%Q
             (mem_of 0%Q [[7]; [-3]; [9]; [9]]%Q true))
          [(Ptr 3 0, 1, 1%nat); (Ptr 4 0, 1, 1%nat)]
  = Some (0, [[14]; [-6]]%Q).
Proof. vm_compute. reflexivity. Qed.

Example scenario_two_elements :
  outcome (@dbc_fft_c Q Elem_Q default_config 2 (Ptr 1 0) (Ptr 2 0) (Ptr 3 0) (Ptr 4 0) 1%Q
             (mem_of 0%Q [[1; 1]; [0; 0]; [9; 9]; [9; 9]]%Q true))
          [(Ptr 3 0, 1, 2%nat); (Ptr 4 0, 1, 2%nat)]
  = Some (0, [[2; 0]; [0; 0]]%Q).
Proof. vm_compute. reflexivity. Qed.

Example scenario_four_elements :
  outcome (@dbc_fft_c Q Elem_Q default_config 4 (Ptr 1 0) (Ptr 2 0) (Ptr 3 0) (Ptr 4 0) 1%Q
             (mem_of 0%Q [[1; 2; 3; 4]; [0; 0; 0; 0]; [9; 9; 9; 9]; [9; 9; 9; 9]]%Q true))
          [(Ptr 3 0, 1, 4%nat); (Ptr 4 0, 1, 4%nat)]
  = Some (0, [[10; -2; -2; -2]; [0; 2; 0; -2]]%Q).
Proof. vm_compute. reflexivity. Qed.

Example scenario_impulse_forward :
  outcome (@dbc_fft_c Q Elem_Q default_config 8 (Ptr 1 0) (Ptr 2 0) (Ptr 3 0) (Ptr 4 0) 1%Q
             (mem_of 0%Q [[1; 0; 0; 0; 0; 0; 0; 0]; [0; 0; 0; 0; 0; 0; 0; 0];
                          [9; 9; 9; 9; 9; 9; 9; 9]; [9; 9; 9; 9; 9; 9; 9; 9]]%Q true))
          [(Ptr 3 0, 1, 8%nat); (Ptr 4 0, 1, 8%nat)]
  = Some (0, [[1; 1; 1; 1; 1; 1; 1; 1]; [0; 0; 0; 0; 0; 0; 0; 0]]%Q).
Proof. vm_compute. reflexivity. Qed.

Example scenario_constant_inverse :
  outcome (@dbc_ifft_c Q Elem_Q default_config 8 (Ptr 1 0) (Ptr 2 0) (Ptr 3 0) (Ptr 4 0)
             (1 # 8)%Q
             (mem_of 0%Q [[8; 0; 0; 0; 0; 0; 0; 0]; [0; 0; 0; 0; 0; 0; 0; 0];
                          [9; 9; 9; 9; 9; 9; 9; 9]; [9; 9; 9; 9; 9; 9; 9; 9]]%Q true))
          [(Ptr 3 0, 1, 8%nat); (Ptr 4 0, 1, 8%nat)]
  = Some (0, [[1; 1; 1; 1; 1; 1; 1; 1]; [0; 0; 0; 0; 0; 0; 0; 0]]%Q).
Proof. vm_compute. reflexivity. Qed.

(** ** C1, C2, C3: the defects of the drivers, at concrete inputs *)

Local Open Scope Q_scope.

(** C1.  Interleaved forward transform of [X = [(0,1), (0,0)]] with
    [scale = 2]: the transform is [Y = [(0,2), (0,2)]], that is
    [dst = [0; 2; 0; 2]], but the call leaves [dst = [0; 4; 0; 1]].
    The scaling loop of the power-of-two driver indexes [dst_real[i]] and
    [dst_imag[i]] without the destination strides. *)
Theorem interleaved_scaled_transform_wrong :
  outcome (@dbc_fft_i Q Elem_Q default_config 2 (Ptr 1 0) (Ptr 2 0) 2
             (mem_of 0 [[0; 1; 0; 0]; [9; 9; 9; 9]] true))
          [(Ptr 2 0, 1%Z, 4%nat)]
  = Some (0%Z, [[0; 4; 0; 1]]) /\
  [0; 4; 0; 1] <> [0; 2; 0; 2].
Proof. split; [vm_compute; reflexivity|discriminate]. Qed.

(** C2.  A null source is not a broadcast of zeros everywhere.  The
    interleaved entry point with [src = NULL] passes destination strides
    0: for [N = 2] and [dst = [5; 6; 7; 8]] it returns 0 and leaves
    [dst = [0; 0; 7; 8]], not all zeros.  The Bluestein driver reads
    through the source pointers as they are: for [N = 3] and
    [src_real = NULL] the call dereferences the null pointer. *)
Theorem null_source_not_broadcast :
  outcome (@dbc_fft_i Q Elem_Q default_config 2 Null (Ptr 1 0) 1
             (mem_of 0 [[5; 6; 7; 8]] true))
          [(Ptr 1 0, 1%Z, 4%nat)]
  = Some (0%Z, [[0; 0; 7; 8]]) /\
  @dbc_fft_s Z Elem_fix default_config 3 Null (Ptr 1 0) 1 1 (Ptr 2 0) (Ptr 3 0) 1 1 fix_one
     (mem_of 0%Z [[0; 0; 0]; [0; 0; 0]; [0; 0; 0]]%Z true)
  = Fault.
Proof. split; vm_compute; reflexivity. Qed.

(** C3.  Power-of-two driver, [N = 2], destination strides 2,
    [X = [(1,0), (0,0)]].  With [scale = 1] the outputs are
    [dst_real[0] = dst_real[2] = 1].  With [scale = 2] the output
    [dst_real[1*2]] is still 1, and the cell [dst_real[1]], which holds no
    output, went from 9 to 18. *)
Theorem scale_ignores_destination_stride :
  outcome (@dbcF_fft_pot Q Elem_Q default_config 2 (Ptr 1 0) (Ptr 2 0) 1 1
             (Ptr 3 0) (Ptr 4 0) 2 2 false 1
             (mem_of 0 [[1; 0]; [0; 0]; [9; 9; 9]; [9; 9; 9]] true))
          [(Ptr 3 0, 1%Z, 3%nat)]
  = Some (0%Z, [[1; 9; 1]]) /\
  outcome (@dbcF_fft_pot Q Elem_Q default_config 2 (Ptr 1 0) (Ptr 2 0) 1 1
             (Ptr 3 0) (Ptr 4 0) 2 2 false 2
             (mem_of 0 [[1; 0]; [0; 0]; [9; 9; 9]; [9; 9; 9]] true))
          [(Ptr 3 0, 1%Z, 3%nat)]
  = Some (0%Z, [[2; 18; 1]]).
Proof. split; vm_compute; reflexivity. Qed.

Local Close Scope Q_scope.

(** ** C4: aliasing *)

(** Counterexample to C4: [src_real = dst_real + 1] overlaps the
    destination partially, and the call returns 0 after writing
    [dst_real]. *)
Lemma partial_overlap_not_rejected :
  outcome (@dbc_fft_s Q Elem_Q default_config 2 (Ptr 1 1) (Ptr 2 0) 1 1
             (Ptr 1 0) (Ptr 3 0) 1 1 1%Q
             (mem_of 0%Q [[1; 2; 3]; [0; 0]; [9; 9]]%Q true))
          [(Ptr 1 0, 1, 3%nat)]
  = Some (0, [[5; -1; 3]]%Q) /\
  0 <> DBCF_ERROR_INVALID_ARGUMENT.
Proof. split; [vm_compute; reflexivity|discriminate]. Qed.

(** C4, amended.  For [num_elements >= 1] the entry surface returns
    [INVALID_ARGUMENT], leaving the memory as it was, exactly when a
    source pointer equals the destination pointer of the other channel or
    equals its own destination pointer with a different stride; in every
    other case (no alias, exact per-channel alias, overlap of unequal
    pointers) it does not return [INVALID_ARGUMENT], for a size the build
    transforms (a power of two, or any size with the Bluestein driver
    compiled in). *)
Theorem alias_rejection_by_pointer_equality
    {T : Type} {E : Elem T} (cfg : Config) (n : Z) (sr si : ptr) (srs sis : Z)
    (dr di : ptr) (drs dis : Z) (inverse : bool) (scale : T) (m : mem T) :
  1 <= n ->
  DBC_FFT_NO_NPOT cfg = false \/ Z.land n (n - 1) = 0 ->
  if ptr_eqb si dr || ptr_eqb sr di
     || (ptr_eqb sr dr && negb (srs =? drs)) || (ptr_eqb si di && negb (sis =? dis))
  then dbcF_fft cfg n sr si srs sis dr di drs dis inverse scale m
       = Ok DBCF_ERROR_INVALID_ARGUMENT m
  else forall m', dbcF_fft cfg n sr si srs sis dr di drs dis inverse scale m
                  <> Ok DBCF_ERROR_INVALID_ARGUMENT m'.
Proof.
  intros Hn Hc.
  assert (Heq : ptr_eqb si dr || ptr_eqb sr di
                || (ptr_eqb sr dr && negb (srs =? drs)) || (ptr_eqb si di && negb (sis =? dis))
                = alias_rejected sr si srs sis dr di drs dis).
  { unfold alias_rejected.
    destruct (ptr_eqb si dr), (ptr_eqb sr di), (ptr_eqb sr dr && negb (srs =? drs)),
      (ptr_eqb si di && negb (sis =? dis)); reflexivity. }
  rewrite Heq. destruct (alias_rejected sr si srs sis dr di drs dis) eqn:Ha.
  - apply fft_rejects; assumption.
  - intro m'. apply fft_accepts; assumption.
Qed.

(** Same-channel alias with unequal strides is rejected; exact alias of
    the real channel is accepted. *)
Lemma alias_rejection_by_pointer_equality_witness :
  @dbcF_fft Q Elem_Q default_config 2 (Ptr 1 0) (Ptr 2 0) 1 1 (Ptr 1 0) (Ptr 3 0) 2 1
     false 1%Q alias_mem
  = Ok DBCF_ERROR_INVALID_ARGUMENT alias_mem /\
  forall m', @dbcF_fft Q Elem_Q default_config 2 (Ptr 1 0) (Ptr 2 0) 1 1
                (Ptr 1 0) (Ptr 3 0) 1 1 false 1%Q alias_mem
             <> Ok DBCF_ERROR_INVALID_ARGUMENT m'.
Proof.
  split.
  - apply (alias_rejection_by_pointer_equality default_config 2 (Ptr 1 0) (Ptr 2 0) 1 1
             (Ptr 1 0) (Ptr 3 0) 2 1 false 1%Q alias_mem); [lia|left; reflexivity].
  - apply (alias_rejection_by_pointer_equality default_config 2 (Ptr 1 0) (Ptr 2 0) 1 1
             (Ptr 1 0) (Ptr 3 0) 1 1 false 1%Q alias_mem); [lia|left; reflexivity].
Defined.

(** ** C5: destination strides *)

(** Counterexample to C5: both destination strides are 0, nothing
    aliases, and the call returns 0 after writing [dst_real[0]]. *)
Lemma zero_destination_stride_not_rejected :
  outcome (@dbc_fft_s Q Elem_Q default_config 2 (Ptr 1 0) (Ptr 2 0) 1 1
             (Ptr 3 0) (Ptr 4 0) 0 0 1%Q
             (mem_of 0%Q [[1; 2]; [3; 4]; [9; 9]; [9; 9]]%Q true))
          [(Ptr 3 0, 1, 2%nat)]
  = Some (0, [[0; 9]]%Q) /\
  0 <> DBCF_ERROR_INVALID_ARGUMENT.
Proof. split; [vm_compute; reflexivity|discriminate]. Qed.

(** What the entry surface does with the strides instead rests on the
    transform theorems; it is stated in the last part. *)

(** ** C6: allocation failure *)

(** C6.  For a size [num_elements >= 1] that is not a power of two, with
    the Bluestein driver compiled in and a call that passes the alias
    checks: if the allocator returns null for the scratch request, which
    is [(4*2^q + 4*num_elements) * sizeof(DBCF_Type)] bytes with [2^q]
    the least power of two that is at least [2*num_elements - 1], the
    entry surface returns [OUT_OF_MEMORY] with the memory, hence the
    destination arrays, exactly as it was.  Nothing is assumed of the
    allocator at any other size. *)
Theorem out_of_memory_leaves_destination
    {T : Type} {E : Elem T} (cfg : Config) (n q : Z) (sr si : ptr) (srs sis : Z)
    (dr di : ptr) (drs dis : Z) (inverse : bool) (scale : T) (m : mem T) :
  1 <= n ->
  Z.land n (n - 1) <> 0 ->
  DBC_FFT_NO_NPOT cfg = false ->
  alias_rejected sr si srs sis dr di drs dis = false ->
  0 <= q -> 2 * n - 1 <= 2 ^ q -> 2 ^ q < 2 * (2 * n - 1) ->
  heap_ok m ((4 * 2 ^ q + 4 * n) * sizeof + 0) = false ->
  dbcF_fft cfg n sr si srs sis dr di drs dis inverse scale m
  = Ok DBCF_ERROR_OUT_OF_MEMORY m.
Proof.
  intros Hn Hnp Hc Ha Hq Hge Hlt Hheap. rewrite fft_dispatch by assumption.
  apply Z.eqb_neq in Hnp. rewrite Hnp, Hc. cbn [negb].
  apply (fft_npot_oom cfg n q); assumption.
Qed.

(** Three elements: the request is [(4*8 + 4*3) * 16 = 704] bytes, which
    the allocator of [scarce_mem] refuses while it serves every request
    below 700 bytes. *)
Lemma out_of_memory_leaves_destination_witness :
  @dbcF_fft Q Elem_Q default_config 3 (Ptr 1 0) (Ptr 2 0) 1 1 (Ptr 3 0) (Ptr 4 0) 1 1
     false 1%Q scarce_mem
  = Ok DBCF_ERROR_OUT_OF_MEMORY scarce_mem.
Proof.
  apply (out_of_memory_leaves_destination default_config 3 3 (Ptr 1 0) (Ptr 2 0) 1 1
           (Ptr 3 0) (Ptr 4 0) 1 1 false 1%Q scarce_mem).
  - lia.
  - vm_compute. discriminate.
  - reflexivity.
  - reflexivity.
  - lia.
  - vm_compute. discriminate.
  - vm_compute. reflexivity.
  - reflexivity.
Defined.

(** ** C7: empty input *)

(** C7.  For [num_elements < 1] each of the six entry points returns 0
    and leaves the memory as it was, whatever the other arguments are. *)
Theorem empty_input_is_noop
    {T : Type} {E : Elem T} (cfg : Config) (n : Z) (sr si dr di src dst : ptr)
    (srs sis drs dis : Z) (scale : T) (m : mem T) :
  n < 1 ->
  dbc_fft_c cfg n sr si dr di scale m = Ok 0 m /\
  dbc_ifft_c cfg n sr si dr di scale m = Ok 0 m /\
  dbc_fft_i cfg n src dst scale m = Ok 0 m /\
  dbc_ifft_i cfg n src dst scale m = Ok 0 m /\
  dbc_fft_s cfg n sr si srs sis dr di drs dis scale m = Ok 0 m /\
  dbc_ifft_s cfg n sr si srs sis dr di drs dis scale m = Ok 0 m.
Proof.
  intro Hn.
  unfold dbc_fft_c, dbc_ifft_c, dbc_fft_i, dbc_ifft_i, dbc_fft_s, dbc_ifft_s.
  repeat split; apply fft_small; exact Hn.
Qed.

Lemma empty_input_is_noop_witness :
  @dbc_fft_c Q Elem_Q default_config 0 (Ptr 1 0) (Ptr 2 0) (Ptr 3 0) (Ptr 4 0) 2%Q stride_mem
  = Ok 0 stride_mem /\
  @dbc_ifft_c Q Elem_Q default_config 0 (Ptr 1 0) (Ptr 2 0) (Ptr 3 0) (Ptr 4 0) 2%Q stride_mem
  = Ok 0 stride_mem /\
  @dbc_fft_i Q Elem_Q default_config 0 Null (Ptr 3 0) 2%Q stride_mem = Ok 0 stride_mem /\
  @dbc_ifft_i Q Elem_Q default_config 0 Null (Ptr 3 0) 2%Q stride_mem = Ok 0 stride_mem /\
  @dbc_fft_s Q Elem_Q default_config 0 (Ptr 1 0) (Ptr 2 0) 1 1 (Ptr 3 0) (Ptr 4 0) 0 0
     2%Q stride_mem = Ok 0 stride_mem /\
  @dbc_ifft_s Q Elem_Q default_config 0 (Ptr 1 0) (Ptr 2 0) 1 1 (Ptr 3 0) (Ptr 4 0) 0 0
     2%Q stride_mem = Ok 0 stride_mem.
Proof.
  apply (empty_input_is_noop default_config 0 (Ptr 1 0) (Ptr 2 0) (Ptr 3 0) (Ptr 4 0)
           Null (Ptr 3 0) 1 1 0 0 2%Q stride_mem).
  lia.
Defined.

(** ** C8: the bit-reversal permutation *)

(** C8.  For [log2n >= 0], a nonzero destination stride and a scratch
    block apart from the two arrays, in each regime -- broadcast (source
    stride 0), in place (same pointer, same stride) and out of place
    (arrays without a common cell) -- [dbcF_bitreversal_permutation]
    returns and leaves [dst[reverse(k)*dst_stride] = src_original[k*src_stride]]
    for every [k < 2^log2n]; it changes nothing outside the destination
    array and the scratch block. *)
Theorem bitreversal_permutation_correct
    {T : Type} (cfg : Config)
    (log2n bs os ss bd od sd bt ot : Z) (m : mem T) :
  static_asserts cfg ->
  0 <= log2n -> sd <> 0 -> bd <> bt -> bs <> bt ->
  ss = 0 \/ (bs = bd /\ os = od /\ ss = sd) \/
  (forall i j, 0 <= i < 2 ^ log2n -> 0 <= j < 2 ^ log2n ->
               bs = bd -> os + i * ss <> od + j * sd) ->
  exists m',
    dbcF_bitreversal_permutation cfg log2n (Ptr bs os) ss (Ptr bd od) sd (Ptr bt ot) m
    = Ok tt m' /\
    (forall k, 0 <= k < 2 ^ log2n ->
       cells m' bd (od + dbcF_bitreverse cfg k log2n * sd) = cells m bs (os + k * ss)) /\
    (forall b o, b <> bt ->
       (b = bd -> forall k, 0 <= k < 2 ^ log2n -> o <> od + k * sd) ->
       cells m' b o = cells m b o).
Proof.
  intros Ha Hl Hsd Hbd Hbs Hreg.
  apply (permutation_spec cfg Ha bt ot log2n bs os ss bd od sd m); assumption.
Qed.

Lemma default_static_asserts : static_asserts default_config.
Proof. unfold static_asserts. cbn. lia. Qed.

(** In place on eight elements with stride 2. *)
Lemma bitreversal_permutation_correct_witness :
  exists m',
    @dbcF_bitreversal_permutation Q default_config 3 (Ptr 1 0) 2 (Ptr 1 0) 2 (Ptr 2 0)
       perm_mem = Ok tt m' /\
    (forall k, 0 <= k < 2 ^ 3 ->
       cells m' 1 (0 + dbcF_bitreverse default_config k 3 * 2)
       = cells perm_mem 1 (0 + k * 2)) /\
    (forall b o, b <> 2 ->
       (b = 1 -> forall k, 0 <= k < 2 ^ 3 -> o <> 0 + k * 2) ->
       cells m' b o = cells perm_mem b o).
Proof.
  apply (bitreversal_permutation_correct default_config 3 1 0 2 1 0 2 2 0 perm_mem).
  - exact default_static_asserts.
  - lia.
  - lia.
  - lia.
  - lia.
  - right. left. repeat split; reflexivity.
Defined.

(** ** C9: the twiddle table *)

(** With one level, entry 1 of the table is [1 + seed]: the first round
    stores [seed * 0 + (seed + 0)] and the last loop adds one to the real
    part. *)
Lemma compute_twiddles_first
    (hook : option (Z -> R * R)) (hook_npot : option (Z -> Z -> R * R))
    (log2n : Z) (inverse : bool) (br bi : Z) (m : mem R) :
  br <> bi ->
  exists m',
    @dbcF_compute_twiddles R (Elem_R hook hook_npot) log2n 1
       (Ptr br 0) (Ptr bi 0) inverse m = Ok tt m' /\
    cells m' br (0 + 1) = (1 + fst (@dbcF_cexpm1 R (Elem_R hook hook_npot) log2n))%R /\
    cells m' bi (0 + 1) = signed inverse (snd (@dbcF_cexpm1 R (Elem_R hook hook_npot) log2n)).
Proof.
  intro Hne. unfold dbcF_compute_twiddles.
  rewrite (R_ZERO hook hook_npot), (R_ONE hook hook_npot).
  change (DBCF_POW2 1) with 2.
  run_mem. unfold bind at 1.
  rewrite (for_loop_first 0 1) by lia.
  rewrite (bind_run _ _ _
             (set_cell
                (set_cell (set_cell (set_cell m br (0 + 0) 0%R) bi (0 + 0) 0%R)
                   br (1 + 0) (1 + fst (@dbcF_cexpm1 R (Elem_R hook hook_npot) log2n) - 1)%R)
                bi (1 + 0) (signed inverse (snd (@dbcF_cexpm1 R (Elem_R hook hook_npot) log2n))))
             tt).
  2:{ replace (log2n - 0) with log2n by lia.
      destruct (@dbcF_cexpm1 R (Elem_R hook hook_npot) log2n) as [x y]. cbn [fst snd].
      change (DBCF_POW2 0) with 1.
      rewrite (for_loop_first 0 1) by lia.
      run_all. rewrite for_loop_empty by lia.
      cells_norm.
      f_equal. f_equal; [f_equal|].
      - cbv [Tadd Tsub Tmul Tneg Elem_R]. ring.
      - cbv [Tadd Tsub Tmul Tneg Elem_R]. unfold signed. destruct inverse; cbn [negb]; ring. }
  rewrite for_loop_empty by lia.
  rewrite (for_loop_first 0 2) by lia. run_all.
  rewrite (for_loop_first (0 + 1) 2) by lia. run_all.
  rewrite for_loop_empty by lia.
  eexists. split; [reflexivity|].
  split; cells_norm; [|reflexivity].
  cbv [Tadd Elem_R]. ring.
Qed.

Lemma Q2R_one : Q2R 1 = 1%R.
Proof. unfold Q2R. cbn [Qnum Qden]. lra. Qed.

Lemma Q2R_zero : Q2R 0 = 0%R.
Proof. unfold Q2R. cbn [Qnum Qden]. lra. Qed.

Lemma Q2R_over (q : Q) (z : Z) : z <> 0 -> (Q2R q / IZR z)%R = Q2R (q / inject_Z z).
Proof.
  intro Hz. rewrite Q2R_div.
  - f_equal. unfold Q2R, inject_Z. cbn [Qnum Qden]. lra.
  - unfold Qeq, inject_Z. cbn [Qnum Qden]. lia.
Qed.

(** A rational that is not zero and lies strictly between [-e] and [e]. *)
Lemma Q2R_near (q e : Q) :
  Qeq_bool q 0 = false -> (Qle_bool e (- q) || Qle_bool e q) = false ->
  Q2R q <> 0%R /\ (Rabs (Q2R q) < Q2R e)%R.
Proof.
  intros Hz Hb. apply orb_false_elim in Hb. destruct Hb as [H1 H2]. split.
  - intro H. rewrite <- Q2R_zero in H. apply eqR_Qeq, Qeq_bool_iff in H. congruence.
  - apply Rabs_def1.
    + apply Qlt_Rlt. apply Qnot_le_lt. intro H. apply Qle_bool_iff in H. congruence.
    + rewrite <- Q2R_opp. apply Qlt_Rlt. apply Qnot_le_lt. intro H.
      assert (e <= - q)%Q as H'.
      { rewrite <- (Qopp_involutive e). apply Qopp_le_compat. exact H. }
      apply Qle_bool_iff in H'. congruence.
Qed.

(** Fold a real expression over rational constants into one constant. *)
Ltac to_Q :=
  repeat first [ rewrite <- Q2R_mult | rewrite <- Q2R_plus | rewrite <- Q2R_minus
               | rewrite <- Q2R_opp ].

(** Evaluate the built-in seed of a given level and decide the bound on
    the rationals. *)
Ltac seed_case :=
  unfold off_circle;
  match goal with
  | |- context [@dbcF_cexpm1 R ?E ?k] =>
      let v := eval cbv beta iota zeta delta
                 [dbcF_cexpm1 DBCF_cexpm1 Elem_R Z.ltb Z.compare Pos.compare Pos.compare_cont
                  length Z.of_nat Pos.of_succ_nat Pos.succ cexpm1_table nth Z.to_nat
                  Pos.to_nat Pos.iter_op Nat.add cexpm1_taylor Z.shiftl Pos.iter Z.mul Pos.mul
                  Pos.add Tadd Tsub Tmul Tdiv Tneg DBCF_LITERAL of_index DBCF_ZERO]
               in (@dbcF_cexpm1 R E k) in
      change (@dbcF_cexpm1 R E k) with v
  end;
  cbv beta iota delta [fst snd];
  rewrite ?Q2R_over by discriminate;
  rewrite <- Q2R_one; to_Q;
  apply Q2R_near; vm_compute; reflexivity.

(** The seeds the header ships for the levels 3 to 17, the rows of the
    table of constants and the first level of the Taylor polynomial in
    the decimal [6.2831...768 / 2^log2n]: [1 + seed] is within [1e-40] of
    the unit circle and not on it, so it is not [exp] of any angle. *)
Lemma builtin_seeds_near_circle (hook_npot : option (Z -> Z -> R * R)) (k : Z) :
  3 <= k <= 17 ->
  off_circle (@dbcF_cexpm1 R (Elem_R None hook_npot) k) <> 0%R /\
  (Rabs (off_circle (@dbcF_cexpm1 R (Elem_R None hook_npot) k)) < Q2R 1.0e-40)%R.
Proof.
  intro Hk.
  assert (C : k = 3 \/ k = 4 \/ k = 5 \/ k = 6 \/ k = 7 \/ k = 8 \/ k = 9 \/ k = 10 \/
              k = 11 \/ k = 12 \/ k = 13 \/ k = 14 \/ k = 15 \/ k = 16 \/ k = 17) by lia.
  repeat (destruct C as [-> | C]; [seed_case|]).
  subst k. seed_case.
Qed.

(** The fourth row of the table: [1 + re] is a 40-digit decimal, not
    [cos(pi/4) = 1/sqrt 2]. *)
Lemma table_seed_rounded_re (hook_npot : option (Z -> Z -> R * R)) :
  (1 + fst (@dbcF_cexpm1 R (Elem_R None hook_npot) 3))%R <> cos (twiddle_angle 3 1).
Proof.
  unfold twiddle_angle.
  change (@dbcF_cexpm1 R (Elem_R None hook_npot) 3)
    with ((- Q2R 2.928932188134524755991556378951509607151e-1)%R,
          Q2R 7.071067811865475244008443621048490392848e-1).
  cbv beta iota delta [fst]. intro Hc. change (2 ^ 3) with 8 in Hc.
  replace (2 * PI * 1 / 8)%R with (PI / 4)%R in Hc by field.
  rewrite cos_PI4 in Hc.
  assert (Hs : (1 / sqrt 2 * (1 / sqrt 2) = 1 / 2)%R).
  { pose proof (sqrt_sqrt 2 ltac:(lra)) as S2.
    assert (sqrt 2 <> 0)%R by (intro Z0; rewrite Z0 in S2; lra).
    field_simplify; [|assumption]. rewrite <- Rsqr_pow2, Rsqr_sqrt by lra. reflexivity. }
  rewrite <- Hc in Hs. unfold Q2R in Hs. cbn in Hs. lra.
Qed.

(** A seed off the unit circle is not [(cos - 1, sin)] of an angle. *)
Lemma off_circle_not_exact (s : R * R) (theta : R) :
  off_circle s <> 0%R ->
  ~ ((1 + fst s)%R = cos theta /\ (- snd s)%R = (- sin theta)%R).
Proof.
  intros Hoff [Hc Hs]. apply Hoff. unfold off_circle.
  apply Ropp_eq_compat in Hs. rewrite !Ropp_involutive in Hs. rewrite Hc, Hs.
  pose proof (sin2_cos2 theta) as H. unfold Rsqr in H. lra.
Qed.

(** With the seeds the header ships, the table is not exact.  For
    [log2n = 3] (the seed is a row of the table of constants) and for
    [log2n = 17] (the seed is the Taylor polynomial), both with
    [log2b = 1 <= log2n], the call returns and entry [k = 1 < 2^log2b] is
    not [(cos, -sin)] of [2*pi*k/2^log2n]. *)
Lemma builtin_seeds_not_exact :
  (exists m',
     @dbcF_compute_twiddles R (Elem_R None None) 3 1 (Ptr 1 0) (Ptr 2 0) false twiddle_mem
     = Ok tt m' /\
     cells m' 1 (0 + 1) <> cos (twiddle_angle 3 1)) /\
  (exists m',
     @dbcF_compute_twiddles R (Elem_R None None) 17 1 (Ptr 1 0) (Ptr 2 0) false twiddle_mem
     = Ok tt m' /\
     ~ (cells m' 1 (0 + 1) = cos (twiddle_angle 17 1) /\
        cells m' 2 (0 + 1) = signed false (sin (twiddle_angle 17 1)))).
Proof.
  split.
  - destruct (compute_twiddles_first None None 3 false 1 2 twiddle_mem ltac:(lia))
      as (m' & Hrun & Hre & _).
    exists m'. split; [exact Hrun|]. rewrite Hre. apply table_seed_rounded_re.
  - destruct (compute_twiddles_first None None 17 false 1 2 twiddle_mem ltac:(lia))
      as (m' & Hrun & Hre & Him).
    exists m'. split; [exact Hrun|]. rewrite Hre, Him. unfold signed.
    apply off_circle_not_exact. apply (builtin_seeds_near_circle None 17). lia.
Qed.

(** C9.  Over the reals, with tables that do not overlap and with exact
    seeds [dbcF_cexpm1 (log2n-i) = exp(2*pi*i/2^(log2n-i)) - 1] for the
    levels [i < log2b] the doubling uses, [dbcF_compute_twiddles] returns
    and leaves [tr[k] = cos(2*pi*k/2^log2n)] and [ti[k] = -sin(2*pi*k/2^log2n)]
    (forward; [+sin] for inverse) for every [k < 2^log2b]; and every entry
    [2^i + j] of the filled prefix is entry [j] times
    [exp(+-2*pi*i/2^(log2n-i))]. *)
Theorem compute_twiddles_exact
    (hook : option (Z -> R * R)) (hook_npot : option (Z -> Z -> R * R))
    (log2n log2b : Z) (inverse : bool) (br or bi oi : Z) (m : mem R) :
  0 <= log2b <= log2n ->
  (forall a b, 0 <= a < 2 ^ log2b -> 0 <= b < 2 ^ log2b -> br <> bi \/ or + a <> oi + b) ->
  (forall i, 0 <= i < log2b ->
     @dbcF_cexpm1 R (Elem_R hook hook_npot) (log2n - i) = expm1_exact (log2n - i)) ->
  exists m',
    @dbcF_compute_twiddles R (Elem_R hook hook_npot) log2n log2b
       (Ptr br or) (Ptr bi oi) inverse m = Ok tt m' /\
    (forall k, 0 <= k < 2 ^ log2b ->
       cells m' br (or + k) = cos (twiddle_angle log2n k) /\
       cells m' bi (oi + k) = signed inverse (sin (twiddle_angle log2n k))) /\
    (forall i j, 0 <= i < log2b -> 0 <= j < 2 ^ i ->
       let c := cos (twiddle_angle (log2n - i) 1) in
       let s := signed inverse (sin (twiddle_angle (log2n - i) 1)) in
       cells m' br (or + (2 ^ i + j))
       = (cells m' br (or + j) * c - cells m' bi (oi + j) * s)%R /\
       cells m' bi (oi + (2 ^ i + j))
       = (cells m' br (or + j) * s + cells m' bi (oi + j) * c)%R).
Proof.
  intros Hrange Hdisj Hseed.
  destruct (compute_twiddles_run hook hook_npot log2n log2b inverse br or bi oi
              Hrange Hdisj Hseed m) as (m' & Hrun & Hre & _ & Him).
  assert (Hall : forall k, 0 <= k < 2 ^ log2b ->
            cells m' br (or + k) = cos (twiddle_angle log2n k) /\
            cells m' bi (oi + k) = signed inverse (sin (twiddle_angle log2n k))).
  { intros k Hk. split; [apply Hre|apply Him]; exact Hk. }
  exists m'. split; [exact Hrun|]. split; [exact Hall|].
  intros i j Hi Hj c s.
  assert (Hp : 2 ^ (i + 1) <= 2 ^ log2b) by (apply Z.pow_le_mono_r; lia).
  assert (Hp' : 2 ^ (i + 1) = 2 * 2 ^ i) by (rewrite Z.pow_add_r by lia; lia).
  destruct (Hall (2 ^ i + j) ltac:(lia)) as [-> ->].
  destruct (Hall j ltac:(lia)) as [-> ->].
  rewrite angle_add by lia. rewrite angle_pow2 by lia.
  rewrite cos_plus, sin_plus. subst c s. unfold signed.
  destruct inverse; split; ring.
Qed.

Lemma compute_twiddles_exact_witness :
  exists m',
    @dbcF_compute_twiddles R (Elem_R None None) 2 2 (Ptr 1 0) (Ptr 2 0) false twiddle_mem
    = Ok tt m' /\
    (forall k, 0 <= k < 2 ^ 2 ->
       cells m' 1 (0 + k) = cos (twiddle_angle 2 k) /\
       cells m' 2 (0 + k) = signed false (sin (twiddle_angle 2 k))) /\
    (forall i j, 0 <= i < 2 -> 0 <= j < 2 ^ i ->
       let c := cos (twiddle_angle (2 - i) 1) in
       let s := signed false (sin (twiddle_angle (2 - i) 1)) in
       cells m' 1 (0 + (2 ^ i + j))
       = (cells m' 1 (0 + j) * c - cells m' 2 (0 + j) * s)%R /\
       cells m' 2 (0 + (2 ^ i + j))
       = (cells m' 1 (0 + j) * s + cells m' 2 (0 + j) * c)%R).
Proof.
  apply (compute_twiddles_exact None None 2 2 false 1 0 2 0 twiddle_mem).
  - lia.
  - intros a b _ _. left. lia.
  - intros i Hi. apply builtin_seed_exact. lia.
Defined.

(** ** C10: the index reversal *)

(** At a bit count equal to the width of the index type the reversal
    leaves the type.  With a 64-bit [dbcf_index], [b = 64] and [i = 1]
    (so [0 <= i < 2^b]) both variants return [-2^63], which is not in
    [[0, 2^b)]: the reversed bit lands on the sign bit.  With the table a
    second application gives [0], not [1]. *)
Lemma bitreverse_overflows_at_index_width :
  0 <= 1 < 2 ^ 64 /\
  dbcF_bitreverse_w 64 default_config 1 64 = - 2 ^ 63 /\
  dbcF_bitreverse_w 64 (mkConfig true false 10 5) 1 64 = - 2 ^ 63 /\
  ~ (0 <= dbcF_bitreverse_w 64 default_config 1 64 < 2 ^ 64) /\
  dbcF_bitreverse_w 64 default_config (dbcF_bitreverse_w 64 default_config 1 64) 64 = 0 /\
  dbcF_bitreverse_w 64 default_config (dbcF_bitreverse_w 64 default_config 1 64) 64 <> 1.
Proof.
  split; [split; [discriminate|reflexivity]|].
  split; [vm_compute; reflexivity|].
  split; [vm_compute; reflexivity|].
  split; [intros [H _]; vm_compute in H; apply H; reflexivity|].
  split; [vm_compute; reflexivity|].
  vm_compute. discriminate.
Qed.

(** C10.  On an index type of [w >= 16] bits, for every configuration
    (with the table and without), every bit count [0 <= b <= w - 1] and
    every index [0 <= i < 2^b], [dbcF_bitreverse] applied twice gives [i]
    back, and its result lies in [[0, 2^b)]. *)
Theorem bitreverse_involutive_in_range (w : Z) (cfg : Config) (b i : Z) :
  16 <= w -> 0 <= b <= w - 1 -> 0 <= i < 2 ^ b ->
  dbcF_bitreverse_w w cfg (dbcF_bitreverse_w w cfg i b) b = i /\
  0 <= dbcF_bitreverse_w w cfg i b < 2 ^ b.
Proof.
  intros Hw Hb Hi.
  pose proof (rev_bits_range (Z.to_nat b) i) as Hr. rewrite Z2Nat.id in Hr by lia.
  rewrite (bitreverse_w_spec w cfg i b) by assumption.
  rewrite bitreverse_w_spec by assumption.
  split; [|exact Hr].
  apply rev_bits_involutive. rewrite Z2Nat.id by lia. exact Hi.
Qed.

(** On 64 bits: with the table at the largest bit count (63), and
    without it (20 bits). *)
Lemma bitreverse_involutive_in_range_witness :
  (dbcF_bitreverse_w 64 default_config (dbcF_bitreverse_w 64 default_config 1 63) 63 = 1 /\
   0 <= dbcF_bitreverse_w 64 default_config 1 63 < 2 ^ 63) /\
  (dbcF_bitreverse_w 64 (mkConfig true false 10 5)
     (dbcF_bitreverse_w 64 (mkConfig true false 10 5) 123456 20) 20 = 123456 /\
   0 <= dbcF_bitreverse_w 64 (mkConfig true false 10 5) 123456 20 < 2 ^ 20).
Proof.
  split.
  - apply (bitreverse_involutive_in_range 64 default_config 63 1); [lia|lia|].
    vm_compute. split; [discriminate|reflexivity].
  - apply (bitreverse_involutive_in_range 64 (mkConfig true false 10 5) 20 123456); [lia|lia|].
    vm_compute. split; [discriminate|reflexivity].
Defined.

(** * Further properties of the index reversal, the permutation and the
      entry surface *)

(** X1.  On an index type of [w >= 16] bits and for a bit count
    [0 <= b <= w - 1], [dbcF_bitreverse] mirrors the low [b] bits: bit
    [k] of the result is bit [b-1-k] of the index, for every [k < b], and
    the variant with the table and the variant without it return the
    same value. *)
Theorem bitreverse_mirrors_bits (w : Z) (cfg cfg' : Config) (b i : Z) :
  16 <= w -> 0 <= b <= w - 1 -> 0 <= i < 2 ^ b ->
  (forall k, 0 <= k < b ->
     Z.testbit (dbcF_bitreverse_w w cfg i b) k = Z.testbit i (b - 1 - k)) /\
  dbcF_bitreverse_w w cfg i b = dbcF_bitreverse_w w cfg' i b.
Proof.
  intros Hw Hb Hi. rewrite !bitreverse_w_spec by assumption. split; [|reflexivity].
  intros k Hk. rewrite rev_bits_testbit by lia. rewrite Z2Nat.id by lia.
  destruct (Z.ltb_spec k b); [reflexivity|lia].
Qed.

Lemma bitreverse_mirrors_bits_witness :
  (forall k, 0 <= k < 63 ->
     Z.testbit (dbcF_bitreverse_w 64 default_config 1234 63) k
     = Z.testbit 1234 (63 - 1 - k)) /\
  dbcF_bitreverse_w 64 default_config 1234 63
  = dbcF_bitreverse_w 64 (mkConfig true false 10 5) 1234 63.
Proof.
  apply (bitreverse_mirrors_bits 64 default_config (mkConfig true false 10 5) 63 1234);
    [lia|lia|].
  vm_compute. split; [discriminate|reflexivity].
Defined.

(** X2.  [dbcF_bitreversal_swap] on two arrays of [2^log2n] elements
    that share no cell, with nonzero strides: it returns, element [i] of
    the first array and element [reverse(i)] of the second have changed
    places, and no other cell has changed. *)
Theorem bitreversal_swap_exchanges {T : Type} (cfg : Config)
    (log2n ba oa sa bb ob sb : Z) (m : mem T) :
  0 <= log2n -> sa <> 0 -> sb <> 0 ->
  (forall i j, 0 <= i < 2 ^ log2n -> 0 <= j < 2 ^ log2n ->
     ba = bb -> oa + i * sa <> ob + j * sb) ->
  exists m',
    dbcF_bitreversal_swap cfg log2n (Ptr ba oa) sa (Ptr bb ob) sb m = Ok tt m' /\
    (forall i, 0 <= i < 2 ^ log2n ->
       cells m' ba (oa + i * sa) = cells m bb (ob + dbcF_bitreverse cfg i log2n * sb) /\
       cells m' bb (ob + dbcF_bitreverse cfg i log2n * sb) = cells m ba (oa + i * sa)) /\
    (forall b o,
       (b = ba -> forall k, 0 <= k < 2 ^ log2n -> o <> oa + k * sa) ->
       (b = bb -> forall k, 0 <= k < 2 ^ log2n -> o <> ob + k * sb) ->
       cells m' b o = cells m b o).
Proof.
  intros Hp Hsa Hsb Hd.
  destruct (dbcF_bitreversal_swap_spec cfg log2n ba oa sa bb ob sb m Hp Hsa Hsb Hd)
    as (m' & Hrun & Ha & Hb & Hf).
  exists m'. split; [exact Hrun|]. split; [|exact Hf].
  intros i Hi. rewrite (bitreverse_rev cfg) by assumption.
  split; [apply Ha|apply Hb]; exact Hi.
Qed.

Lemma bitreversal_swap_exchanges_witness :
  exists m',
    @dbcF_bitreversal_swap Q default_config 2 (Ptr 1 0) 1 (Ptr 2 0) 1 swap_mem = Ok tt m' /\
    (forall i, 0 <= i < 2 ^ 2 ->
       cells m' 1 (0 + i * 1) = cells swap_mem 2 (0 + dbcF_bitreverse default_config i 2 * 1) /\
       cells m' 2 (0 + dbcF_bitreverse default_config i 2 * 1) = cells swap_mem 1 (0 + i * 1)) /\
    (forall b o,
       (b = 1 -> forall k, 0 <= k < 2 ^ 2 -> o <> 0 + k * 1) ->
       (b = 2 -> forall k, 0 <= k < 2 ^ 2 -> o <> 0 + k * 1) ->
       cells m' b o = cells swap_mem b o).
Proof.
  apply (bitreversal_swap_exchanges default_config 2 1 0 1 2 0 1 swap_mem); lia.
Defined.

(** X3.  The in-place permutation is its own inverse: run twice on the
    same array it returns both times and every element is back where it
    was. *)
Theorem inplace_permutation_twice_restores {T : Type} (cfg : Config)
    (log2n b o s bt ot : Z) (m : mem T) :
  static_asserts cfg ->
  0 <= log2n -> s <> 0 -> b <> bt ->
  exists m1 m2,
    dbcF_bitreversal_permutation cfg log2n (Ptr b o) s (Ptr b o) s (Ptr bt ot) m = Ok tt m1 /\
    dbcF_bitreversal_permutation cfg log2n (Ptr b o) s (Ptr b o) s (Ptr bt ot) m1 = Ok tt m2 /\
    forall k, 0 <= k < 2 ^ log2n -> cells m2 b (o + k * s) = cells m b (o + k * s).
Proof.
  intros Ha Hp Hs Hb.
  destruct (permutation_spec cfg Ha bt ot log2n b o s b o s m Hp Hs Hb Hb)
    as (m1 & Hrun1 & Hc1 & _); [right; left; repeat split|].
  destruct (permutation_spec cfg Ha bt ot log2n b o s b o s m1 Hp Hs Hb Hb)
    as (m2 & Hrun2 & Hc2 & _); [right; left; repeat split|].
  exists m1, m2. split; [exact Hrun1|]. split; [exact Hrun2|].
  intros k Hk.
  pose proof (rev_range log2n k Hp) as Hr.
  specialize (Hc2 (rev log2n k) Hr). specialize (Hc1 k Hk).
  rewrite !bitreverse_rev in * by assumption.
  rewrite rev_invol in Hc2 by assumption.
  rewrite Hc2. exact Hc1.
Qed.

Lemma inplace_permutation_twice_restores_witness :
  exists m1 m2,
    @dbcF_bitreversal_permutation Q default_config 3 (Ptr 1 0) 2 (Ptr 1 0) 2 (Ptr 2 0)
       perm_mem = Ok tt m1 /\
    @dbcF_bitreversal_permutation Q default_config 3 (Ptr 1 0) 2 (Ptr 1 0) 2 (Ptr 2 0)
       m1 = Ok tt m2 /\
    forall k, 0 <= k < 2 ^ 3 -> cells m2 1 (0 + k * 2) = cells perm_mem 1 (0 + k * 2).
Proof.
  apply (inplace_permutation_twice_restores default_config 3 1 0 2 2 0 perm_mem);
    [exact default_static_asserts|lia|lia|lia].
Defined.

Lemma fft_npot_code_mem {T : Type} {E : Elem T} (cfg : Config)
    n sr si srs sis dr di drs dis inv scale (m m' : mem T) r :
  1 <= n ->
  dbcF_fft_npot cfg n sr si srs sis dr di drs dis inv scale m = Ok r m' ->
  r = 0 \/ (r = DBCF_ERROR_OUT_OF_MEMORY /\ m' = m).
Proof.
  intros Hn H. unfold dbcF_fft_npot in H.
  destruct (log2m_loop_returns n m (Z.to_nat (2 * n)) 0 DBCF_ONE ltac:(lia))
    as (l & Mv' & Hl & Hrun).
  { rewrite Z.add_0_l, Z2Nat.id by lia.
    pose proof (Z.pow_gt_lin_r 2 (2 * n) ltac:(lia) ltac:(lia)). lia. }
  unfold bind at 1 in H. rewrite Hrun in H.
  unfold bind at 1 in H. unfold dbcf_malloc in H.
  destruct (heap_ok m _).
  - cbn [is_null] in H.
    repeat (apply bind_ok_inv in H; destruct H as (? & ? & _ & H)).
    unfold ret in H. left. congruence.
  - cbn [is_null] in H. unfold ret in H. right. split; congruence.
Qed.

(** X4.  Whatever the arguments, a call of the entry surface that
    returns gives 0, [INVALID_ARGUMENT] or [OUT_OF_MEMORY]; with either
    error code the memory is exactly as before the call, and
    [OUT_OF_MEMORY] comes only for a size that is not a power of two. *)
Theorem fft_result_codes {T : Type} {E : Elem T} (cfg : Config) (n : Z)
    (sr si : ptr) (srs sis : Z) (dr di : ptr) (drs dis : Z) (inverse : bool) (scale : T)
    (m m' : mem T) (r : Z) :
  dbcF_fft cfg n sr si srs sis dr di drs dis inverse scale m = Ok r m' ->
  r = 0 \/
  (r = DBCF_ERROR_INVALID_ARGUMENT /\ m' = m) \/
  (r = DBCF_ERROR_OUT_OF_MEMORY /\ m' = m /\ Z.land n (n - 1) <> 0).
Proof.
  intro H.
  destruct (Z.ltb_spec n 1) as [Hlt|Hge].
  - rewrite fft_small in H by exact Hlt. left. congruence.
  - destruct (alias_rejected sr si srs sis dr di drs dis) eqn:Ha.
    + rewrite fft_rejects in H by assumption. right. left. split; congruence.
    + rewrite fft_dispatch in H by assumption.
      destruct (Z.eqb_spec (Z.land n (n - 1)) 0) as [Hp|Hp]; cbn [negb] in H.
      * apply fft_pot_code in H. left. exact H.
      * destruct (DBC_FFT_NO_NPOT cfg).
        -- right. left. split; congruence.
        -- apply fft_npot_code_mem in H; [|exact Hge].
           destruct H as [H|[H1 H2]]; [left; exact H|right; right; auto].
Qed.

Lemma fft_result_codes_witness :
  DBCF_ERROR_OUT_OF_MEMORY = 0 \/
  (DBCF_ERROR_OUT_OF_MEMORY = DBCF_ERROR_INVALID_ARGUMENT /\ oom_mem = oom_mem) \/
  (DBCF_ERROR_OUT_OF_MEMORY = DBCF_ERROR_OUT_OF_MEMORY /\ oom_mem = oom_mem /\
   Z.land 3 (3 - 1) <> 0).
Proof.
  apply (@fft_result_codes Q Elem_Q default_config 3 (Ptr 1 0) (Ptr 2 0) 1 1
           (Ptr 3 0) (Ptr 4 0) 1 1 false 1%Q oom_mem oom_mem DBCF_ERROR_OUT_OF_MEMORY).
  vm_compute. reflexivity.
Defined.

(** X5.  When the Bluestein driver is compiled out
    ([DBC_FFT_NO_NPOT]), every size [num_elements >= 1] that is not a
    power of two is refused with [INVALID_ARGUMENT] and nothing is
    written, whatever the pointers and strides. *)
Theorem npot_size_refused_without_bluestein {T : Type} {E : Elem T} (cfg : Config) (n : Z)
    (sr si : ptr) (srs sis : Z) (dr di : ptr) (drs dis : Z) (inverse : bool) (scale : T)
    (m : mem T) :
  DBC_FFT_NO_NPOT cfg = true ->
  1 <= n -> Z.land n (n - 1) <> 0 ->
  dbcF_fft cfg n sr si srs sis dr di drs dis inverse scale m
  = Ok DBCF_ERROR_INVALID_ARGUMENT m.
Proof.
  intros Hc Hn Hp.
  destruct (alias_rejected sr si srs sis dr di drs dis) eqn:Ha.
  - apply fft_rejects; assumption.
  - rewrite fft_dispatch by assumption.
    apply Z.eqb_neq in Hp. rewrite Hp, Hc. reflexivity.
Qed.

Lemma npot_size_refused_without_bluestein_witness :
  @dbcF_fft Q Elem_Q (mkConfig false true 10 5) 6 (Ptr 1 0) (Ptr 2 0) 1 1
     (Ptr 3 0) (Ptr 4 0) 1 1 false 1%Q stride_mem
  = Ok DBCF_ERROR_INVALID_ARGUMENT stride_mem.
Proof.
  apply (npot_size_refused_without_bluestein (mkConfig false true 10 5) 6
           (Ptr 1 0) (Ptr 2 0) 1 1 (Ptr 3 0) (Ptr 4 0) 1 1 false 1%Q stride_mem).
  - reflexivity.
  - lia.
  - vm_compute. discriminate.
Defined.

(** * The decimation-in-time recursion computes the transform *)

Lemma Cadd_comm (a b : R * R) : Cadd a b = Cadd b a.
Proof. unfold Cadd. f_equal; ring. Qed.

Lemma Cadd_assoc (a b c : R * R) : Cadd (Cadd a b) c = Cadd a (Cadd b c).
Proof. unfold Cadd. cbn [fst snd]. f_equal; ring. Qed.

Lemma Cadd_0_l (a : R * R) : Cadd (0%R, 0%R) a = a.
Proof. destruct a. unfold Cadd. cbn [fst snd]. f_equal; ring. Qed.

Lemma Cmul_comm (a b : R * R) : Cmul a b = Cmul b a.
Proof. unfold Cmul. f_equal; ring. Qed.

Lemma Cmul_assoc (a b c : R * R) : Cmul (Cmul a b) c = Cmul a (Cmul b c).
Proof. unfold Cmul. cbn [fst snd]. f_equal; ring. Qed.

Lemma Cmul_add_r (a b c : R * R) : Cmul a (Cadd b c) = Cadd (Cmul a b) (Cmul a c).
Proof. unfold Cmul, Cadd. cbn [fst snd]. f_equal; ring. Qed.

Lemma Cmul_0_r (a : R * R) : Cmul a (0%R, 0%R) = (0%R, 0%R).
Proof. unfold Cmul. cbn [fst snd]. f_equal; ring. Qed.

Lemma Cmul_1_l (a : R * R) : Cmul (1%R, 0%R) a = a.
Proof. destruct a. unfold Cmul. cbn [fst snd]. f_equal; ring. Qed.

Lemma cis_0 (inverse : bool) : cis inverse 0 = (1%R, 0%R).
Proof.
  unfold cis, signed. rewrite cos_0, sin_0. destruct inverse; f_equal; ring.
Qed.

Lemma cis_add (inverse : bool) (x y : R) :
  cis inverse (x + y) = Cmul (cis inverse x) (cis inverse y).
Proof.
  unfold cis, Cmul, signed. cbn [fst snd]. rewrite cos_plus, sin_plus.
  destruct inverse; f_equal; ring.
Qed.

Lemma cis_period (inverse : bool) (x : R) (k : nat) :
  cis inverse (x + 2 * INR k * PI) = cis inverse x.
Proof. unfold cis. rewrite cos_period, sin_period. reflexivity. Qed.

Lemma cis_PI (inverse : bool) : cis inverse PI = ((-1)%R, 0%R).
Proof. unfold cis, signed. rewrite cos_PI, sin_PI. destruct inverse; f_equal; ring. Qed.

(** The angle of [t] turns around once every [2^p]. *)
Lemma cis_angle_mod (inverse : bool) (p t : Z) :
  0 <= p -> 0 <= t ->
  cis inverse (twiddle_angle p (t mod 2 ^ p)) = cis inverse (twiddle_angle p t).
Proof.
  intros Hp Ht. pose proof (pow2_pos p Hp) as Hpos.
  rewrite (Z.div_mod t (2 ^ p)) at 2 by lia.
  rewrite Z.add_comm, angle_add by exact Hp.
  assert (Hq : 0 <= t / 2 ^ p) by (apply Z.div_pos; lia).
  replace (twiddle_angle p (2 ^ p * (t / 2 ^ p)))
    with (2 * INR (Z.to_nat (t / 2 ^ p)) * PI)%R.
  - symmetry. apply cis_period.
  - rewrite INR_IZR_INZ, Z2Nat.id by exact Hq. unfold twiddle_angle.
    rewrite mult_IZR. pose proof (pow2_IZR_pos p Hp). field. lra.
Qed.

Lemma angle_double (p t : Z) :
  0 <= p -> twiddle_angle (p + 1) (2 * t) = twiddle_angle p t.
Proof.
  intro Hp. unfold twiddle_angle. rewrite Z.pow_add_r by lia. change (2 ^ 1) with 2.
  rewrite !mult_IZR. pose proof (pow2_IZR_pos p Hp). field. lra.
Qed.

Lemma angle_half_turn (p : Z) : 0 <= p -> twiddle_angle (p + 1) (2 ^ p) = PI.
Proof.
  intro Hp. unfold twiddle_angle. rewrite Z.pow_add_r by lia. change (2 ^ 1) with 2.
  rewrite !mult_IZR. pose proof (pow2_IZR_pos p Hp). field. lra.
Qed.

Lemma Csum_ext (n : nat) (f g : nat -> R * R) :
  (forall k, (k < n)%nat -> f k = g k) -> Csum n f = Csum n g.
Proof.
  induction n as [|n IH]; intro H; [reflexivity|].
  cbn [Csum]. rewrite IH by (intros; apply H; lia). rewrite H by lia. reflexivity.
Qed.

Lemma Csum_add (n : nat) (f g : nat -> R * R) :
  Csum n (fun k => Cadd (f k) (g k)) = Cadd (Csum n f) (Csum n g).
Proof.
  induction n as [|n IH]; cbn [Csum].
  - rewrite Cadd_0_l. reflexivity.
  - rewrite IH. unfold Cadd. cbn [fst snd]. f_equal; ring.
Qed.

Lemma Csum_mul_l (n : nat) (c : R * R) (f : nat -> R * R) :
  Csum n (fun k => Cmul c (f k)) = Cmul c (Csum n f).
Proof.
  induction n as [|n IH]; cbn [Csum].
  - rewrite Cmul_0_r. reflexivity.
  - rewrite IH, Cmul_add_r. reflexivity.
Qed.

Lemma Csum_even_odd (n : nat) (f : nat -> R * R) :
  Csum (2 * n) f
  = Cadd (Csum n (fun u => f (2 * u)%nat)) (Csum n (fun u => f (2 * u + 1)%nat)).
Proof.
  induction n as [|n IH].
  - cbn. rewrite Cadd_0_l. reflexivity.
  - replace (2 * S n)%nat with (S (S (2 * n))) by lia. cbn [Csum]. rewrite IH.
    replace (S (2 * n)) with (2 * n + 1)%nat by lia.
    unfold Cadd. cbn [fst snd]. f_equal; ring.
Qed.

(** The recursion is the sum over the array read in bit-reversed order. *)
Lemma dit_sum (inverse : bool) (a : Z -> R * R) (d : nat) :
  forall b j, 0 <= j ->
    dit inverse d a b j
    = Csum (Z.to_nat (2 ^ Z.of_nat d))
        (fun t => Cmul (a (b + rev (Z.of_nat d) (Z.of_nat t)))
                       (cis inverse (twiddle_angle (Z.of_nat d) (j * Z.of_nat t)))).
Proof.
  induction d as [|d IH]; intros b j Hj.
  - cbn [dit]. change (Z.to_nat (2 ^ Z.of_nat 0)) with 1%nat. cbn [Csum].
    rewrite Cadd_0_l. change (Z.of_nat 0) with 0. rewrite Z.mul_0_r, angle_0, cis_0.
    unfold rev. cbn [Z.to_nat rev_bits]. rewrite Z.add_0_r, Cmul_comm, Cmul_1_l. reflexivity.
  - cbn [dit].
    assert (Hd : 0 <= Z.of_nat d) by lia.
    pose proof (pow2_pos (Z.of_nat d) Hd) as Hpos.
    set (h := 2 ^ Z.of_nat d) in *.
    assert (Hm : 0 <= j mod h < h) by (apply Z.mod_pos_bound; lia).
    rewrite !IH by lia.
    replace (Z.to_nat (2 ^ Z.of_nat (S d))) with (2 * Z.to_nat h)%nat
      by (rewrite Nat2Z.inj_succ, Z.pow_succ_r by lia; fold h; lia).
    rewrite Csum_even_odd. f_equal.
    + apply Csum_ext. intros t Ht.
      assert (Hth : 0 <= Z.of_nat t < h) by lia.
      replace (Z.of_nat (2 * t)) with (2 * Z.of_nat t) by lia.
      rewrite rev_even by (rewrite ?Nat2Z.inj_succ; try lia;
                           replace (Z.succ (Z.of_nat d) - 1) with (Z.of_nat d) by lia; exact Hth).
      replace (Z.of_nat (S d) - 1) with (Z.of_nat d) by lia.
      f_equal.
      replace (j * (2 * Z.of_nat t)) with (2 * (j * Z.of_nat t)) by ring.
      replace (Z.of_nat (S d)) with (Z.of_nat d + 1) by lia.
      rewrite angle_double by exact Hd.
      rewrite <- (cis_angle_mod inverse (Z.of_nat d) (j * Z.of_nat t)) by lia.
      rewrite <- (cis_angle_mod inverse (Z.of_nat d) (j mod h * Z.of_nat t)) by lia.
      fold h. rewrite Z.mul_mod_idemp_l by lia. reflexivity.
    + rewrite <- Csum_mul_l. apply Csum_ext. intros t Ht.
      assert (Hth : 0 <= Z.of_nat t < h) by lia.
      replace (Z.of_nat (2 * t + 1)) with (2 * Z.of_nat t + 1) by lia.
      rewrite rev_odd by (rewrite ?Nat2Z.inj_succ; try lia;
                          replace (Z.succ (Z.of_nat d) - 1) with (Z.of_nat d) by lia; exact Hth).
      replace (Z.of_nat (S d) - 1) with (Z.of_nat d) by lia. fold h.
      rewrite Z.add_assoc.
      rewrite <- Cmul_assoc, (Cmul_comm (cis _ _)), Cmul_assoc. f_equal.
      replace (j * (2 * Z.of_nat t + 1)) with (j + 2 * (j * Z.of_nat t)) by ring.
      replace (Z.of_nat (S d)) with (Z.of_nat d + 1) by lia.
      rewrite angle_add, cis_add by lia. f_equal.
      rewrite angle_double by exact Hd.
      rewrite <- (cis_angle_mod inverse (Z.of_nat d) (j * Z.of_nat t)) by lia.
      rewrite <- (cis_angle_mod inverse (Z.of_nat d) (j mod h * Z.of_nat t)) by lia.
      fold h. rewrite Z.mul_mod_idemp_l by lia. reflexivity.
Qed.

(** On the bit-reversed copy of [x] the recursion is the transform of
    [x]. *)
Lemma dit_dft (inverse : bool) (p : Z) (x a : Z -> R * R) (j : Z) :
  0 <= p -> 0 <= j ->
  (forall k, 0 <= k < 2 ^ p -> a (rev p k) = x k) ->
  dit inverse (Z.to_nat p) a 0 j = dft inverse (2 ^ p) x j.
Proof.
  intros Hp Hj Ha. rewrite dit_sum by exact Hj. rewrite Z2Nat.id by exact Hp.
  unfold dft. apply Csum_ext. intros t Ht.
  pose proof (pow2_pos p Hp). rewrite Z.add_0_l, Ha by lia. reflexivity.
Qed.

(** * The eight-point kernel *)

Lemma eighth_turns (t : Z) : twiddle_angle 3 t = (IZR t * (PI / 4))%R.
Proof. unfold twiddle_angle. change (2 ^ 3) with 8. field. Qed.

Lemma quarter_turns (t : Z) : twiddle_angle 2 t = (IZR (2 * t) * (PI / 4))%R.
Proof. unfold twiddle_angle. change (2 ^ 2) with 4. rewrite mult_IZR. field. Qed.

Lemma half_turns (t : Z) : twiddle_angle 1 t = (IZR (4 * t) * (PI / 4))%R.
Proof. unfold twiddle_angle. change (2 ^ 1) with 2. rewrite mult_IZR. field. Qed.

Lemma sin_cos_PI4 : sin (PI / 4) = cos (PI / 4).
Proof. rewrite sin_PI4, cos_PI4. reflexivity. Qed.

(** The eighth roots of unity, with [c = cos(pi/4)]. *)
Lemma cis_eighths (inverse : bool) (t : Z) :
  0 <= t < 8 ->
  cis inverse (IZR t * (PI / 4))
  = match t with
    | 0 => (1, 0)
    | 1 => (cos (PI / 4), signed inverse (cos (PI / 4)))
    | 2 => (0, signed inverse 1)
    | 3 => (- cos (PI / 4), signed inverse (cos (PI / 4)))
    | 4 => (-1, 0)
    | 5 => (- cos (PI / 4), signed inverse (- cos (PI / 4)))
    | 6 => (0, signed inverse (-1))
    | _ => (cos (PI / 4), signed inverse (- cos (PI / 4)))
    end%R.
Proof.
  intro Ht.
  assert (C3 : cos (3 * (PI / 4)) = (- cos (PI / 4))%R).
  { rewrite cos_3PI4, cos_PI4. field. pose proof (sqrt_lt_R0 2 ltac:(lra)). lra. }
  assert (S3 : sin (3 * (PI / 4)) = cos (PI / 4)).
  { rewrite sin_3PI4, cos_PI4. reflexivity. }
  assert (C : t = 0 \/ t = 1 \/ t = 2 \/ t = 3 \/ t = 4 \/ t = 5 \/ t = 6 \/ t = 7) by lia.
  destruct C as [-> | [-> | [-> | [-> | [-> | [-> | [-> | ->]]]]]]]; unfold cis.
  - rewrite Rmult_0_l, cos_0, sin_0. unfold signed. destruct inverse; f_equal; ring.
  - rewrite Rmult_1_l, sin_cos_PI4. reflexivity.
  - replace (2 * (PI / 4))%R with (PI / 2)%R by field. rewrite cos_PI2, sin_PI2. reflexivity.
  - rewrite C3, S3. reflexivity.
  - replace (4 * (PI / 4))%R with PI by field. rewrite cos_PI, sin_PI.
    unfold signed. destruct inverse; f_equal; ring.
  - replace (5 * (PI / 4))%R with (PI / 4 + PI)%R by field.
    rewrite neg_cos, neg_sin, sin_cos_PI4. reflexivity.
  - replace (6 * (PI / 4))%R with (PI / 2 + PI)%R by field.
    rewrite neg_cos, neg_sin, cos_PI2, sin_PI2. f_equal. ring.
  - replace (7 * (PI / 4))%R with (3 * (PI / 4) + PI)%R by field.
    rewrite neg_cos, neg_sin, C3, S3. f_equal. ring.
Qed.

Lemma dit_3 (inverse : bool) (a : Z -> R * R) (b t : Z) :
  dit inverse 3 a b t
  = Cadd (Cadd (Cadd (a b) (Cmul (cis inverse (twiddle_angle 1 ((t mod 4) mod 2))) (a (b + 1))))
               (Cmul (cis inverse (twiddle_angle 2 (t mod 4)))
                     (Cadd (a (b + 2))
                           (Cmul (cis inverse (twiddle_angle 1 ((t mod 4) mod 2)))
                                 (a (b + 2 + 1))))))
         (Cmul (cis inverse (twiddle_angle 3 t))
               (Cadd (Cadd (a (b + 4))
                           (Cmul (cis inverse (twiddle_angle 1 ((t mod 4) mod 2)))
                                 (a (b + 4 + 1))))
                     (Cmul (cis inverse (twiddle_angle 2 (t mod 4)))
                           (Cadd (a (b + 4 + 2))
                                 (Cmul (cis inverse (twiddle_angle 1 ((t mod 4) mod 2)))
                                       (a (b + 4 + 2 + 1))))))).
Proof. reflexivity. Qed.

Ltac eval_mod :=
  repeat match goal with
  | |- context [Z.modulo ?a ?b] =>
      let v := eval vm_compute in (Z.modulo a b) in
      change (Z.modulo a b) with v
  end.

Section Kernel.

Variables (hook : option (Z -> R * R)) (hook_npot : option (Z -> Z -> R * R)).

Let ER : Elem R := Elem_R hook hook_npot.
Local Existing Instance ER.

Variables (inverse : bool) (br or sr bi oi si : Z).

Hypothesis Hsr : sr <> 0.
Hypothesis Hsi : si <> 0.
Hypothesis Hd : disjoint_views br or sr bi oi si 8.

Ltac addr_neq :=
  first
    [ right; lia
    | destruct (Z.eq_dec br bi) as [Heqb|Hneb];
      [ right; first [ apply Hd; lia
                     | let Hx := fresh "Hx" in
                       intro Hx; symmetry in Hx; revert Hx; apply Hd; lia ]
      | left; first [exact Hneb | let Hy := fresh "Hy" in intro Hy; apply Hneb; symmetry; exact Hy] ] ].

Ltac read_cell :=
  repeat first [ rewrite cells_set_same | rewrite cells_set_other by addr_neq ].

Lemma fft8_run (m : mem R) :
  exists m',
    dbcF_fft8 (Ptr br or) (Ptr bi oi) sr si inverse (cos (PI / 4)) m = Ok tt m' /\
    (forall t, 0 <= t < 8 ->
       cplx m' br or sr bi oi si t
       = dit inverse 3 (fun k => cplx m br or sr bi oi si k) 0 t) /\
    frame2 br or sr bi oi si 8 m m'.
Proof.
  unfold dbcF_fft8. run_mem. cbv zeta.
  destruct inverse; cbn [negb]; run_exists.
  all: split;
    [ intros t Ht
    | intros b' o' Hre Him;
      repeat (rewrite cells_set_other;
              [|first [ destruct (Z.eq_dec b' br) as [e|e];
                        [right; apply (Hre e); lia|left; exact e]
                      | destruct (Z.eq_dec b' bi) as [e|e];
                        [right; apply (Him e); lia|left; exact e] ]]);
      reflexivity ].
  all: assert (C : t = 0 \/ t = 1 \/ t = 2 \/ t = 3 \/ t = 4 \/ t = 5 \/ t = 6 \/ t = 7) by lia;
    rewrite dit_3;
    destruct C as [-> | [-> | [-> | [-> | [-> | [-> | [-> | ->]]]]]]];
    eval_mod;
    rewrite ?eighth_turns, ?quarter_turns, ?half_turns;
    repeat match goal with
    | |- context [IZR (?a * ?b)] =>
        let v := eval vm_compute in (a * b) in change (a * b) with v
    end;
    rewrite !cis_eighths by lia;
    unfold cplx, cell; read_cell;
    cbn [Tadd Tsub Tmul Tneg ER Elem_R];
    unfold Cadd, Cmul, signed; cbn [fst snd Z.add Z.mul Pos.add Pos.mul Pos.succ];
    f_equal; ring.
Qed.

End Kernel.

(** * Butterflies on strided arrays *)

Lemma bfly_range_nil (N L H : Z) (w : Z -> R * R) (X : Z -> R * R) :
  bfly_range N L H 0 w X X.
Proof. split; [intros t Ht; lia|reflexivity]. Qed.

Lemma bfly_range_ext (N L H cnt : Z) (w w' : Z -> R * R) (X0 X1 : Z -> R * R) :
  (forall t, 0 <= t < cnt -> w' t = w t) ->
  bfly_range N L H cnt w X0 X1 -> bfly_range N L H cnt w' X0 X1.
Proof.
  intros Hw [Hb Ho]. split; [|exact Ho].
  intros t Ht. rewrite Hw by exact Ht. apply Hb. exact Ht.
Qed.

(** A range of butterflies followed by the next range. *)
Lemma bfly_range_app (N L H c1 c2 : Z) (w w' : Z -> R * R) (X0 X1 X2 : Z -> R * R) :
  0 <= L -> 0 <= c1 -> 0 <= c2 -> L + (c1 + c2) <= H -> H + (c1 + c2) <= N ->
  bfly_range N L H c1 w X0 X1 ->
  bfly_range N (L + c1) (H + c1) c2 w' X1 X2 ->
  bfly_range N L H (c1 + c2) (fun t => if t <? c1 then w t else w' (t - c1)) X0 X2.
Proof.
  intros HL H1 H2 HLH HHN [Hb1 Ho1] [Hb2 Ho2]. split.
  - intros t Ht. destruct (Z.ltb_spec t c1) as [Hlt|Hge].
    + destruct (Hb1 t ltac:(lia)) as [E1 E2].
      rewrite !Ho2 by lia. split; assumption.
    + destruct (Hb2 (t - c1) ltac:(lia)) as [E1 E2].
      replace (L + c1 + (t - c1)) with (L + t) in * by lia.
      replace (H + c1 + (t - c1)) with (H + t) in * by lia.
      rewrite E1, E2, !Ho1 by lia. split; reflexivity.
  - intros q Hq HnL HnH. rewrite Ho2, Ho1 by lia. reflexivity.
Qed.

Section Butterflies.

Variables (hook : option (Z -> R * R)) (hook_npot : option (Z -> Z -> R * R)).

Let ER : Elem R := Elem_R hook hook_npot.
Local Existing Instance ER.

Variables (inverse : bool) (br or sr bi oi si N : Z).

Hypothesis Hsr : sr <> 0.
Hypothesis Hsi : si <> 0.
Hypothesis Hd : disjoint_views br or sr bi oi si N.

Local Notation X m := (cplx m br or sr bi oi si).

Lemma re_im_apart (u v : Z) :
  0 <= u < N -> 0 <= v < N -> br <> bi \/ or + u * sr <> oi + v * si.
Proof.
  intros Hu Hv. destruct (Z.eq_dec br bi) as [e|e]; [right|left; exact e].
  apply Hd; assumption.
Qed.

Lemma im_re_apart (u v : Z) :
  0 <= u < N -> 0 <= v < N -> bi <> br \/ oi + v * si <> or + u * sr.
Proof.
  intros Hu Hv. destruct (re_im_apart u v Hu Hv) as [H|H]; [left|right]; congruence.
Qed.

Lemma re_re_apart (u v : Z) : u <> v -> br <> br \/ or + u * sr <> or + v * sr.
Proof. intro H. right. intro Hx. apply addr_inj in Hx; [contradiction|exact Hsr]. Qed.

Lemma im_im_apart (u v : Z) : u <> v -> bi <> bi \/ oi + u * si <> oi + v * si.
Proof. intro H. right. intro Hx. apply addr_inj in Hx; [contradiction|exact Hsi]. Qed.

Ltac apart :=
  first [ apply re_re_apart; lia | apply im_im_apart; lia
        | apply re_im_apart; lia | apply im_re_apart; lia ].

(** One butterfly on the elements [u] and [v]. *)
Lemma bfly_one (u v LRo LIo HRo HIo j k : Z) (c s : R) (m : mem R) :
  0 <= u < N -> 0 <= v < N -> u <> v ->
  LRo + j = or + u * sr -> LIo + k = oi + u * si ->
  HRo + j = or + v * sr -> HIo + k = oi + v * si ->
  exists m',
    butterfly_step (Ptr br LRo) (Ptr bi LIo) (Ptr br HRo) (Ptr bi HIo) j k c s m = Ok tt m' /\
    X m' u = Cadd (X m u) (Cmul (c, s) (X m v)) /\
    X m' v = Csub (X m u) (Cmul (c, s) (X m v)) /\
    (forall q, 0 <= q < N -> q <> u -> q <> v -> X m' q = X m q) /\
    frame2 br or sr bi oi si N m m'.
Proof.
  intros Hu Hv Huv E1 E2 E3 E4. unfold butterfly_step. run_exists.
  rewrite E1, E2, E3, E4. cbn [Tadd Tsub Tmul ER Elem_R].
  unfold cplx, cell, Cadd, Csub, Cmul. cbn [fst snd].
  repeat split.
  - rewrite cells_set_other by apart. rewrite cells_set_other by apart.
    rewrite cells_set_other by apart. rewrite cells_set_same.
    rewrite cells_set_other by apart. rewrite cells_set_other by apart.
    rewrite cells_set_same. f_equal; ring.
  - rewrite cells_set_other by apart. rewrite cells_set_same.
    rewrite cells_set_same. f_equal; ring.
  - intros q Hq Hqu Hqv.
    rewrite !cells_set_other by apart. reflexivity.
  - intros b' o' Hre Him.
    rewrite !cells_set_other; try reflexivity.
    all: first [ destruct (Z.eq_dec b' br) as [e|e];
                 [right; apply (Hre e); lia|left; exact e]
               | destruct (Z.eq_dec b' bi) as [e|e];
                 [right; apply (Him e); lia|left; exact e] ].
Qed.

(** The butterfly of the first level, without a twiddle, followed by the
    rest [k] of the loop body. *)
Lemma bfly_unit {A} (k : M R A) (u v LRo LIo HRo HIo : Z) (m : mem R) :
  0 <= u < N -> 0 <= v < N -> u <> v ->
  LRo + 0 = or + u * sr -> LIo + 0 = oi + u * si ->
  HRo + 0 = or + v * sr -> HIo + 0 = oi + v * si ->
  exists m',
    (xl <- aref (Ptr br LRo) 0 ;; yl <- aref (Ptr bi LIo) 0 ;;
     xr <- aref (Ptr br HRo) 0 ;; yr <- aref (Ptr bi HIo) 0 ;;
     aset (Ptr br LRo) 0 (Tadd xl xr) ;; aset (Ptr bi LIo) 0 (Tadd yl yr) ;;
     aset (Ptr br HRo) 0 (Tsub xl xr) ;; aset (Ptr bi HIo) 0 (Tsub yl yr) ;; k) m = k m' /\
    X m' u = Cadd (X m u) (Cmul (1%R, 0%R) (X m v)) /\
    X m' v = Csub (X m u) (Cmul (1%R, 0%R) (X m v)) /\
    (forall q, 0 <= q < N -> q <> u -> q <> v -> X m' q = X m q) /\
    frame2 br or sr bi oi si N m m'.
Proof.
  intros Hu Hv Huv E1 E2 E3 E4.
  eexists. split; [run_mem; reflexivity|].
  rewrite E1, E2, E3, E4. cbn [Tadd Tsub Tmul ER Elem_R].
  unfold cplx, cell, Cadd, Csub, Cmul. cbn [fst snd].
  repeat split.
  - rewrite cells_set_other by apart. rewrite cells_set_other by apart.
    rewrite cells_set_other by apart. rewrite cells_set_same.
    rewrite cells_set_other by apart. rewrite cells_set_other by apart.
    rewrite cells_set_same. f_equal; ring.
  - rewrite cells_set_other by apart. rewrite cells_set_same.
    rewrite cells_set_same. f_equal; ring.
  - intros q Hq Hqu Hqv.
    rewrite !cells_set_other by apart. reflexivity.
  - intros b' o' Hre Him.
    rewrite !cells_set_other; try reflexivity.
    all: first [ destruct (Z.eq_dec b' br) as [e|e];
                 [right; apply (Hre e); lia|left; exact e]
               | destruct (Z.eq_dec b' bi) as [e|e];
                 [right; apply (Him e); lia|left; exact e] ].
Qed.

(** One more butterfly extends a range. *)
Lemma bfly_range_snoc (L H cnt : Z) (w : Z -> R * R) (m0 m1 m2 : mem R) :
  0 <= L -> 0 <= cnt -> L + cnt < H -> H + cnt < N ->
  bfly_range N L H cnt w (X m0) (X m1) ->
  X m2 (L + cnt) = Cadd (X m1 (L + cnt)) (Cmul (w cnt) (X m1 (H + cnt))) ->
  X m2 (H + cnt) = Csub (X m1 (L + cnt)) (Cmul (w cnt) (X m1 (H + cnt))) ->
  (forall q, 0 <= q < N -> q <> L + cnt -> q <> H + cnt -> X m2 q = X m1 q) ->
  bfly_range N L H (cnt + 1) w (X m0) (X m2).
Proof.
  intros HL Hc HLH HHN [Hb Ho] E1 E2 Hoth. split.
  - intros t Ht. destruct (Z.eq_dec t cnt) as [->|Hne].
    + rewrite E1, E2, !Ho by lia. split; reflexivity.
    + destruct (Hb t ltac:(lia)) as [F1 F2].
      rewrite !Hoth by lia. split; assumption.
  - intros q Hq HnL HnH. rewrite Hoth, Ho by lia. reflexivity.
Qed.

End Butterflies.

(** * One pass of butterflies *)

Lemma frame2_refl {T} (ba oa sa bb ob sb n : Z) (m : mem T) :
  frame2 ba oa sa bb ob sb n m m.
Proof. intros b o _ _. reflexivity. Qed.

Lemma frame2_trans {T} (ba oa sa bb ob sb n : Z) (m0 m1 m2 : mem T) :
  frame2 ba oa sa bb ob sb n m0 m1 -> frame2 ba oa sa bb ob sb n m1 m2 ->
  frame2 ba oa sa bb ob sb n m0 m2.
Proof.
  intros F1 F2 b o Ha Hb. rewrite F2, F1 by assumption. reflexivity.
Qed.

Lemma frame2_other_block {T} (ba oa sa bb ob sb n b o : Z) (m m' : mem T) :
  frame2 ba oa sa bb ob sb n m m' -> b <> ba -> b <> bb -> cells m' b o = cells m b o.
Proof. intros F Ha Hb. apply F; intro; contradiction. Qed.

Lemma table_ok_frame2 (inverse : bool) (d log2t bt otr oti ba oa sa bb ob sb n : Z)
    (m m' : mem R) :
  bt <> ba -> bt <> bb ->
  frame2 ba oa sa bb ob sb n m m' ->
  table_ok inverse d log2t bt otr oti m -> table_ok inverse d log2t bt otr oti m'.
Proof.
  intros Ha Hb F Ht t Hr.
  rewrite !(frame2_other_block _ _ _ _ _ _ _ _ _ _ _ F) by assumption.
  apply Ht. exact Hr.
Qed.

(** The loop [for(d=0;d<h;d+=2)]. *)
Lemma for_step2_inv {T} (I : Z -> Z * Z -> mem T -> Prop)
    (body : Z -> Z * Z -> M T (Z * Z)) (cnt : nat) :
  forall d jk m,
    I d jk m ->
    (forall q jk m, 0 <= q < Z.of_nat cnt -> I (d + 2 * q) jk m ->
       exists jk' m', body (d + 2 * q) jk m = Ok jk' m' /\ I (d + 2 * (q + 1)) jk' m') ->
    exists jk' m', for_step2 cnt d jk body m = Ok jk' m' /\ I (d + 2 * Z.of_nat cnt) jk' m'.
Proof.
  induction cnt as [|cnt IH]; intros d jk m HI Hstep.
  - exists jk, m. split; [reflexivity|].
    replace (d + 2 * Z.of_nat 0) with d by lia. exact HI.
  - cbn [for_step2]. unfold bind.
    destruct (Hstep 0 jk m ltac:(lia)) as (jk1 & m1 & Hb & HI1).
    { replace (d + 2 * 0) with d by lia. exact HI. }
    replace (d + 2 * 0) with d in Hb by lia. rewrite Hb.
    replace (d + 2 * (0 + 1)) with (d + 2) in HI1 by lia.
    destruct (IH (d + 2) jk1 m1 HI1) as (jk2 & m2 & Hr & HI2).
    { intros q jk' m' Hq HIq.
      replace (d + 2 + 2 * q) with (d + 2 * (q + 1)) in * by lia.
      destruct (Hstep (q + 1) jk' m' ltac:(lia) HIq) as (jk3 & m3 & E & F).
      exists jk3, m3. split; [exact E|].
      replace (d + 2 + 2 * (q + 1)) with (d + 2 * (q + 1 + 1)) by lia. exact F. }
    exists jk2, m2. split; [exact Hr|].
    replace (d + 2 * Z.of_nat (S cnt)) with (d + 2 + 2 * Z.of_nat cnt) by lia. exact HI2.
Qed.

Ltac ptr_eq :=
  repeat match goal with
  | |- (_, _) = (_, _) => f_equal
  | |- Ptr _ _ = Ptr _ _ => f_equal
  end; ring.

Section Pass.

Variables (hook : option (Z -> R * R)) (hook_npot : option (Z -> Z -> R * R)).

Let ER : Elem R := Elem_R hook hook_npot.
Local Existing Instance ER.

Variables (cfg : Config) (inverse : bool) (br or sr bi oi si N bt otr oti : Z).

Hypothesis Hsr : sr <> 0.
Hypothesis Hsi : si <> 0.
Hypothesis Hd : disjoint_views br or sr bi oi si N.
Hypothesis Hbtr : bt <> br.
Hypothesis Hbti : bt <> bi.

Local Notation X m := (cplx m br or sr bi oi si).
Local Notation F2 := (frame2 br or sr bi oi si N).

Variables (d log2t : Z).

Local Notation w := (fun t => cis inverse (twiddle_angle d t)).

Lemma table_read (m0 m : mem R) (t : Z) :
  table_ok inverse d log2t bt otr oti m0 -> F2 m0 m -> 0 <= t < 2 ^ log2t ->
  (cells m bt (otr + t), cells m bt (oti + t)) = cis inverse (twiddle_angle d t).
Proof.
  intros Ht F Hr.
  apply (table_ok_frame2 inverse d log2t bt otr oti br or sr bi oi si N m0 m Hbtr Hbti F Ht).
  exact Hr.
Qed.

(** The inner loop of the table regime on the block at [B]: butterflies
    by pairs, twiddles read from the table. *)
Lemma block_pairs (B h : Z) (m : mem R) :
  0 <= B -> 0 < h -> h mod 2 = 0 -> B + 2 * h <= N -> h <= 2 ^ log2t ->
  table_ok inverse d log2t bt otr oti m ->
  exists jk m',
    for_step2 (Z.to_nat ((h + 1) / 2)) 0 (0, 0)
      (fun e '(j, k) =>
         Cv <- aref (Ptr bt otr) e ;; Sv <- aref (Ptr bt oti) e ;;
         butterfly_step (Ptr br (or + B * sr)) (Ptr bi (oi + B * si))
                        (Ptr br (or + (B + h) * sr)) (Ptr bi (oi + (B + h) * si)) j k Cv Sv ;;
         let j := (j + sr)%Z in let k := (k + si)%Z in
         Cv <- aref (Ptr bt otr) (e + 1) ;; Sv <- aref (Ptr bt oti) (e + 1) ;;
         butterfly_step (Ptr br (or + B * sr)) (Ptr bi (oi + B * si))
                        (Ptr br (or + (B + h) * sr)) (Ptr bi (oi + (B + h) * si)) j k Cv Sv ;;
         ret ((j + sr)%Z, (k + si)%Z)) m = Ok jk m' /\
    bfly_range N B (B + h) h w (X m) (X m') /\ F2 m m'.
Proof.
  intros HB Hh Hev HN Hlt Htab.
  assert (Hh2 : h = 2 * (h / 2)) by (apply Z.div_exact in Hev; lia).
  assert (Hcnt : Z.of_nat (Z.to_nat ((h + 1) / 2)) = h / 2).
  { rewrite Z2Nat.id by (apply Z.div_pos; lia).
    rewrite Hh2 at 1. rewrite Z.mul_comm, Z.div_add_l by lia.
    change (1 / 2) with 0. lia. }
  set (body := fun (e : Z) (jk : Z * Z) => let '(j, k) := jk in _).
  destruct (for_step2_inv
    (fun e jk m1 => jk = (e * sr, e * si) /\ 0 <= e <= h /\
                    bfly_range N B (B + h) e w (X m) (X m1) /\ F2 m m1)
    body (Z.to_nat ((h + 1) / 2)) 0 (0, 0) m) as (jk & m' & Hrun & _ & _ & Hb & Hf).
  - split; [reflexivity|]. split; [lia|]. split; [apply bfly_range_nil|apply frame2_refl].
  - rewrite Hcnt. intros q jk1 m1 Hq (-> & He & Hb & Hf).
    replace (0 + 2 * q) with (2 * q) in * by lia.
    unfold body.
    pose proof (table_read m m1 (2 * q) Htab Hf ltac:(lia)) as T0.
    pose proof (table_read m m1 (2 * q + 1) Htab Hf ltac:(lia)) as T1.
    run_mem.
    destruct (bfly_one hook hook_npot br or sr bi oi si N Hsr Hsi Hd
                (B + 2 * q) (B + h + 2 * q)
                (or + B * sr) (oi + B * si) (or + (B + h) * sr) (oi + (B + h) * si)
                (2 * q * sr) (2 * q * si)
                (cells m1 bt (otr + 2 * q)) (cells m1 bt (oti + 2 * q)) m1)
      as (m2 & Hrun2 & E1 & E2 & Ho2 & Hf2); try lia.
    rewrite (bind_run _ _ _ _ _ Hrun2). cbv zeta. run_mem.
    rewrite !(frame2_other_block _ _ _ _ _ _ _ _ _ _ _ Hf2) by assumption.
    destruct (bfly_one hook hook_npot br or sr bi oi si N Hsr Hsi Hd
                (B + (2 * q + 1)) (B + h + (2 * q + 1))
                (or + B * sr) (oi + B * si) (or + (B + h) * sr) (oi + (B + h) * si)
                (2 * q * sr + sr) (2 * q * si + si)
                (cells m1 bt (otr + (2 * q + 1))) (cells m1 bt (oti + (2 * q + 1))) m2)
      as (m3 & Hrun3 & G1 & G2 & Ho3 & Hf3); try lia.
    rewrite (bind_run _ _ _ _ _ Hrun3).
    exists ((2 * q * sr + sr + sr), (2 * q * si + si + si)), m3.
    split; [reflexivity|]. split; [f_equal; ring|]. split; [lia|].
    split; [|exact (frame2_trans _ _ _ _ _ _ _ _ _ _ Hf (frame2_trans _ _ _ _ _ _ _ _ _ _ Hf2 Hf3))].
    rewrite T0 in E1, E2. rewrite T1 in G1, G2.
    replace (0 + 2 * (q + 1)) with (2 * q + 1 + 1) by lia.
    apply (bfly_range_snoc br or sr bi oi si N B (B + h) (2 * q + 1) w m m2 m3);
      try lia; try assumption.
    apply (bfly_range_snoc br or sr bi oi si N B (B + h) (2 * q) w m m1 m2);
      try lia; try assumption.
  - exists jk, m'. rewrite Hcnt in Hb. replace (0 + 2 * (h / 2)) with h in Hb by lia.
    split; [exact Hrun|]. split; assumption.
Qed.

Hypothesis Hseed : forall k, 0 <= k -> dbcF_cexpm1 k = expm1_exact k.

Lemma ONE_exact : @DBCF_ONE R ER = 1%R.
Proof. exact (R_ONE hook hook_npot). Qed.

Lemma ZERO_exact : @DBCF_ZERO R ER = 0%R.
Proof. exact (R_ZERO hook hook_npot). Qed.

Lemma cexp_exact (k : Z) :
  0 <= k ->
  (fst (dbcF_cexp k), if negb inverse then Tneg (snd (dbcF_cexp k)) else snd (dbcF_cexp k))
  = cis inverse (twiddle_angle k 1).
Proof.
  intro Hk. unfold dbcF_cexp. rewrite (Hseed k Hk). unfold expm1_exact. cbn [fst snd].
  rewrite ONE_exact. cbn [Tadd Tneg ER Elem_R].
  unfold cis, signed. destruct inverse; cbn [negb]; f_equal; ring.
Qed.

Hypothesis Hd0 : 0 <= d.
Hypothesis HLbuf : 0 <= DBCF_TWIDDLES_BUF_LOG2 cfg.

(** [dbcF_butterfly_block]: butterflies with the twiddles
    [(Cm + i*Sm) * w^t], the table read directly for a block that fits
    it and the block halved otherwise. *)
Lemma block_spec (fuel : nat) :
  forall (log2b L H : Z) (Cm Sm : R) (m : mem R),
    0 <= log2b <= d ->
    log2b <= DBCF_TWIDDLES_BUF_LOG2 cfg + Z.of_nat fuel ->
    Z.min log2b (DBCF_TWIDDLES_BUF_LOG2 cfg) <= log2t ->
    0 <= L -> L + 2 ^ log2b <= H -> H + 2 ^ log2b <= N ->
    table_ok inverse d log2t bt otr oti m ->
    exists m',
      butterfly_block_fuel cfg fuel d log2b
        (Ptr br (or + L * sr)) (Ptr bi (oi + L * si))
        (Ptr br (or + H * sr)) (Ptr bi (oi + H * si)) sr si Cm Sm inverse
        (Ptr bt otr) (Ptr bt oti) m = Ok tt m' /\
      bfly_range N L H (2 ^ log2b) (fun t => Cmul (Cm, Sm) (w t)) (X m) (X m') /\
      F2 m m'.
Proof.
  induction fuel as [|fuel IH]; intros log2b L H Cm Sm m Hb Hf Hmin HL HLH HHN Htab;
    cbn [butterfly_block_fuel]; cbv zeta;
    pose proof (pow2_pos log2b ltac:(lia)) as Hpos;
    (destruct (Z.leb_spec log2b (DBCF_TWIDDLES_BUF_LOG2 cfg)) as [Hle|Hgt]; [|try lia]).
  1,2: rewrite POW2_eq;
    assert (Hsz : 2 ^ log2b <= 2 ^ log2t) by (apply Z.pow_le_mono_r; lia);
    match goal with |- context [for_fold 0 _ _ ?bd] => set (body := bd) end;
    destruct (for_fold_inv
      (fun i jk m1 => jk = (i * sr, i * si) /\
                      bfly_range N L H i (fun t => Cmul (Cm, Sm) (w t)) (X m) (X m1) /\
                      F2 m m1)
      0 (2 ^ log2b) (0, 0) body m) as (jk & m' & Hrun & _ & Hbf & Hfr);
    [ lia
    | split; [reflexivity|]; split; [apply bfly_range_nil|apply frame2_refl]
    | intros i jk1 m1 Hi (-> & Hbf & Hfr); unfold body;
      pose proof (table_read m m1 i Htab Hfr ltac:(lia)) as T0;
      run_mem;
      destruct (bfly_one hook hook_npot br or sr bi oi si N Hsr Hsi Hd
                  (L + i) (H + i)
                  (or + L * sr) (oi + L * si) (or + H * sr) (oi + H * si)
                  (i * sr) (i * si)
                  (Tsub (Tmul Cm (cells m1 bt (otr + i))) (Tmul Sm (cells m1 bt (oti + i))))
                  (Tadd (Tmul Sm (cells m1 bt (otr + i))) (Tmul Cm (cells m1 bt (oti + i))))
                  m1)
        as (m2 & Hrun2 & E1 & E2 & Ho2 & Hf2); try lia;
      rewrite (bind_run _ _ _ _ _ Hrun2);
      exists ((i * sr + sr), (i * si + si)), m2;
      split; [reflexivity|]; split; [f_equal; ring|];
      split; [|exact (frame2_trans _ _ _ _ _ _ _ _ _ _ Hfr Hf2)];
      apply (bfly_range_snoc br or sr bi oi si N L H i _ m m1 m2);
        try lia; try assumption;
      [ rewrite E1 | rewrite E2 ]; rewrite <- T0;
      cbn [Tadd Tsub Tmul ER Elem_R]; unfold Cmul; cbn [fst snd]; reflexivity
    | exists m'; rewrite (bind_run _ _ _ _ _ Hrun); split; [reflexivity|];
      split; assumption ].
  (* the block is halved *)
  assert (Hb1 : 0 < log2b) by lia.
  rewrite shiftr_pow2_half by exact Hb1. cbn [padd].
  pose proof (pow2_succ log2b Hb1) as Hpow.
  pose proof (pow2_pos (log2b - 1) ltac:(lia)) as Hh.
  set (h := 2 ^ (log2b - 1)) in *.
  pose proof (cexp_exact (d - log2b + 1) ltac:(lia)) as Hc.
  destruct (dbcF_cexp (d - log2b + 1)) as [Xc Yc]. cbn [fst snd] in Hc.
  destruct (IH (log2b - 1) L H Cm Sm m) as (m1 & Hrun1 & Hbf1 & Hfr1); try lia; try assumption.
  rewrite (bind_run _ _ _ _ _ Hrun1).
  replace (or + L * sr + h * sr) with (or + (L + h) * sr) by ring.
  replace (oi + L * si + h * si) with (oi + (L + h) * si) by ring.
  replace (or + H * sr + h * sr) with (or + (H + h) * sr) by ring.
  replace (oi + H * si + h * si) with (oi + (H + h) * si) by ring.
  destruct (IH (log2b - 1) (L + h) (H + h)
              (Tsub (Tmul Cm Xc) (Tmul Sm (if negb inverse then Tneg Yc else Yc)))
              (Tadd (Tmul Sm Xc) (Tmul Cm (if negb inverse then Tneg Yc else Yc))) m1)
    as (m2 & Hrun2 & Hbf2 & Hfr2); try lia.
  { apply (table_ok_frame2 inverse d log2t bt otr oti br or sr bi oi si N m m1);
      assumption. }
  exists m2. split; [exact Hrun2|].
  split; [|exact (frame2_trans _ _ _ _ _ _ _ _ _ _ Hfr1 Hfr2)].
  fold h in Hbf1, Hbf2. rewrite Hpow. replace (2 * h) with (h + h) by lia.
  pose proof (bfly_range_app N L H h h _ _ _ _ _ HL ltac:(lia) ltac:(lia) ltac:(lia)
                ltac:(lia) Hbf1 Hbf2) as Happ.
  eapply bfly_range_ext; [|exact Happ].
  intros t Ht. cbv beta. destruct (Z.ltb_spec t h) as [Hlt|Hge]; [reflexivity|].
  replace t with (h + (t - h)) at 1 by lia.
  rewrite angle_add, cis_add by exact Hd0.
  unfold h at 1. rewrite angle_pow2 by lia.
  replace (d - (log2b - 1)) with (d - log2b + 1) by lia. rewrite <- Hc.
  cbn [Tadd Tsub Tmul ER Elem_R]. unfold Cmul. cbn [fst snd]. f_equal; ring.
Qed.

Local Notation ptrs B h := (block_ptrs br or sr bi oi si B h).

(** The loop over the blocks of a pass, for any inner loop that does
    the butterflies of one block. *)
Lemma pass_outer (n h c : Z) (body : Z -> ptr * ptr * ptr * ptr -> M R (ptr * ptr * ptr * ptr))
    (m : mem R) :
  0 < h -> n = 2 * h -> 0 <= c -> c * n <= N ->
  table_ok inverse d log2t bt otr oti m ->
  (forall i m1, 0 <= i < c -> table_ok inverse d log2t bt otr oti m1 ->
     exists m2,
       body i (ptrs (i * n) h) m1 = Ok (ptrs ((i + 1) * n) h) m2 /\
       bfly_range N (i * n) (i * n + h) h w (X m1) (X m2) /\ F2 m1 m2) ->
  exists P m',
    for_fold 0 c (ptrs (0 * n) h) body m = Ok P m' /\
    pass_done n h c w (X m) (X m') /\
    (forall q, c * n <= q < N -> X m' q = X m q) /\
    F2 m m'.
Proof.
  intros Hh Hn Hc HN Htab Hbody.
  destruct (for_fold_inv
    (fun i P m1 => P = ptrs (i * n) h /\
                   pass_done n h i w (X m) (X m1) /\
                   (forall q, i * n <= q < N -> X m1 q = X m q) /\
                   F2 m m1)
    0 c (ptrs (0 * n) h) body m) as (P & m' & Hrun & _ & Hp & Hrest & Hf).
  - exact Hc.
  - split; [reflexivity|]. split; [intros i t Hi; lia|].
    split; [reflexivity|apply frame2_refl].
  - intros i P m1 Hi (-> & Hp & Hrest & Hf).
    destruct (Hbody i m1 Hi) as (m2 & Hrun2 & [Hb Ho] & Hf2).
    { apply (table_ok_frame2 inverse d log2t bt otr oti br or sr bi oi si N m m1);
        assumption. }
    exists (ptrs ((i + 1) * n) h), m2. split; [exact Hrun2|]. split; [reflexivity|].
    assert (Hin : i * n + n <= N) by nia.
    split; [|split; [|exact (frame2_trans _ _ _ _ _ _ _ _ _ _ Hf Hf2)]].
    + intros i' t Hi' Ht. destruct (Z.eq_dec i' i) as [->|Hne].
      * destruct (Hb t Ht) as [E1 E2].
        rewrite E1, E2, !Hrest by lia. split; reflexivity.
      * assert (Hlt : i' * n + n <= i * n) by nia.
        destruct (Hp i' t ltac:(lia) Ht) as [E1 E2].
        rewrite !Ho by nia. split; assumption.
    + intros q Hq. rewrite Ho, Hrest by nia. reflexivity.
  - exists P, m'. split; [exact Hrun|]. split; [exact Hp|]. split; [exact Hrest|exact Hf].
Qed.

(** [dbcF_butterfly_pass]: in each of the [2^log2c] blocks of [2^d]
    elements, element [t] of the lower half and element [t] of the upper
    half are combined with the twiddle [w^t]. *)
Lemma pass_spec (log2c : Z) (m : mem R) :
  1 <= d -> 0 <= log2c -> N = 2 ^ log2c * 2 ^ d ->
  Z.min (d - 1) (DBCF_TWIDDLES_BUF_LOG2 cfg) <= log2t ->
  table_ok inverse d log2t bt otr oti m ->
  exists m',
    dbcF_butterfly_pass cfg d log2c (Ptr br or) (Ptr bi oi) sr si inverse log2t
      (Ptr bt otr) (Ptr bt oti) m = Ok tt m' /\
    pass_done (2 ^ d) (2 ^ (d - 1)) (2 ^ log2c) w (X m) (X m') /\
    F2 m m'.
Proof.
  intros Hd1 Hc HN Hmin Htab. unfold dbcF_butterfly_pass. cbv zeta.
  rewrite shiftr_pow2_half by lia. rewrite !POW2_eq. cbn [padd].
  pose proof (pow2_succ d ltac:(lia)) as Hpow.
  pose proof (pow2_pos (d - 1) ltac:(lia)) as Hh.
  pose proof (pow2_pos log2c Hc) as Hcpos.
  set (h := 2 ^ (d - 1)) in *. set (n := 2 ^ d) in *. set (c := 2 ^ log2c) in *.
  destruct (Z.eqb_spec d 0) as [|_]; [lia|].
  assert (P0 : (Ptr br or, Ptr bi oi, Ptr br (or + h * sr), Ptr bi (oi + h * si))
               = ptrs (0 * n) h).
  { unfold block_ptrs. ptr_eq. }
  rewrite P0.
  assert (Hadv : forall i, advance n sr si (ptrs (i * n) h) = ptrs ((i + 1) * n) h).
  { intro i. unfold block_ptrs, advance. cbn [padd]. ptr_eq. }
  match goal with
  | |- exists m', (if ?c1 then (if ?c2 then bind (for_fold _ _ _ ?b1) _
                                else bind (for_fold _ _ _ ?b2) _)
                   else bind (for_fold _ _ _ ?b3) _) m = _ /\ _ =>
      set (body1 := b1); set (body2 := b2); set (body3 := b3)
  end.
  assert (Hfin : forall body,
    (forall i m1, 0 <= i < c -> table_ok inverse d log2t bt otr oti m1 ->
       exists m2,
         body i (ptrs (i * n) h) m1 = Ok (ptrs ((i + 1) * n) h) m2 /\
         bfly_range N (i * n) (i * n + h) h w (X m1) (X m2) /\ F2 m1 m2) ->
    exists m',
      (for_fold 0 c (ptrs (0 * n) h) body ;; ret tt) m = Ok tt m' /\
      pass_done n h c w (X m) (X m') /\ F2 m m').
  { intros body Hbody.
    destruct (pass_outer n h c body m) as (P & m' & Hrun & Hp & _ & Hf);
      try assumption; try lia.
    exists m'. rewrite (bind_run _ _ _ _ _ Hrun).
    split; [reflexivity|]. split; assumption. }
  destruct (Z.leb_spec (d - 1) log2t) as [Hle|Hgt].
  - assert (Hsz : h <= 2 ^ log2t) by (apply Z.pow_le_mono_r; lia).
    destruct (Z.gtb_spec h 1) as [Hh1|Hh1].
    + apply Hfin. intros i m1 Hi Ht1. unfold body1, block_ptrs at 1.
      assert (Hev : h mod 2 = 0).
      { unfold h. rewrite (pow2_succ (d - 1)).
        - rewrite Z.mul_comm. apply Z.mod_mul. lia.
        - destruct (Z.eq_dec d 1) as [->|]; [|lia]. change (2 ^ (1 - 1)) with 1 in Hh1. lia. }
      destruct (block_pairs (i * n) h m1) as (jk & m2 & Hrun & Hb & Hf);
        try assumption; try nia.
      exists m2. rewrite (bind_run _ _ _ _ _ Hrun). rewrite <- Hadv.
      split; [reflexivity|]. split; assumption.
    + assert (Hone : h = 1) by lia.
      apply Hfin. intros i m1 Hi Ht1. unfold body2, block_ptrs at 1.
      destruct (bfly_unit hook hook_npot br or sr bi oi si N Hsr Hsi Hd
                  (ret (advance n sr si (ptrs (i * n) h)))
                  (i * n) (i * n + h)
                  (or + i * n * sr) (oi + i * n * si)
                  (or + (i * n + h) * sr) (oi + (i * n + h) * si) m1)
        as (m2 & Hrun & E1 & E2 & Ho & Hf); try nia.
      exists m2. split; [|split; [|exact Hf]].
      * transitivity (ret (advance n sr si (ptrs (i * n) h)) m2); [exact Hrun|].
        rewrite Hadv. reflexivity.
      * split.
        -- intros t Ht. assert (t = 0) as -> by lia.
           rewrite angle_0, cis_0, !Z.add_0_r. split; assumption.
        -- intros q Hq H1 H2. apply Ho; lia.
  - apply Hfin. intros i m1 Hi Ht1. unfold body3, block_ptrs at 1.
    destruct (block_spec (Z.to_nat (d - 1)) (d - 1) (i * n) (i * n + h)
                DBCF_ONE DBCF_ZERO m1) as (m2 & Hrun & Hb & Hf);
      try assumption; try lia; try (fold h; nia).
    unfold dbcF_butterfly_block. rewrite (bind_run _ _ _ _ _ Hrun), <- Hadv.
    exists m2. split; [reflexivity|]. split; [|exact Hf].
    fold h in Hb. eapply bfly_range_ext; [|exact Hb].
    intros t Ht. cbv beta. rewrite ONE_exact, ZERO_exact, Cmul_1_l. reflexivity.
Qed.

End Pass.

(** * From one level of the recursion to the next *)

Lemma dit_succ (inverse : bool) (d : Z) (a : Z -> R * R) (b j : Z) :
  1 <= d ->
  dit inverse (Z.to_nat d) a b j
  = Cadd (dit inverse (Z.to_nat (d - 1)) a b (j mod 2 ^ (d - 1)))
         (Cmul (cis inverse (twiddle_angle d j))
               (dit inverse (Z.to_nat (d - 1)) a (b + 2 ^ (d - 1)) (j mod 2 ^ (d - 1)))).
Proof.
  intro Hd. replace (Z.to_nat d) with (S (Z.to_nat (d - 1))) by lia.
  cbn [dit]. rewrite Nat2Z.inj_succ, Z2Nat.id by lia.
  replace (Z.succ (d - 1)) with d by lia. reflexivity.
Qed.

Lemma cis_upper_half (inverse : bool) (d t : Z) :
  1 <= d ->
  cis inverse (twiddle_angle d (2 ^ (d - 1) + t))
  = Cmul ((-1)%R, 0%R) (cis inverse (twiddle_angle d t)).
Proof.
  intro Hd. rewrite angle_add, cis_add by lia.
  replace d with (d - 1 + 1) at 1 by lia.
  rewrite angle_half_turn, cis_PI by lia. reflexivity.
Qed.

Lemma level_step (inverse : bool) (N d c : Z) (a X0 X1 : Z -> R * R) :
  1 <= d -> 0 <= c -> N = c * 2 ^ d ->
  level_done inverse N (d - 1) a X0 ->
  pass_done (2 ^ d) (2 ^ (d - 1)) c (fun t => cis inverse (twiddle_angle d t)) X0 X1 ->
  level_done inverse N d a X1.
Proof.
  intros Hd Hc HN H0 Hp k Hk.
  pose proof (pow2_succ d ltac:(lia)) as Hpow.
  pose proof (pow2_pos (d - 1) ltac:(lia)) as Hh.
  set (h := 2 ^ (d - 1)) in *. set (n := 2 ^ d) in *.
  pose proof (Z.div_mod k n ltac:(lia)) as Hdm.
  pose proof (Z.mod_pos_bound k n ltac:(lia)) as Hr.
  set (i := k / n) in *. set (r := k mod n) in *.
  assert (Hi : 0 <= i < c) by nia.
  assert (Hbase : k - r = i * n) by lia.
  rewrite Hbase, dit_succ by exact Hd. fold h.
  assert (Hlow : forall t, 0 <= t < h ->
            X0 (i * n + t) = dit inverse (Z.to_nat (d - 1)) a (i * n) t).
  { intros t Ht. rewrite (H0 (i * n + t)) by nia. fold h.
    replace (i * n + t) with (t + (2 * i) * h) by lia.
    rewrite Z.mod_add, Z.mod_small by lia. f_equal. lia. }
  assert (Hhigh : forall t, 0 <= t < h ->
            X0 (i * n + h + t) = dit inverse (Z.to_nat (d - 1)) a (i * n + h) t).
  { intros t Ht. rewrite (H0 (i * n + h + t)) by nia. fold h.
    replace (i * n + h + t) with (t + (2 * i + 1) * h) by lia.
    rewrite Z.mod_add, Z.mod_small by lia. f_equal. lia. }
  destruct (Z.lt_ge_cases r h) as [Hlt|Hge].
  - destruct (Hp i r Hi ltac:(lia)) as [E1 _].
    replace k with (i * n + r) by lia.
    rewrite E1, Hlow, Hhigh, Z.mod_small by lia. reflexivity.
  - destruct (Hp i (r - h) Hi ltac:(lia)) as [_ E2].
    assert (Hm : r mod h = r - h).
    { replace r with ((r - h) + 1 * h) at 1 by lia.
      rewrite Z.mod_add, Z.mod_small by lia. reflexivity. }
    assert (Hcis : cis inverse (twiddle_angle d r)
                   = Cmul ((-1)%R, 0%R) (cis inverse (twiddle_angle d (r - h)))).
    { replace r with (2 ^ (d - 1) + (r - h)) at 1 by (fold h; lia).
      apply cis_upper_half. exact Hd. }
    rewrite Hm, Hcis.
    replace k with (i * n + h + (r - h)) by lia.
    rewrite E2, Hlow, Hhigh by lia.
    unfold Cadd, Csub, Cmul. cbn [fst snd]. f_equal; ring.
Qed.

Lemma level_done_0 (inverse : bool) (N : Z) (a : Z -> R * R) : level_done inverse N 0 a a.
Proof.
  intros k Hk. change (2 ^ 0) with 1. rewrite Z.mod_1_r, Z.sub_0_r. reflexivity.
Qed.

Lemma level_done_ext (inverse : bool) (N d : Z) (a X X' : Z -> R * R) :
  (forall k, 0 <= k < N -> X' k = X k) ->
  level_done inverse N d a X -> level_done inverse N d a X'.
Proof. intros He H k Hk. rewrite He by exact Hk. apply H. exact Hk. Qed.

(** * The twiddle tables in the scratch block *)

Section OnlyBlock.

Context {T : Type} {E : Elem T} (bt : Z).

Lemma only_block_ret {A} (a : A) : only_block bt (ret a : M T A).
Proof. intros m a' m' H b o _. unfold ret in H. congruence. Qed.

Lemma only_block_bind {A B} (c : M T A) (k : A -> M T B) :
  only_block bt c -> (forall a, only_block bt (k a)) -> only_block bt (bind c k).
Proof.
  intros Hc Hk m b m' H b' o Hb. unfold bind in H.
  destruct (c m) as [a m1| |] eqn:Ec; try discriminate.
  rewrite (Hk a m1 b m' H b' o Hb). apply (Hc m a m1 Ec b' o Hb).
Qed.

Lemma only_block_aref (p : ptr) (i : Z) : only_block (A:=T) bt (aref p i).
Proof.
  intros m a m' H b o _. destruct p as [|b0 o0]; [discriminate|].
  rewrite aref_run in H. congruence.
Qed.

Lemma only_block_aset (o0 i : Z) (v : T) : only_block (A:=unit) bt (aset (Ptr bt o0) i v).
Proof.
  intros m a m' H b o Hb. rewrite aset_run in H. injection H as H. subst m'.
  apply cells_set_other. left. exact Hb.
Qed.

Lemma only_block_load (p : ptr) : only_block bt (load p : M T T).
Proof.
  intros m a m' H b o _. destruct p as [|b0 o0]; [discriminate|].
  cbn in H. congruence.
Qed.

Lemma only_block_store (o0 : Z) (v : T) : only_block (A:=unit) bt (store (Ptr bt o0) v).
Proof.
  intros m a m' H b o Hb. cbn in H. injection H as H. subst m'.
  cbn [cells]. apply upd_other. left. exact Hb.
Qed.

Lemma only_block_for_count {St} (body : Z -> St -> M T St) (cnt : nat) :
  (forall i s, only_block bt (body i s)) ->
  forall i s, only_block bt (for_count cnt i s body).
Proof.
  intro Hb. induction cnt as [|cnt IH]; intros i s; cbn [for_count].
  - apply only_block_ret.
  - apply only_block_bind; [apply Hb|]. intro s'. apply IH.
Qed.

Lemma only_block_for_loop (lo hi : Z) (body : Z -> M T unit) :
  (forall i, only_block bt (body i)) -> only_block (A:=unit) bt (for_loop lo hi body).
Proof.
  intro Hb. unfold for_loop, for_fold. apply only_block_for_count.
  intros i _. apply Hb.
Qed.

Lemma compute_twiddles_only (log2n log2b otr oti : Z) (inverse : bool) :
  only_block (A:=unit) bt (dbcF_compute_twiddles log2n log2b (Ptr bt otr) (Ptr bt oti) inverse).
Proof.
  unfold dbcF_compute_twiddles.
  repeat first
    [ apply only_block_aset | apply only_block_aref | apply only_block_ret
    | apply only_block_for_loop; intro
    | apply only_block_bind; [|intro]
    | match goal with |- only_block _ (let (_, _) := ?p in _) => destruct p end
    | progress cbv zeta ].
Qed.

Lemma cexp_to_only (k otr oti : Z) :
  only_block (A:=unit) bt (dbcF_cexp_to k (Ptr bt otr) (Ptr bt oti)).
Proof.
  unfold dbcF_cexp_to. destruct (dbcF_cexpm1 k) as [re im].
  repeat first
    [ apply only_block_store | apply only_block_load | apply only_block_ret
    | apply only_block_bind; [|intro] ].
Qed.

End OnlyBlock.

Section Tables.

Variables (hook : option (Z -> R * R)) (hook_npot : option (Z -> Z -> R * R)).

Let ER : Elem R := Elem_R hook hook_npot.
Local Existing Instance ER.

Variables (inverse : bool) (bt otr oti : Z).

Hypothesis Hseed : forall k, 0 <= k -> dbcF_cexpm1 k = expm1_exact k.

(** [dbcF_compute_twiddles] fills the table of level [d] and touches
    nothing outside the scratch block. *)
Lemma twiddles_ready (d log2t : Z) (m : mem R) :
  0 <= log2t <= d -> otr + 2 ^ log2t <= oti ->
  exists m',
    dbcF_compute_twiddles d log2t (Ptr bt otr) (Ptr bt oti) inverse m = Ok tt m' /\
    table_ok inverse d log2t bt otr oti m' /\
    (forall b o, b <> bt -> cells m' b o = cells m b o).
Proof.
  intros Hr Ho.
  destruct (compute_twiddles_run hook hook_npot d log2t inverse bt otr bt oti Hr) with (m := m)
    as (m' & Hrun & Hdone & _ & Him).
  - intros a b Ha Hb. right. lia.
  - intros i Hi. apply Hseed. lia.
  - exists m'. split; [exact Hrun|]. split.
    + intros t Ht. unfold cis. rewrite (Hdone t) by lia. rewrite (Him t) by lia. reflexivity.
    + apply (compute_twiddles_only bt d log2t otr oti inverse m tt m' Hrun).
Qed.

(** [dbcF_cexp(3,tr,ti)] leaves [cos(pi/4)] in [tr[0]]. *)
Lemma eighth_ready (m : mem R) :
  otr <> oti ->
  exists m',
    dbcF_cexp_to 3 (Ptr bt otr) (Ptr bt oti) m = Ok tt m' /\
    cells m' bt (otr + 0) = cos (PI / 4) /\
    (forall b o, b <> bt -> cells m' b o = cells m b o).
Proof.
  intro Hne.
  assert (Hrun : exists m', dbcF_cexp_to 3 (Ptr bt otr) (Ptr bt oti) m = Ok tt m' /\
                            cells m' bt (otr + 0) = cos (PI / 4)).
  { unfold dbcF_cexp_to. rewrite (Hseed 3) by lia. unfold expm1_exact.
    eexists. split; [cbv [bind store load]; reflexivity|].
    cbn [cells]. rewrite Z.add_0_r, !upd_same.
    unfold ER. rewrite (R_ONE hook hook_npot). cbn [Tadd Elem_R].
    rewrite upd_other by (right; exact Hne). rewrite upd_same.
    rewrite eighth_turns. replace (1 * (PI / 4))%R with (PI / 4)%R by ring. ring. }
  destruct Hrun as (m' & Hrun & Hc). exists m'. split; [exact Hrun|]. split; [exact Hc|].
  apply (cexp_to_only bt 3 otr oti m tt m' Hrun).
Qed.

End Tables.

(** * All the passes: [dbcF_butterfly_multipass] *)

Lemma dit_ext (inverse : bool) (a a' : Z -> R * R) (d : nat) :
  forall b j,
    (forall k, b <= k < b + 2 ^ Z.of_nat d -> a k = a' k) ->
    dit inverse d a b j = dit inverse d a' b j.
Proof.
  induction d as [|d IH]; intros b j H; cbn [dit].
  - apply H. change (2 ^ Z.of_nat 0) with 1. lia.
  - pose proof (pow2_pos (Z.of_nat d) ltac:(lia)) as Hpos.
    assert (Hs : 2 ^ Z.of_nat (S d) = 2 * 2 ^ Z.of_nat d)
      by (rewrite Nat2Z.inj_succ, Z.pow_succ_r by lia; reflexivity).
    rewrite (IH b), (IH (b + 2 ^ Z.of_nat d)); [reflexivity| |];
      intros k Hk; apply H; lia.
Qed.

Lemma dit_shift (inverse : bool) (a : Z -> R * R) (B : Z) (d : nat) :
  forall b j, dit inverse d (fun k => a (B + k)) b j = dit inverse d a (B + b) j.
Proof.
  induction d as [|d IH]; intros b j; cbn [dit]; [reflexivity|].
  rewrite !IH, Z.add_assoc. reflexivity.
Qed.

Lemma level_done_base_ext (inverse : bool) (N d c : Z) (a a' X : Z -> R * R) :
  0 <= d -> N = c * 2 ^ d ->
  (forall k, 0 <= k < N -> a k = a' k) ->
  level_done inverse N d a X -> level_done inverse N d a' X.
Proof.
  intros Hd HN He H k Hk. rewrite (H k Hk). apply dit_ext.
  rewrite Z2Nat.id by exact Hd.
  pose proof (pow2_pos d Hd) as Hpos.
  pose proof (Z.mod_pos_bound k (2 ^ d) Hpos) as Hr.
  pose proof (Z.div_mod k (2 ^ d) ltac:(lia)) as Hdm.
  intros q Hq. apply He.
  assert (Hi : k / 2 ^ d < c) by (apply Z.div_lt_upper_bound; lia).
  assert (Hi0 : 0 <= k / 2 ^ d) by (apply Z.div_pos; lia).
  set (i := k / 2 ^ d) in *. set (n := 2 ^ d) in *.
  assert (n * i + n <= c * n) by nia.
  lia.
Qed.

Lemma frame2_frame2t {T} (bt ba oa sa bb ob sb n : Z) (m m' : mem T) :
  frame2 ba oa sa bb ob sb n m m' -> frame2t bt ba oa sa bb ob sb n m m'.
Proof. intros F b o _ Ha Hb. apply F; assumption. Qed.

Lemma frame2t_refl {T} (bt ba oa sa bb ob sb n : Z) (m : mem T) :
  frame2t bt ba oa sa bb ob sb n m m.
Proof. intros b o _ _ _. reflexivity. Qed.

Lemma frame2t_trans {T} (bt ba oa sa bb ob sb n : Z) (m0 m1 m2 : mem T) :
  frame2t bt ba oa sa bb ob sb n m0 m1 -> frame2t bt ba oa sa bb ob sb n m1 m2 ->
  frame2t bt ba oa sa bb ob sb n m0 m2.
Proof.
  intros F1 F2 b o Ht Ha Hb. rewrite F2, F1 by assumption. reflexivity.
Qed.

Lemma frame2t_only {T} (bt ba oa sa bb ob sb n : Z) (m m' : mem T) :
  (forall b o, b <> bt -> cells m' b o = cells m b o) ->
  frame2t bt ba oa sa bb ob sb n m m'.
Proof. intros H b o Hb _ _. apply H. exact Hb. Qed.

Section SubArrays.

Variables (br or sr bi oi si N bt : Z).

Hypothesis Hsr : sr <> 0.
Hypothesis Hsi : si <> 0.
Hypothesis Hd : disjoint_views br or sr bi oi si N.
Hypothesis Hbtr : bt <> br.
Hypothesis Hbti : bt <> bi.

Local Notation X m := (cplx m br or sr bi oi si).

Lemma cplx_shift (m : mem R) (B t : Z) :
  cplx m br (or + B * sr) sr bi (oi + B * si) si t = X m (B + t).
Proof. unfold cplx, cell. f_equal; f_equal; ring. Qed.

Lemma sub_disjoint (B n' : Z) :
  0 <= B -> B + n' <= N ->
  disjoint_views br (or + B * sr) sr bi (oi + B * si) si n'.
Proof.
  intros HB Hn i j Hi Hj e Heq. apply (Hd (B + i) (B + j)); [lia|lia|exact e|].
  rewrite !Z.mul_add_distr_r. lia.
Qed.

(** What a computation on the sub-array [B, B+n') leaves alone. *)
Lemma sub_frame (B n' : Z) (m1 m2 : mem R) :
  0 <= B -> B + n' <= N ->
  frame2t bt br (or + B * sr) sr bi (oi + B * si) si n' m1 m2 ->
  frame2t bt br or sr bi oi si N m1 m2 /\
  (forall k, 0 <= k < N -> ~ (B <= k < B + n') -> X m2 k = X m1 k).
Proof.
  intros HB Hn F. split.
  - intros b o Hb Hre Him. apply F; [exact Hb| |].
    + intros e t Ht. replace (or + B * sr + t * sr) with (or + (B + t) * sr) by ring.
      apply Hre; [exact e|lia].
    + intros e t Ht. replace (oi + B * si + t * si) with (oi + (B + t) * si) by ring.
      apply Him; [exact e|lia].
  - intros k Hk Hout. unfold cplx, cell. f_equal; apply F.
    + congruence.
    + intros _ t Ht Heq.
      replace (or + B * sr + t * sr) with (or + (B + t) * sr) in Heq by ring.
      apply addr_inj in Heq; [lia|exact Hsr].
    + intros e t Ht Heq.
      replace (oi + B * si + t * si) with (oi + (B + t) * si) in Heq by ring.
      revert Heq. apply Hd; [lia|lia|congruence].
    + congruence.
    + intros e t Ht Heq.
      replace (or + B * sr + t * sr) with (or + (B + t) * sr) in Heq by ring.
      symmetry in Heq. revert Heq. apply Hd; [lia|lia|congruence].
    + intros _ t Ht Heq.
      replace (oi + B * si + t * si) with (oi + (B + t) * si) in Heq by ring.
      apply addr_inj in Heq; [lia|exact Hsi].
Qed.

Lemma X_only (m m' : mem R) (k : Z) :
  (forall b o, b <> bt -> cells m' b o = cells m b o) -> X m' k = X m k.
Proof. intro H. unfold cplx, cell. rewrite !H by congruence. reflexivity. Qed.

End SubArrays.

Section Multipass.

Variables (hook : option (Z -> R * R)) (hook_npot : option (Z -> Z -> R * R)).

Let ER : Elem R := Elem_R hook hook_npot.
Local Existing Instance ER.

Variables (cfg : Config) (inverse : bool) (br or sr bi oi si N bt otr oti : Z).

Hypothesis Hsr : sr <> 0.
Hypothesis Hsi : si <> 0.
Hypothesis Hd : disjoint_views br or sr bi oi si N.
Hypothesis Hbtr : bt <> br.
Hypothesis Hbti : bt <> bi.
Hypothesis Hseed : forall k, 0 <= k -> dbcF_cexpm1 k = expm1_exact k.
Hypothesis HLbuf : 0 <= DBCF_TWIDDLES_BUF_LOG2 cfg.
Hypothesis Hoti : oti = otr + DBCF_TWIDDLES_BUF_SIZE cfg.

Local Notation X m := (cplx m br or sr bi oi si).
Local Notation F2 := (frame2 br or sr bi oi si N).
Local Notation F2t := (frame2t bt br or sr bi oi si N).

(** The first three levels at once: [dbcF_fft8] on every group of eight
    elements. *)
Lemma fft8_loop (m8 : Z) (m : mem R) :
  0 <= m8 -> N = 8 * m8 ->
  cells m bt (otr + 0) = cos (PI / 4) ->
  exists m',
    for_loop 0 m8 (fun j =>
      c <- aref (Ptr bt otr) 0 ;;
      dbcF_fft8 (padd (Ptr br or) (8 * sr * j)) (padd (Ptr bi oi) (8 * si * j))
                sr si inverse c) m = Ok tt m' /\
    level_done inverse N 3 (X m) (X m') /\
    F2 m m'.
Proof.
  intros H8 HN Hc.
  destruct (for_loop_inv
    (fun j m1 =>
       (forall k, 0 <= k < 8 * j -> X m1 k = dit inverse 3 (X m) (k - k mod 8) (k mod 8)) /\
       (forall k, 8 * j <= k < N -> X m1 k = X m k) /\
       F2 m m1)
    0 m8
    (fun j =>
      c <- aref (Ptr bt otr) 0 ;;
      dbcF_fft8 (padd (Ptr br or) (8 * sr * j)) (padd (Ptr bi oi) (8 * si * j))
                sr si inverse c) m) as (m' & Hrun & Hdone & _ & Hf).
  - exact H8.
  - split; [intros k Hk; lia|]. split; [reflexivity|apply frame2_refl].
  - intros j m1 Hj (Hdone & Hrest & Hf). run_mem.
    rewrite (frame2_other_block _ _ _ _ _ _ _ _ _ _ _ Hf) by assumption. rewrite Hc.
    cbn [padd].
    replace (or + 8 * sr * j) with (or + (8 * j) * sr) by ring.
    replace (oi + 8 * si * j) with (oi + (8 * j) * si) by ring.
    destruct (fft8_run hook hook_npot inverse br (or + 8 * j * sr) sr bi (oi + 8 * j * si) si
                Hsr Hsi (sub_disjoint br or sr bi oi si N bt Hd Hbtr Hbti (8 * j) 8 ltac:(lia) ltac:(lia)) m1)
      as (m2 & Hrun2 & Hval & Hfr).
    exists m2. split; [exact Hrun2|].
    destruct (sub_frame br or sr bi oi si N bt Hsr Hsi Hd Hbtr Hbti (8 * j) 8 m1 m2
                ltac:(lia) ltac:(lia) (frame2_frame2t bt _ _ _ _ _ _ _ _ _ Hfr))
      as [_ Hout].
    split; [|split].
    + intros k Hk. destruct (Z.lt_ge_cases k (8 * j)) as [Hlt|Hge].
      * rewrite Hout by lia. apply Hdone. lia.
      * replace k with (8 * j + (k - 8 * j)) at 1 by lia.
        rewrite <- cplx_shift, Hval by lia.
        rewrite (dit_ext inverse _ (fun t => X m (8 * j + t)) 3).
        -- rewrite dit_shift. f_equal.
           ++ rewrite Z.add_0_r. replace k with ((k - 8 * j) + j * 8) at 2 by lia.
              rewrite Z.mod_add, Z.mod_small by lia. lia.
           ++ replace k with ((k - 8 * j) + j * 8) at 2 by lia.
              rewrite Z.mod_add, Z.mod_small by lia. reflexivity.
        -- intros t Ht. change (2 ^ Z.of_nat 3) with 8 in Ht.
           rewrite cplx_shift. apply Hrest. lia.
    + intros k Hk. rewrite Hout by lia. apply Hrest. lia.
    + apply (frame2_trans _ _ _ _ _ _ _ _ _ _ Hf).
      intros b o Hre Him. apply Hfr.
      * intros e t Ht. replace (or + 8 * j * sr + t * sr) with (or + (8 * j + t) * sr) by ring.
        apply Hre; [exact e|lia].
      * intros e t Ht. replace (oi + 8 * j * si + t * si) with (oi + (8 * j + t) * si) by ring.
        apply Him; [exact e|lia].
  - exists m'. split; [exact Hrun|]. split; [|exact Hf].
    intros k Hk. apply Hdone. lia.
Qed.

Variables (p log2c : Z).

Hypothesis Hp : 0 <= p.
Hypothesis Hc : 0 <= log2c.
Hypothesis HN : N = 2 ^ (p + log2c).

Lemma multipass_spec (fuel : nat) :
  forall (depth : Z) (a : Z -> R * R) (m : mem R),
    0 <= depth <= p -> depth <= Z.of_nat fuel ->
    level_done inverse N (p - depth) a (X m) ->
    exists m',
      butterfly_multipass_fuel cfg fuel p log2c depth (Ptr br or) (Ptr bi oi) sr si inverse
        (Ptr bt otr) (Ptr bt oti) m = Ok tt m' /\
      level_done inverse N p a (X m') /\
      F2t m m'.
Proof.
  pose proof (pow2_pos (DBCF_TWIDDLES_BUF_LOG2 cfg) HLbuf) as Hsize.
  assert (Hsz : DBCF_TWIDDLES_BUF_SIZE cfg = 2 ^ DBCF_TWIDDLES_BUF_LOG2 cfg)
    by apply POW2_eq.
  induction fuel as [|fuel IH]; intros depth a m Hdep Hf H0;
    cbn [butterfly_multipass_fuel];
    (destruct (Z.gtb_spec depth 0) as [Hpos|Hzero];
     [|exists m; split; [reflexivity|]; split; [|apply frame2t_refl];
       replace (p - depth) with p in H0 by lia; exact H0]); [lia|].
  destruct (Z.eqb_spec depth p) as [Heq|Hne]; cbn [andb];
    [destruct (Z.geb_spec depth 3) as [H3|H3]|].
  - (* the first three levels *)
    subst depth. replace (p - p) with 0 in H0 by lia.
    destruct (eighth_ready hook hook_npot bt otr oti Hseed m ltac:(lia))
      as (m1 & Hrun1 & Hc1 & Ho1).
    rewrite (bind_run _ _ _ _ _ Hrun1).
    rewrite POW2_eq.
    pose proof (pow2_pos (p + log2c - 3) ltac:(lia)) as H8.
    assert (HN8 : N = 8 * 2 ^ (p + log2c - 3)).
    { rewrite HN. change 8 with (2 ^ 3). rewrite <- Z.pow_add_r by lia. f_equal. lia. }
    destruct (fft8_loop (2 ^ (p + log2c - 3)) m1 ltac:(lia) HN8 Hc1)
      as (m2 & Hrun2 & Hl2 & Hf2).
    rewrite (bind_run _ _ _ _ _ Hrun2).
    destruct (IH (p - 3) a m2) as (m3 & Hrun3 & Hl3 & Hf3); try lia.
    { replace (p - (p - 3)) with 3 by lia.
      apply (level_done_base_ext inverse N 3 (2 ^ (p + log2c - 3)) (X m1)); [lia|lia| |exact Hl2].
      intros k Hk. rewrite (X_only br or sr bi oi si bt Hbtr Hbti m m1 k Ho1).
      rewrite (H0 k Hk). change (2 ^ 0) with 1. rewrite Z.mod_1_r, Z.sub_0_r. reflexivity. }
    exists m3. split; [exact Hrun3|]. split; [exact Hl3|].
    apply (frame2t_trans _ _ _ _ _ _ _ _ m m1); [apply frame2t_only; exact Ho1|].
    apply (frame2t_trans _ _ _ _ _ _ _ _ m1 m2); [apply frame2_frame2t; exact Hf2|exact Hf3].
  - (* one level, fewer than three in all *)
    cbv zeta.
    remember (p - depth + 1) as log2d eqn:El2d.
    remember (if log2d - 1 <? DBCF_TWIDDLES_BUF_LOG2 cfg
              then log2d - 1 else DBCF_TWIDDLES_BUF_LOG2 cfg) as log2t eqn:El2t.
    assert (Ht : log2t = Z.min (log2d - 1) (DBCF_TWIDDLES_BUF_LOG2 cfg)).
    { rewrite El2t. destruct (Z.ltb_spec (log2d - 1) (DBCF_TWIDDLES_BUF_LOG2 cfg)); lia. }
    assert (Hpw : 2 ^ log2t <= 2 ^ DBCF_TWIDDLES_BUF_LOG2 cfg)
      by (apply Z.pow_le_mono_r; lia).
    destruct (twiddles_ready hook hook_npot inverse bt otr oti Hseed log2d log2t m)
      as (m1 & Hrun1 & Ht1 & Ho1); try lia.
    rewrite (bind_run _ _ _ _ _ Hrun1).
    destruct (pass_spec hook hook_npot cfg inverse br or sr bi oi si N bt otr oti
                Hsr Hsi Hd Hbtr Hbti log2d log2t Hseed ltac:(lia) HLbuf
                (log2c + p - log2d) m1) as (m2 & Hrun2 & Hp2 & Hf2); try lia; try assumption.
    { rewrite HN, <- Z.pow_add_r by lia. f_equal. lia. }
    rewrite (bind_run _ _ _ _ _ Hrun2).
    destruct (IH (depth - 1) a m2) as (m3 & Hrun3 & Hl3 & Hf3); try lia.
    { replace (p - (depth - 1)) with log2d by lia.
      apply (level_step inverse N log2d (2 ^ (log2c + p - log2d)) a (X m1) (X m2));
        try lia; try assumption.
      - rewrite HN, <- Z.pow_add_r by lia. f_equal. lia.
      - replace (log2d - 1) with (p - depth) by lia.
        apply (level_done_ext inverse N (p - depth) a (X m)); [|exact H0].
        intros k Hk. apply (X_only br or sr bi oi si bt Hbtr Hbti m m1 k Ho1). }
    exists m3. split; [exact Hrun3|]. split; [exact Hl3|].
    apply (frame2t_trans _ _ _ _ _ _ _ _ m m1); [apply frame2t_only; exact Ho1|].
    apply (frame2t_trans _ _ _ _ _ _ _ _ m1 m2); [apply frame2_frame2t; exact Hf2|exact Hf3].
  - (* one level *)
    cbv zeta.
    remember (p - depth + 1) as log2d eqn:El2d.
    remember (if log2d - 1 <? DBCF_TWIDDLES_BUF_LOG2 cfg
              then log2d - 1 else DBCF_TWIDDLES_BUF_LOG2 cfg) as log2t eqn:El2t.
    assert (Ht : log2t = Z.min (log2d - 1) (DBCF_TWIDDLES_BUF_LOG2 cfg)).
    { rewrite El2t. destruct (Z.ltb_spec (log2d - 1) (DBCF_TWIDDLES_BUF_LOG2 cfg)); lia. }
    assert (Hpw : 2 ^ log2t <= 2 ^ DBCF_TWIDDLES_BUF_LOG2 cfg)
      by (apply Z.pow_le_mono_r; lia).
    destruct (twiddles_ready hook hook_npot inverse bt otr oti Hseed log2d log2t m)
      as (m1 & Hrun1 & Ht1 & Ho1); try lia.
    rewrite (bind_run _ _ _ _ _ Hrun1).
    destruct (pass_spec hook hook_npot cfg inverse br or sr bi oi si N bt otr oti
                Hsr Hsi Hd Hbtr Hbti log2d log2t Hseed ltac:(lia) HLbuf
                (log2c + p - log2d) m1) as (m2 & Hrun2 & Hp2 & Hf2); try lia; try assumption.
    { rewrite HN, <- Z.pow_add_r by lia. f_equal. lia. }
    rewrite (bind_run _ _ _ _ _ Hrun2).
    destruct (IH (depth - 1) a m2) as (m3 & Hrun3 & Hl3 & Hf3); try lia.
    { replace (p - (depth - 1)) with log2d by lia.
      apply (level_step inverse N log2d (2 ^ (log2c + p - log2d)) a (X m1) (X m2));
        try lia; try assumption.
      - rewrite HN, <- Z.pow_add_r by lia. f_equal. lia.
      - replace (log2d - 1) with (p - depth) by lia.
        apply (level_done_ext inverse N (p - depth) a (X m)); [|exact H0].
        intros k Hk. apply (X_only br or sr bi oi si bt Hbtr Hbti m m1 k Ho1). }
    exists m3. split; [exact Hrun3|]. split; [exact Hl3|].
    apply (frame2t_trans _ _ _ _ _ _ _ _ m m1); [apply frame2t_only; exact Ho1|].
    apply (frame2t_trans _ _ _ _ _ _ _ _ m1 m2); [apply frame2_frame2t; exact Hf2|exact Hf3].
Qed.

End Multipass.

(** * [dbcF_butterfly]: the transform of an array in bit-reversed order *)

Lemma disjoint_views_mono (bs os ss bd od sd n n' : Z) :
  n' <= n -> disjoint_views bs os ss bd od sd n -> disjoint_views bs os ss bd od sd n'.
Proof. intros Hn H i j Hi Hj. apply H; lia. Qed.

Section Butterfly.

Variables (hook : option (Z -> R * R)) (hook_npot : option (Z -> Z -> R * R)).

Let ER : Elem R := Elem_R hook hook_npot.
Local Existing Instance ER.

Variables (cfg : Config) (inverse : bool) (br sr bi si bt ot : Z).

Hypothesis Hsr : sr <> 0.
Hypothesis Hsi : si <> 0.
Hypothesis Hbtr : bt <> br.
Hypothesis Hbti : bt <> bi.
Hypothesis Hseed : forall k, 0 <= k -> dbcF_cexpm1 k = expm1_exact k.
Hypothesis HLbuf : 0 <= DBCF_TWIDDLES_BUF_LOG2 cfg.

Lemma butterfly_fuel_spec (fuel : nat) :
  forall (p or oi : Z) (m : mem R),
    0 <= p -> p <= 12 + Z.of_nat fuel ->
    disjoint_views br or sr bi oi si (2 ^ p) ->
    exists m',
      butterfly_fuel cfg fuel p (Ptr br or) (Ptr bi oi) sr si inverse (Ptr bt ot) m
      = Ok tt m' /\
      level_done inverse (2 ^ p) p (cplx m br or sr bi oi si) (cplx m' br or sr bi oi si) /\
      frame2t bt br or sr bi oi si (2 ^ p) m m'.
Proof.
  assert (Hsmall : forall p or oi m,
    0 <= p -> disjoint_views br or sr bi oi si (2 ^ p) ->
    exists m',
      dbcF_butterfly_multipass cfg p 0 p (Ptr br or) (Ptr bi oi) sr si inverse
        (Ptr bt ot) (padd (Ptr bt ot) (DBCF_TWIDDLES_BUF_SIZE cfg)) m = Ok tt m' /\
      level_done inverse (2 ^ p) p (cplx m br or sr bi oi si) (cplx m' br or sr bi oi si) /\
      frame2t bt br or sr bi oi si (2 ^ p) m m').
  { intros p or oi m Hp Hd. unfold dbcF_butterfly_multipass. cbn [padd].
    apply (multipass_spec hook hook_npot cfg inverse br or sr bi oi si (2 ^ p) bt ot
             (ot + DBCF_TWIDDLES_BUF_SIZE cfg) Hsr Hsi Hd Hbtr Hbti Hseed HLbuf eq_refl
             p 0 ltac:(lia) ltac:(f_equal; lia) (Z.to_nat p) p); [lia|lia|].
    replace (p - p) with 0 by lia. apply level_done_0. }
  induction fuel as [|fuel IH]; intros p or oi m Hp Hf Hd; cbn [butterfly_fuel]; cbv zeta;
    (destruct (Z.gtb_spec p 12) as [Hbig|Hle]; [|apply Hsmall; assumption]); [lia|].
  rewrite POW2_eq.
  pose proof (pow2_succ p ltac:(lia)) as Hpow.
  pose proof (pow2_pos (p - 1) ltac:(lia)) as Hh.
  set (h := 2 ^ (p - 1)) in *. set (N := 2 ^ p) in *.
  (* the lower half *)
  destruct (IH (p - 1) or oi m) as (m1 & Hrun1 & Hl1 & Hf1); try lia.
  { apply (disjoint_views_mono _ _ _ _ _ _ N); [lia|exact Hd]. }
  rewrite (bind_run _ _ _ _ _ Hrun1). fold h in Hl1, Hf1.
  assert (Hf1' : frame2t bt br (or + 0 * sr) sr bi (oi + 0 * si) si h m m1).
  { replace (or + 0 * sr) with or by ring. replace (oi + 0 * si) with oi by ring. exact Hf1. }
  destruct (sub_frame br or sr bi oi si N bt Hsr Hsi Hd Hbtr Hbti 0 h m m1
              ltac:(lia) ltac:(lia) Hf1') as [G1 Hout1].
  (* the upper half *)
  cbn [padd].
  destruct (IH (p - 1) (or + h * sr) (oi + h * si) m1) as (m2 & Hrun2 & Hl2 & Hf2); try lia.
  { apply (sub_disjoint br or sr bi oi si N bt Hd Hbtr Hbti h h); lia. }
  rewrite (bind_run _ _ _ _ _ Hrun2). fold h in Hl2, Hf2.
  destruct (sub_frame br or sr bi oi si N bt Hsr Hsi Hd Hbtr Hbti h h m1 m2
              ltac:(lia) ltac:(lia) Hf2) as [G2 Hout2].
  (* the last level *)
  unfold dbcF_butterfly_multipass. cbn [padd].
  destruct (multipass_spec hook hook_npot cfg inverse br or sr bi oi si N bt ot
              (ot + DBCF_TWIDDLES_BUF_SIZE cfg) Hsr Hsi Hd Hbtr Hbti Hseed HLbuf eq_refl
              p 0 ltac:(lia) ltac:(unfold N; f_equal; lia) (Z.to_nat 1) 1
              (cplx m br or sr bi oi si) m2) as (m3 & Hrun3 & Hl3 & Hf3); try lia.
  { intros k Hk. fold h.
    pose proof (Z.mod_pos_bound k h Hh) as Hr.
    destruct (Z.lt_ge_cases k h) as [Hlt|Hge].
    - rewrite Hout2 by lia. apply Hl1. lia.
    - assert (Hm : k mod h = k - h).
      { replace k with ((k - h) + 1 * h) at 1 by lia.
        rewrite Z.mod_add, Z.mod_small by lia. reflexivity. }
      rewrite Hm. replace (k - (k - h)) with h by lia.
      replace k with (h + (k - h)) at 1 by lia.
      rewrite <- cplx_shift, (Hl2 (k - h)) by lia.
      rewrite Z.mod_small by lia. replace (k - h - (k - h)) with 0 by lia.
      rewrite (dit_ext inverse _ (fun t => cplx m br or sr bi oi si (h + t))).
      + rewrite dit_shift, Z.add_0_r. reflexivity.
      + intros t Ht. rewrite Z2Nat.id in Ht by lia. fold h in Ht.
        rewrite cplx_shift. apply Hout1; lia. }
  exists m3. split; [exact Hrun3|]. split; [exact Hl3|].
  apply (frame2t_trans _ _ _ _ _ _ _ _ m m1); [exact G1|].
  apply (frame2t_trans _ _ _ _ _ _ _ _ m1 m2); [exact G2|exact Hf3].
Qed.

(** [dbcF_butterfly] on an array of [2^p] elements: element [j] becomes
    the recursion on the array as it was. *)
Lemma butterfly_spec (p or oi : Z) (m : mem R) :
  0 <= p ->
  disjoint_views br or sr bi oi si (2 ^ p) ->
  exists m',
    dbcF_butterfly cfg p (Ptr br or) (Ptr bi oi) sr si inverse (Ptr bt ot) m = Ok tt m' /\
    (forall j, 0 <= j < 2 ^ p ->
       cplx m' br or sr bi oi si j
       = dit inverse (Z.to_nat p) (cplx m br or sr bi oi si) 0 j) /\
    frame2t bt br or sr bi oi si (2 ^ p) m m'.
Proof.
  intros Hp Hd. unfold dbcF_butterfly.
  destruct (butterfly_fuel_spec (Z.to_nat p) p or oi m Hp ltac:(lia) Hd)
    as (m' & Hrun & Hl & Hf).
  exists m'. split; [exact Hrun|]. split; [|exact Hf].
  intros j Hj. rewrite (Hl j Hj). rewrite Z.mod_small by lia.
  replace (j - j) with 0 by lia. reflexivity.
Qed.

End Butterfly.

(** * The power-of-two driver *)

Lemma log2_loop_pow2 {T} (fuel : nat) :
  forall (p l : Z) (m : mem T),
    -1 <= p < Z.of_nat fuel ->
    log2_loop fuel (if p <? 0 then 0 else 2 ^ p) l m = Ok (l + p + 1) m.
Proof.
  induction fuel as [|fuel IH]; intros p l m Hp;
    destruct (Z.ltb_spec p 0) as [Hneg|Hpos]; try lia.
  - cbn. unfold ret. f_equal. lia.
  - cbn [log2_loop Z.eqb]. unfold ret. f_equal. lia.
  - cbn [log2_loop]. pose proof (pow2_pos p Hpos) as H2.
    destruct (Z.eqb_spec (2 ^ p) 0) as [|_]; [lia|].
    replace (Z.shiftr (2 ^ p) 1) with (if p - 1 <? 0 then 0 else 2 ^ (p - 1)).
    + rewrite IH by lia. f_equal. lia.
    + destruct (Z.ltb_spec (p - 1) 0) as [H0|H1].
      * assert (p = 0) as -> by lia. reflexivity.
      * rewrite <- (POW2_eq p), shiftr_pow2_half by lia. reflexivity.
Qed.

Lemma pow2_ge_succ (p : Z) : 0 <= p -> p + 1 <= 2 ^ p.
Proof. intro H. pose proof (Z.pow_gt_lin_r 2 p ltac:(lia) H). lia. Qed.

Lemma land_pow2_pred (p : Z) : 0 <= p -> Z.land (2 ^ p) (2 ^ p - 1) = 0.
Proof.
  intro Hp. replace (2 ^ p - 1) with (Z.ones p) by (rewrite Z.ones_equiv; lia).
  apply Z.bits_inj'. intros k Hk.
  rewrite Z.land_spec, Z.bits_0, Z.pow2_bits_eqb by exact Hp.
  destruct (Z.eqb_spec p k) as [->|Hne]; [|reflexivity].
  rewrite Z.ones_spec_high by lia. reflexivity.
Qed.

Lemma Cscale_1 (a : R * R) : Cscale 1 a = a.
Proof. destruct a. unfold Cscale. cbn [fst snd]. f_equal; ring. Qed.

Section Driver.

Variables (hook : option (Z -> R * R)) (hook_npot : option (Z -> Z -> R * R)).

Let ER : Elem R := Elem_R hook hook_npot.
Local Existing Instance ER.

Variables (cfg : Config) (inverse : bool) (br or sr bi oi si N bt : Z).

Hypothesis Hasserts : static_asserts cfg.
Hypothesis Hsr : sr <> 0.
Hypothesis Hsi : si <> 0.
Hypothesis Hd : disjoint_views br or sr bi oi si N.
Hypothesis Hbtr : bt <> br.
Hypothesis Hbti : bt <> bi.
Hypothesis Hseed : forall k, 0 <= k -> dbcF_cexpm1 k = expm1_exact k.

Local Notation X m := (cplx m br or sr bi oi si).

(** The scaling loop, for unit strides. *)
Lemma scale_loop (scale : R) (m : mem R) :
  0 <= N -> sr = 1 -> si = 1 ->
  exists m',
    for_loop 0 N (fun i =>
      r <- aref (Ptr br or) i ;; aset (Ptr br or) i (Tmul r scale) ;;
      r <- aref (Ptr bi oi) i ;; aset (Ptr bi oi) i (Tmul r scale)) m = Ok tt m' /\
    (forall j, 0 <= j < N -> X m' j = Cscale scale (X m j)) /\
    frame2 br or sr bi oi si N m m'.
Proof.
  intros HN Er Ei.
  destruct (for_loop_inv
    (fun i m1 =>
       (forall j, 0 <= j < N ->
          X m1 j = if j <? i then Cscale scale (X m j) else X m j) /\
       frame2 br or sr bi oi si N m m1)
    0 N
    (fun i =>
      r <- aref (Ptr br or) i ;; aset (Ptr br or) i (Tmul r scale) ;;
      r <- aref (Ptr bi oi) i ;; aset (Ptr bi oi) i (Tmul r scale)) m)
    as (m' & Hrun & Hv & Hf).
  - exact HN.
  - split; [|apply frame2_refl]. intros j Hj. destruct (Z.ltb_spec j 0); [lia|reflexivity].
  - intros i m1 Hi [Hv Hf]. run_exists.
    assert (Ar : or + i = or + i * sr) by (rewrite Er; lia).
    assert (Ai : oi + i = oi + i * si) by (rewrite Ei; lia).
    rewrite Ar, Ai. cbn [Tmul ER Elem_R].
    assert (Hri : br <> bi \/ or + i * sr <> oi + i * si)
      by (apply (re_im_apart br or sr bi oi si N Hd); lia).
    rewrite (cells_set_other _ _ _ _ bi (oi + i * si))
      by (destruct Hri; [left|right]; congruence).
    split.
    + intros j Hj. pose proof (Hv j Hj) as Hvj. pose proof (Hv i Hi) as Hvi.
      destruct (Z.ltb_spec i i); [lia|].
      unfold cplx, cell in *.
      destruct (Z.eq_dec j i) as [->|Hne].
      * destruct (Z.ltb_spec i (i + 1)); [|lia].
        rewrite cells_set_other by exact Hri. rewrite !cells_set_same.
        injection Hvi as Hre Him. rewrite Hre, Him. reflexivity.
      * rewrite cells_set_other
          by (apply (re_im_apart br or sr bi oi si N Hd); lia).
        rewrite cells_set_other by (apply (re_re_apart br or sr Hsr); lia).
        rewrite cells_set_other by (apply (im_im_apart bi oi si Hsi); lia).
        rewrite cells_set_other
          by (apply (im_re_apart br or sr bi oi si N Hd); lia).
        rewrite Hvj.
        destruct (Z.ltb_spec j i), (Z.ltb_spec j (i + 1)); try lia; reflexivity.
    + apply (frame2_trans _ _ _ _ _ _ _ _ _ _ Hf). intros b o Hre Him.
      rewrite !cells_set_other; try reflexivity.
      all: first [ destruct (Z.eq_dec b br) as [e|e];
                   [right; apply (Hre e); lia|left; exact e]
                 | destruct (Z.eq_dec b bi) as [e|e];
                   [right; apply (Him e); lia|left; exact e] ].
  - exists m'. split; [exact Hrun|]. split; [|exact Hf].
    intros j Hj. rewrite (Hv j Hj). destruct (Z.ltb_spec j N); [reflexivity|lia].
Qed.

Lemma frame_real_frame2t (n : Z) (m m' : mem R) :
  frame bt br or sr n m m' -> frame2t bt br or sr bi oi si n m m'.
Proof. intros F b o Hb Hre _. apply F; assumption. Qed.

Lemma frame_imag_frame2t (n : Z) (m m' : mem R) :
  frame bt bi oi si n m m' -> frame2t bt br or sr bi oi si n m m'.
Proof. intros F b o Hb _ Him. apply F; assumption. Qed.

Lemma Tne_ONE (scale : R) :
  Tne scale DBCF_ONE = if Req_dec_T scale 1 then false else true.
Proof. unfold ER. rewrite (R_ONE hook hook_npot). reflexivity. Qed.

(** The driver after its set-up: two permutations, the butterflies and
    the scaling. *)
Lemma pot_tail (p bsr osr ssr bsi osi ssi : Z) (scale : R) (m : mem R) :
  0 <= p -> N = 2 ^ p ->
  bsr <> bt -> bsi <> bt ->
  ssr = 0 \/ (bsr = br /\ osr = or /\ ssr = sr) \/ disjoint_views bsr osr ssr br or sr N ->
  ssi = 0 \/ (bsi = bi /\ osi = oi /\ ssi = si) \/ disjoint_views bsi osi ssi bi oi si N ->
  disjoint_views bsi osi ssi br or sr N ->
  scale = 1%R \/ (sr = 1 /\ si = 1) ->
  exists m',
    (dbcF_bitreversal_permutation cfg p (Ptr bsr osr) ssr (Ptr br or) sr (Ptr bt 0) ;;
     dbcF_bitreversal_permutation cfg p (Ptr bsi osi) ssi (Ptr bi oi) si (Ptr bt 0) ;;
     dbcF_butterfly cfg p (Ptr br or) (Ptr bi oi) sr si inverse (Ptr bt 0) ;;
     (if Tne scale DBCF_ONE then
        for_loop 0 N (fun i =>
          r <- aref (Ptr br or) i ;; aset (Ptr br or) i (Tmul r scale) ;;
          r <- aref (Ptr bi oi) i ;; aset (Ptr bi oi) i (Tmul r scale))
      else ret tt) ;;
     ret 0) m = Ok 0 m' /\
    (forall j, 0 <= j < N ->
       X m' j = Cscale scale
                  (dft inverse N
                     (fun k => (cells m bsr (osr + k * ssr), cells m bsi (osi + k * ssi))) j)) /\
    frame2t bt br or sr bi oi si N m m'.
Proof.
  intros Hp HN Hbsr Hbsi Hreg_r Hreg_i Hapart Hscale.
  assert (HLbuf : 0 <= DBCF_TWIDDLES_BUF_LOG2 cfg).
  { destruct Hasserts as (H1 & _). unfold DBCF_TWIDDLES_BUF_LOG2. lia. }
  pose proof (pow2_pos p Hp) as Hpos.
  pose proof Hd as Hd'. rewrite HN in Hd', Hreg_r, Hreg_i, Hapart.
  destruct (permutation_spec cfg Hasserts bt 0 p bsr osr ssr br or sr m Hp Hsr
              ltac:(congruence) Hbsr Hreg_r) as (m1 & Hrun1 & Hc1 & Hf1).
  rewrite (bind_run _ _ _ _ _ Hrun1).
  destruct (permutation_spec cfg Hasserts bt 0 p bsi osi ssi bi oi si m1 Hp Hsi
              ltac:(congruence) Hbsi Hreg_i) as (m2 & Hrun2 & Hc2 & Hf2).
  rewrite (bind_run _ _ _ _ _ Hrun2).
  destruct (butterfly_spec hook hook_npot cfg inverse br sr bi si bt 0 Hsr Hsi Hbtr Hbti
              Hseed HLbuf p or oi m2 Hp Hd') as (m3 & Hrun3 & Hv3 & Hf3).
  rewrite (bind_run _ _ _ _ _ Hrun3).
  assert (Hdft : forall j, 0 <= j < N ->
            X m3 j = dft inverse N
                       (fun k => (cells m bsr (osr + k * ssr), cells m bsi (osi + k * ssi))) j).
  { intros j Hj. rewrite HN in Hj. rewrite (Hv3 j Hj), HN. apply dit_dft; [exact Hp|lia|].
    intros k Hk. pose proof (rev_range p k Hp) as Hr.
    unfold cplx, cell. f_equal.
    - rewrite (Hf2 br (or + rev p k * sr)); [| congruence |].
      + rewrite <- (bitreverse_rev cfg k p Hp Hk). apply Hc1. exact Hk.
      + intros e t Ht Heq. revert Heq. apply Hd'; [lia|lia|congruence].
    - rewrite <- (bitreverse_rev cfg k p Hp Hk), (Hc2 k Hk).
      apply Hf1; [exact Hbsi|].
      intros e t Ht. apply Hapart; [lia|lia|exact e]. }
  assert (Hf03 : frame2t bt br or sr bi oi si N m m3).
  { rewrite HN.
    apply (frame2t_trans _ _ _ _ _ _ _ _ m m1); [apply frame_real_frame2t; exact Hf1|].
    apply (frame2t_trans _ _ _ _ _ _ _ _ m1 m2); [apply frame_imag_frame2t; exact Hf2|].
    exact Hf3. }
  rewrite Tne_ONE. destruct (Req_dec_T scale 1) as [Hone|Hne].
  - exists m3. split; [reflexivity|]. split; [|exact Hf03].
    intros j Hj. rewrite Hone, Cscale_1. apply Hdft. exact Hj.
  - destruct Hscale as [Hone|[Er Ei]]; [contradiction|].
    destruct (scale_loop scale m3 ltac:(lia) Er Ei) as (m4 & Hrun4 & Hv4 & Hf4).
    rewrite (bind_run _ _ _ _ _ Hrun4).
    exists m4. split; [reflexivity|]. split.
    + intros j Hj. rewrite (Hv4 j Hj), (Hdft j Hj). reflexivity.
    + apply (frame2t_trans _ _ _ _ _ _ _ _ m m3); [exact Hf03|].
      apply frame2_frame2t. exact Hf4.
Qed.

End Driver.

Section Pot.

Variables (hook : option (Z -> R * R)) (hook_npot : option (Z -> Z -> R * R)).

Let ER : Elem R := Elem_R hook hook_npot.
Local Existing Instance ER.

Variables (cfg : Config) (inverse : bool).

Hypothesis Hasserts : static_asserts cfg.
Hypothesis Hseed : forall k, 0 <= k -> dbcF_cexpm1 k = expm1_exact k.

(** The memory after the set-up of the driver: the two zeros of the
    dummy source in a fresh block. *)
Lemma pot_setup {A} (k : ptr -> ptr -> M R A) (m : mem R) :
  exists m0,
    (dummy <- alloca ;; aset dummy 0 DBCF_ZERO ;; aset dummy 1 DBCF_ZERO ;;
     tmp <- alloca ;; k dummy tmp) m
    = k (Ptr (next_block m) 0) (Ptr (next_block m + 1) 0) m0 /\
    cells m0 (next_block m) (0 + 0) = 0%R /\
    cells m0 (next_block m) (0 + 1) = 0%R /\
    (forall b o, b <> next_block m -> cells m0 b o = cells m b o).
Proof.
  eexists. split; [reflexivity|]. cbn [cells next_block].
  unfold ER. rewrite (R_ZERO hook hook_npot).
  split; [|split].
  - rewrite upd_other by (right; lia). apply upd_same.
  - apply upd_same.
  - intros b o Hb. rewrite !upd_other by (left; exact Hb). reflexivity.
Qed.

Lemma fft_pot_spec (p : Z) (src_real src_imag : ptr) (srs sis br or sr bi oi si : Z)
    (scale : R) (m : mem R) :
  0 <= p -> sr <> 0 -> si <> 0 ->
  disjoint_views br or sr bi oi si (2 ^ p) ->
  br < next_block m -> bi < next_block m ->
  src_fits src_real srs br or sr (2 ^ p) (next_block m) ->
  src_fits src_imag sis bi oi si (2 ^ p) (next_block m) ->
  src_apart src_imag sis br or sr (2 ^ p) ->
  scale = 1%R \/ (sr = 1 /\ si = 1) ->
  exists m',
    dbcF_fft_pot cfg (2 ^ p) src_real src_imag srs sis (Ptr br or) (Ptr bi oi) sr si
      inverse scale m = Ok 0 m' /\
    (forall j, 0 <= j < 2 ^ p ->
       cplx m' br or sr bi oi si j
       = Cscale scale
           (dft inverse (2 ^ p)
              (fun k => (src_val m src_real srs k, src_val m src_imag sis k)) j)) /\
    (forall b o, b < next_block m ->
       (b = br -> forall k, 0 <= k < 2 ^ p -> o <> or + k * sr) ->
       (b = bi -> forall k, 0 <= k < 2 ^ p -> o <> oi + k * si) ->
       cells m' b o = cells m b o).
Proof.
  intros Hp Hsr Hsi Hd Hbr Hbi Hfr Hfi Hap Hscale.
  unfold dbcF_fft_pot.
  destruct (pot_setup
    (fun dummy tmp =>
       log2n <- log2_loop (Z.to_nat (2 ^ p)) (2 ^ p) (-1) ;;
       (let '(src_real0, src_real_stride) :=
          if is_null src_real then (dummy, 0) else (src_real, srs) in
        let '(src_imag0, src_imag_stride) :=
          if is_null src_imag then (padd dummy 1, 0) else (src_imag, sis) in
        dbcF_bitreversal_permutation cfg log2n src_real0 src_real_stride (Ptr br or) sr tmp ;;
        dbcF_bitreversal_permutation cfg log2n src_imag0 src_imag_stride (Ptr bi oi) si tmp ;;
        dbcF_butterfly cfg log2n (Ptr br or) (Ptr bi oi) sr si inverse tmp ;;
        (if Tne scale DBCF_ONE
         then for_loop 0 (2 ^ p) (fun i =>
                r <- aref (Ptr br or) i ;; aset (Ptr br or) i (Tmul r scale) ;;
                r <- aref (Ptr bi oi) i ;; aset (Ptr bi oi) i (Tmul r scale))
         else ret tt) ;;
        ret 0)) m) as (m0 & Hrun0 & Hz0 & Hz1 & Hsame).
  rewrite Hrun0. clear Hrun0.
  set (nb := next_block m) in *.
  assert (Hlog : log2_loop (Z.to_nat (2 ^ p)) (2 ^ p) (-1) m0 = Ok p m0).
  { pose proof (log2_loop_pow2 (Z.to_nat (2 ^ p)) p (-1) m0) as H.
    destruct (Z.ltb_spec p 0) as [|_]; [lia|].
    rewrite H by (pose proof (pow2_ge_succ p Hp); lia). f_equal. lia. }
  rewrite (bind_run _ _ _ _ _ Hlog).
  assert (Hfin : forall bsr osr ssr bsi osi ssi,
    bsr <> nb + 1 -> bsi <> nb + 1 ->
    ssr = 0 \/ (bsr = br /\ osr = or /\ ssr = sr) \/
      disjoint_views bsr osr ssr br or sr (2 ^ p) ->
    ssi = 0 \/ (bsi = bi /\ osi = oi /\ ssi = si) \/
      disjoint_views bsi osi ssi bi oi si (2 ^ p) ->
    disjoint_views bsi osi ssi br or sr (2 ^ p) ->
    (forall k, cells m0 bsr (osr + k * ssr) = src_val m src_real srs k) ->
    (forall k, cells m0 bsi (osi + k * ssi) = src_val m src_imag sis k) ->
    exists m',
      (dbcF_bitreversal_permutation cfg p (Ptr bsr osr) ssr (Ptr br or) sr (Ptr (nb + 1) 0) ;;
       dbcF_bitreversal_permutation cfg p (Ptr bsi osi) ssi (Ptr bi oi) si (Ptr (nb + 1) 0) ;;
       dbcF_butterfly cfg p (Ptr br or) (Ptr bi oi) sr si inverse (Ptr (nb + 1) 0) ;;
       (if Tne scale DBCF_ONE
        then for_loop 0 (2 ^ p) (fun i =>
               r <- aref (Ptr br or) i ;; aset (Ptr br or) i (Tmul r scale) ;;
               r <- aref (Ptr bi oi) i ;; aset (Ptr bi oi) i (Tmul r scale))
        else ret tt) ;;
       ret 0) m0 = Ok 0 m' /\
      (forall j, 0 <= j < 2 ^ p ->
         cplx m' br or sr bi oi si j
         = Cscale scale
             (dft inverse (2 ^ p)
                (fun k => (src_val m src_real srs k, src_val m src_imag sis k)) j)) /\
      (forall b o, b < nb ->
         (b = br -> forall k, 0 <= k < 2 ^ p -> o <> or + k * sr) ->
         (b = bi -> forall k, 0 <= k < 2 ^ p -> o <> oi + k * si) ->
         cells m' b o = cells m b o)).
  { intros bsr osr ssr bsi osi ssi Hb1 Hb2 Hr1 Hr2 Hap' Hvr Hvi.
    destruct (pot_tail hook hook_npot cfg inverse br or sr bi oi si (2 ^ p) (nb + 1)
                Hasserts Hsr Hsi Hd ltac:(lia) ltac:(lia) Hseed
                p bsr osr ssr bsi osi ssi scale m0 Hp eq_refl Hb1 Hb2 Hr1 Hr2 Hap' Hscale)
      as (m' & Hrun & Hv & Hf).
    exists m'. split; [exact Hrun|]. split.
    - intros j Hj. rewrite (Hv j Hj). f_equal. unfold dft. apply Csum_ext.
      intros k _. rewrite Hvr, Hvi. reflexivity.
    - intros b o Hb Hre Him. rewrite (Hf b o) by (try assumption; lia).
      apply Hsame. lia. }
  destruct src_real as [|bsr osr], src_imag as [|bsi osi]; cbn [is_null padd];
    cbn [src_fits src_apart] in Hfr, Hfi, Hap.
  - apply (Hfin nb 0 0 nb (0 + 1) 0); try lia; try (left; reflexivity).
    + intros i j _ _ e. lia.
    + intros k. cbn [src_val]. rewrite Z.mul_0_r. exact Hz0.
    + intros k. cbn [src_val]. rewrite Z.mul_0_r, Z.add_0_r. exact Hz1.
  - destruct Hfi as [Hlt Hreg].
    apply (Hfin nb 0 0 bsi osi sis); try lia; try (left; reflexivity); try assumption.
    + intros k. cbn [src_val]. rewrite Z.mul_0_r. exact Hz0.
    + intros k. cbn [src_val]. apply Hsame. lia.
  - destruct Hfr as [Hlt Hreg].
    apply (Hfin bsr osr srs nb (0 + 1) 0); try lia; try (left; reflexivity); try assumption.
    + intros i j _ _ e. lia.
    + intros k. cbn [src_val]. apply Hsame. lia.
    + intros k. cbn [src_val]. rewrite Z.mul_0_r, Z.add_0_r. exact Hz1.
  - destruct Hfr as [Hlt Hreg]. destruct Hfi as [Hlt' Hreg'].
    apply (Hfin bsr osr srs bsi osi sis); try lia; try assumption.
    + intros k. cbn [src_val]. apply Hsame. lia.
    + intros k. cbn [src_val]. apply Hsame. lia.
Qed.

End Pot.

(** * The transform of a power-of-two size *)

Lemma exact_seeds_ok (hook_npot : option (Z -> Z -> R * R)) (k : Z) :
  0 <= k -> @dbcF_cexpm1 R (Elem_R exact_seeds hook_npot) k = expm1_exact k.
Proof. intros _. reflexivity. Qed.

Lemma blocks_apart (bs os ss bd od sd n : Z) :
  bs <> bd -> disjoint_views bs os ss bd od sd n.
Proof. intros H i j _ _ e. contradiction. Qed.

(** X6.  [dbcF_fft8] with [c = cos(pi/4)] on eight complex elements
    (nonzero strides, real and imaginary arrays without a common cell):
    it returns, element [t] becomes the eight-point transform, at [t], of
    the elements read in bit-reversed order, and no other cell changes. *)
Theorem fft8_is_eight_point_transform
    (hook : option (Z -> R * R)) (hook_npot : option (Z -> Z -> R * R))
    (inverse : bool) (br or sr bi oi si : Z) (m : mem R) :
  sr <> 0 -> si <> 0 ->
  (forall i j, 0 <= i < 8 -> 0 <= j < 8 -> br = bi -> or + i * sr <> oi + j * si) ->
  exists m',
    @dbcF_fft8 R (Elem_R hook hook_npot) (Ptr br or) (Ptr bi oi) sr si inverse
      (cos (PI / 4)) m = Ok tt m' /\
    (forall t, 0 <= t < 8 ->
       cplx m' br or sr bi oi si t
       = dft inverse 8 (fun k => cplx m br or sr bi oi si (rev 3 k)) t) /\
    (forall b o,
       (b = br -> forall k, 0 <= k < 8 -> o <> or + k * sr) ->
       (b = bi -> forall k, 0 <= k < 8 -> o <> oi + k * si) ->
       cells m' b o = cells m b o).
Proof.
  intros Hsr Hsi Hd.
  destruct (fft8_run hook hook_npot inverse br or sr bi oi si Hsr Hsi Hd m)
    as (m' & Hrun & Hv & Hf).
  exists m'. split; [exact Hrun|]. split; [|exact Hf].
  intros t Ht. rewrite (Hv t Ht).
  apply (dit_dft inverse 3 (fun k => cplx m br or sr bi oi si (rev 3 k))
           (fun k => cplx m br or sr bi oi si k) t); [lia|lia|].
  intros k Hk. reflexivity.
Qed.

Lemma fft8_is_eight_point_transform_witness :
  exists m',
    @dbcF_fft8 R (Elem_R None None) (Ptr 1 0) (Ptr 1 1) 2 2 false (cos (PI / 4)) pair_mem
    = Ok tt m' /\
    (forall t, 0 <= t < 8 ->
       cplx m' 1 0 2 1 1 2 t
       = dft false 8 (fun k => cplx pair_mem 1 0 2 1 1 2 (rev 3 k)) t) /\
    (forall b o,
       (b = 1 -> forall k, 0 <= k < 8 -> o <> 0 + k * 2) ->
       (b = 1 -> forall k, 0 <= k < 8 -> o <> 1 + k * 2) ->
       cells m' b o = cells pair_mem b o).
Proof.
  apply (fft8_is_eight_point_transform None None false 1 0 2 1 1 2 pair_mem); lia.
Defined.

(** X7.  One pass of [dbcF_butterfly_pass] at level [d >= 1] over
    [2^log2c] blocks of [2^d] elements, with the table of level [d]
    filled on its first [2^log2t] entries ([log2t] at least the smaller
    of [d-1] and the table size): it returns; in every block, element [t]
    of the lower half becomes [lo + w^t * hi] and element [t] of the upper
    half [lo - w^t * hi], with [w = exp(-+2*pi*i/2^d)]; and it changes no
    cell outside the two arrays.  This covers the table loop, the loop of
    the first level and the recursion of [dbcF_butterfly_block]. *)
Theorem butterfly_pass_combines_halves
    (hook : option (Z -> R * R)) (hook_npot : option (Z -> Z -> R * R))
    (cfg : Config) (inverse : bool) (br or sr bi oi si bt otr oti d log2t log2c : Z)
    (m : mem R) :
  sr <> 0 -> si <> 0 ->
  disjoint_views br or sr bi oi si (2 ^ log2c * 2 ^ d) ->
  bt <> br -> bt <> bi ->
  (forall k, 0 <= k -> @dbcF_cexpm1 R (Elem_R hook hook_npot) k = expm1_exact k) ->
  0 <= DBCF_TWIDDLES_BUF_LOG2 cfg ->
  1 <= d -> 0 <= log2c ->
  Z.min (d - 1) (DBCF_TWIDDLES_BUF_LOG2 cfg) <= log2t ->
  table_ok inverse d log2t bt otr oti m ->
  exists m',
    @dbcF_butterfly_pass R (Elem_R hook hook_npot) cfg d log2c (Ptr br or) (Ptr bi oi)
      sr si inverse log2t (Ptr bt otr) (Ptr bt oti) m = Ok tt m' /\
    (forall i t, 0 <= i < 2 ^ log2c -> 0 <= t < 2 ^ (d - 1) ->
       let lo := cplx m br or sr bi oi si (i * 2 ^ d + t) in
       let hi := cplx m br or sr bi oi si (i * 2 ^ d + 2 ^ (d - 1) + t) in
       let wt := root inverse (2 ^ d) t in
       cplx m' br or sr bi oi si (i * 2 ^ d + t) = Cadd lo (Cmul wt hi) /\
       cplx m' br or sr bi oi si (i * 2 ^ d + 2 ^ (d - 1) + t) = Csub lo (Cmul wt hi)) /\
    (forall b o,
       (b = br -> forall k, 0 <= k < 2 ^ log2c * 2 ^ d -> o <> or + k * sr) ->
       (b = bi -> forall k, 0 <= k < 2 ^ log2c * 2 ^ d -> o <> oi + k * si) ->
       cells m' b o = cells m b o).
Proof.
  intros Hsr Hsi Hd Hbtr Hbti Hseed HLbuf Hd1 Hc Hmin Htab.
  destruct (pass_spec hook hook_npot cfg inverse br or sr bi oi si (2 ^ log2c * 2 ^ d)
              bt otr oti Hsr Hsi Hd Hbtr Hbti d log2t Hseed ltac:(lia) HLbuf log2c m
              Hd1 Hc eq_refl Hmin Htab) as (m' & Hrun & Hp & Hf).
  exists m'. split; [exact Hrun|]. split; [|exact Hf].
  intros i t Hi Ht. cbv zeta. apply (Hp i t Hi Ht).
Qed.

Lemma pass_mem_table : table_ok false 1 0 3 0 1 pass_mem.
Proof.
  intros t Ht. assert (t = 0) as -> by (change (2 ^ 0) with 1 in Ht; lia).
  rewrite angle_0, cis_0. reflexivity.
Qed.

Lemma butterfly_pass_combines_halves_witness :
  exists m',
    @dbcF_butterfly_pass R (Elem_R exact_seeds None) default_config 1 0 (Ptr 1 0) (Ptr 2 0)
      1 1 false 0 (Ptr 3 0) (Ptr 3 1) pass_mem = Ok tt m' /\
    (forall i t, 0 <= i < 2 ^ 0 -> 0 <= t < 2 ^ (1 - 1) ->
       let lo := cplx pass_mem 1 0 1 2 0 1 (i * 2 ^ 1 + t) in
       let hi := cplx pass_mem 1 0 1 2 0 1 (i * 2 ^ 1 + 2 ^ (1 - 1) + t) in
       let wt := root false (2 ^ 1) t in
       cplx m' 1 0 1 2 0 1 (i * 2 ^ 1 + t) = Cadd lo (Cmul wt hi) /\
       cplx m' 1 0 1 2 0 1 (i * 2 ^ 1 + 2 ^ (1 - 1) + t) = Csub lo (Cmul wt hi)) /\
    (forall b o,
       (b = 1 -> forall k, 0 <= k < 2 ^ 0 * 2 ^ 1 -> o <> 0 + k * 1) ->
       (b = 2 -> forall k, 0 <= k < 2 ^ 0 * 2 ^ 1 -> o <> 0 + k * 1) ->
       cells m' b o = cells pass_mem b o).
Proof.
  apply (butterfly_pass_combines_halves exact_seeds None default_config false
           1 0 1 2 0 1 3 0 1 1 0 0 pass_mem); try lia.
  - apply blocks_apart. lia.
  - apply exact_seeds_ok.
  - vm_compute. discriminate.
  - exact pass_mem_table.
Defined.

(** X8.  [dbcF_butterfly] on an array of [2^log2n] complex elements
    that holds a sequence in bit-reversed order (nonzero strides, the two
    arrays without a common cell, the scratch buffer in a block of its
    own, exact seeds): it returns, element [j] becomes the unscaled
    transform, at [j], of the sequence, and nothing changes outside the
    two arrays and the scratch block.  This holds for every size, the
    halving recursion above [2^12] included. *)
Theorem butterfly_transforms_bit_reversed_input
    (hook : option (Z -> R * R)) (hook_npot : option (Z -> Z -> R * R))
    (cfg : Config) (inverse : bool) (log2n br or sr bi oi si bt ot : Z) (m : mem R) :
  0 <= DBCF_TWIDDLES_BUF_LOG2 cfg ->
  0 <= log2n -> sr <> 0 -> si <> 0 -> bt <> br -> bt <> bi ->
  disjoint_views br or sr bi oi si (2 ^ log2n) ->
  (forall k, 0 <= k -> @dbcF_cexpm1 R (Elem_R hook hook_npot) k = expm1_exact k) ->
  exists m',
    @dbcF_butterfly R (Elem_R hook hook_npot) cfg log2n (Ptr br or) (Ptr bi oi) sr si
      inverse (Ptr bt ot) m = Ok tt m' /\
    (forall j, 0 <= j < 2 ^ log2n ->
       cplx m' br or sr bi oi si j
       = dft inverse (2 ^ log2n) (fun k => cplx m br or sr bi oi si (rev log2n k)) j) /\
    (forall b o, b <> bt ->
       (b = br -> forall k, 0 <= k < 2 ^ log2n -> o <> or + k * sr) ->
       (b = bi -> forall k, 0 <= k < 2 ^ log2n -> o <> oi + k * si) ->
       cells m' b o = cells m b o).
Proof.
  intros HLbuf Hp Hsr Hsi Hbtr Hbti Hd Hseed.
  destruct (butterfly_spec hook hook_npot cfg inverse br sr bi si bt ot Hsr Hsi Hbtr Hbti
              Hseed HLbuf log2n or oi m Hp Hd) as (m' & Hrun & Hv & Hf).
  exists m'. split; [exact Hrun|]. split; [|exact Hf].
  intros j Hj. rewrite (Hv j Hj). apply dit_dft; [exact Hp|lia|].
  intros k Hk. reflexivity.
Qed.

Lemma butterfly_transforms_bit_reversed_input_witness :
  exists m',
    @dbcF_butterfly R (Elem_R exact_seeds None) default_config 2 (Ptr 1 0) (Ptr 2 0) 1 1
      false (Ptr 5 0) pot_mem = Ok tt m' /\
    (forall j, 0 <= j < 2 ^ 2 ->
       cplx m' 1 0 1 2 0 1 j
       = dft false (2 ^ 2) (fun k => cplx pot_mem 1 0 1 2 0 1 (rev 2 k)) j) /\
    (forall b o, b <> 5 ->
       (b = 1 -> forall k, 0 <= k < 2 ^ 2 -> o <> 0 + k * 1) ->
       (b = 2 -> forall k, 0 <= k < 2 ^ 2 -> o <> 0 + k * 1) ->
       cells m' b o = cells pot_mem b o).
Proof.
  apply (butterfly_transforms_bit_reversed_input exact_seeds None default_config false
           2 1 0 1 2 0 1 5 0 pot_mem); try lia.
  - vm_compute. discriminate.
  - apply blocks_apart. lia.
  - apply exact_seeds_ok.
Defined.

Lemma fft_is_pot {T : Type} {E : Elem T} (cfg : Config) (p : Z)
    (sr si : ptr) (srs sis : Z) (dr di : ptr) (drs dis : Z) (inverse : bool) (scale : T)
    (m : mem T) :
  0 <= p ->
  alias_rejected sr si srs sis dr di drs dis = false ->
  dbcF_fft cfg (2 ^ p) sr si srs sis dr di drs dis inverse scale m
  = dbcF_fft_pot cfg (2 ^ p) sr si srs sis dr di drs dis inverse scale m.
Proof.
  intros Hp Ha. pose proof (pow2_pos p Hp) as Hpos.
  rewrite fft_dispatch by (try assumption; lia).
  rewrite land_pow2_pred by exact Hp. reflexivity.
Qed.

(** X9.  The entry surface on a power-of-two size [2^p], over the reals
    with exact seeds: a [DBCF_cexpm1] hook that returns
    [exp(2*pi*i/2^k) - 1] at every level [k] (the constants the header
    ships are rounded from level 3 on).  The destination arrays have nonzero strides and no
    common cell; each source channel is null (zeros), a broadcast (stride
    0), its own destination (same pointer and stride) or an array that
    shares no cell with its destination; the imaginary source shares no
    cell with the real destination; the pointer checks pass; and either
    [scale = 1] or both destination strides are 1.  Then the call returns
    0, destination element [j] is [scale] times the transform, at [j], of
    the source sequence, and no cell of the caller outside the destination
    arrays changes. *)
Theorem power_of_two_transform
    (hook : option (Z -> R * R)) (hook_npot : option (Z -> Z -> R * R))
    (cfg : Config) (inverse : bool) (p : Z) (src_real src_imag : ptr)
    (srs sis br or sr bi oi si : Z) (scale : R) (m : mem R) :
  static_asserts cfg ->
  (forall k, 0 <= k -> @dbcF_cexpm1 R (Elem_R hook hook_npot) k = expm1_exact k) ->
  0 <= p -> sr <> 0 -> si <> 0 ->
  disjoint_views br or sr bi oi si (2 ^ p) ->
  br < next_block m -> bi < next_block m ->
  src_fits src_real srs br or sr (2 ^ p) (next_block m) ->
  src_fits src_imag sis bi oi si (2 ^ p) (next_block m) ->
  src_apart src_imag sis br or sr (2 ^ p) ->
  alias_rejected src_real src_imag srs sis (Ptr br or) (Ptr bi oi) sr si = false ->
  scale = 1%R \/ (sr = 1 /\ si = 1) ->
  exists m',
    @dbcF_fft R (Elem_R hook hook_npot) cfg (2 ^ p) src_real src_imag srs sis
      (Ptr br or) (Ptr bi oi) sr si inverse scale m = Ok 0 m' /\
    (forall j, 0 <= j < 2 ^ p ->
       cplx m' br or sr bi oi si j
       = Cscale scale
           (dft inverse (2 ^ p)
              (fun k => (src_val m src_real srs k, src_val m src_imag sis k)) j)) /\
    (forall b o, b < next_block m ->
       (b = br -> forall k, 0 <= k < 2 ^ p -> o <> or + k * sr) ->
       (b = bi -> forall k, 0 <= k < 2 ^ p -> o <> oi + k * si) ->
       cells m' b o = cells m b o).
Proof.
  intros Ha Hseed Hp Hsr Hsi Hd Hbr Hbi Hfr Hfi Hap Hal Hscale.
  rewrite fft_is_pot by assumption.
  apply (fft_pot_spec hook hook_npot cfg inverse Ha Hseed); assumption.
Qed.

Lemma power_of_two_transform_witness :
  exists m',
    @dbcF_fft R (Elem_R exact_seeds None) default_config (2 ^ 2) (Ptr 1 0) (Ptr 2 0) 1 1
      (Ptr 3 0) (Ptr 4 0) 1 1 false 2%R pot_mem = Ok 0 m' /\
    (forall j, 0 <= j < 2 ^ 2 ->
       cplx m' 3 0 1 4 0 1 j
       = Cscale 2
           (dft false (2 ^ 2)
              (fun k => (src_val pot_mem (Ptr 1 0) 1 k, src_val pot_mem (Ptr 2 0) 1 k)) j)) /\
    (forall b o, b < next_block pot_mem ->
       (b = 3 -> forall k, 0 <= k < 2 ^ 2 -> o <> 0 + k * 1) ->
       (b = 4 -> forall k, 0 <= k < 2 ^ 2 -> o <> 0 + k * 1) ->
       cells m' b o = cells pot_mem b o).
Proof.
  apply (power_of_two_transform exact_seeds None default_config false 2 (Ptr 1 0) (Ptr 2 0)
           1 1 3 0 1 4 0 1 2%R pot_mem); try lia.
  - exact default_static_asserts.
  - apply exact_seeds_ok.
  - apply blocks_apart. lia.
  - vm_compute. reflexivity.
  - vm_compute. reflexivity.
  - split; [vm_compute; reflexivity|]. right. right. apply blocks_apart. lia.
  - split; [vm_compute; reflexivity|]. right. right. apply blocks_apart. lia.
  - apply blocks_apart. lia.
  - reflexivity.
Defined.

(** X10.  The contiguous planar entry points out of place: the four
    arrays in four blocks of the caller, the two destination blocks
    different from each other and from the source blocks.  For every
    real [scale], [dbc_fft_c] returns 0 and leaves
    [Y[j] = scale * sum_k X[k] * exp(-2*pi*i*j*k/N)] in the destination,
    and [dbc_ifft_c] does the same with [exp(+2*pi*i*j*k/N)], for
    [N = 2^p] and exact seeds. *)
Theorem planar_transform_out_of_place
    (hook : option (Z -> R * R)) (hook_npot : option (Z -> Z -> R * R))
    (cfg : Config) (p b1 o1 b2 o2 b3 o3 b4 o4 : Z) (scale : R) (m : mem R) :
  static_asserts cfg ->
  (forall k, 0 <= k -> @dbcF_cexpm1 R (Elem_R hook hook_npot) k = expm1_exact k) ->
  0 <= p ->
  b1 < next_block m -> b2 < next_block m -> b3 < next_block m -> b4 < next_block m ->
  b3 <> b4 -> b1 <> b3 -> b1 <> b4 -> b2 <> b3 -> b2 <> b4 ->
  (exists m',
     @dbc_fft_c R (Elem_R hook hook_npot) cfg (2 ^ p) (Ptr b1 o1) (Ptr b2 o2)
       (Ptr b3 o3) (Ptr b4 o4) scale m = Ok 0 m' /\
     forall j, 0 <= j < 2 ^ p ->
       cplx m' b3 o3 1 b4 o4 1 j
       = Cscale scale (dft false (2 ^ p) (fun k => cplx m b1 o1 1 b2 o2 1 k) j)) /\
  (exists m',
     @dbc_ifft_c R (Elem_R hook hook_npot) cfg (2 ^ p) (Ptr b1 o1) (Ptr b2 o2)
       (Ptr b3 o3) (Ptr b4 o4) scale m = Ok 0 m' /\
     forall j, 0 <= j < 2 ^ p ->
       cplx m' b3 o3 1 b4 o4 1 j
       = Cscale scale (dft true (2 ^ p) (fun k => cplx m b1 o1 1 b2 o2 1 k) j)).
Proof.
  intros Ha Hseed Hp H1 H2 H3 H4 N34 N13 N14 N23 N24.
  assert (Hal : alias_rejected (Ptr b1 o1) (Ptr b2 o2) 1 1 (Ptr b3 o3) (Ptr b4 o4) 1 1 = false).
  { unfold alias_rejected. cbn [ptr_eqb].
    destruct (Z.eqb_spec b1 b3), (Z.eqb_spec b2 b4), (Z.eqb_spec b2 b3), (Z.eqb_spec b1 b4);
      try contradiction. reflexivity. }
  assert (Hd : disjoint_views b3 o3 1 b4 o4 1 (2 ^ p)) by (apply blocks_apart; exact N34).
  assert (Hfr : src_fits (Ptr b1 o1) 1 b3 o3 1 (2 ^ p) (next_block m)).
  { split; [exact H1|]. right. right. apply blocks_apart. exact N13. }
  assert (Hfi : src_fits (Ptr b2 o2) 1 b4 o4 1 (2 ^ p) (next_block m)).
  { split; [exact H2|]. right. right. apply blocks_apart. exact N24. }
  assert (Hap : src_apart (Ptr b2 o2) 1 b3 o3 1 (2 ^ p)) by (apply blocks_apart; exact N23).
  assert (Hsc : scale = 1%R \/ (1 = 1 /\ 1 = 1)) by (right; split; reflexivity).
  unfold dbc_fft_c, dbc_ifft_c.
  split; rewrite fft_is_pot by assumption.
  - destruct (fft_pot_spec hook hook_npot cfg false Ha Hseed p (Ptr b1 o1) (Ptr b2 o2) 1 1
                b3 o3 1 b4 o4 1 scale m Hp ltac:(lia) ltac:(lia) Hd H3 H4 Hfr Hfi Hap Hsc)
      as (m' & Hrun & Hv & _).
    exists m'. split; [exact Hrun|exact Hv].
  - destruct (fft_pot_spec hook hook_npot cfg true Ha Hseed p (Ptr b1 o1) (Ptr b2 o2) 1 1
                b3 o3 1 b4 o4 1 scale m Hp ltac:(lia) ltac:(lia) Hd H3 H4 Hfr Hfi Hap Hsc)
      as (m' & Hrun & Hv & _).
    exists m'. split; [exact Hrun|exact Hv].
Qed.

Lemma planar_transform_out_of_place_witness :
  (exists m',
     @dbc_fft_c R (Elem_R exact_seeds None) default_config (2 ^ 2) (Ptr 1 0) (Ptr 2 0)
       (Ptr 3 0) (Ptr 4 0) 3%R pot_mem = Ok 0 m' /\
     forall j, 0 <= j < 2 ^ 2 ->
       cplx m' 3 0 1 4 0 1 j
       = Cscale 3 (dft false (2 ^ 2) (fun k => cplx pot_mem 1 0 1 2 0 1 k) j)) /\
  (exists m',
     @dbc_ifft_c R (Elem_R exact_seeds None) default_config (2 ^ 2) (Ptr 1 0) (Ptr 2 0)
       (Ptr 3 0) (Ptr 4 0) 3%R pot_mem = Ok 0 m' /\
     forall j, 0 <= j < 2 ^ 2 ->
       cplx m' 3 0 1 4 0 1 j
       = Cscale 3 (dft true (2 ^ 2) (fun k => cplx pot_mem 1 0 1 2 0 1 k) j)).
Proof.
  apply (planar_transform_out_of_place exact_seeds None default_config 2 1 0 2 0 3 0 4 0
           3%R pot_mem);
    [ exact default_static_asserts | apply exact_seeds_ok
    | lia | vm_compute; reflexivity | vm_compute; reflexivity | vm_compute; reflexivity
    | vm_compute; reflexivity | lia | lia | lia | lia | lia ].
Defined.

(** X11.  The interleaved entry points with [scale = 1], in place
    ([src == dst]) or with the source in another block: [dbc_fft_i]
    returns 0 and leaves the forward transform of the [2^p] source pairs
    in the destination pairs, [dbc_ifft_i] the inverse transform, for
    exact seeds. *)
Theorem interleaved_transform_unscaled
    (hook : option (Z -> R * R)) (hook_npot : option (Z -> Z -> R * R))
    (cfg : Config) (p bs os b o : Z) (m : mem R) :
  static_asserts cfg ->
  (forall k, 0 <= k -> @dbcF_cexpm1 R (Elem_R hook hook_npot) k = expm1_exact k) ->
  0 <= p -> bs < next_block m -> b < next_block m ->
  bs <> b \/ (bs = b /\ os = o) ->
  (exists m',
     @dbc_fft_i R (Elem_R hook hook_npot) cfg (2 ^ p) (Ptr bs os) (Ptr b o) 1%R m = Ok 0 m' /\
     forall j, 0 <= j < 2 ^ p ->
       cplx m' b o 2 b (o + 1) 2 j
       = dft false (2 ^ p) (fun k => cplx m bs os 2 bs (os + 1) 2 k) j) /\
  (exists m',
     @dbc_ifft_i R (Elem_R hook hook_npot) cfg (2 ^ p) (Ptr bs os) (Ptr b o) 1%R m = Ok 0 m' /\
     forall j, 0 <= j < 2 ^ p ->
       cplx m' b o 2 b (o + 1) 2 j
       = dft true (2 ^ p) (fun k => cplx m bs os 2 bs (os + 1) 2 k) j).
Proof.
  intros Ha Hseed Hp Hbs Hb Hplace.
  assert (Hal : alias_rejected (Ptr bs os) (Ptr bs (os + 1)) 2 2 (Ptr b o) (Ptr b (o + 1)) 2 2
                = false).
  { unfold alias_rejected. cbn [ptr_eqb]. rewrite !Z.eqb_refl. cbn [negb].
    rewrite !andb_false_r. cbn [orb].
    destruct Hplace as [Hne|[-> ->]].
    - destruct (Z.eqb_spec bs b); [contradiction|]. reflexivity.
    - destruct (Z.eqb_spec (o + 1) o); [lia|]. destruct (Z.eqb_spec o (o + 1)); [lia|].
      rewrite !andb_false_r. reflexivity. }
  assert (Hd : disjoint_views b o 2 b (o + 1) 2 (2 ^ p)) by (intros i j _ _ _; lia).
  assert (Hfr : src_fits (Ptr bs os) 2 b o 2 (2 ^ p) (next_block m)).
  { split; [exact Hbs|]. right.
    destruct Hplace as [Hne|[-> ->]]; [right; apply blocks_apart; exact Hne|left; auto]. }
  assert (Hfi : src_fits (Ptr bs (os + 1)) 2 b (o + 1) 2 (2 ^ p) (next_block m)).
  { split; [exact Hbs|]. right.
    destruct Hplace as [Hne|[-> ->]]; [right; apply blocks_apart; exact Hne|left; auto]. }
  assert (Hap : src_apart (Ptr bs (os + 1)) 2 b o 2 (2 ^ p)).
  { destruct Hplace as [Hne|[-> ->]]; [apply blocks_apart; exact Hne|].
    intros i j _ _ _. lia. }
  assert (Hsc : 1%R = 1%R \/ (2 = 1 /\ 2 = 1)) by (left; reflexivity).
  unfold dbc_fft_i, dbc_ifft_i. cbn [is_null padd].
  split; rewrite fft_is_pot by assumption.
  - destruct (fft_pot_spec hook hook_npot cfg false Ha Hseed p (Ptr bs os) (Ptr bs (os + 1))
                2 2 b o 2 b (o + 1) 2 1%R m Hp ltac:(lia) ltac:(lia) Hd Hb Hb Hfr Hfi Hap Hsc)
      as (m' & Hrun & Hv & _).
    exists m'. split; [exact Hrun|]. intros j Hj. rewrite (Hv j Hj), Cscale_1. reflexivity.
  - destruct (fft_pot_spec hook hook_npot cfg true Ha Hseed p (Ptr bs os) (Ptr bs (os + 1))
                2 2 b o 2 b (o + 1) 2 1%R m Hp ltac:(lia) ltac:(lia) Hd Hb Hb Hfr Hfi Hap Hsc)
      as (m' & Hrun & Hv & _).
    exists m'. split; [exact Hrun|]. intros j Hj. rewrite (Hv j Hj), Cscale_1. reflexivity.
Qed.

Lemma interleaved_transform_unscaled_witness :
  (exists m',
     @dbc_fft_i R (Elem_R exact_seeds None) default_config (2 ^ 3) (Ptr 1 0) (Ptr 1 0) 1%R
       pair_mem = Ok 0 m' /\
     forall j, 0 <= j < 2 ^ 3 ->
       cplx m' 1 0 2 1 (0 + 1) 2 j
       = dft false (2 ^ 3) (fun k => cplx pair_mem 1 0 2 1 (0 + 1) 2 k) j) /\
  (exists m',
     @dbc_ifft_i R (Elem_R exact_seeds None) default_config (2 ^ 3) (Ptr 1 0) (Ptr 1 0) 1%R
       pair_mem = Ok 0 m' /\
     forall j, 0 <= j < 2 ^ 3 ->
       cplx m' 1 0 2 1 (0 + 1) 2 j
       = dft true (2 ^ 3) (fun k => cplx pair_mem 1 0 2 1 (0 + 1) 2 k) j).
Proof.
  apply (interleaved_transform_unscaled exact_seeds None default_config 3 1 0 1 0 pair_mem);
    [ exact default_static_asserts | apply exact_seeds_ok | lia
    | vm_compute; reflexivity | vm_compute; reflexivity | right; split; reflexivity ].
Defined.

Lemma dft_zero (inverse : bool) (n j : Z) :
  dft inverse n (fun _ => (0%R, 0%R)) j = (0%R, 0%R).
Proof.
  unfold dft. induction (Z.to_nat n) as [|k IH]; cbn [Csum]; [reflexivity|].
  rewrite IH. unfold Cadd, Cmul. cbn [fst snd]. f_equal; ring.
Qed.

(** X12.  Null sources on a power-of-two size through the contiguous
    planar entry point: a null [src_real] gives the transform of the
    purely imaginary input, a null [src_imag] the transform of the real
    input, and with both null every destination element is zero, whatever
    the scale (exact seeds; the destination blocks differ from each other
    and from the source block). *)
Theorem null_source_is_zeros_power_of_two
    (hook : option (Z -> R * R)) (hook_npot : option (Z -> Z -> R * R))
    (cfg : Config) (inverse : bool) (p bs os b3 o3 b4 o4 : Z) (scale : R) (m : mem R) :
  static_asserts cfg ->
  (forall k, 0 <= k -> @dbcF_cexpm1 R (Elem_R hook hook_npot) k = expm1_exact k) ->
  0 <= p ->
  bs < next_block m -> b3 < next_block m -> b4 < next_block m ->
  b3 <> b4 -> bs <> b3 -> bs <> b4 ->
  (exists m',
     @dbcF_fft R (Elem_R hook hook_npot) cfg (2 ^ p) Null (Ptr bs os) 1 1
       (Ptr b3 o3) (Ptr b4 o4) 1 1 inverse scale m = Ok 0 m' /\
     forall j, 0 <= j < 2 ^ p ->
       cplx m' b3 o3 1 b4 o4 1 j
       = Cscale scale (dft inverse (2 ^ p) (fun k => (0%R, cells m bs (os + k * 1))) j)) /\
  (exists m',
     @dbcF_fft R (Elem_R hook hook_npot) cfg (2 ^ p) (Ptr bs os) Null 1 1
       (Ptr b3 o3) (Ptr b4 o4) 1 1 inverse scale m = Ok 0 m' /\
     forall j, 0 <= j < 2 ^ p ->
       cplx m' b3 o3 1 b4 o4 1 j
       = Cscale scale (dft inverse (2 ^ p) (fun k => (cells m bs (os + k * 1), 0%R)) j)) /\
  (exists m',
     @dbcF_fft R (Elem_R hook hook_npot) cfg (2 ^ p) Null Null 1 1
       (Ptr b3 o3) (Ptr b4 o4) 1 1 inverse scale m = Ok 0 m' /\
     forall j, 0 <= j < 2 ^ p -> cplx m' b3 o3 1 b4 o4 1 j = (0%R, 0%R)).
Proof.
  intros Ha Hseed Hp Hbs H3 H4 N34 Ns3 Ns4.
  assert (Hd : disjoint_views b3 o3 1 b4 o4 1 (2 ^ p)) by (apply blocks_apart; exact N34).
  assert (Hsc : scale = 1%R \/ (1 = 1 /\ 1 = 1)) by (right; split; reflexivity).
  assert (Hf3 : src_fits (Ptr bs os) 1 b3 o3 1 (2 ^ p) (next_block m)).
  { split; [exact Hbs|]. right. right. apply blocks_apart. exact Ns3. }
  assert (Hf4 : src_fits (Ptr bs os) 1 b4 o4 1 (2 ^ p) (next_block m)).
  { split; [exact Hbs|]. right. right. apply blocks_apart. exact Ns4. }
  assert (Hap : src_apart (Ptr bs os) 1 b3 o3 1 (2 ^ p)) by (apply blocks_apart; exact Ns3).
  assert (Hal : forall s1 s2,
            (s1 = Null \/ s1 = Ptr bs os) -> (s2 = Null \/ s2 = Ptr bs os) ->
            alias_rejected s1 s2 1 1 (Ptr b3 o3) (Ptr b4 o4) 1 1 = false).
  { intros s1 s2 [->| ->] [->| ->]; unfold alias_rejected; cbn [ptr_eqb negb];
      rewrite ?Z.eqb_refl; cbn [negb]; rewrite ?andb_false_r; cbn [orb];
      destruct (Z.eqb_spec bs b3), (Z.eqb_spec bs b4); try contradiction; reflexivity. }
  split; [|split].
  - rewrite fft_is_pot by (try apply Hal; auto).
    destruct (fft_pot_spec hook hook_npot cfg inverse Ha Hseed p Null (Ptr bs os) 1 1
                b3 o3 1 b4 o4 1 scale m Hp ltac:(lia) ltac:(lia) Hd H3 H4 I Hf4 Hap Hsc)
      as (m' & Hrun & Hv & _).
    exists m'. split; [exact Hrun|exact Hv].
  - rewrite fft_is_pot by (try apply Hal; auto).
    destruct (fft_pot_spec hook hook_npot cfg inverse Ha Hseed p (Ptr bs os) Null 1 1
                b3 o3 1 b4 o4 1 scale m Hp ltac:(lia) ltac:(lia) Hd H3 H4 Hf3 I I Hsc)
      as (m' & Hrun & Hv & _).
    exists m'. split; [exact Hrun|exact Hv].
  - rewrite fft_is_pot by (try apply Hal; auto).
    destruct (fft_pot_spec hook hook_npot cfg inverse Ha Hseed p Null Null 1 1
                b3 o3 1 b4 o4 1 scale m Hp ltac:(lia) ltac:(lia) Hd H3 H4 I I I Hsc)
      as (m' & Hrun & Hv & _).
    exists m'. split; [exact Hrun|]. intros j Hj. rewrite (Hv j Hj). cbn [src_val].
    rewrite dft_zero. unfold Cscale. cbn [fst snd]. f_equal; ring.
Qed.

Lemma null_source_is_zeros_power_of_two_witness :
  (exists m',
     @dbcF_fft R (Elem_R exact_seeds None) default_config (2 ^ 2) Null (Ptr 1 0) 1 1
       (Ptr 3 0) (Ptr 4 0) 1 1 false 2%R pot_mem = Ok 0 m' /\
     forall j, 0 <= j < 2 ^ 2 ->
       cplx m' 3 0 1 4 0 1 j
       = Cscale 2 (dft false (2 ^ 2) (fun k => (0%R, cells pot_mem 1 (0 + k * 1))) j)) /\
  (exists m',
     @dbcF_fft R (Elem_R exact_seeds None) default_config (2 ^ 2) (Ptr 1 0) Null 1 1
       (Ptr 3 0) (Ptr 4 0) 1 1 false 2%R pot_mem = Ok 0 m' /\
     forall j, 0 <= j < 2 ^ 2 ->
       cplx m' 3 0 1 4 0 1 j
       = Cscale 2 (dft false (2 ^ 2) (fun k => (cells pot_mem 1 (0 + k * 1), 0%R)) j)) /\
  (exists m',
     @dbcF_fft R (Elem_R exact_seeds None) default_config (2 ^ 2) Null Null 1 1
       (Ptr 3 0) (Ptr 4 0) 1 1 false 2%R pot_mem = Ok 0 m' /\
     forall j, 0 <= j < 2 ^ 2 -> cplx m' 3 0 1 4 0 1 j = (0%R, 0%R)).
Proof.
  apply (null_source_is_zeros_power_of_two exact_seeds None default_config false
           2 1 0 3 0 4 0 2%R pot_mem);
    [ exact default_static_asserts | apply exact_seeds_ok | lia
    | vm_compute; reflexivity | vm_compute; reflexivity | vm_compute; reflexivity
    | lia | lia | lia ].
Defined.

(** * Interleaving and de-interleaving *)

Section Lace.

Context {T : Type} {E : Elem T} (cfg : Config).

Hypothesis Hasserts : static_asserts cfg.

Variables (bt ot b o : Z).

Hypothesis Hb : b <> bt.

(** The loop both helpers end with: [n] elements copied from the scratch
    buffer to the array. *)
Lemma copy_back (n : Z) (m : mem T) :
  0 <= n ->
  exists m',
    for_loop 0 n (fun i => x <- aref (Ptr bt ot) i ;; aset (Ptr b o) i x) m = Ok tt m' /\
    (forall i, 0 <= i < n -> cells m' b (o + i) = cells m bt (ot + i)) /\
    (forall b' o', (b' = b -> forall k, 0 <= k < n -> o' <> o + k) ->
       cells m' b' o' = cells m b' o').
Proof.
  intro Hn.
  destruct (for_loop_inv
    (fun j m1 =>
       (forall i, 0 <= i < j -> cells m1 b (o + i) = cells m bt (ot + i)) /\
       (forall b' o', (b' = b -> forall k, 0 <= k < j -> o' <> o + k) ->
          cells m1 b' o' = cells m b' o'))
    0 n (fun i => x <- aref (Ptr bt ot) i ;; aset (Ptr b o) i x) m Hn)
    as (m' & Hrun & HI).
  - split; [intros; lia|]. intros; reflexivity.
  - intros j m1 Hj (Hc & Hf). run_exists. split.
    + intros i Hi. destruct (Z.eq_dec i j) as [->|Hne].
      * rewrite cells_set_same. apply Hf. intro Hbb. congruence.
      * rewrite cells_set_other by (right; lia). apply Hc. lia.
    + intros b' o' Hout. rewrite cells_set_other.
      * apply Hf. intros Hbb k Hk. apply Hout; [exact Hbb|lia].
      * destruct (Z.eq_dec b' b) as [Hbb|Hbb]; [right|left; exact Hbb].
        apply Hout; [exact Hbb|lia].
  - exists m'. split; [exact Hrun|]. exact HI.
Qed.

Lemma deinterleave_gather (h : Z) (m : mem T) :
  0 <= h ->
  exists m',
    for_loop 0 h (fun i =>
      x <- aref (Ptr b o) (2 * i + 0) ;; aset (Ptr bt ot) i x ;;
      y <- aref (Ptr b o) (2 * i + 1) ;; aset (padd (Ptr bt ot) h) i y) m = Ok tt m' /\
    (forall i, 0 <= i < h ->
       cells m' bt (ot + i) = cells m b (o + 2 * i) /\
       cells m' bt (ot + h + i) = cells m b (o + (2 * i + 1))) /\
    (forall b' o', b' <> bt -> cells m' b' o' = cells m b' o').
Proof.
  intro Hh.
  destruct (for_loop_inv
    (fun j m1 =>
       (forall i, 0 <= i < j ->
          cells m1 bt (ot + i) = cells m b (o + 2 * i) /\
          cells m1 bt (ot + h + i) = cells m b (o + (2 * i + 1))) /\
       (forall b' o', b' <> bt -> cells m1 b' o' = cells m b' o'))
    0 h (fun i =>
      x <- aref (Ptr b o) (2 * i + 0) ;; aset (Ptr bt ot) i x ;;
      y <- aref (Ptr b o) (2 * i + 1) ;; aset (padd (Ptr bt ot) h) i y) m Hh)
    as (m' & Hrun & HI).
  - split; [intros; lia|]. intros; reflexivity.
  - intros j m1 Hj (Hc & Hf). cbn [padd]. run_exists. split.
    + intros i Hi. destruct (Z.eq_dec i j) as [->|Hne].
      * split.
        -- rewrite cells_set_other by (right; lia). rewrite cells_set_same.
           rewrite Z.add_0_r. apply Hf. exact Hb.
        -- rewrite cells_set_same. rewrite cells_set_other by (left; exact Hb).
           apply Hf. exact Hb.
      * rewrite !cells_set_other by (right; lia). apply Hc. lia.
    + intros b' o' Hbt. rewrite !cells_set_other by (left; exact Hbt).
      apply Hf. exact Hbt.
  - exists m'. split; [exact Hrun|]. exact HI.
Qed.

Lemma interleave_scatter (h : Z) (m : mem T) :
  0 <= h ->
  exists m',
    for_loop 0 h (fun i =>
      x <- aref (Ptr b o) i ;; aset (Ptr bt ot) (2 * i + 0) x ;;
      y <- aref (padd (Ptr b o) h) i ;; aset (Ptr bt ot) (2 * i + 1) y) m = Ok tt m' /\
    (forall i, 0 <= i < h ->
       cells m' bt (ot + 2 * i) = cells m b (o + i) /\
       cells m' bt (ot + (2 * i + 1)) = cells m b (o + h + i)) /\
    (forall b' o', b' <> bt -> cells m' b' o' = cells m b' o').
Proof.
  intro Hh.
  destruct (for_loop_inv
    (fun j m1 =>
       (forall i, 0 <= i < j ->
          cells m1 bt (ot + 2 * i) = cells m b (o + i) /\
          cells m1 bt (ot + (2 * i + 1)) = cells m b (o + h + i)) /\
       (forall b' o', b' <> bt -> cells m1 b' o' = cells m b' o'))
    0 h (fun i =>
      x <- aref (Ptr b o) i ;; aset (Ptr bt ot) (2 * i + 0) x ;;
      y <- aref (padd (Ptr b o) h) i ;; aset (Ptr bt ot) (2 * i + 1) y) m Hh)
    as (m' & Hrun & HI).
  - split; [intros; lia|]. intros; reflexivity.
  - intros j m1 Hj (Hc & Hf). cbn [padd]. run_exists. split.
    + intros i Hi. destruct (Z.eq_dec i j) as [->|Hne].
      * split.
        -- rewrite cells_set_other by (right; lia). rewrite Z.add_0_r, cells_set_same.
           apply Hf. exact Hb.
        -- rewrite cells_set_same. rewrite cells_set_other by (left; exact Hb).
           apply Hf. exact Hb.
      * rewrite !cells_set_other by (right; lia). apply Hc. lia.
    + intros b' o' Hbt. rewrite !cells_set_other by (left; exact Hbt).
      apply Hf. exact Hbt.
  - exists m'. split; [exact Hrun|]. exact HI.
Qed.

(** The two halves of an array reversed separately, with [rev] in place
    of the code's index reversal. *)
Lemma permute_rev (p oo : Z) (m : mem T) :
  0 <= p ->
  exists m',
    dbcF_bitreversal_permutation cfg p (Ptr b oo) 1 (Ptr b oo) 1 (Ptr bt ot) m = Ok tt m' /\
    (forall k, 0 <= k < 2 ^ p -> cells m' b (oo + rev p k) = cells m b (oo + k)) /\
    (forall b' o', b' <> bt -> (b' = b -> forall k, 0 <= k < 2 ^ p -> o' <> oo + k) ->
       cells m' b' o' = cells m b' o').
Proof.
  intro Hp.
  destruct (permutation_spec cfg Hasserts bt ot p b oo 1 b oo 1 m Hp ltac:(lia) Hb Hb)
    as (m' & Hrun & Hc & Hf); [right; left; repeat split|].
  exists m'. split; [exact Hrun|]. split.
  - intros k Hk. specialize (Hc k Hk). rewrite bitreverse_rev in Hc by assumption.
    rewrite !Z.mul_1_r in Hc. exact Hc.
  - intros b' o' Hbt Hout. apply Hf; [exact Hbt|].
    intros Hbb k Hk. rewrite Z.mul_1_r. apply Hout; assumption.
Qed.

Lemma deinterleave_spec (p : Z) (m : mem T) :
  0 <= p ->
  exists m',
    dbcF_deinterleave cfg (Ptr b o) p (Ptr bt ot) m = Ok tt m' /\
    (forall i, 0 <= i < 2 ^ p / 2 ->
       cells m' b (o + i) = cells m b (o + 2 * i) /\
       cells m' b (o + 2 ^ p / 2 + i) = cells m b (o + (2 * i + 1))) /\
    frame bt b o 1 (2 * (2 ^ p / 2)) m m'.
Proof.
  intro Hp. unfold dbcF_deinterleave. cbv zeta. rewrite POW2_eq.
  destruct (Z.leb_spec (2 ^ p) 2) as [Hle|Hgt].
  - exists m. split; [reflexivity|]. split; [|apply frame_refl].
    intros i Hi. pose proof (pow2_pos p Hp).
    assert (2 ^ p / 2 <= 1) by (apply Z.div_le_upper_bound; lia).
    assert (i = 0) as -> by lia.
    assert (2 ^ p / 2 = 1) as -> by lia.
    split; f_equal; lia.
  - assert (0 < p) as Hp1.
    { destruct (Z.eq_dec p 0) as [->|]; [cbn in Hgt; lia|lia]. }
    assert (Z.shiftr (2 ^ p) 1 = 2 ^ (p - 1)) as Hsh
      by (rewrite <- POW2_eq; apply shiftr_pow2_half; exact Hp1).
    rewrite !Hsh. cbn [padd].
    assert (2 ^ p / 2 = 2 ^ (p - 1)) as Hh.
    { rewrite (pow2_succ p Hp1), Z.mul_comm, Z.div_mul by lia. reflexivity. }
    rewrite Hh. pose proof (pow2_pos (p - 1) ltac:(lia)) as Hpos.
    pose proof (pow2_succ p Hp1) as Hn.
    destruct (Z.leb_spec (2 ^ p) (DBCF_TMP_BUF_SIZE cfg)) as [Hs|Hl].
    + destruct (deinterleave_gather (2 ^ (p - 1)) m ltac:(lia)) as (m1 & Hr1 & Hc1 & Hf1).
      destruct (copy_back (2 ^ p) m1 ltac:(lia)) as (m2 & Hr2 & Hc2 & Hf2).
      exists m2. split; [rewrite (bind_run _ _ _ _ _ Hr1); exact Hr2|]. split.
      * intros i Hi. destruct (Hc1 i Hi) as [H1 H2]. split.
        -- rewrite Hc2 by lia. exact H1.
        -- rewrite <- Z.add_assoc, Hc2 by lia. rewrite Z.add_assoc. exact H2.
      * intros b' o' Hbt Hout. rewrite Hf2, Hf1; [reflexivity|exact Hbt|].
        intros Hbb k Hk. specialize (Hout Hbb k). lia.
    + destruct (permute_rev p o m Hp) as (m1 & Hr1 & Hc1 & Hf1).
      destruct (permute_rev (p - 1) o m1 ltac:(lia)) as (m2 & Hr2 & Hc2 & Hf2).
      destruct (permute_rev (p - 1) (o + 2 ^ (p - 1)) m2 ltac:(lia))
        as (m3 & Hr3 & Hc3 & Hf3).
      exists m3. split.
      { rewrite (bind_run _ _ _ _ _ Hr1), (bind_run _ _ _ _ _ Hr2). exact Hr3. }
      split.
      * intros i Hi.
        pose proof (rev_range (p - 1) i ltac:(lia)) as Hri. split.
        -- rewrite Hf3; [|exact Hb|intros _ k Hk; lia].
           rewrite <- (rev_invol (p - 1) i) at 1 by lia.
           rewrite Hc2 by exact Hri.
           rewrite <- (rev_even p i) by lia.
           apply Hc1. lia.
        -- rewrite <- (rev_invol (p - 1) i) at 1 by lia.
           rewrite Hc3 by exact Hri.
           rewrite Hf2; [|exact Hb|intros _ k Hk; lia].
           replace (o + 2 ^ (p - 1) + rev (p - 1) i) with (o + rev p (2 * i + 1))
             by (rewrite rev_odd by lia; ring).
           apply Hc1. lia.
      * intros b' o' Hbt Hout. rewrite Hf3, Hf2, Hf1; try reflexivity; try exact Hbt.
        -- intros Hbb k Hk. specialize (Hout Hbb k). lia.
        -- intros Hbb k Hk. specialize (Hout Hbb k). lia.
        -- intros Hbb k Hk. specialize (Hout Hbb (2 ^ (p - 1) + k)). lia.
Qed.

Lemma interleave_spec (p : Z) (m : mem T) :
  0 <= p ->
  exists m',
    dbcF_interleave cfg (Ptr b o) p (Ptr bt ot) m = Ok tt m' /\
    (forall i, 0 <= i < 2 ^ p / 2 ->
       cells m' b (o + 2 * i) = cells m b (o + i) /\
       cells m' b (o + (2 * i + 1)) = cells m b (o + 2 ^ p / 2 + i)) /\
    frame bt b o 1 (2 * (2 ^ p / 2)) m m'.
Proof.
  intro Hp. unfold dbcF_interleave. cbv zeta. rewrite POW2_eq.
  destruct (Z.leb_spec (2 ^ p) 2) as [Hle|Hgt].
  - exists m. split; [reflexivity|]. split; [|apply frame_refl].
    intros i Hi. pose proof (pow2_pos p Hp).
    assert (2 ^ p / 2 <= 1) by (apply Z.div_le_upper_bound; lia).
    assert (i = 0) as -> by lia.
    assert (2 ^ p / 2 = 1) as -> by lia.
    split; f_equal; lia.
  - assert (0 < p) as Hp1.
    { destruct (Z.eq_dec p 0) as [->|]; [cbn in Hgt; lia|lia]. }
    assert (Z.shiftr (2 ^ p) 1 = 2 ^ (p - 1)) as Hsh
      by (rewrite <- POW2_eq; apply shiftr_pow2_half; exact Hp1).
    rewrite !Hsh. cbn [padd].
    assert (2 ^ p / 2 = 2 ^ (p - 1)) as Hh.
    { rewrite (pow2_succ p Hp1), Z.mul_comm, Z.div_mul by lia. reflexivity. }
    rewrite Hh. pose proof (pow2_pos (p - 1) ltac:(lia)) as Hpos.
    pose proof (pow2_succ p Hp1) as Hn.
    destruct (Z.leb_spec (2 ^ p) (DBCF_TMP_BUF_SIZE cfg)) as [Hs|Hl].
    + destruct (interleave_scatter (2 ^ (p - 1)) m ltac:(lia)) as (m1 & Hr1 & Hc1 & Hf1).
      destruct (copy_back (2 ^ p) m1 ltac:(lia)) as (m2 & Hr2 & Hc2 & Hf2).
      exists m2. split; [rewrite (bind_run _ _ _ _ _ Hr1); exact Hr2|]. split.
      * intros i Hi. destruct (Hc1 i Hi) as [H1 H2]. split.
        -- rewrite Hc2 by lia. exact H1.
        -- rewrite Hc2 by lia. exact H2.
      * intros b' o' Hbt Hout. rewrite Hf2, Hf1; [reflexivity|exact Hbt|].
        intros Hbb k Hk. specialize (Hout Hbb k). lia.
    + destruct (permute_rev (p - 1) o m ltac:(lia)) as (m1 & Hr1 & Hc1 & Hf1).
      destruct (permute_rev (p - 1) (o + 2 ^ (p - 1)) m1 ltac:(lia))
        as (m2 & Hr2 & Hc2 & Hf2).
      destruct (permute_rev p o m2 Hp) as (m3 & Hr3 & Hc3 & Hf3).
      exists m3. split.
      { rewrite (bind_run _ _ _ _ _ Hr1), (bind_run _ _ _ _ _ Hr2). exact Hr3. }
      split.
      * intros i Hi.
        pose proof (rev_range (p - 1) i ltac:(lia)) as Hri. split.
        -- rewrite <- (rev_invol p (2 * i)) by lia.
           rewrite Hc3 by (apply rev_range; lia).
           rewrite rev_even by lia.
           rewrite Hf2; [|exact Hb|intros _ k Hk; lia].
           apply Hc1. lia.
        -- rewrite <- (rev_invol p (2 * i + 1)) by lia.
           rewrite Hc3 by (apply rev_range; lia).
           rewrite rev_odd by lia. rewrite Z.add_assoc.
           rewrite Hc2 by lia. apply Hf1; [exact Hb|intros _ k Hk; lia].
      * intros b' o' Hbt Hout. rewrite Hf3, Hf2, Hf1; try reflexivity; try exact Hbt.
        -- intros Hbb k Hk. specialize (Hout Hbb k). lia.
        -- intros Hbb k Hk. specialize (Hout Hbb (2 ^ (p - 1) + k)). lia.
        -- intros Hbb k Hk. specialize (Hout Hbb k). lia.
Qed.

End Lace.

(** * The interleaving helpers *)

(** X13.  [dbcF_deinterleave] on [2 ^ log2n] elements, read as
    [2 ^ log2n / 2] pairs, returns and puts the first members of the
    pairs, in order, into the lower half of the array and the second
    members into the upper half, whatever the size of the scratch
    buffer.  Nothing outside the pairs and the scratch block changes (a
    single element, [log2n = 0], is no pair and stays). *)
Theorem deinterleave_separates_pairs {T : Type} (cfg : Config)
    (log2n b o bt ot : Z) (m : mem T) :
  static_asserts cfg -> 0 <= log2n -> b <> bt ->
  exists m',
    dbcF_deinterleave cfg (Ptr b o) log2n (Ptr bt ot) m = Ok tt m' /\
    (forall i, 0 <= i < 2 ^ log2n / 2 ->
       cells m' b (o + i) = cells m b (o + 2 * i) /\
       cells m' b (o + 2 ^ log2n / 2 + i) = cells m b (o + (2 * i + 1))) /\
    (forall b' o', b' <> bt ->
       (b' = b -> forall k, 0 <= k < 2 * (2 ^ log2n / 2) -> o' <> o + k * 1) ->
       cells m' b' o' = cells m b' o').
Proof.
  intros Ha Hp Hb. exact (deinterleave_spec cfg Ha bt ot b o Hb log2n m Hp).
Qed.

Lemma deinterleave_separates_pairs_witness :
  exists m',
    @dbcF_deinterleave Q default_config (Ptr 1 0) 3 (Ptr 2 0) lace_mem = Ok tt m' /\
    (forall i, 0 <= i < 2 ^ 3 / 2 ->
       cells m' 1 (0 + i) = cells lace_mem 1 (0 + 2 * i) /\
       cells m' 1 (0 + 2 ^ 3 / 2 + i) = cells lace_mem 1 (0 + (2 * i + 1))) /\
    (forall b' o', b' <> 2 ->
       (b' = 1 -> forall k, 0 <= k < 2 * (2 ^ 3 / 2) -> o' <> 0 + k * 1) ->
       cells m' b' o' = cells lace_mem b' o').
Proof.
  apply (deinterleave_separates_pairs default_config 3 1 0 2 0 lace_mem);
    [exact default_static_asserts|lia|lia].
Defined.

(** X14.  [dbcF_interleave] is the opposite move: it returns, and
    element [i] of the lower half lands at index [2 * i], element [i] of
    the upper half at index [2 * i + 1].  Nothing outside the two halves
    and the scratch block changes. *)
Theorem interleave_merges_halves {T : Type} (cfg : Config)
    (log2n b o bt ot : Z) (m : mem T) :
  static_asserts cfg -> 0 <= log2n -> b <> bt ->
  exists m',
    dbcF_interleave cfg (Ptr b o) log2n (Ptr bt ot) m = Ok tt m' /\
    (forall i, 0 <= i < 2 ^ log2n / 2 ->
       cells m' b (o + 2 * i) = cells m b (o + i) /\
       cells m' b (o + (2 * i + 1)) = cells m b (o + 2 ^ log2n / 2 + i)) /\
    (forall b' o', b' <> bt ->
       (b' = b -> forall k, 0 <= k < 2 * (2 ^ log2n / 2) -> o' <> o + k * 1) ->
       cells m' b' o' = cells m b' o').
Proof.
  intros Ha Hp Hb. exact (interleave_spec cfg Ha bt ot b o Hb log2n m Hp).
Qed.

Lemma interleave_merges_halves_witness :
  exists m',
    @dbcF_interleave Q default_config (Ptr 1 0) 3 (Ptr 2 0) lace_mem = Ok tt m' /\
    (forall i, 0 <= i < 2 ^ 3 / 2 ->
       cells m' 1 (0 + 2 * i) = cells lace_mem 1 (0 + i) /\
       cells m' 1 (0 + (2 * i + 1)) = cells lace_mem 1 (0 + 2 ^ 3 / 2 + i)) /\
    (forall b' o', b' <> 2 ->
       (b' = 1 -> forall k, 0 <= k < 2 * (2 ^ 3 / 2) -> o' <> 0 + k * 1) ->
       cells m' b' o' = cells lace_mem b' o').
Proof.
  apply (interleave_merges_halves default_config 3 1 0 2 0 lace_mem);
    [exact default_static_asserts|lia|lia].
Defined.

(** X15.  The two helpers undo each other: [dbcF_interleave] after
    [dbcF_deinterleave], and [dbcF_deinterleave] after [dbcF_interleave],
    both return and leave every cell outside the scratch block as it
    was. *)
Theorem interleave_deinterleave_round_trip {T : Type} (cfg : Config)
    (log2n b o bt ot : Z) (m : mem T) :
  static_asserts cfg -> 0 <= log2n -> b <> bt ->
  (exists m1 m2,
     dbcF_deinterleave cfg (Ptr b o) log2n (Ptr bt ot) m = Ok tt m1 /\
     dbcF_interleave cfg (Ptr b o) log2n (Ptr bt ot) m1 = Ok tt m2 /\
     forall b' o', b' <> bt -> cells m2 b' o' = cells m b' o') /\
  (exists m1 m2,
     dbcF_interleave cfg (Ptr b o) log2n (Ptr bt ot) m = Ok tt m1 /\
     dbcF_deinterleave cfg (Ptr b o) log2n (Ptr bt ot) m1 = Ok tt m2 /\
     forall b' o', b' <> bt -> cells m2 b' o' = cells m b' o').
Proof.
  intros Ha Hp Hb.
  assert (Hcase : forall b' o' : Z,
            (b' = b /\ exists i, 0 <= i < 2 ^ log2n / 2 /\
                                 (o' = o + 2 * i \/ o' = o + (2 * i + 1))) \/
            (b' = b -> forall k, 0 <= k < 2 * (2 ^ log2n / 2) -> o' <> o + k * 1)).
  { intros b' o'. destruct (Z.eq_dec b' b) as [->|Hne]; [|right; intro; contradiction].
    destruct (Z_lt_le_dec (o' - o) 0) as [Hlo|Hlo]; [right; intros _ k Hk; lia|].
    destruct (Z_lt_le_dec (o' - o) (2 * (2 ^ log2n / 2))) as [Hhi|Hhi];
      [|right; intros _ k Hk; lia].
    left. split; [reflexivity|].
    destruct (even_or_odd (o' - o) (2 ^ log2n / 2) ltac:(lia)) as (i & Hi & Hk).
    exists i. split; [exact Hi|lia]. }
  split.
  - destruct (deinterleave_spec cfg Ha bt ot b o Hb log2n m Hp) as (m1 & Hr1 & Hc1 & Hf1).
    destruct (interleave_spec cfg Ha bt ot b o Hb log2n m1 Hp) as (m2 & Hr2 & Hc2 & Hf2).
    exists m1, m2. split; [exact Hr1|]. split; [exact Hr2|].
    intros b' o' Hbt. destruct (Hcase b' o') as [(-> & i & Hi & [->| ->])|Hout].
    + rewrite (proj1 (Hc2 i Hi)). apply (proj1 (Hc1 i Hi)).
    + rewrite (proj2 (Hc2 i Hi)). apply (proj2 (Hc1 i Hi)).
    + rewrite (Hf2 b' o' Hbt Hout). apply (Hf1 b' o' Hbt Hout).
  - destruct (interleave_spec cfg Ha bt ot b o Hb log2n m Hp) as (m1 & Hr1 & Hc1 & Hf1).
    destruct (deinterleave_spec cfg Ha bt ot b o Hb log2n m1 Hp) as (m2 & Hr2 & Hc2 & Hf2).
    exists m1, m2. split; [exact Hr1|]. split; [exact Hr2|].
    intros b' o' Hbt.
    assert (Hhalf : (b' = b /\ exists i, 0 <= i < 2 ^ log2n / 2 /\
                       (o' = o + i \/ o' = o + 2 ^ log2n / 2 + i)) \/
                    (b' = b -> forall k, 0 <= k < 2 * (2 ^ log2n / 2) -> o' <> o + k * 1)).
    { destruct (Z.eq_dec b' b) as [->|Hne]; [|right; intro; contradiction].
      destruct (Z_lt_le_dec (o' - o) 0) as [Hlo|Hlo]; [right; intros _ k Hk; lia|].
      destruct (Z_lt_le_dec (o' - o) (2 * (2 ^ log2n / 2))) as [Hhi|Hhi];
        [|right; intros _ k Hk; lia].
      left. split; [reflexivity|].
      destruct (Z_lt_le_dec (o' - o) (2 ^ log2n / 2)) as [Hmid|Hmid].
      - exists (o' - o). split; [lia|left; lia].
      - exists (o' - o - 2 ^ log2n / 2). split; [lia|right; lia]. }
    destruct Hhalf as [(-> & i & Hi & [->| ->])|Hout].
    + rewrite (proj1 (Hc2 i Hi)). apply (proj1 (Hc1 i Hi)).
    + rewrite (proj2 (Hc2 i Hi)). apply (proj2 (Hc1 i Hi)).
    + rewrite (Hf2 b' o' Hbt Hout). apply (Hf1 b' o' Hbt Hout).
Qed.

Lemma interleave_deinterleave_round_trip_witness :
  (exists m1 m2,
     @dbcF_deinterleave Q default_config (Ptr 1 0) 3 (Ptr 2 0) lace_mem = Ok tt m1 /\
     dbcF_interleave default_config (Ptr 1 0) 3 (Ptr 2 0) m1 = Ok tt m2 /\
     forall b' o', b' <> 2 -> cells m2 b' o' = cells lace_mem b' o') /\
  (exists m1 m2,
     @dbcF_interleave Q default_config (Ptr 1 0) 3 (Ptr 2 0) lace_mem = Ok tt m1 /\
     dbcF_deinterleave default_config (Ptr 1 0) 3 (Ptr 2 0) m1 = Ok tt m2 /\
     forall b' o', b' <> 2 -> cells m2 b' o' = cells lace_mem b' o').
Proof.
  apply (interleave_deinterleave_round_trip default_config 3 1 0 2 0 lace_mem);
    [exact default_static_asserts|lia|lia].
Defined.

(** * Roots of unity, circular convolution and the chirp identity *)

Lemma root_0 (inverse : bool) (n : Z) : root inverse n 0 = (1%R, 0%R).
Proof.
  unfold root. replace (2 * PI * 0 / IZR n)%R with 0%R by (unfold Rdiv; ring).
  apply cis_0.
Qed.

Lemma root_add (inverse : bool) (n x y : Z) :
  n <> 0 -> Cmul (root inverse n x) (root inverse n y) = root inverse n (x + y).
Proof.
  intro Hn. unfold root. rewrite <- cis_add. f_equal. rewrite plus_IZR. field.
  apply not_0_IZR. exact Hn.
Qed.

Lemma root_turn_nat (inverse : bool) (n x : Z) (k : nat) :
  n <> 0 -> root inverse n (x + n * Z.of_nat k) = root inverse n x.
Proof.
  intro Hn. unfold root. rewrite <- (cis_period inverse (2 * PI * IZR x / IZR n) k).
  f_equal. rewrite plus_IZR, mult_IZR, INR_IZR_INZ. field. apply not_0_IZR. exact Hn.
Qed.

Lemma root_turn (inverse : bool) (n x k : Z) :
  n <> 0 -> root inverse n (x + n * k) = root inverse n x.
Proof.
  intro Hn. destruct (Z_le_gt_dec 0 k) as [Hk|Hk].
  - rewrite <- (Z2Nat.id k Hk). apply root_turn_nat. exact Hn.
  - rewrite <- (root_turn_nat inverse n (x + n * k) (Z.to_nat (- k)) Hn).
    f_equal. rewrite Z2Nat.id by lia. ring.
Qed.

Lemma root_mod (inverse : bool) (n x : Z) :
  n <> 0 -> root inverse n (x mod n) = root inverse n x.
Proof.
  intro Hn. rewrite <- (root_turn inverse n x (- (x / n)) Hn). f_equal.
  pose proof (Z.div_mod x n Hn). lia.
Qed.

Lemma root_neg (inverse : bool) (n x : Z) :
  root inverse n (- x) = (fst (root inverse n x), (- snd (root inverse n x))%R).
Proof.
  unfold root, cis, signed. cbn [fst snd]. rewrite opp_IZR.
  replace (2 * PI * - IZR x / IZR n)%R with (- (2 * PI * IZR x / IZR n))%R
    by (unfold Rdiv; ring).
  rewrite cos_neg, sin_neg. destruct inverse; f_equal; ring.
Qed.

Lemma root_flip (n x : Z) : root true n x = root false n (- x).
Proof.
  rewrite root_neg. unfold root, cis, signed. cbn [fst snd]. f_equal. ring.
Qed.

Lemma root_double (inverse : bool) (n x : Z) :
  n <> 0 -> root inverse (2 * n) (2 * x) = root inverse n x.
Proof.
  intro Hn. unfold root. f_equal. rewrite !mult_IZR. field. apply not_0_IZR. exact Hn.
Qed.

Lemma root_neq_1 (inverse : bool) (n r : Z) :
  0 < r < n -> root inverse n r <> (1%R, 0%R).
Proof.
  intros Hr H. unfold root, cis in H. injection H as Hc _.
  assert (0 < IZR r)%R by (apply IZR_lt; lia).
  assert (IZR r < IZR n)%R by (apply IZR_lt; lia).
  set (y := (PI * IZR r / IZR n)%R).
  replace (2 * PI * IZR r / IZR n)%R with (2 * y)%R in Hc
    by (unfold y; field; lra).
  rewrite cos_2a_sin in Hc.
  pose proof PI_RGT_0 as Hpi.
  assert (0 < y)%R.
  { unfold y. apply Rdiv_lt_0_compat; [apply Rmult_lt_0_compat|]; lra. }
  assert (y < PI)%R.
  { unfold y. apply (Rmult_lt_reg_r (IZR n)); [lra|].
    unfold Rdiv. rewrite Rmult_assoc, Rinv_l by lra.
    rewrite Rmult_1_r. apply Rmult_lt_compat_l; lra. }
  pose proof (sin_gt_0 y ltac:(assumption) ltac:(assumption)) as Hs.
  assert (0 < sin y * sin y)%R by (apply Rmult_lt_0_compat; assumption).
  lra.
Qed.

Lemma Csum_zero (n : nat) (f : nat -> R * R) :
  (forall k, (k < n)%nat -> f k = (0%R, 0%R)) -> Csum n f = (0%R, 0%R).
Proof.
  induction n as [|n IH]; intro H; [reflexivity|].
  cbn [Csum]. rewrite IH by (intros; apply H; lia). rewrite H by lia.
  apply Cadd_0_l.
Qed.

Lemma Csum_trunc (n N : nat) (f : nat -> R * R) :
  (n <= N)%nat -> (forall k, (n <= k < N)%nat -> f k = (0%R, 0%R)) ->
  Csum N f = Csum n f.
Proof.
  intros Hle H. induction N as [|N IH].
  - replace n with 0%nat by lia. reflexivity.
  - destruct (Nat.eq_dec n (S N)) as [->|Hne]; [reflexivity|].
    cbn [Csum]. rewrite IH by (try lia; intros; apply H; lia).
    rewrite H by lia. unfold Cadd. cbn [fst snd]. destruct (Csum n f).
    cbn [fst snd]. f_equal; ring.
Qed.

Lemma Csum_single (n : nat) (f : nat -> R * R) (k0 : nat) :
  (k0 < n)%nat -> (forall k, (k < n)%nat -> k <> k0 -> f k = (0%R, 0%R)) ->
  Csum n f = f k0.
Proof.
  intros Hk H. induction n as [|n IH]; [lia|].
  cbn [Csum]. destruct (Nat.eq_dec k0 n) as [->|Hne].
  - rewrite Csum_zero by (intros; apply H; lia). apply Cadd_0_l.
  - rewrite IH by (try lia; intros; apply H; lia). rewrite (H n) by lia.
    unfold Cadd. cbn [fst snd]. destruct (f k0). cbn [fst snd]. f_equal; ring.
Qed.

Lemma Csum_swap (n m : nat) (f : nat -> nat -> R * R) :
  Csum n (fun i => Csum m (fun j => f i j)) = Csum m (fun j => Csum n (fun i => f i j)).
Proof.
  induction n as [|n IH]; cbn [Csum].
  - symmetry. apply Csum_zero. reflexivity.
  - rewrite IH. symmetry. apply Csum_add.
Qed.

Lemma Csum_mul_r (n : nat) (c : R * R) (f : nat -> R * R) :
  Csum n (fun k => Cmul (f k) c) = Cmul (Csum n f) c.
Proof.
  rewrite Cmul_comm, <- Csum_mul_l. apply Csum_ext. intros. apply Cmul_comm.
Qed.

Lemma Csum_shift (n : nat) (f : nat -> R * R) :
  Cadd (Csum n (fun j => f (S j))) (f 0%nat) = Cadd (Csum n f) (f n).
Proof.
  induction n as [|n IH]; cbn [Csum].
  - reflexivity.
  - rewrite <- IH. unfold Cadd. cbn [fst snd]. f_equal; ring.
Qed.

Lemma Csum_const_one (n : nat) : Csum n (fun _ => (1%R, 0%R)) = (INR n, 0%R).
Proof.
  induction n as [|n IH]; [reflexivity|].
  cbn [Csum]. rewrite IH, S_INR. unfold Cadd. cbn [fst snd]. f_equal; ring.
Qed.

Lemma Cmul_fixed (z s : R * R) : Cmul z s = s -> z <> (1%R, 0%R) -> s = (0%R, 0%R).
Proof.
  destruct z as [u v], s as [p q]. unfold Cmul. cbn [fst snd]. intros H Hz.
  injection H as H1 H2.
  assert (Hn : ((u - 1) * (u - 1) + v * v <> 0)%R).
  { intro H0. apply Hz.
    assert (0 <= (u - 1) * (u - 1))%R by (apply Rle_0_sqr).
    assert (0 <= v * v)%R by (apply Rle_0_sqr).
    assert ((u - 1) * (u - 1) = 0)%R by lra.
    assert (v * v = 0)%R by lra.
    assert (u - 1 = 0)%R by (apply Rsqr_0_uniq; assumption).
    assert (v = 0)%R by (apply Rsqr_0_uniq; assumption).
    f_equal; lra. }
  assert (Hp : (((u - 1) * (u - 1) + v * v) * p = 0)%R).
  { replace (((u - 1) * (u - 1) + v * v) * p)%R
      with ((u - 1) * (u * p - v * q - p) + v * (v * p + u * q - q))%R by ring.
    rewrite H1, H2. ring. }
  assert (Hq : (((u - 1) * (u - 1) + v * v) * q = 0)%R).
  { replace (((u - 1) * (u - 1) + v * v) * q)%R
      with ((u - 1) * (v * p + u * q - q) - v * (u * p - v * q - p))%R by ring.
    rewrite H1, H2. ring. }
  apply Rmult_integral in Hp, Hq.
  f_equal; [destruct Hp|destruct Hq]; try assumption; contradiction.
Qed.

(** The powers of a root of unity add up to zero, unless the root is 1. *)
Lemma root_sum (inverse : bool) (n s : Z) :
  0 < n ->
  Csum (Z.to_nat n) (fun j => root inverse n (Z.of_nat j * s))
  = if s mod n =? 0 then (IZR n, 0%R) else (0%R, 0%R).
Proof.
  intro Hn. destruct (Z.eqb_spec (s mod n) 0) as [H0|Hne].
  - rewrite (Csum_ext _ _ (fun _ => (1%R, 0%R))).
    + rewrite Csum_const_one, INR_IZR_INZ, Z2Nat.id by lia. reflexivity.
    + intros k _. rewrite <- root_mod by lia.
      rewrite Z.mul_mod, H0, Z.mul_0_r, Z.mod_0_l by lia. apply root_0.
  - apply (Cmul_fixed (root inverse n s)).
    + rewrite <- Csum_mul_l.
      pose proof (Csum_shift (Z.to_nat n) (fun j => root inverse n (Z.of_nat j * s))) as Hs.
      cbv beta in Hs. rewrite Z2Nat.id in Hs by lia.
      change (Z.of_nat 0 * s) with 0 in Hs. rewrite root_0 in Hs.
      replace (n * s) with (0 + n * s) in Hs by ring.
      rewrite root_turn, root_0 in Hs by lia.
      rewrite (Csum_ext _ _ (fun j => root inverse n (Z.of_nat (S j) * s))).
      * destruct (Csum _ (fun j => root inverse n (Z.of_nat (S j) * s))) as [p q].
        destruct (Csum _ (fun j => root inverse n (Z.of_nat j * s))) as [p' q'].
        unfold Cadd in Hs. cbn [fst snd] in Hs. injection Hs as H1 H2.
        f_equal; lra.
      * intros k _. rewrite root_add by lia. f_equal. rewrite Nat2Z.inj_succ. ring.
    + rewrite <- root_mod by lia. apply root_neq_1.
      pose proof (Z.mod_pos_bound s n Hn). lia.
Qed.

(** The inverse transform of the product of two forward transforms is
    [m] times the circular convolution. *)
Lemma dft_convolution (m : Z) (a b : Z -> R * R) (t : Z) :
  0 < m -> 0 <= t < m ->
  dft true m (fun j => Cmul (dft false m b j) (dft false m a j)) t
  = Cmul (IZR m, 0%R) (cconv m a b t).
Proof.
  intros Hm Ht. unfold dft, cconv.
  rewrite (Csum_ext _ _ (fun j =>
    Csum (Z.to_nat m) (fun k => Csum (Z.to_nat m) (fun l =>
      Cmul (Cmul (a (Z.of_nat k)) (b (Z.of_nat l)))
           (root false m (Z.of_nat j * (Z.of_nat k + Z.of_nat l - t))))))).
  2:{ intros j _. rewrite root_flip.
      rewrite (Cmul_comm (Csum (Z.to_nat m) _) (Csum (Z.to_nat m) _)), Cmul_assoc.
      rewrite <- Csum_mul_r. apply Csum_ext. intros k _.
      rewrite <- Csum_mul_r, <- Csum_mul_l. apply Csum_ext. intros l _.
      replace (Z.of_nat j * (Z.of_nat k + Z.of_nat l - t))
        with (Z.of_nat j * Z.of_nat k + (Z.of_nat j * Z.of_nat l + - (t * Z.of_nat j)))
        by ring.
      rewrite <- !root_add by lia.
      generalize (root false m (Z.of_nat j * Z.of_nat k)),
                 (root false m (Z.of_nat j * Z.of_nat l)),
                 (root false m (- (t * Z.of_nat j))),
                 (a (Z.of_nat k)), (b (Z.of_nat l)).
      intros. unfold Cmul. cbn [fst snd]. f_equal; ring. }
  rewrite Csum_swap.
  rewrite <- Csum_mul_l. apply Csum_ext. intros k Hk.
  rewrite Csum_swap.
  assert (Hl0 : 0 <= (t - Z.of_nat k) mod m < m) by (apply Z.mod_pos_bound; lia).
  rewrite (Csum_single (Z.to_nat m) _ (Z.to_nat ((t - Z.of_nat k) mod m))).
  - rewrite Csum_mul_l, root_sum by lia. rewrite Z2Nat.id by lia.
    replace ((Z.of_nat k + (t - Z.of_nat k) mod m - t) mod m) with 0.
    + cbn [Z.eqb]. generalize (a (Z.of_nat k)), (b ((t - Z.of_nat k) mod m)).
      intros. unfold Cmul. cbn [fst snd]. f_equal; ring.
    + symmetry. rewrite Zplus_mod_idemp_r || idtac.
      replace (Z.of_nat k + (t - Z.of_nat k) mod m - t)
        with ((t - Z.of_nat k) mod m + - (t - Z.of_nat k)) by ring.
      rewrite Zplus_mod_idemp_l. replace (t - Z.of_nat k + - (t - Z.of_nat k)) with 0 by ring.
      apply Z.mod_0_l. lia.
  - lia.
  - intros l Hl Hne. rewrite Csum_mul_l, root_sum by lia.
    destruct (Z.eqb_spec ((Z.of_nat k + Z.of_nat l - t) mod m) 0) as [H0|_];
      [|apply Cmul_0_r].
    exfalso. apply Hne.
    assert (Z.of_nat l = (t - Z.of_nat k) mod m); [|lia].
    rewrite <- (Z.mod_small (Z.of_nat l) m) by lia.
    apply Z.mod_divide in H0; [|lia]. destruct H0 as [c Hc].
    replace (t - Z.of_nat k) with (Z.of_nat l + (- c) * m) by lia.
    rewrite Z.mod_add by lia. reflexivity.
Qed.

(** The chirp identity behind the route: with [w t = exp(-+pi*i*t/n)],
    [w(k^2) * (x * w(i^2)) * conj (w((k-i)^2)) = x * exp(-+2*pi*i*k*i/n)]. *)
Lemma chirp_identity (inverse : bool) (n k i : Z) (x : R * R) :
  n <> 0 ->
  Cmul (root inverse (2 * n) (k * k))
       (Cmul (Cmul x (root inverse (2 * n) (i * i)))
             (root inverse (2 * n) (- ((k - i) * (k - i)))))
  = Cmul x (root inverse n (k * i)).
Proof.
  intro Hn. rewrite <- (root_double inverse n (k * i) Hn).
  replace (2 * (k * i)) with (k * k + (i * i + - ((k - i) * (k - i)))) by ring.
  rewrite <- !root_add by lia.
  generalize (root inverse (2 * n) (k * k)), (root inverse (2 * n) (i * i)),
             (root inverse (2 * n) (- ((k - i) * (k - i)))).
  intros. unfold Cmul. cbn [fst snd]. f_equal; ring.
Qed.

(** The convolution of the chirped input with the conjugate chirp,
    chirped once more, is the transform. *)
Lemma bluestein (inverse : bool) (n m : Z) (x a b : Z -> R * R) (k : Z) :
  0 < n -> 2 * n - 1 <= m -> 0 <= k < n ->
  (forall i, 0 <= i < n -> a i = Cmul (x i) (root inverse (2 * n) (i * i))) ->
  (forall i, n <= i < m -> a i = (0%R, 0%R)) ->
  (forall i, 0 <= i < n -> b i = root inverse (2 * n) (- (i * i))) ->
  (forall i, 0 < i < n -> b (m - i) = root inverse (2 * n) (- (i * i))) ->
  Cmul (root inverse (2 * n) (k * k)) (cconv m a b k) = dft inverse n x k.
Proof.
  intros Hn Hm Hk Ha Ha0 Hb Hb'. unfold cconv, dft.
  rewrite (Csum_trunc (Z.to_nat n) (Z.to_nat m)).
  - rewrite <- Csum_mul_l. apply Csum_ext. intros i Hi.
    rewrite Ha by lia.
    assert (Hbv : b ((k - Z.of_nat i) mod m)
                  = root inverse (2 * n) (- ((k - Z.of_nat i) * (k - Z.of_nat i)))).
    { destruct (Z_le_gt_dec (Z.of_nat i) k) as [Hle|Hgt].
      - rewrite Z.mod_small by lia. apply Hb. lia.
      - replace ((k - Z.of_nat i) mod m) with (m - (Z.of_nat i - k)).
        + rewrite Hb' by lia. f_equal. ring.
        + symmetry. replace (k - Z.of_nat i) with (m - (Z.of_nat i - k) + (-1) * m) by ring.
          rewrite Z.mod_add by lia. apply Z.mod_small. lia. }
    rewrite Hbv. apply chirp_identity. lia.
  - lia.
  - intros i Hi. rewrite Ha0 by lia.
    generalize (b ((k - Z.of_nat i) mod m)). intros. unfold Cmul. cbn [fst snd].
    f_equal; ring.
Qed.

(** * The twiddle table of the chirp-z route *)

Lemma root_half_turn (inverse : bool) (N : Z) :
  N <> 0 -> root inverse (2 * N) N = ((-1)%R, 0%R).
Proof.
  intro HN. unfold root. replace (2 * PI * IZR N / IZR (2 * N))%R with PI.
  - apply cis_PI.
  - rewrite mult_IZR. field. apply not_0_IZR. exact HN.
Qed.

Lemma root_mirror (inverse : bool) (N i : Z) :
  N <> 0 ->
  root inverse (2 * N) (N - i)
  = ((- fst (root inverse (2 * N) i))%R, snd (root inverse (2 * N) i)).
Proof.
  intro HN. replace (N - i) with (N + - i) by ring.
  rewrite <- root_add by lia. rewrite root_half_turn, root_neg by exact HN.
  unfold Cmul. cbn [fst snd]. f_equal; ring.
Qed.

Lemma root_opposite (inverse : bool) (N i : Z) :
  N <> 0 ->
  root inverse (2 * N) (N + i)
  = ((- fst (root inverse (2 * N) i))%R, (- snd (root inverse (2 * N) i))%R).
Proof.
  intro HN. rewrite <- root_add by lia. rewrite root_half_turn by exact HN.
  unfold Cmul. cbn [fst snd]. f_equal; ring.
Qed.

Section Loops.

Context {T : Type}.

(** [for(i=1;i<h;i*=2)] with an invariant. *)
Lemma doubling_loop_inv {E : Elem T} (I : Z -> mem T -> Prop) (h : Z) (body : Z -> M T unit) :
  (forall i m, 1 <= i < h -> I i m -> exists m', body i m = Ok tt m' /\ I (i * 2) m') ->
  forall fuel i m, 1 <= i -> h - i < Z.of_nat fuel \/ h <= i -> I i m ->
  exists i' m', h <= i' /\ doubling_loop fuel i h body m = Ok tt m' /\ I i' m'.
Proof.
  intros Hstep fuel. induction fuel as [|fuel IH]; intros i m Hi Hf HI.
  - cbn [doubling_loop]. destruct (Z.ltb_spec i h); [lia|].
    exists i, m. split; [assumption|]. split; [reflexivity|assumption].
  - cbn [doubling_loop]. destruct (Z.ltb_spec i h) as [Hlt|Hge].
    + destruct (Hstep i m ltac:(lia) HI) as (m1 & Hb & H1).
      destruct (IH (i * 2) m1 ltac:(lia) ltac:(lia) H1) as (i' & m' & Hi' & Hr & HI').
      exists i', m'. split; [exact Hi'|]. split; [|exact HI'].
      rewrite (bind_run _ _ _ _ _ Hb). exact Hr.
    + exists i, m. split; [assumption|]. split; [reflexivity|assumption].
Qed.

End Loops.

Section NpotTwiddles.

Variables (hook : option (Z -> R * R)) (hook_npot : option (Z -> Z -> R * R)).

Let ER : Elem R := Elem_R hook hook_npot.
Local Existing Instance ER.

Variables (N : Z) (inverse : bool) (br or bi oi : Z).

Hypothesis HN : 1 <= N.

(** The two tables do not share a cell. *)
Hypothesis Hdisj :
  forall a b, 0 <= a < 2 * N -> 0 <= b < 2 * N -> br <> bi \/ or + a <> oi + b.

(** The seeds the doubling uses are exact. *)
Hypothesis Hseed :
  forall p, 0 < p -> dbcF_cexpm1_npot p (2 * N) = expm1_npot_exact p (2 * N).

Variable m0 : mem R.

Local Notation W := (root inverse (2 * N)).
Local Notation Fr := (table_frame (2 * N) br or bi oi m0).

Lemma Fr_set_r (m : mem R) (q : Z) (v : R) :
  0 <= q < 2 * N -> Fr m -> Fr (set_cell m br (or + q) v).
Proof.
  intros Hq HF b o H1 H2. rewrite cells_set_other; [apply HF; assumption|].
  destruct (Z.eq_dec b br) as [Hb|Hb]; [right; apply H1; assumption|left; exact Hb].
Qed.

Lemma Fr_set_i (m : mem R) (q : Z) (v : R) :
  0 <= q < 2 * N -> Fr m -> Fr (set_cell m bi (oi + q) v).
Proof.
  intros Hq HF b o H1 H2. rewrite cells_set_other; [apply HF; assumption|].
  destruct (Z.eq_dec b bi) as [Hb|Hb]; [right; apply H2; assumption|left; exact Hb].
Qed.

Lemma ri_other (m : mem R) (a b : Z) (v : R) :
  0 <= a < 2 * N -> 0 <= b < 2 * N ->
  cells (set_cell m br (or + a) v) bi (oi + b) = cells m bi (oi + b).
Proof.
  intros Ha Hb. apply cells_set_other.
  destruct (Hdisj a b Ha Hb) as [H|H]; [left|right]; congruence.
Qed.

Lemma ir_other (m : mem R) (a b : Z) (v : R) :
  0 <= a < 2 * N -> 0 <= b < 2 * N ->
  cells (set_cell m bi (oi + b) v) br (or + a) = cells m br (or + a).
Proof.
  intros Ha Hb. apply cells_set_other.
  destruct (Hdisj a b Ha Hb) as [H|H]; [left|right]; congruence.
Qed.

Lemma rr_other (m : mem R) (a b : Z) (v : R) :
  a <> b -> cells (set_cell m br (or + a) v) br (or + b) = cells m br (or + b).
Proof. intro H. apply cells_set_other. right. lia. Qed.

Lemma ii_other (m : mem R) (a b : Z) (v : R) :
  a <> b -> cells (set_cell m bi (oi + a) v) bi (oi + b) = cells m bi (oi + b).
Proof. intro H. apply cells_set_other. right. lia. Qed.

Lemma npot_doubling_value (i k : Z) :
  let x := (cos (2 * PI * IZR i / IZR (2 * N)) - 1)%R in
  let y := sin (2 * PI * IZR i / IZR (2 * N)) in
  let y' := if negb inverse then (- y)%R else y in
  let rk := (fst (W k) - 1)%R in
  let ik := snd (W k) in
  ((x * rk - y' * ik) + (x + rk) = fst (W (i + k)) - 1)%R /\
  ((y' * rk + x * ik) + (y' + ik) = snd (W (i + k)))%R.
Proof.
  intros x y y' rk ik. rewrite <- root_add by lia.
  subst x y y' rk ik. unfold root, cis, signed, Cmul. cbn [fst snd].
  destruct inverse; cbn [negb]; split; ring.
Qed.

Lemma npot_inner_step (i k : Z) (m : mem R) :
  1 <= i -> 0 <= k < i -> i + k < 2 * N ->
  npot_table_m1 inverse (2 * N) br or bi oi (i + k) m /\ Fr m ->
  let x := (cos (2 * PI * IZR i / IZR (2 * N)) - 1)%R in
  let y := sin (2 * PI * IZR i / IZR (2 * N)) in
  let y' := if negb inverse then Tneg y else y in
  exists m',
    (rk <- aref (Ptr br or) k ;; ik <- aref (Ptr bi oi) k ;;
     aset (Ptr br or) (i + k) (Tadd (Tsub (Tmul x rk) (Tmul y' ik)) (Tadd x rk)) ;;
     rk <- aref (Ptr br or) k ;; ik <- aref (Ptr bi oi) k ;;
     aset (Ptr bi oi) (i + k) (Tadd (Tadd (Tmul y' rk) (Tmul x ik)) (Tadd y' ik))) m
    = Ok tt m' /\
    npot_table_m1 inverse (2 * N) br or bi oi (i + k + 1) m' /\ Fr m'.
Proof.
  intros Hi Hk Hik (Hm & HF) x y y'.
  destruct (Hm k ltac:(lia)) as [Hr Hi'].
  run_exists.
  cbn [Tadd Tsub Tmul Tneg ER Elem_R].
  rewrite rr_other by lia. rewrite ri_other by lia.
  rewrite Hr, Hi'.
  pose proof (npot_doubling_value i k) as [Vr Vi]. cbv zeta in Vr, Vi.
  fold x y in Vr, Vi.
  replace (if negb inverse then (- y)%R else y) with y' in Vr, Vi by reflexivity.
  rewrite Vr, Vi.
  split.
  - intros q Hq. destruct (Z.eq_dec q (i + k)) as [->|Hne].
    + split.
      * rewrite ir_other by lia. apply cells_set_same.
      * apply cells_set_same.
    + destruct (Hm q ltac:(lia)) as [Hqr Hqi]. split.
      * rewrite ir_other by lia. rewrite rr_other by lia. exact Hqr.
      * rewrite ii_other by lia. rewrite ri_other by lia. exact Hqi.
  - apply Fr_set_i; [lia|]. apply Fr_set_r; [lia|]. exact HF.
Qed.

Lemma npot_outer_step (h i : Z) (m : mem R) :
  1 <= i < h -> h <= N ->
  npot_table_m1 inverse (2 * N) br or bi oi (Z.min i h) m /\ Fr m ->
  exists m',
    ((let (X, Y) := dbcF_cexpm1_npot i (2 * N) in
      let Y := if negb inverse then Tneg Y else Y in
      let j := if h <? i * 2 then (h - i)%Z else i in
      for_loop 0 j (fun k =>
        rk <- aref (Ptr br or) k ;; ik <- aref (Ptr bi oi) k ;;
        aset (Ptr br or) (i + k) (Tadd (Tsub (Tmul X rk) (Tmul Y ik)) (Tadd X rk)) ;;
        rk <- aref (Ptr br or) k ;; ik <- aref (Ptr bi oi) k ;;
        aset (Ptr bi oi) (i + k) (Tadd (Tadd (Tmul Y rk) (Tmul X ik)) (Tadd Y ik))))
     : M R unit) m
    = Ok tt m' /\
    npot_table_m1 inverse (2 * N) br or bi oi (Z.min (i * 2) h) m' /\ Fr m'.
Proof.
  intros Hi Hh Hm. rewrite Hseed by lia. unfold expm1_npot_exact. cbv zeta.
  rewrite Z.min_l in Hm by lia.
  set (j := if h <? i * 2 then h - i else i).
  assert (Hj : 0 <= j <= i /\ i + j = Z.min (i * 2) h).
  { unfold j. destruct (Z.ltb_spec h (i * 2)); lia. }
  destruct (for_loop_inv
    (fun k m => npot_table_m1 inverse (2 * N) br or bi oi (i + k) m /\ Fr m) 0 j
    (fun k =>
       rk <- aref (Ptr br or) k ;; ik <- aref (Ptr bi oi) k ;;
       aset (Ptr br or) (i + k)
         (Tadd (Tsub (Tmul (cos (2 * PI * IZR i / IZR (2 * N)) - 1)%R rk)
                     (Tmul (if negb inverse
                            then Tneg (sin (2 * PI * IZR i / IZR (2 * N)))
                            else sin (2 * PI * IZR i / IZR (2 * N))) ik))
               (Tadd (cos (2 * PI * IZR i / IZR (2 * N)) - 1)%R rk)) ;;
       rk <- aref (Ptr br or) k ;; ik <- aref (Ptr bi oi) k ;;
       aset (Ptr bi oi) (i + k)
         (Tadd (Tadd (Tmul (if negb inverse
                            then Tneg (sin (2 * PI * IZR i / IZR (2 * N)))
                            else sin (2 * PI * IZR i / IZR (2 * N))) rk)
                     (Tmul (cos (2 * PI * IZR i / IZR (2 * N)) - 1)%R ik))
               (Tadd (if negb inverse
                      then Tneg (sin (2 * PI * IZR i / IZR (2 * N)))
                      else sin (2 * PI * IZR i / IZR (2 * N))) ik))) m)
    as (m' & Hrun & Hpost).
  - lia.
  - rewrite Z.add_0_r. exact Hm.
  - intros k m1 Hk Hm1.
    destruct (npot_inner_step i k m1 ltac:(lia) ltac:(lia) ltac:(lia) Hm1)
      as (m2 & Hr2 & Hp2).
    exists m2. split; [exact Hr2|].
    replace (i + (k + 1)) with (i + k + 1) by lia. exact Hp2.
  - exists m'. split; [exact Hrun|].
    replace (Z.min (i * 2) h) with (i + j) by lia. exact Hpost.
Qed.

Lemma compute_twiddles_npot_run :
  exists m',
    dbcF_compute_twiddles_npot (2 * N) (Ptr br or) (Ptr bi oi) inverse m0 = Ok tt m' /\
    npot_table inverse (2 * N) br or bi oi (2 * N) m' /\ Fr m'.
Proof.
  unfold dbcF_compute_twiddles_npot. cbv zeta.
  replace (Z.shiftr (2 * N) 1) with N
    by (rewrite Z.shiftr_div_pow2 by lia; change (2 ^ 1) with 2;
        rewrite Z.mul_comm, Z.div_mul by lia; reflexivity).
  set (h := Z.shiftr (N + 2) 1).
  assert (Hh : 2 * h <= N + 2 < 2 * h + 2).
  { unfold h. rewrite Z.shiftr_div_pow2 by lia. change (2 ^ 1) with 2.
    pose proof (Z.div_mod (N + 2) 2 ltac:(lia)).
    pose proof (Z.mod_pos_bound (N + 2) 2 ltac:(lia)). lia. }
  destruct (Z.ltb_spec (2 * N) 1) as [|_]; [lia|].
  assert (HZ : @DBCF_ZERO R ER = 0%R) by apply R_ZERO.
  assert (HO : @DBCF_ONE R ER = 1%R) by apply R_ONE.
  run_mem. rewrite !HZ.
  set (m1 := set_cell (set_cell m0 br (or + 0) 0%R) bi (oi + 0) 0%R).
  assert (H1 : npot_table_m1 inverse (2 * N) br or bi oi (Z.min 1 h) m1 /\ Fr m1).
  { split.
    - intros k Hk. assert (k = 0) by lia. subst k. rewrite root_0. cbn [fst snd].
      unfold m1. split.
      + rewrite ir_other by lia. rewrite cells_set_same. lra.
      + apply cells_set_same.
    - unfold m1. apply Fr_set_i; [lia|]. apply Fr_set_r; [lia|].
      intros b o _ _. reflexivity. }
  destruct (doubling_loop_inv
    (fun i m => npot_table_m1 inverse (2 * N) br or bi oi (Z.min i h) m /\ Fr m) h
    (fun i =>
       let (X, Y) := dbcF_cexpm1_npot i (2 * N) in
       let Y := if negb inverse then Tneg Y else Y in
       let j := if h <? i * 2 then (h - i)%Z else i in
       for_loop 0 j (fun k =>
         rk <- aref (Ptr br or) k ;; ik <- aref (Ptr bi oi) k ;;
         aset (Ptr br or) (i + k) (Tadd (Tsub (Tmul X rk) (Tmul Y ik)) (Tadd X rk)) ;;
         rk <- aref (Ptr br or) k ;; ik <- aref (Ptr bi oi) k ;;
         aset (Ptr bi oi) (i + k) (Tadd (Tadd (Tmul Y rk) (Tmul X ik)) (Tadd Y ik))))
    ltac:(intros i m Hi Hm; apply npot_outer_step; [exact Hi|lia|exact Hm])
    (Z.to_nat h) 1 m1 ltac:(lia) ltac:(lia) H1)
    as (i' & m2 & Hi' & Hrun2 & Hm2 & HF2).
  rewrite (bind_run _ _ _ _ _ Hrun2). rewrite Z.min_r in Hm2 by lia.
  (* the lower part: cos - 1 becomes cos *)
  destruct (for_loop_inv
    (fun i m =>
       npot_table inverse (2 * N) br or bi oi i m /\
       (forall k, i <= k < h ->
          cells m br (or + k) = (fst (W k) - 1)%R /\ cells m bi (oi + k) = snd (W k)) /\
       Fr m) 0 h
    (fun i => ri <- aref (Ptr br or) i ;; aset (Ptr br or) i (Tadd DBCF_ONE ri)) m2)
    as (m3 & Hrun3 & Hm3 & _ & HF3).
  - lia.
  - split; [intros k Hk; lia|]. split; [|exact HF2]. intros k Hk. apply Hm2. lia.
  - intros i m Hi (Hdone & Htodo & HF). run_exists.
    rewrite HO. cbn [Tadd ER Elem_R].
    split; [|split].
    + intros k Hk. destruct (Z.eq_dec k i) as [->|Hne].
      * rewrite cells_set_same, ri_other by lia.
        destruct (Htodo i ltac:(lia)) as [-> ->].
        destruct (W i). cbn [fst snd]. f_equal. lra.
      * rewrite rr_other, ri_other by lia. apply Hdone. lia.
    + intros k Hk. rewrite rr_other, ri_other by lia. apply Htodo. lia.
    + apply Fr_set_r; [lia|exact HF].
  - rewrite (bind_run _ _ _ _ _ Hrun3).
    (* the mirror image up to the half turn *)
    destruct (for_loop_inv
      (fun i m => npot_table inverse (2 * N) br or bi oi i m /\ Fr m) h N
      (fun i =>
         r <- aref (Ptr br or) (N - i) ;; aset (Ptr br or) i (Tneg r) ;;
         r <- aref (Ptr bi oi) (N - i) ;; aset (Ptr bi oi) i r) m3)
      as (m4 & Hrun4 & Hm4 & HF4).
    + lia.
    + split; assumption.
    + intros i m Hi (Hdone & HF). run_exists. cbn [Tneg ER Elem_R].
      split.
      * intros k Hk. destruct (Z.eq_dec k i) as [->|Hne].
        -- rewrite cells_set_same, ir_other, cells_set_same by lia.
           rewrite ri_other by lia.
           pose proof (Hdone (N - i) ltac:(lia)) as Hv.
           rewrite root_mirror in Hv by lia.
           remember (W i) as w eqn:Ew. destruct w as [c s]. cbn [fst snd] in Hv.
           injection Hv as -> ->. f_equal. lra.
        -- rewrite ir_other, rr_other, ii_other, ri_other by lia. apply Hdone. lia.
      * apply Fr_set_i; [lia|]. apply Fr_set_r; [lia|]. exact HF.
    + rewrite (bind_run _ _ _ _ _ Hrun4).
      (* the other half turn *)
      destruct (for_loop_inv
        (fun i m => npot_table inverse (2 * N) br or bi oi (N + i) m /\ Fr m) 0 N
        (fun i =>
           r <- aref (Ptr br or) i ;; aset (Ptr br or) (N + i) (Tneg r) ;;
           r <- aref (Ptr bi oi) i ;; aset (Ptr bi oi) (N + i) (Tneg r)) m4)
        as (m5 & Hrun5 & Hm5 & HF5).
      * lia.
      * rewrite Z.add_0_r. split; assumption.
      * intros i m Hi (Hdone & HF). run_exists. cbn [Tneg ER Elem_R].
        split.
        -- intros k Hk. destruct (Z.eq_dec k (N + i)) as [->|Hne].
           ++ rewrite cells_set_same, ir_other, cells_set_same by lia.
              rewrite ri_other by lia.
              pose proof (Hdone i ltac:(lia)) as Hv.
              rewrite root_opposite by lia. rewrite <- Hv. reflexivity.
           ++ rewrite ir_other, rr_other, ii_other, ri_other by lia. apply Hdone. lia.
        -- apply Fr_set_i; [lia|]. apply Fr_set_r; [lia|]. exact HF.
      * exists m5. split; [exact Hrun5|].
        replace (N + N) with (2 * N) in Hm5 by ring. split; assumption.
Qed.

End NpotTwiddles.

(** * No routine releases a block or touches the allocator *)

Section Grows.

Context {T : Type}.

Lemma grows_ret {A} (a : A) : grows (@ret T A a).
Proof. intros m a' m' H. injection H as _ <-. split; [lia|reflexivity]. Qed.

Lemma grows_fail {A} : grows (fun _ : mem T => @OutOfFuel T A).
Proof. intros m a m' H. discriminate H. Qed.

Lemma grows_bind {A B} (c : M T A) (k : A -> M T B) :
  grows c -> (forall a, grows (k a)) -> grows (bind c k).
Proof.
  intros Hc Hk m b m' H. unfold bind in H. destruct (c m) as [a m1| |] eqn:Ec;
    try discriminate H.
  destruct (Hc m a m1 Ec) as [H1 E1]. destruct (Hk a m1 b m' H) as [H2 E2].
  split; [lia|congruence].
Qed.

Lemma grows_load (p : ptr) : grows (@load T p).
Proof.
  intros m a m' H. unfold load in H. destruct p; [discriminate H|].
  injection H as _ <-. split; [lia|reflexivity].
Qed.

Lemma grows_store (p : ptr) (v : T) : grows (store p v).
Proof.
  intros m a m' H. unfold store in H. destruct p; [discriminate H|].
  injection H as _ <-. cbn. split; [lia|reflexivity].
Qed.

Lemma grows_alloca : grows (@alloca T).
Proof.
  intros m a m' H. unfold alloca in H. injection H as _ <-. cbn.
  split; [lia|reflexivity].
Qed.

Lemma grows_malloc (bytes : Z) : grows (@dbcf_malloc T bytes).
Proof.
  intros m a m' H. unfold dbcf_malloc in H. destruct (heap_ok m bytes);
    injection H as _ <-; cbn; (split; [lia|reflexivity]).
Qed.

Lemma grows_free (p : ptr) : grows (@dbcf_free T p).
Proof. apply grows_ret. Qed.

Lemma grows_for_count {St} (body : Z -> St -> M T St) (cnt : nat) :
  (forall i s, grows (body i s)) -> forall i s, grows (for_count cnt i s body).
Proof.
  intro Hb. induction cnt as [|cnt IH]; intros i s; cbn [for_count].
  - apply grows_ret.
  - apply grows_bind; [apply Hb|]. intro s'. apply IH.
Qed.

Lemma grows_for_fold {St} (lo hi : Z) (s : St) (body : Z -> St -> M T St) :
  (forall i s, grows (body i s)) -> grows (for_fold lo hi s body).
Proof. intro Hb. apply grows_for_count. exact Hb. Qed.

Lemma grows_for_loop (lo hi : Z) (body : Z -> M T unit) :
  (forall i, grows (body i)) -> grows (for_loop lo hi body).
Proof. intro Hb. apply grows_for_fold. intros i _. apply Hb. Qed.

End Grows.

(** Walk through a routine made of loads, stores, loops and branches. *)
Ltac grow_step tac :=
  first
    [ tac
    | apply grows_ret | apply grows_fail | apply grows_load | apply grows_store
    | apply grows_alloca | apply grows_free | apply grows_malloc
    | apply grows_bind; [|intros]
    | apply grows_for_loop; intros
    | apply grows_for_fold; intros
    | match goal with
      | |- grows (if ?c then _ else _) => destruct c
      | |- grows (match ?x with _ => _ end) => destruct x
      end
    | progress cbv zeta ].

Ltac grow tac := repeat (grow_step tac).

Section GrowsEngine.

Context {T : Type} {E : Elem T} (cfg : Config).

Lemma grows_aref (p : ptr) (i : Z) : grows (T:=T) (A:=T) (aref p i).
Proof. apply grows_load. Qed.

Lemma grows_aset (p : ptr) (i : Z) (v : T) : grows (T:=T) (A:=unit) (aset p i v).
Proof. apply grows_store. Qed.

Lemma grows_cexp_to (log2n : Z) (real imag : ptr) : grows (T:=T) (A:=unit) (dbcF_cexp_to log2n real imag).
Proof. unfold dbcF_cexp_to. grow fail. Qed.

Lemma grows_compute_twiddles (log2n log2b : Z) (real imag : ptr) (inverse : bool) :
  grows (T:=T) (A:=unit) (dbcF_compute_twiddles log2n log2b real imag inverse).
Proof.
  unfold dbcF_compute_twiddles.
  grow ltac:(first [apply grows_aref | apply grows_aset]).
Qed.

Lemma grows_swap_fuel (fuel : nat) :
  forall log2n src ss dst ds, grows (T:=T) (A:=unit) (bitreversal_swap_fuel cfg fuel log2n src ss dst ds).
Proof.
  induction fuel as [|fuel IH]; intros; cbn [bitreversal_swap_fuel];
    grow ltac:(first [apply grows_aref | apply grows_aset | apply IH]).
Qed.

Lemma grows_cg_block (log2n log2m : Z) (dst : ptr) (ds : Z) (tmp : ptr) (b : Z) :
  grows (T:=T) (A:=unit) (cg_block cfg log2n log2m dst ds tmp b).
Proof.
  unfold cg_block. grow ltac:(first [apply grows_aref | apply grows_aset]).
Qed.

Lemma grows_permutation_fuel (fuel : nat) :
  forall log2n src ss dst ds tmp,
    grows (T:=T) (A:=unit) (bitreversal_permutation_fuel cfg fuel log2n src ss dst ds tmp).
Proof.
  induction fuel as [|fuel IH]; intros; cbn [bitreversal_permutation_fuel];
    grow ltac:(first [apply grows_aref | apply grows_aset | apply IH
                     | apply grows_swap_fuel | apply grows_cg_block]).
Qed.

Lemma grows_fft8 (real imag : ptr) (rs ims : Z) (inverse : bool) (c : T) :
  grows (T:=T) (A:=unit) (dbcF_fft8 real imag rs ims inverse c).
Proof.
  unfold dbcF_fft8. grow ltac:(first [apply grows_aref | apply grows_aset]).
Qed.

Lemma grows_butterfly_step (LR LI HR HI : ptr) (j k : Z) (c s : T) :
  grows (T:=T) (A:=unit) (butterfly_step LR LI HR HI j k c s).
Proof.
  unfold butterfly_step. grow ltac:(first [apply grows_aref | apply grows_aset]).
Qed.

Lemma grows_block_fuel (fuel : nat) :
  forall log2n log2b LR LI HR HI rs ims Cm Sm inverse tr ti,
    grows (T:=T) (A:=unit) (butterfly_block_fuel cfg fuel log2n log2b LR LI HR HI rs ims Cm Sm inverse tr ti).
Proof.
  induction fuel as [|fuel IH]; intros; cbn [butterfly_block_fuel];
    grow ltac:(first [apply grows_aref | apply grows_aset | apply IH
                     | apply grows_butterfly_step]).
Qed.

Lemma grows_for_step2 (body : Z -> Z * Z -> M T (Z * Z)) (cnt : nat) :
  (forall d jk, grows (T:=T) (A:=Z * Z) (body d jk)) -> forall d jk, grows (A:=Z * Z) (for_step2 cnt d jk body).
Proof.
  intro Hb. induction cnt as [|cnt IH]; intros d jk; cbn [for_step2].
  - apply grows_ret.
  - apply grows_bind; [apply Hb|]. intro jk'. apply IH.
Qed.

Lemma grows_pass (log2n log2c : Z) (real imag : ptr) (rs ims : Z) (inverse : bool)
    (log2t : Z) (tr ti : ptr) :
  grows (T:=T) (A:=unit) (dbcF_butterfly_pass cfg log2n log2c real imag rs ims inverse log2t tr ti).
Proof.
  unfold dbcF_butterfly_pass, dbcF_butterfly_block.
  grow ltac:(first [apply grows_aref | apply grows_aset | apply grows_butterfly_step
                   | apply grows_block_fuel
                   | apply grows_for_step2; intros ]).
Qed.

Lemma grows_multipass_fuel (fuel : nat) :
  forall log2n log2c depth real imag rs ims inverse tr ti,
    grows (T:=T) (A:=unit) (butterfly_multipass_fuel cfg fuel log2n log2c depth real imag rs ims inverse tr ti).
Proof.
  induction fuel as [|fuel IH]; intros; cbn [butterfly_multipass_fuel];
    grow ltac:(first [apply grows_aref | apply grows_aset | apply IH
                     | apply grows_cexp_to | apply grows_fft8
                     | apply grows_compute_twiddles | apply grows_pass]).
Qed.

Lemma grows_butterfly_fuel (fuel : nat) :
  forall log2n real imag rs ims inverse tmp,
    grows (T:=T) (A:=unit) (butterfly_fuel cfg fuel log2n real imag rs ims inverse tmp).
Proof.
  induction fuel as [|fuel IH]; intros; cbn [butterfly_fuel];
    unfold dbcF_butterfly_multipass;
    grow ltac:(first [apply IH | apply grows_multipass_fuel]).
Qed.

Lemma grows_log2_loop (fuel : nat) : forall n log2n, grows (T:=T) (A:=Z) (@log2_loop T fuel n log2n).
Proof.
  induction fuel as [|fuel IH]; intros; cbn [log2_loop]; grow ltac:(apply IH).
Qed.

Lemma grows_fft_pot (n : Z) (sr si : ptr) (srs sis : Z) (dr di : ptr) (drs dis : Z)
    (inverse : bool) (scale : T) :
  grows (T:=T) (A:=Z) (dbcF_fft_pot cfg n sr si srs sis dr di drs dis inverse scale).
Proof.
  unfold dbcF_fft_pot, dbcF_bitreversal_permutation, dbcF_butterfly.
  grow ltac:(first [apply grows_aref | apply grows_aset | apply grows_log2_loop
                   | apply grows_permutation_fuel | apply grows_butterfly_fuel]).
Qed.

End GrowsEngine.

Section GrowsNpot.

Context {T : Type} {E : Elem T}.

Lemma grows_doubling_loop (body : Z -> M T unit) (h : Z) (fuel : nat) :
  (forall i, grows (body i)) -> forall i, grows (doubling_loop fuel i h body).
Proof.
  intro Hb. induction fuel as [|fuel IH]; intro i; cbn [doubling_loop];
    grow ltac:(first [apply Hb | apply IH]).
Qed.

Lemma grows_compute_twiddles_npot (n : Z) (real imag : ptr) (inverse : bool) :
  grows (T:=T) (A:=unit) (dbcF_compute_twiddles_npot n real imag inverse).
Proof.
  unfold dbcF_compute_twiddles_npot.
  grow ltac:(first [apply grows_aref | apply grows_aset
                   | apply grows_doubling_loop; intros]).
Qed.

End GrowsNpot.

Section GrowsEntry.

Context {T : Type} {E : Elem T} (cfg : Config).

Lemma grows_log2m_loop (fuel : nat) :
  forall n log2m Mv, grows (T:=T) (A:=Z * T) (log2m_loop fuel n log2m Mv).
Proof.
  induction fuel as [|fuel IH]; intros; cbn [log2m_loop]; grow ltac:(apply IH).
Qed.

Lemma grows_fft_npot (n : Z) (sr si : ptr) (srs sis : Z) (dr di : ptr) (drs dis : Z)
    (inverse : bool) (scale : T) :
  grows (T:=T) (A:=Z) (dbcF_fft_npot cfg n sr si srs sis dr di drs dis inverse scale).
Proof.
  unfold dbcF_fft_npot.
  grow ltac:(first [apply grows_aref | apply grows_aset | apply grows_log2m_loop
                   | apply grows_compute_twiddles_npot | apply grows_fft_pot]).
Qed.

Lemma grows_fft (n : Z) (sr si : ptr) (srs sis : Z) (dr di : ptr) (drs dis : Z)
    (inverse : bool) (scale : T) :
  grows (T:=T) (A:=Z) (dbcF_fft cfg n sr si srs sis dr di drs dis inverse scale).
Proof.
  unfold dbcF_fft, dbcF_init.
  grow ltac:(first [apply grows_fft_npot | apply grows_fft_pot]).
Qed.

End GrowsEntry.

(** * The loops of the chirp-z driver *)

Lemma chirp_next_sq (n i : Z) :
  0 <= i < n -> chirp_next n i ((i * i) mod (2 * n)) = ((i + 1) * (i + 1)) mod (2 * n).
Proof.
  intro Hi. unfold chirp_next. cbv zeta.
  pose proof (Z.mod_pos_bound (i * i) (2 * n) ltac:(lia)) as Hj.
  pose proof (Z.div_mod (i * i) (2 * n) ltac:(lia)) as Hd.
  set (j := (i * i) mod (2 * n)) in *. set (d := (i * i) / (2 * n)) in *.
  rewrite Z.geb_leb. destruct (Z.leb_spec (2 * n) (j + (2 * i + 1))).
  - apply (Z.mod_unique _ _ (d + 1)); [left; lia|]. lia.
  - apply (Z.mod_unique _ _ d); [left; lia|]. lia.
Qed.

Section Chirp.

Variables (hook : option (Z -> R * R)) (hook_npot : option (Z -> Z -> R * R)).

Let ER : Elem R := Elem_R hook hook_npot.
Local Existing Instance ER.

Variables (inverse : bool) (n mm bb : Z).

Hypothesis Hn : 1 <= n.
Hypothesis Hmm : 2 * n - 1 <= mm.

Local Notation oar := (0 + 0 * mm).
Local Notation oai := (0 + 1 * mm).
Local Notation obr := (0 + 2 * mm).
Local Notation obi := (0 + 3 * mm).
Local Notation otr := (0 + (4 * mm + 0 * n)).
Local Notation oti := (0 + (4 * mm + 2 * n)).
Local Notation W := (root inverse (2 * n)).

Ltac real_ops := cbv beta iota delta [Tadd Tsub Tmul Tneg Tdiv ER Elem_R].

(** A table entry read back. *)
Lemma chirp_entry (m : mem R) (i : Z) :
  npot_table inverse (2 * n) bb otr bb oti (2 * n) m ->
  (cells m bb (otr + (i * i) mod (2 * n)), cells m bb (oti + (i * i) mod (2 * n)))
  = W (i * i).
Proof.
  intro Ht. rewrite Ht by (apply Z.mod_pos_bound; lia). apply root_mod. lia.
Qed.

Section Fill.

Variables (bsr osr ssr bsi osi ssi : Z).

Hypothesis Hbsr : bsr <> bb.
Hypothesis Hbsi : bsi <> bb.

Lemma chirp_fill (m1 : mem R) :
  npot_table inverse (2 * n) bb otr bb oti (2 * n) m1 ->
  exists j m2,
    for_fold 0 n 0 (fun i j =>
      c <- aref (Ptr bb otr) j ;; s <- aref (Ptr bb oti) j ;;
      x <- aref (Ptr bsr osr) (i * ssr) ;;
      y <- aref (Ptr bsi osi) (i * ssi) ;;
      aset (Ptr bb oar) i (Tsub (Tmul x c) (Tmul y s)) ;;
      aset (Ptr bb oai) i (Tadd (Tmul x s) (Tmul y c)) ;;
      aset (Ptr bb obr) i c ;;
      aset (Ptr bb obi) i (Tneg s) ;;
      (if i >? 0 then
         aset (Ptr bb obr) (mm - i) c ;;
         aset (Ptr bb obi) (mm - i) (Tneg s)
       else ret tt) ;;
      ret (chirp_next n i j)) m1 = Ok j m2 /\
    j = (n * n) mod (2 * n) /\
    (forall i, 0 <= i < n ->
       pair_at m2 bb oar oai i
       = Cmul (cplx m1 bsr osr ssr bsi osi ssi i) (W (i * i))) /\
    (forall i, 0 <= i < n -> pair_at m2 bb obr obi i = W (- (i * i))) /\
    (forall i, 0 < i < n -> pair_at m2 bb obr obi (mm - i) = W (- (i * i))) /\
    (forall b o, b <> bb \/ 4 * mm <= o -> cells m2 b o = cells m1 b o).
Proof.
  intro Ht.
  apply (for_fold_inv
    (fun i j m2 =>
       j = (i * i) mod (2 * n) /\
       (forall i', 0 <= i' < i ->
          pair_at m2 bb oar oai i'
          = Cmul (cplx m1 bsr osr ssr bsi osi ssi i') (W (i' * i'))) /\
       (forall i', 0 <= i' < i -> pair_at m2 bb obr obi i' = W (- (i' * i'))) /\
       (forall i', 0 < i' < i -> pair_at m2 bb obr obi (mm - i') = W (- (i' * i'))) /\
       (forall b o, b <> bb \/ 4 * mm <= o -> cells m2 b o = cells m1 b o))).
  - lia.
  - split; [reflexivity|]. split; [intros; lia|]. split; [intros; lia|].
    split; [intros; lia|]. intros; reflexivity.
  - intros i j m Hi (-> & HA & HB & HB' & HF).
    pose proof (chirp_entry m1 i Ht) as Hcs.
    pose proof (Z.mod_pos_bound (i * i) (2 * n) ltac:(lia)) as Hjb.
    rewrite <- !(HF bb) in Hcs by (right; lia).
    remember (W (i * i)) as w eqn:Ew. destruct w as [c s].
    assert (Hc : cells m bb (otr + (i * i) mod (2 * n)) = c)
      by (apply (f_equal fst) in Hcs; exact Hcs).
    assert (Hs : cells m bb (oti + (i * i) mod (2 * n)) = s)
      by (apply (f_equal snd) in Hcs; exact Hcs).
    clear Hcs.
    assert (Hneg : W (- (i * i)) = (c, (- s)%R)).
    { rewrite root_neg, <- Ew. reflexivity. }
    assert (Hx : cells m bsr (osr + i * ssr) = cells m1 bsr (osr + i * ssr))
      by (apply HF; left; exact Hbsr).
    assert (Hy : cells m bsi (osi + i * ssi) = cells m1 bsi (osi + i * ssi))
      by (apply HF; left; exact Hbsi).
    rewrite Z.gtb_ltb. destruct (Z.ltb_spec 0 i) as [Hpos|Hzero].
    + eexists _, _. split; [run_all; reflexivity|].
      real_ops. rewrite Hc, Hs, Hx, Hy.
      split; [apply chirp_next_sq; exact Hi|]. unfold pair_at.
      split; [|split; [|split]].
      * intros i' Hi'. destruct (Z.eq_dec i' i) as [->|Hne].
        -- cells_norm. rewrite <- Ew. unfold cplx, cell, Cmul, fst, snd. f_equal; ring.
        -- cells_norm. apply HA. lia.
      * intros i' Hi'. destruct (Z.eq_dec i' i) as [->|Hne].
        -- cells_norm. symmetry. exact Hneg.
        -- cells_norm. apply HB. lia.
      * intros i' Hi'. destruct (Z.eq_dec i' i) as [->|Hne].
        -- cells_norm. symmetry. exact Hneg.
        -- cells_norm. apply HB'. lia.
      * intros b o Hbo. rewrite <- (HF b o Hbo). destruct Hbo; cells_norm; reflexivity.
    + assert (i = 0) by lia. subst i.
      eexists _, _. split; [run_all; reflexivity|].
      real_ops. rewrite Hc, Hs, Hx, Hy.
      split; [apply chirp_next_sq; exact Hi|]. unfold pair_at.
      split; [|split; [|split]].
      * intros i' Hi'. assert (i' = 0) by lia. subst i'.
        cells_norm. rewrite <- Ew. unfold cplx, cell, Cmul, fst, snd. f_equal; ring.
      * intros i' Hi'. assert (i' = 0) by lia. subst i'.
        cells_norm. symmetry. exact Hneg.
      * intros i' Hi'. lia.
      * intros b o Hbo. rewrite <- (HF b o Hbo). destruct Hbo; cells_norm; reflexivity.
Qed.

End Fill.

(** The two padding loops. *)
Lemma zero_pairs (o1 o2 lo hi : Z) (m : mem R) :
  lo <= hi ->
  exists m',
    for_loop lo hi (fun i =>
      aset (Ptr bb o1) i DBCF_ZERO ;; aset (Ptr bb o2) i DBCF_ZERO) m = Ok tt m' /\
    (forall i, lo <= i < hi -> pair_at m' bb o1 o2 i = (0%R, 0%R)) /\
    (forall b o, (b = bb -> forall i, lo <= i < hi -> o <> o1 + i /\ o <> o2 + i) ->
       cells m' b o = cells m b o).
Proof.
  intro Hle.
  assert (HZ : @DBCF_ZERO R ER = 0%R) by apply R_ZERO.
  apply (for_loop_inv
    (fun k m' =>
       (forall i, lo <= i < k -> pair_at m' bb o1 o2 i = (0%R, 0%R)) /\
       (forall b o, (b = bb -> forall i, lo <= i < hi -> o <> o1 + i /\ o <> o2 + i) ->
          cells m' b o = cells m b o))).
  - exact Hle.
  - split; [intros; lia|]. intros; reflexivity.
  - intros k m' Hk (Hdone & HF). run_exists. rewrite HZ. unfold pair_at. split.
    + intros i Hi. destruct (Z.eq_dec i k) as [->|Hne].
      * rewrite cells_set_same. f_equal.
        destruct (Z.eq_dec (o1 + k) (o2 + k)) as [He|He].
        -- rewrite He. apply cells_set_same.
        -- rewrite cells_set_other by (right; exact He). apply cells_set_same.
      * pose proof (Hdone i ltac:(lia)) as Hv. unfold pair_at in Hv.
        injection Hv as H1 H2. f_equal.
        -- destruct (Z.eq_dec (o1 + i) (o2 + k)) as [He|He].
           ++ rewrite He. apply cells_set_same.
           ++ rewrite cells_set_other by (right; exact He).
              rewrite cells_set_other by (right; lia). exact H1.
        -- rewrite cells_set_other by (right; lia).
           destruct (Z.eq_dec (o2 + i) (o1 + k)) as [He|He].
           ++ rewrite He. apply cells_set_same.
           ++ rewrite cells_set_other by (right; exact He). exact H2.
    + intros b o Hout. rewrite <- (HF b o Hout).
      destruct (Z.eq_dec b bb) as [Hb|Hb].
      * destruct (Hout Hb k ltac:(lia)). cells_norm. reflexivity.
      * cells_norm. reflexivity.
Qed.

(** The product of the two spectra, element by element. *)
Lemma spectra_product (m : mem R) :
  0 <= mm ->
  exists m',
    for_loop 0 mm (fun i =>
      c <- aref (Ptr bb obr) i ;; s <- aref (Ptr bb obi) i ;;
      x <- aref (Ptr bb oar) i ;; y <- aref (Ptr bb oai) i ;;
      aset (Ptr bb oar) i (Tsub (Tmul c x) (Tmul s y)) ;;
      aset (Ptr bb oai) i (Tadd (Tmul c y) (Tmul s x))) m = Ok tt m' /\
    (forall i, 0 <= i < mm ->
       pair_at m' bb oar oai i = Cmul (pair_at m bb obr obi i) (pair_at m bb oar oai i)) /\
    (forall b o, b <> bb \/ 2 * mm <= o -> cells m' b o = cells m b o).
Proof.
  intro H0.
  destruct (for_loop_inv
    (fun k m' =>
       (forall i, 0 <= i < k ->
          pair_at m' bb oar oai i
          = Cmul (pair_at m bb obr obi i) (pair_at m bb oar oai i)) /\
       (forall i, k <= i < mm -> pair_at m' bb oar oai i = pair_at m bb oar oai i) /\
       (forall b o, b <> bb \/ 2 * mm <= o -> cells m' b o = cells m b o)) 0 mm
    (fun i =>
      c <- aref (Ptr bb obr) i ;; s <- aref (Ptr bb obi) i ;;
      x <- aref (Ptr bb oar) i ;; y <- aref (Ptr bb oai) i ;;
      aset (Ptr bb oar) i (Tsub (Tmul c x) (Tmul s y)) ;;
      aset (Ptr bb oai) i (Tadd (Tmul c y) (Tmul s x))) m H0)
    as (m' & Hrun & Hdone & _ & HF).
  - split; [intros; lia|]. split; intros; reflexivity.
  - intros k m' Hk (Hdone & Htodo & HF). run_exists. real_ops.
    pose proof (Htodo k ltac:(lia)) as Hv. unfold pair_at in Hv.
    assert (Hx : cells m' bb (oar + k) = cells m bb (oar + k))
      by (apply (f_equal fst) in Hv; exact Hv).
    assert (Hy : cells m' bb (oai + k) = cells m bb (oai + k))
      by (apply (f_equal snd) in Hv; exact Hv).
    rewrite Hx, Hy, !(HF bb) by (right; lia). clear Hv.
    unfold pair_at. split; [|split].
    + intros i Hi. destruct (Z.eq_dec i k) as [->|Hne].
      * cells_norm. unfold Cmul, fst, snd. f_equal; ring.
      * cells_norm. apply Hdone. lia.
    + intros i Hi. cells_norm. apply Htodo. lia.
    + intros b o Hbo. rewrite <- (HF b o Hbo). destruct Hbo; cells_norm; reflexivity.
  - exists m'. split; [exact Hrun|]. split; assumption.
Qed.

Section Emit.

Variables (bdr odr sdr bdi odi sdi : Z).

Hypothesis Hbdr : bdr <> bb.
Hypothesis Hbdi : bdi <> bb.
Hypothesis Hsdr : sdr <> 0.
Hypothesis Hsdi : sdi <> 0.
Hypothesis Hdv : disjoint_views bdr odr sdr bdi odi sdi n.

(** The last loop: the chirp once more, into the destination. *)
Lemma chirp_emit (m : mem R) :
  npot_table inverse (2 * n) bb otr bb oti (2 * n) m ->
  exists j m',
    for_fold 0 n 0 (fun i j =>
      c <- aref (Ptr bb otr) j ;; s <- aref (Ptr bb oti) j ;;
      x <- aref (Ptr bb oar) i ;; y <- aref (Ptr bb oai) i ;;
      aset (Ptr bdr odr) (i * sdr) (Tsub (Tmul c x) (Tmul s y)) ;;
      aset (Ptr bdi odi) (i * sdi) (Tadd (Tmul c y) (Tmul s x)) ;;
      ret (chirp_next n i j)) m = Ok j m' /\
    j = (n * n) mod (2 * n) /\
    (forall i, 0 <= i < n ->
       cplx m' bdr odr sdr bdi odi sdi i = Cmul (W (i * i)) (pair_at m bb oar oai i)) /\
    (forall b o,
       (b = bdr -> forall k, 0 <= k < n -> o <> odr + k * sdr) ->
       (b = bdi -> forall k, 0 <= k < n -> o <> odi + k * sdi) ->
       cells m' b o = cells m b o).
Proof.
  intro Ht.
  apply (for_fold_inv
    (fun i j m' =>
       j = (i * i) mod (2 * n) /\
       (forall i', 0 <= i' < i ->
          cplx m' bdr odr sdr bdi odi sdi i'
          = Cmul (W (i' * i')) (pair_at m bb oar oai i')) /\
       (forall b o,
          (b = bdr -> forall k, 0 <= k < n -> o <> odr + k * sdr) ->
          (b = bdi -> forall k, 0 <= k < n -> o <> odi + k * sdi) ->
          cells m' b o = cells m b o))).
  - lia.
  - split; [reflexivity|]. split; [intros; lia|]. intros; reflexivity.
  - intros i j m' Hi (-> & Hdone & HF).
    pose proof (chirp_entry m i Ht) as Hcs.
    assert (Hbb : forall o, cells m' bb o = cells m bb o).
    { intro o. apply HF; intro Hb; congruence. }
    rewrite <- !Hbb in Hcs.
    remember (W (i * i)) as w eqn:Ew. destruct w as [c s].
    assert (Hc : cells m' bb (otr + (i * i) mod (2 * n)) = c)
      by (apply (f_equal fst) in Hcs; exact Hcs).
    assert (Hs : cells m' bb (oti + (i * i) mod (2 * n)) = s)
      by (apply (f_equal snd) in Hcs; exact Hcs).
    clear Hcs.
    eexists _, _. split; [run_all; reflexivity|]. real_ops.
    rewrite Hc, Hs, !Hbb.
    split; [apply chirp_next_sq; exact Hi|].
    assert (Hri : forall i', 0 <= i' < n -> i' <> i ->
              bdr <> bdi \/ odr + i' * sdr <> odi + i * sdi).
    { intros i' Hi' _. destruct (Z.eq_dec bdr bdi) as [He|He]; [right|left; exact He].
      apply Hdv; [lia|lia|exact He]. }
    assert (Hrr : forall i', i' <> i -> odr + i' * sdr <> odr + i * sdr).
    { intros i' Hne He. apply Hne. apply (Z.mul_cancel_r _ _ sdr Hsdr). lia. }
    assert (Hii : forall i', i' <> i -> odi + i' * sdi <> odi + i * sdi).
    { intros i' Hne He. apply Hne. apply (Z.mul_cancel_r _ _ sdi Hsdi). lia. }
    split.
    + intros i' Hi'. unfold cplx, cell. destruct (Z.eq_dec i' i) as [->|Hne].
      * rewrite cells_set_same. rewrite cells_set_other.
        -- rewrite cells_set_same. rewrite <- Ew. unfold pair_at, Cmul, fst, snd. f_equal; ring.
        -- destruct (Z.eq_dec bdr bdi) as [He|He]; [right|left; exact He].
           apply Hdv; [lia|lia|exact He].
      * pose proof (Hdone i' ltac:(lia)) as Hv. unfold cplx, cell in Hv.
        rewrite <- Hv. f_equal.
        -- rewrite cells_set_other by (apply Hri; lia).
           rewrite cells_set_other by (right; apply Hrr; exact Hne). reflexivity.
        -- rewrite cells_set_other by (right; apply Hii; exact Hne).
           rewrite cells_set_other; [reflexivity|].
           destruct (Z.eq_dec bdi bdr) as [He|He]; [right|left; exact He].
           intro Heq. apply (Hdv i i' ltac:(lia) ltac:(lia)); [congruence|lia].
    + intros b o H1 H2. rewrite <- (HF b o H1 H2).
      rewrite cells_set_other.
      * rewrite cells_set_other; [reflexivity|].
        destruct (Z.eq_dec b bdr) as [He|He]; [right|left; exact He].
        apply H1; [exact He|lia].
      * destruct (Z.eq_dec b bdi) as [He|He]; [right|left; exact He].
        apply H2; [exact He|lia].
Qed.

End Emit.

End Chirp.

(** * The chirp-z driver computes the transform *)

Lemma dft_ext (inverse : bool) (n : Z) (x y : Z -> R * R) (j : Z) :
  (forall k, 0 <= k < n -> x k = y k) -> dft inverse n x j = dft inverse n y j.
Proof.
  intro H. unfold dft. apply Csum_ext. intros k Hk. rewrite H by lia. reflexivity.
Qed.

Lemma Cscale_mul (c : R) (a : R * R) : Cscale c a = Cmul (c, 0%R) a.
Proof. unfold Cscale, Cmul, fst, snd. destruct a. f_equal; ring. Qed.

Lemma dft_scale (inverse : bool) (n : Z) (c : R) (x : Z -> R * R) (j : Z) :
  dft inverse n (fun k => Cscale c (x k)) j = Cscale c (dft inverse n x j).
Proof.
  unfold dft. rewrite Cscale_mul, <- Csum_mul_l. apply Csum_ext. intros k _.
  rewrite Cscale_mul. apply Cmul_assoc.
Qed.

Lemma malloc_run {T} (bytes : Z) (m : mem T) :
  heap_ok m bytes = true ->
  dbcf_malloc bytes m
  = Ok (Ptr (next_block m) 0) (mkMem (cells m) (next_block m + 1) (heap_ok m)).
Proof. intro H. unfold dbcf_malloc. rewrite H. reflexivity. Qed.

(** The block counter after a run of loads and stores. *)
Ltac grows_of H :=
  match type of H with
  | ?c ?m = Ok ?a ?m' =>
      apply (fun G : grows (T:=R) c => proj1 (G m a m' H));
      grow ltac:(first [apply grows_aref | apply grows_aset])
  end.

Section Npot.

Variables (hook : option (Z -> R * R)) (hook_npot : option (Z -> Z -> R * R)).

Let ER : Elem R := Elem_R hook hook_npot.
Local Existing Instance ER.

Variables (cfg : Config) (inverse : bool).

Hypothesis Hasserts : static_asserts cfg.
Hypothesis Hseed : forall k, 0 <= k -> dbcF_cexpm1 k = expm1_exact k.
Hypothesis Hseed_npot :
  forall p q, 0 < p -> 0 < q -> dbcF_cexpm1_npot p q = expm1_npot_exact p q.

(** [M] ends up as the real number [2^log2m]. *)
Lemma log2m_loop_real (n : Z) (m : mem R) (fuel : nat) :
  forall q, 0 <= q -> 2 * n - 1 <= 2 ^ (q + Z.of_nat fuel) ->
  exists l, 0 <= l /\ 2 * n - 1 <= 2 ^ l /\
    log2m_loop fuel n q (IZR (2 ^ q)) m = Ok (l, IZR (2 ^ l)) m.
Proof.
  induction fuel as [|fuel IH]; intros q Hq Hf; cbn [log2m_loop];
    rewrite POW2_eq; destruct (Z.ltb_spec (2 ^ q) (2 * n - 1)) as [Hlt|Hge].
  - rewrite Z.add_0_r in Hf. lia.
  - exists q. split; [lia|]. split; [lia|reflexivity].
  - replace (Tadd (IZR (2 ^ q)) (IZR (2 ^ q))) with (IZR (2 ^ (q + 1))).
    + apply IH; [lia|]. rewrite Nat2Z.inj_succ in Hf.
      replace (q + 1 + Z.of_nat fuel) with (q + Z.succ (Z.of_nat fuel)) by lia.
      exact Hf.
    + rewrite Z.pow_add_r by lia. change (2 ^ 1) with 2. rewrite mult_IZR.
      cbv beta iota delta [Tadd ER Elem_R]. ring.
  - exists q. split; [lia|]. split; [lia|reflexivity].
Qed.

Lemma fft_npot_spec (n bsr osr ssr bsi osi ssi bdr odr sdr bdi odi sdi : Z)
    (scale : R) (m : mem R) :
  1 <= n -> sdr <> 0 -> sdi <> 0 ->
  disjoint_views bdr odr sdr bdi odi sdi n ->
  bsr < next_block m -> bsi < next_block m ->
  bdr < next_block m -> bdi < next_block m ->
  (forall bytes, heap_ok m bytes = true) ->
  exists m',
    dbcF_fft_npot cfg n (Ptr bsr osr) (Ptr bsi osi) ssr ssi (Ptr bdr odr) (Ptr bdi odi)
      sdr sdi inverse scale m = Ok 0 m' /\
    (forall j, 0 <= j < n ->
       cplx m' bdr odr sdr bdi odi sdi j
       = Cscale scale (dft inverse n (cplx m bsr osr ssr bsi osi ssi) j)) /\
    (forall b o, b < next_block m ->
       (b = bdr -> forall k, 0 <= k < n -> o <> odr + k * sdr) ->
       (b = bdi -> forall k, 0 <= k < n -> o <> odi + k * sdi) ->
       cells m' b o = cells m b o).
Proof.
  intros Hn Hsdr Hsdi Hdv Hbsr Hbsi Hbdr Hbdi Hheap.
  unfold dbcF_fft_npot. cbv zeta.
  assert (HO : @DBCF_ONE R ER = 1%R) by apply R_ONE.
  destruct (log2m_loop_real n m (Z.to_nat (2 * n)) 0 ltac:(lia)) as (q & Hq & Hmm & Hrun0).
  { rewrite Z.add_0_l, Z2Nat.id by lia.
    pose proof (Z.pow_gt_lin_r 2 (2 * n) ltac:(lia) ltac:(lia)). lia. }
  change (IZR (2 ^ 0)) with 1%R in Hrun0. rewrite <- HO in Hrun0.
  rewrite (bind_run _ _ _ _ _ Hrun0). cbv beta iota.
  rewrite !POW2_eq.
  rewrite (bind_run _ _ _ _ _ (malloc_run _ m (Hheap _))).
  cbv beta iota delta [is_null padd].
  remember (next_block m) as bb eqn:Ebb.
  set (mA := mkMem (cells m) (bb + 1) (heap_ok m)).
  assert (Hpos : 0 < 2 ^ q) by (apply pow2_pos; exact Hq).
  (* the table *)
  destruct (compute_twiddles_npot_run hook hook_npot n inverse
              bb (0 + (4 * 2 ^ q + 0 * n)) bb (0 + (4 * 2 ^ q + 2 * n)) Hn
              ltac:(intros; right; lia) ltac:(intros; apply Hseed_npot; lia) mA)
    as (mB & HrunB & HtB & HfB).
  rewrite (bind_run _ _ _ _ _ HrunB).
  pose proof (proj1 (grows_compute_twiddles_npot _ _ _ _ _ _ _ HrunB)) as HgB.
  change (next_block mA) with (bb + 1) in HgB.
  (* the chirped input and the chirp *)
  destruct (chirp_fill hook hook_npot inverse n (2 ^ q) bb Hn Hmm bsr osr ssr bsi osi ssi
              ltac:(lia) ltac:(lia) mB HtB)
    as (j1 & mC & HrunC & _ & HaC & HbC & HbC' & HfC).
  rewrite (bind_run _ _ _ _ _ HrunC).
  assert (HgC : next_block mB <= next_block mC) by grows_of HrunC.
  (* padding *)
  destruct (zero_pairs hook hook_npot bb (0 + 0 * 2 ^ q) (0 + 1 * 2 ^ q) n (2 ^ q) mC
              ltac:(lia)) as (mD & HrunD & HzD & HfD).
  rewrite (bind_run _ _ _ _ _ HrunD).
  assert (HgD : next_block mC <= next_block mD) by grows_of HrunD.
  destruct (zero_pairs hook hook_npot bb (0 + 2 * 2 ^ q) (0 + 3 * 2 ^ q) n (2 ^ q - n + 1) mD
              ltac:(lia)) as (mD' & HrunD' & _ & HfD').
  rewrite (bind_run _ _ _ _ _ HrunD').
  assert (HgD' : next_block mD <= next_block mD') by grows_of HrunD'.
  (* the two forward transforms *)
  assert (Hdab : forall o1 o2, o1 + 2 ^ q <= o2 ->
            disjoint_views bb o1 1 bb o2 1 (2 ^ q))
    by (intros o1 o2 Ho i k Hi Hk _; lia).
  assert (Hdba : forall o1 o2, o1 + 2 ^ q <= o2 ->
            disjoint_views bb o2 1 bb o1 1 (2 ^ q))
    by (intros o1 o2 Ho i k Hi Hk _; lia).
  destruct (fft_pot_spec hook hook_npot cfg false Hasserts Hseed q
              (Ptr bb (0 + 0 * 2 ^ q)) (Ptr bb (0 + 1 * 2 ^ q)) 1 1
              bb (0 + 0 * 2 ^ q) 1 bb (0 + 1 * 2 ^ q) 1
              (Tdiv DBCF_ONE (IZR (2 ^ q))) mD' Hq ltac:(lia) ltac:(lia))
    as (mE & HrunE & HvE & HfE);
    [apply Hdab; lia|lia|lia
    |split; [lia|right; left; repeat split]
    |split; [lia|right; left; repeat split]
    |apply Hdba; lia|right; split; reflexivity|].
  rewrite (bind_run _ _ _ _ _ HrunE).
  pose proof (proj1 (grows_fft_pot cfg _ _ _ _ _ _ _ _ _ _ _ _ _ _ HrunE)) as HgE.
  destruct (fft_pot_spec hook hook_npot cfg false Hasserts Hseed q
              (Ptr bb (0 + 2 * 2 ^ q)) (Ptr bb (0 + 3 * 2 ^ q)) 1 1
              bb (0 + 2 * 2 ^ q) 1 bb (0 + 3 * 2 ^ q) 1
              DBCF_ONE mE Hq ltac:(lia) ltac:(lia))
    as (mF & HrunF & HvF & HfF);
    [apply Hdab; lia|lia|lia
    |split; [lia|right; left; repeat split]
    |split; [lia|right; left; repeat split]
    |apply Hdba; lia|right; split; reflexivity|].
  rewrite (bind_run _ _ _ _ _ HrunF).
  pose proof (proj1 (grows_fft_pot cfg _ _ _ _ _ _ _ _ _ _ _ _ _ _ HrunF)) as HgF.
  (* the product *)
  destruct (spectra_product hook hook_npot n (2 ^ q) bb Hn Hmm mF ltac:(lia))
    as (mG & HrunG & HvG & HfG).
  rewrite (bind_run _ _ _ _ _ HrunG).
  assert (HgG : next_block mF <= next_block mG) by grows_of HrunG.
  (* the inverse transform *)
  destruct (fft_pot_spec hook hook_npot cfg true Hasserts Hseed q
              (Ptr bb (0 + 0 * 2 ^ q)) (Ptr bb (0 + 1 * 2 ^ q)) 1 1
              bb (0 + 0 * 2 ^ q) 1 bb (0 + 1 * 2 ^ q) 1
              scale mG Hq ltac:(lia) ltac:(lia))
    as (mH & HrunH & HvH & HfH);
    [apply Hdab; lia|lia|lia
    |split; [lia|right; left; repeat split]
    |split; [lia|right; left; repeat split]
    |apply Hdba; lia|right; split; reflexivity|].
  rewrite (bind_run _ _ _ _ _ HrunH).
  (* what the steps left alone *)
  assert (Hlow : forall b o, b < bb -> cells mH b o = cells m b o).
  { intros b o Hb.
    rewrite HfH by (try lia; intro; lia).
    rewrite HfG by (left; lia).
    rewrite HfF by (try lia; intro; lia).
    rewrite HfE by (try lia; intro; lia).
    rewrite HfD' by (intro; lia).
    rewrite HfD by (intro; lia).
    rewrite HfC by (left; lia).
    rewrite HfB by (intro; lia). reflexivity. }
  assert (Htab : forall o, 4 * 2 ^ q <= o -> cells mH bb o = cells mB bb o).
  { intros o Ho.
    rewrite HfH by (try lia; intros _ k Hk; lia).
    rewrite HfG by (right; lia).
    rewrite HfF by (try lia; intros _ k Hk; lia).
    rewrite HfE by (try lia; intros _ k Hk; lia).
    rewrite HfD' by (intros _ k Hk; lia).
    rewrite HfD by (intros _ k Hk; lia).
    rewrite HfC by (right; lia). reflexivity. }
  assert (HtH : npot_table inverse (2 * n) bb (0 + (4 * 2 ^ q + 0 * n)) bb
                  (0 + (4 * 2 ^ q + 2 * n)) (2 * n) mH).
  { intros k Hk. rewrite !Htab by lia. apply HtB. exact Hk. }
  (* the last loop *)
  destruct (chirp_emit hook hook_npot inverse n (2 ^ q) bb Hn bdr odr sdr bdi odi sdi
              ltac:(lia) ltac:(lia) Hsdr Hsdi Hdv mH HtH)
    as (j2 & mI & HrunI & _ & HvI & HfI).
  rewrite (bind_run _ _ _ _ _ HrunI).
  exists mI. split; [reflexivity|]. split.
  - intros j Hj. rewrite HvI by exact Hj.
    set (s1 := Tdiv DBCF_ONE (IZR (2 ^ q))) in *.
    assert (Hs1 : (s1 * IZR (2 ^ q))%R = 1%R).
    { unfold s1. rewrite HO. cbv beta iota delta [Tdiv ER Elem_R]. field.
      apply not_0_IZR. lia. }
    set (a0 := fun k => pair_at mD' bb (0 + 0 * 2 ^ q) (0 + 1 * 2 ^ q) k).
    set (b0 := fun k => pair_at mD' bb (0 + 2 * 2 ^ q) (0 + 3 * 2 ^ q) k).
    assert (Hunit : forall mX o1 o2 k, cplx mX bb o1 1 bb o2 1 k = pair_at mX bb o1 o2 k).
    { intros. unfold cplx, cell, pair_at. rewrite Z.mul_1_r. reflexivity. }
    assert (Hsrc : forall mX o1 o2 k,
              (src_val mX (Ptr bb o1) 1 k, src_val mX (Ptr bb o2) 1 k)
              = pair_at mX bb o1 o2 k).
    { intros. unfold src_val, pair_at. rewrite Z.mul_1_r. reflexivity. }
    assert (HE : forall k, 0 <= k < 2 ^ q ->
              pair_at mE bb (0 + 0 * 2 ^ q) (0 + 1 * 2 ^ q) k
              = Cscale s1 (dft false (2 ^ q) a0 k)).
    { intros k Hk. rewrite <- Hunit, HvE by exact Hk. f_equal.
      apply dft_ext. intros k' _. apply Hsrc. }
    assert (HbE : forall k, 0 <= k < 2 ^ q ->
              pair_at mE bb (0 + 2 * 2 ^ q) (0 + 3 * 2 ^ q) k = b0 k).
    { intros k Hk. unfold b0, pair_at.
      rewrite !HfE by (try lia; intros _ k' Hk'; lia). reflexivity. }
    assert (HF : forall k, 0 <= k < 2 ^ q ->
              pair_at mF bb (0 + 2 * 2 ^ q) (0 + 3 * 2 ^ q) k = dft false (2 ^ q) b0 k).
    { intros k Hk. rewrite <- Hunit, HvF by exact Hk. rewrite HO, Cscale_1.
      apply dft_ext. intros k' Hk'. rewrite Hsrc. apply HbE. exact Hk'. }
    assert (HaF : forall k, 0 <= k < 2 ^ q ->
              pair_at mF bb (0 + 0 * 2 ^ q) (0 + 1 * 2 ^ q) k
              = Cscale s1 (dft false (2 ^ q) a0 k)).
    { intros k Hk. rewrite <- HE by exact Hk. unfold pair_at.
      rewrite !HfF by (try lia; intros _ k' Hk'; lia). reflexivity. }
    assert (HH : pair_at mH bb (0 + 0 * 2 ^ q) (0 + 1 * 2 ^ q) j
                 = Cscale scale
                     (dft true (2 ^ q)
                        (fun k => Cmul (dft false (2 ^ q) b0 k)
                                       (Cscale s1 (dft false (2 ^ q) a0 k))) j)).
    { rewrite <- Hunit, HvH by lia. f_equal. apply dft_ext. intros k Hk.
      rewrite Hsrc, HvG by exact Hk. rewrite HF, HaF by exact Hk. reflexivity. }
    rewrite HH.
    rewrite (dft_ext true (2 ^ q) _
               (fun k => Cscale s1 (Cmul (dft false (2 ^ q) b0 k)
                                         (dft false (2 ^ q) a0 k)))).
    2:{ intros k _. rewrite !Cscale_mul.
        rewrite <- !Cmul_assoc, (Cmul_comm (dft false (2 ^ q) b0 k) (s1, 0%R)).
        reflexivity. }
    rewrite dft_scale, dft_convolution by lia.
    assert (Hcancel : forall z, Cscale s1 (Cmul (IZR (2 ^ q), 0%R) z) = z).
    { intros [zr zi]. unfold Cscale, Cmul, fst, snd. f_equal.
      - transitivity ((s1 * IZR (2 ^ q)) * zr)%R; [ring|rewrite Hs1; ring].
      - transitivity ((s1 * IZR (2 ^ q)) * zi)%R; [ring|rewrite Hs1; ring]. }
    rewrite Hcancel.
    rewrite <- (bluestein inverse n (2 ^ q) (cplx m bsr osr ssr bsi osi ssi) a0 b0 j
                  ltac:(lia) Hmm Hj).
    + rewrite !Cscale_mul, <- !Cmul_assoc.
      rewrite (Cmul_comm (root inverse (2 * n) (j * j)) (scale, 0%R)). reflexivity.
    + intros i Hi. unfold a0, pair_at.
      rewrite !HfD', !HfD by (intros _ k Hk; lia).
      pose proof (HaC i Hi) as Hv. unfold pair_at in Hv. rewrite Hv. f_equal.
      unfold cplx, cell. rewrite !HfB by (intro; lia). reflexivity.
    + intros i Hi. unfold a0, pair_at.
      rewrite !HfD' by (intros _ k Hk; lia). apply HzD. exact Hi.
    + intros i Hi. unfold b0, pair_at.
      rewrite !HfD', !HfD by (intros _ k Hk; lia). apply HbC. exact Hi.
    + intros i Hi. unfold b0, pair_at.
      rewrite !HfD', !HfD by (intros _ k Hk; lia). apply HbC'. exact Hi.
  - intros b o Hb H1 H2. rewrite HfI by assumption. apply Hlow. exact Hb.
Qed.

End Npot.

(** The entry surface on a size that is no power of two. *)
Lemma other_sizes_spec
    (hook : option (Z -> R * R)) (hook_npot : option (Z -> Z -> R * R))
    (cfg : Config) (inverse : bool)
    (n bsr osr ssr bsi osi ssi bdr odr sdr bdi odi sdi : Z) (scale : R) (m : mem R) :
  static_asserts cfg ->
  DBC_FFT_NO_NPOT cfg = false ->
  (forall k, 0 <= k -> @dbcF_cexpm1 R (Elem_R hook hook_npot) k = expm1_exact k) ->
  (forall p q, 0 < p -> 0 < q ->
     @dbcF_cexpm1_npot R (Elem_R hook hook_npot) p q = expm1_npot_exact p q) ->
  1 <= n -> Z.land n (n - 1) <> 0 ->
  sdr <> 0 -> sdi <> 0 ->
  disjoint_views bdr odr sdr bdi odi sdi n ->
  bsr < next_block m -> bsi < next_block m ->
  bdr < next_block m -> bdi < next_block m ->
  alias_rejected (Ptr bsr osr) (Ptr bsi osi) ssr ssi (Ptr bdr odr) (Ptr bdi odi) sdr sdi
  = false ->
  (forall bytes, heap_ok m bytes = true) ->
  exists m',
    @dbcF_fft R (Elem_R hook hook_npot) cfg n (Ptr bsr osr) (Ptr bsi osi) ssr ssi
      (Ptr bdr odr) (Ptr bdi odi) sdr sdi inverse scale m = Ok 0 m' /\
    (forall j, 0 <= j < n ->
       cplx m' bdr odr sdr bdi odi sdi j
       = Cscale scale (dft inverse n (cplx m bsr osr ssr bsi osi ssi) j)) /\
    (forall b o, b < next_block m ->
       (b = bdr -> forall k, 0 <= k < n -> o <> odr + k * sdr) ->
       (b = bdi -> forall k, 0 <= k < n -> o <> odi + k * sdi) ->
       cells m' b o = cells m b o).
Proof.
  intros Ha Hnpot Hseed Hseedn Hn Hland Hsdr Hsdi Hdv Hbsr Hbsi Hbdr Hbdi Hal Hheap.
  rewrite fft_dispatch by assumption.
  destruct (Z.eqb_spec (Z.land n (n - 1)) 0) as [H0|_]; [contradiction|].
  cbn [negb]. rewrite Hnpot.
  apply (fft_npot_spec hook hook_npot cfg inverse Ha Hseed Hseedn); assumption.
Qed.

(** * The other sizes *)

Lemma exact_seeds_npot_ok (hook : option (Z -> R * R)) (p q : Z) :
  @dbcF_cexpm1_npot R (Elem_R hook exact_seeds_npot) p q = expm1_npot_exact p q.
Proof. reflexivity. Qed.

(** X16.  [dbcF_compute_twiddles_npot] for an even size [2 * N], over
    the reals with exact seeds: from two tables that share no cell it
    returns with entry [k] equal to [exp(-2*pi*i*k/(2*N))] (forward) or
    [exp(+2*pi*i*k/(2*N))] (inverse) for every [k < 2 * N]: the first
    [N / 2 + 1] by doubling from the seeds, the rest by symmetry.
    Nothing outside the two tables changes. *)
Theorem npot_twiddle_table_exact
    (hook : option (Z -> R * R)) (hook_npot : option (Z -> Z -> R * R))
    (N : Z) (inverse : bool) (br or bi oi : Z) (m : mem R) :
  1 <= N ->
  (forall a b, 0 <= a < 2 * N -> 0 <= b < 2 * N -> br <> bi \/ or + a <> oi + b) ->
  (forall p, 0 < p ->
     @dbcF_cexpm1_npot R (Elem_R hook hook_npot) p (2 * N) = expm1_npot_exact p (2 * N)) ->
  exists m',
    @dbcF_compute_twiddles_npot R (Elem_R hook hook_npot) (2 * N) (Ptr br or) (Ptr bi oi)
      inverse m = Ok tt m' /\
    (forall k, 0 <= k < 2 * N ->
       (cells m' br (or + k), cells m' bi (oi + k)) = root inverse (2 * N) k) /\
    (forall b o,
       (b = br -> forall k, 0 <= k < 2 * N -> o <> or + k) ->
       (b = bi -> forall k, 0 <= k < 2 * N -> o <> oi + k) ->
       cells m' b o = cells m b o).
Proof.
  intros HN Hd Hseed.
  exact (compute_twiddles_npot_run hook hook_npot N inverse br or bi oi HN Hd Hseed m).
Qed.

Lemma npot_twiddle_table_exact_witness :
  exists m',
    @dbcF_compute_twiddles_npot R (Elem_R None exact_seeds_npot) (2 * 3) (Ptr 3 0) (Ptr 4 0)
      false npot_mem = Ok tt m' /\
    (forall k, 0 <= k < 2 * 3 ->
       (cells m' 3 (0 + k), cells m' 4 (0 + k)) = root false (2 * 3) k) /\
    (forall b o,
       (b = 3 -> forall k, 0 <= k < 2 * 3 -> o <> 0 + k) ->
       (b = 4 -> forall k, 0 <= k < 2 * 3 -> o <> 0 + k) ->
       cells m' b o = cells npot_mem b o).
Proof.
  apply (npot_twiddle_table_exact None exact_seeds_npot 3 false 3 0 4 0 npot_mem);
    [ lia | intros; left; lia | intros; apply exact_seeds_npot_ok ].
Defined.

(** X17.  The entry surface on a size that is no power of two, over the
    reals with exact seeds and an allocator that has memory.  The
    destination arrays have nonzero strides and no common cell, the
    sources are not null, and the pointer checks pass; the sources may
    overlap the destination in any other way.  Then the call returns 0,
    destination element [j] is [scale] times the transform, at [j], of
    the source sequence, for every [scale] and all destination strides,
    and no cell of the caller outside the destination arrays changes. *)
Theorem other_sizes_transform
    (hook : option (Z -> R * R)) (hook_npot : option (Z -> Z -> R * R))
    (cfg : Config) (inverse : bool)
    (n bsr osr ssr bsi osi ssi bdr odr sdr bdi odi sdi : Z) (scale : R) (m : mem R) :
  static_asserts cfg ->
  DBC_FFT_NO_NPOT cfg = false ->
  (forall k, 0 <= k -> @dbcF_cexpm1 R (Elem_R hook hook_npot) k = expm1_exact k) ->
  (forall p q, 0 < p -> 0 < q ->
     @dbcF_cexpm1_npot R (Elem_R hook hook_npot) p q = expm1_npot_exact p q) ->
  1 <= n -> Z.land n (n - 1) <> 0 ->
  sdr <> 0 -> sdi <> 0 ->
  disjoint_views bdr odr sdr bdi odi sdi n ->
  bsr < next_block m -> bsi < next_block m ->
  bdr < next_block m -> bdi < next_block m ->
  alias_rejected (Ptr bsr osr) (Ptr bsi osi) ssr ssi (Ptr bdr odr) (Ptr bdi odi) sdr sdi
  = false ->
  (forall bytes, heap_ok m bytes = true) ->
  exists m',
    @dbcF_fft R (Elem_R hook hook_npot) cfg n (Ptr bsr osr) (Ptr bsi osi) ssr ssi
      (Ptr bdr odr) (Ptr bdi odi) sdr sdi inverse scale m = Ok 0 m' /\
    (forall j, 0 <= j < n ->
       cplx m' bdr odr sdr bdi odi sdi j
       = Cscale scale (dft inverse n (cplx m bsr osr ssr bsi osi ssi) j)) /\
    (forall b o, b < next_block m ->
       (b = bdr -> forall k, 0 <= k < n -> o <> odr + k * sdr) ->
       (b = bdi -> forall k, 0 <= k < n -> o <> odi + k * sdi) ->
       cells m' b o = cells m b o).
Proof. apply other_sizes_spec. Qed.

Lemma other_sizes_transform_witness :
  exists m',
    @dbcF_fft R (Elem_R exact_seeds exact_seeds_npot) default_config 3 (Ptr 1 0) (Ptr 2 0) 1 1
      (Ptr 3 0) (Ptr 4 0) 1 1 false 2%R npot_mem = Ok 0 m' /\
    (forall j, 0 <= j < 3 ->
       cplx m' 3 0 1 4 0 1 j
       = Cscale 2 (dft false 3 (cplx npot_mem 1 0 1 2 0 1) j)) /\
    (forall b o, b < next_block npot_mem ->
       (b = 3 -> forall k, 0 <= k < 3 -> o <> 0 + k * 1) ->
       (b = 4 -> forall k, 0 <= k < 3 -> o <> 0 + k * 1) ->
       cells m' b o = cells npot_mem b o).
Proof.
  apply (other_sizes_transform exact_seeds exact_seeds_npot default_config false
           3 1 0 1 2 0 1 3 0 1 4 0 1 2%R npot_mem);
    [ exact default_static_asserts
    | reflexivity
    | intros; apply exact_seeds_ok; assumption
    | intros; apply exact_seeds_npot_ok
    | lia
    | vm_compute; discriminate
    | lia | lia
    | apply blocks_apart; lia
    | vm_compute; reflexivity | vm_compute; reflexivity
    | vm_compute; reflexivity | vm_compute; reflexivity
    | reflexivity
    | intro; reflexivity ].
Defined.

(** X18.  The interleaved entry points on a size that is no power of
    two, in place ([src == dst]) or with the source in another block:
    for every real [scale], [dbc_fft_i] returns 0 and leaves [scale]
    times the forward transform of the [n] source pairs in the
    destination pairs, [dbc_ifft_i] [scale] times the inverse transform
    (exact seeds, an allocator that has memory). *)
Theorem interleaved_other_sizes_scaled
    (hook : option (Z -> R * R)) (hook_npot : option (Z -> Z -> R * R))
    (cfg : Config) (n bs os b o : Z) (scale : R) (m : mem R) :
  static_asserts cfg ->
  DBC_FFT_NO_NPOT cfg = false ->
  (forall k, 0 <= k -> @dbcF_cexpm1 R (Elem_R hook hook_npot) k = expm1_exact k) ->
  (forall p q, 0 < p -> 0 < q ->
     @dbcF_cexpm1_npot R (Elem_R hook hook_npot) p q = expm1_npot_exact p q) ->
  1 <= n -> Z.land n (n - 1) <> 0 ->
  bs < next_block m -> b < next_block m ->
  bs <> b \/ (bs = b /\ os = o) ->
  (forall bytes, heap_ok m bytes = true) ->
  (exists m',
     @dbc_fft_i R (Elem_R hook hook_npot) cfg n (Ptr bs os) (Ptr b o) scale m = Ok 0 m' /\
     forall j, 0 <= j < n ->
       cplx m' b o 2 b (o + 1) 2 j
       = Cscale scale (dft false n (cplx m bs os 2 bs (os + 1) 2) j)) /\
  (exists m',
     @dbc_ifft_i R (Elem_R hook hook_npot) cfg n (Ptr bs os) (Ptr b o) scale m = Ok 0 m' /\
     forall j, 0 <= j < n ->
       cplx m' b o 2 b (o + 1) 2 j
       = Cscale scale (dft true n (cplx m bs os 2 bs (os + 1) 2) j)).
Proof.
  intros Ha Hnpot Hseed Hseedn Hn Hland Hbs Hb Hplace Hheap.
  assert (Hal : alias_rejected (Ptr bs os) (Ptr bs (os + 1)) 2 2 (Ptr b o) (Ptr b (o + 1)) 2 2
                = false).
  { unfold alias_rejected. cbn [ptr_eqb]. rewrite !Z.eqb_refl. cbn [negb].
    rewrite !andb_false_r. cbn [orb].
    destruct Hplace as [Hne|[-> ->]].
    - destruct (Z.eqb_spec bs b); [contradiction|]. reflexivity.
    - destruct (Z.eqb_spec (o + 1) o); [lia|]. destruct (Z.eqb_spec o (o + 1)); [lia|].
      rewrite !andb_false_r. reflexivity. }
  assert (Hd : disjoint_views b o 2 b (o + 1) 2 n) by (intros i j _ _ _; lia).
  unfold dbc_fft_i, dbc_ifft_i. cbv beta iota delta [is_null padd].
  split.
  - destruct (other_sizes_spec hook hook_npot cfg false n bs os 2 bs (os + 1) 2
                b o 2 b (o + 1) 2 scale m Ha Hnpot Hseed Hseedn Hn Hland
                ltac:(lia) ltac:(lia) Hd Hbs Hbs Hb Hb Hal Hheap) as (m' & Hrun & Hv & _).
    exists m'. split; [exact Hrun|exact Hv].
  - destruct (other_sizes_spec hook hook_npot cfg true n bs os 2 bs (os + 1) 2
                b o 2 b (o + 1) 2 scale m Ha Hnpot Hseed Hseedn Hn Hland
                ltac:(lia) ltac:(lia) Hd Hbs Hbs Hb Hb Hal Hheap) as (m' & Hrun & Hv & _).
    exists m'. split; [exact Hrun|exact Hv].
Qed.

Lemma interleaved_other_sizes_scaled_witness :
  (exists m',
     @dbc_fft_i R (Elem_R exact_seeds exact_seeds_npot) default_config 3 (Ptr 1 0) (Ptr 1 0)
       2%R pair_mem = Ok 0 m' /\
     forall j, 0 <= j < 3 ->
       cplx m' 1 0 2 1 (0 + 1) 2 j
       = Cscale 2 (dft false 3 (cplx pair_mem 1 0 2 1 (0 + 1) 2) j)) /\
  (exists m',
     @dbc_ifft_i R (Elem_R exact_seeds exact_seeds_npot) default_config 3 (Ptr 1 0) (Ptr 1 0)
       2%R pair_mem = Ok 0 m' /\
     forall j, 0 <= j < 3 ->
       cplx m' 1 0 2 1 (0 + 1) 2 j
       = Cscale 2 (dft true 3 (cplx pair_mem 1 0 2 1 (0 + 1) 2) j)).
Proof.
  apply (interleaved_other_sizes_scaled exact_seeds exact_seeds_npot default_config
           3 1 0 1 0 2%R pair_mem);
    [ exact default_static_asserts
    | reflexivity
    | intros; apply exact_seeds_ok; assumption
    | intros; apply exact_seeds_npot_ok
    | lia
    | vm_compute; discriminate
    | vm_compute; reflexivity | vm_compute; reflexivity
    | right; split; reflexivity
    | intro; reflexivity ].
Defined.

(** * Every size, and back again *)

(** [n & (n - 1) == 0] picks the powers of two. *)
Lemma land_zero_pow2 (n : Z) :
  1 <= n -> Z.land n (n - 1) = 0 -> exists p, 0 <= p /\ n = 2 ^ p.
Proof.
  intros Hn Hl. exists (Z.log2 n).
  pose proof (Z.log2_nonneg n) as Hp. split; [exact Hp|].
  pose proof (Z.log2_spec n ltac:(lia)) as [Hlo Hhi].
  destruct (Z.eq_dec n (2 ^ Z.log2 n)) as [He|Hne]; [exact He|exfalso].
  assert (Hl1 : Z.log2 (n - 1) = Z.log2 n).
  { apply Z.log2_unique; [exact Hp|]. lia. }
  pose proof (Z.bit_log2 n ltac:(lia)) as B1.
  pose proof (Z.bit_log2 (n - 1) ltac:(lia)) as B2. rewrite Hl1 in B2.
  assert (B : Z.testbit (Z.land n (n - 1)) (Z.log2 n) = true)
    by (rewrite Z.land_spec, B1, B2; reflexivity).
  rewrite Hl, Z.bits_0 in B. discriminate B.
Qed.

Lemma root_negb (inverse : bool) (n x : Z) :
  root (negb inverse) n x = root inverse n (- x).
Proof.
  rewrite root_neg. unfold root, cis, signed, fst, snd.
  destruct inverse; cbn [negb]; f_equal; ring.
Qed.

(** The transform in one direction after the transform in the other
    gives [n] times the input. *)
Lemma dft_inversion (inverse : bool) (n : Z) (x : Z -> R * R) (t : Z) :
  0 < n -> 0 <= t < n ->
  dft (negb inverse) n (dft inverse n x) t = Cmul (IZR n, 0%R) (x t).
Proof.
  intros Hn Ht. unfold dft.
  rewrite (Csum_ext _ _ (fun j =>
    Csum (Z.to_nat n) (fun k =>
      Cmul (x (Z.of_nat k)) (root inverse n (Z.of_nat j * (Z.of_nat k - t)))))).
  2:{ intros j _. rewrite root_negb. rewrite <- Csum_mul_r. apply Csum_ext. intros k _.
      rewrite Cmul_assoc, root_add by lia. do 2 f_equal. ring. }
  rewrite Csum_swap.
  rewrite (Csum_single (Z.to_nat n) _ (Z.to_nat t)).
  - rewrite Csum_mul_l, root_sum by lia. rewrite Z2Nat.id by lia.
    rewrite Z.sub_diag, Z.mod_0_l by lia. cbn [Z.eqb]. apply Cmul_comm.
  - lia.
  - intros k Hk Hne. rewrite Csum_mul_l, root_sum by lia.
    destruct (Z.eqb_spec ((Z.of_nat k - t) mod n) 0) as [H0|_]; [|apply Cmul_0_r].
    exfalso. apply Hne.
    apply Z.mod_divide in H0; [|lia]. destruct H0 as [c Hc].
    assert (c = 0) by nia. lia.
Qed.

Section AnySize.

Variables (hook : option (Z -> R * R)) (hook_npot : option (Z -> Z -> R * R)).

Let ER : Elem R := Elem_R hook hook_npot.
Local Existing Instance ER.

Variable cfg : Config.

Hypothesis Hasserts : static_asserts cfg.
Hypothesis Hnpot : DBC_FFT_NO_NPOT cfg = false.
Hypothesis Hseed : forall k, 0 <= k -> dbcF_cexpm1 k = expm1_exact k.
Hypothesis Hseed_npot :
  forall p q, 0 < p -> 0 < q -> dbcF_cexpm1_npot p q = expm1_npot_exact p q.

(** Contiguous planar arrays, every channel in place or in a block of
    its own. *)
Lemma planar_spec (inverse : bool) (n bsr osr bsi osi bdr odr bdi odi : Z)
    (scale : R) (m : mem R) :
  1 <= n -> bdr <> bdi ->
  bsr < next_block m -> bsi < next_block m ->
  bdr < next_block m -> bdi < next_block m ->
  (bsr = bdr /\ osr = odr) \/ (bsr <> bdr /\ bsr <> bdi) ->
  (bsi = bdi /\ osi = odi) \/ (bsi <> bdr /\ bsi <> bdi) ->
  (forall bytes, heap_ok m bytes = true) ->
  exists m',
    dbcF_fft cfg n (Ptr bsr osr) (Ptr bsi osi) 1 1 (Ptr bdr odr) (Ptr bdi odi) 1 1
      inverse scale m = Ok 0 m' /\
    (forall j, 0 <= j < n ->
       cplx m' bdr odr 1 bdi odi 1 j
       = Cscale scale (dft inverse n (cplx m bsr osr 1 bsi osi 1) j)) /\
    (forall b o, b < next_block m ->
       (b = bdr -> forall k, 0 <= k < n -> o <> odr + k * 1) ->
       (b = bdi -> forall k, 0 <= k < n -> o <> odi + k * 1) ->
       cells m' b o = cells m b o) /\
    next_block m <= next_block m' /\ heap_ok m' = heap_ok m.
Proof.
  intros Hn Hd Hbsr Hbsi Hbdr Hbdi Hpr Hpi Hheap.
  assert (Hal : alias_rejected (Ptr bsr osr) (Ptr bsi osi) 1 1 (Ptr bdr odr) (Ptr bdi odi) 1 1
                = false).
  { unfold alias_rejected. cbn [Z.eqb Pos.eqb negb]. rewrite !andb_false_r. cbn [orb].
    rewrite !ptr_eqb_neq; [reflexivity| |].
    - intro He. destruct Hpr as [[-> _]|[_ H]]; congruence.
    - intro He. destruct Hpi as [[-> _]|[H _]]; congruence. }
  assert (Hdv : disjoint_views bdr odr 1 bdi odi 1 n) by (apply blocks_apart; exact Hd).
  assert (Hg : forall r m', dbcF_fft cfg n (Ptr bsr osr) (Ptr bsi osi) 1 1 (Ptr bdr odr)
                              (Ptr bdi odi) 1 1 inverse scale m = Ok r m' ->
               next_block m <= next_block m' /\ heap_ok m' = heap_ok m).
  { intros r m' H. exact (grows_fft cfg _ _ _ _ _ _ _ _ _ _ _ _ _ _ H). }
  destruct (Z.eq_dec (Z.land n (n - 1)) 0) as [Hl|Hl].
  - destruct (land_zero_pow2 n Hn Hl) as (p & Hp & ->).
    assert (Hrun0 := fft_is_pot cfg p (Ptr bsr osr) (Ptr bsi osi) 1 1 (Ptr bdr odr)
                       (Ptr bdi odi) 1 1 inverse scale m Hp Hal).
    destruct (fft_pot_spec hook hook_npot cfg inverse Hasserts Hseed p
                (Ptr bsr osr) (Ptr bsi osi) 1 1 bdr odr 1 bdi odi 1 scale m
                Hp ltac:(lia) ltac:(lia) Hdv Hbdr Hbdi) as (m' & Hrun & Hv & Hf).
    + split; [exact Hbsr|]. right.
      destruct Hpr as [[-> ->]|[H _]]; [left; auto|right; apply blocks_apart; exact H].
    + split; [exact Hbsi|]. right.
      destruct Hpi as [[-> ->]|[_ H]]; [left; auto|right; apply blocks_apart; exact H].
    + apply blocks_apart. destruct Hpi as [[-> _]|[H _]]; congruence.
    + right. split; reflexivity.
    + exists m'. split; [exact (eq_trans Hrun0 Hrun)|]. split; [exact Hv|].
      split; [exact Hf|]. exact (Hg _ _ (eq_trans Hrun0 Hrun)).
  - destruct (other_sizes_spec hook hook_npot cfg inverse n bsr osr 1 bsi osi 1
                bdr odr 1 bdi odi 1 scale m Hasserts Hnpot Hseed Hseed_npot Hn Hl
                ltac:(lia) ltac:(lia) Hdv Hbsr Hbsi Hbdr Hbdi Hal Hheap)
      as (m' & Hrun & Hv & Hf).
    exists m'. split; [exact Hrun|]. split; [exact Hv|]. split; [exact Hf|].
    exact (Hg _ _ Hrun).
Qed.

(** One direction, then the other in place. *)
Lemma there_and_back (inverse : bool) (n bsr osr bsi osi bdr odr bdi odi : Z)
    (s1 s2 : R) (m : mem R) :
  1 <= n -> bdr <> bdi ->
  bsr < next_block m -> bsi < next_block m ->
  bdr < next_block m -> bdi < next_block m ->
  (bsr = bdr /\ osr = odr) \/ (bsr <> bdr /\ bsr <> bdi) ->
  (bsi = bdi /\ osi = odi) \/ (bsi <> bdr /\ bsi <> bdi) ->
  (forall bytes, heap_ok m bytes = true) ->
  (s1 * s2 * IZR n = 1)%R ->
  exists m1 m2,
    dbcF_fft cfg n (Ptr bsr osr) (Ptr bsi osi) 1 1 (Ptr bdr odr) (Ptr bdi odi) 1 1
      inverse s1 m = Ok 0 m1 /\
    dbcF_fft cfg n (Ptr bdr odr) (Ptr bdi odi) 1 1 (Ptr bdr odr) (Ptr bdi odi) 1 1
      (negb inverse) s2 m1 = Ok 0 m2 /\
    forall j, 0 <= j < n ->
      cplx m2 bdr odr 1 bdi odi 1 j = cplx m bsr osr 1 bsi osi 1 j.
Proof.
  intros Hn Hd Hbsr Hbsi Hbdr Hbdi Hpr Hpi Hheap Hs.
  destruct (planar_spec inverse n bsr osr bsi osi bdr odr bdi odi s1 m
              Hn Hd Hbsr Hbsi Hbdr Hbdi Hpr Hpi Hheap)
    as (m1 & Hrun1 & Hv1 & _ & Hnb & Hh).
  destruct (planar_spec (negb inverse) n bdr odr bdi odi bdr odr bdi odi s2 m1
              Hn Hd ltac:(lia) ltac:(lia) ltac:(lia) ltac:(lia)
              ltac:(left; auto) ltac:(left; auto)
              ltac:(intro; rewrite Hh; apply Hheap))
    as (m2 & Hrun2 & Hv2 & _).
  exists m1, m2. split; [exact Hrun1|]. split; [exact Hrun2|].
  intros j Hj. rewrite (Hv2 j Hj).
  rewrite (dft_ext (negb inverse) n _
             (fun k => Cscale s1 (dft inverse n (cplx m bsr osr 1 bsi osi 1) k)))
    by (intros k Hk; apply Hv1; exact Hk).
  rewrite dft_scale, dft_inversion by lia.
  destruct (cplx m bsr osr 1 bsi osi 1 j) as [zr zi].
  unfold Cscale, Cmul, fst, snd. f_equal.
  - transitivity ((s1 * s2 * IZR n) * zr)%R; [ring|rewrite Hs; ring].
  - transitivity ((s1 * s2 * IZR n) * zi)%R; [ring|rewrite Hs; ring].
Qed.

End AnySize.

(** X19.  The contiguous planar entry points on every size [n >= 1],
    power of two or not, over the reals with exact seeds and an
    allocator that has memory.  The two destination arrays lie in
    different blocks and each source channel is its destination (in
    place) or lies in a block of its own.  Then, for every real [scale],
    [dbc_fft_c] returns 0 and leaves
    [Y[j] = scale * sum_k X[k] * exp(-2*pi*i*j*k/n)] in the destination,
    and [dbc_ifft_c] does the same with [exp(+2*pi*i*j*k/n)]. *)
Theorem planar_transform_any_size
    (hook : option (Z -> R * R)) (hook_npot : option (Z -> Z -> R * R))
    (cfg : Config) (n bsr osr bsi osi bdr odr bdi odi : Z) (scale : R) (m : mem R) :
  static_asserts cfg ->
  DBC_FFT_NO_NPOT cfg = false ->
  (forall k, 0 <= k -> @dbcF_cexpm1 R (Elem_R hook hook_npot) k = expm1_exact k) ->
  (forall p q, 0 < p -> 0 < q ->
     @dbcF_cexpm1_npot R (Elem_R hook hook_npot) p q = expm1_npot_exact p q) ->
  1 <= n -> bdr <> bdi ->
  bsr < next_block m -> bsi < next_block m ->
  bdr < next_block m -> bdi < next_block m ->
  (bsr = bdr /\ osr = odr) \/ (bsr <> bdr /\ bsr <> bdi) ->
  (bsi = bdi /\ osi = odi) \/ (bsi <> bdr /\ bsi <> bdi) ->
  (forall bytes, heap_ok m bytes = true) ->
  (exists m',
     @dbc_fft_c R (Elem_R hook hook_npot) cfg n (Ptr bsr osr) (Ptr bsi osi)
       (Ptr bdr odr) (Ptr bdi odi) scale m = Ok 0 m' /\
     forall j, 0 <= j < n ->
       cplx m' bdr odr 1 bdi odi 1 j
       = Cscale scale (dft false n (cplx m bsr osr 1 bsi osi 1) j)) /\
  (exists m',
     @dbc_ifft_c R (Elem_R hook hook_npot) cfg n (Ptr bsr osr) (Ptr bsi osi)
       (Ptr bdr odr) (Ptr bdi odi) scale m = Ok 0 m' /\
     forall j, 0 <= j < n ->
       cplx m' bdr odr 1 bdi odi 1 j
       = Cscale scale (dft true n (cplx m bsr osr 1 bsi osi 1) j)).
Proof.
  intros Ha Hnpot Hseed Hseedn Hn Hd Hbsr Hbsi Hbdr Hbdi Hpr Hpi Hheap.
  unfold dbc_fft_c, dbc_ifft_c. split.
  - destruct (planar_spec hook hook_npot cfg Ha Hnpot Hseed Hseedn false n
                bsr osr bsi osi bdr odr bdi odi scale m
                Hn Hd Hbsr Hbsi Hbdr Hbdi Hpr Hpi Hheap) as (m' & Hrun & Hv & _).
    exists m'. split; assumption.
  - destruct (planar_spec hook hook_npot cfg Ha Hnpot Hseed Hseedn true n
                bsr osr bsi osi bdr odr bdi odi scale m
                Hn Hd Hbsr Hbsi Hbdr Hbdi Hpr Hpi Hheap) as (m' & Hrun & Hv & _).
    exists m'. split; assumption.
Qed.

Lemma planar_transform_any_size_witness :
  (exists m',
     @dbc_fft_c R (Elem_R exact_seeds exact_seeds_npot) default_config 3 (Ptr 1 0) (Ptr 2 0)
       (Ptr 3 0) (Ptr 4 0) 2%R npot_mem = Ok 0 m' /\
     forall j, 0 <= j < 3 ->
       cplx m' 3 0 1 4 0 1 j = Cscale 2 (dft false 3 (cplx npot_mem 1 0 1 2 0 1) j)) /\
  (exists m',
     @dbc_ifft_c R (Elem_R exact_seeds exact_seeds_npot) default_config 3 (Ptr 1 0) (Ptr 2 0)
       (Ptr 3 0) (Ptr 4 0) 2%R npot_mem = Ok 0 m' /\
     forall j, 0 <= j < 3 ->
       cplx m' 3 0 1 4 0 1 j = Cscale 2 (dft true 3 (cplx npot_mem 1 0 1 2 0 1) j)).
Proof.
  apply (planar_transform_any_size exact_seeds exact_seeds_npot default_config
           3 1 0 2 0 3 0 4 0 2%R npot_mem);
    [ exact default_static_asserts
    | reflexivity
    | intros; apply exact_seeds_ok; assumption
    | intros; reflexivity
    | lia | lia
    | vm_compute; reflexivity | vm_compute; reflexivity
    | vm_compute; reflexivity | vm_compute; reflexivity
    | right; split; lia
    | right; split; lia
    | intro; reflexivity ].
Defined.

(** X20.  There and back: [dbc_fft_c] with scale [s1] from the source to
    the destination and then [dbc_ifft_c] with scale [s2] in place on
    the destination, where [s1 * s2 * n = 1], both return 0 and leave the
    source sequence in the destination; so does [dbc_ifft_c] followed by
    [dbc_fft_c].  This holds for every size [n >= 1] (exact reals, exact
    seeds, an allocator that has memory; arrays as in X19). *)
Theorem inverse_undoes_forward
    (hook : option (Z -> R * R)) (hook_npot : option (Z -> Z -> R * R))
    (cfg : Config) (n bsr osr bsi osi bdr odr bdi odi : Z) (s1 s2 : R) (m : mem R) :
  static_asserts cfg ->
  DBC_FFT_NO_NPOT cfg = false ->
  (forall k, 0 <= k -> @dbcF_cexpm1 R (Elem_R hook hook_npot) k = expm1_exact k) ->
  (forall p q, 0 < p -> 0 < q ->
     @dbcF_cexpm1_npot R (Elem_R hook hook_npot) p q = expm1_npot_exact p q) ->
  1 <= n -> bdr <> bdi ->
  bsr < next_block m -> bsi < next_block m ->
  bdr < next_block m -> bdi < next_block m ->
  (bsr = bdr /\ osr = odr) \/ (bsr <> bdr /\ bsr <> bdi) ->
  (bsi = bdi /\ osi = odi) \/ (bsi <> bdr /\ bsi <> bdi) ->
  (forall bytes, heap_ok m bytes = true) ->
  (s1 * s2 * IZR n = 1)%R ->
  (exists m1 m2,
     @dbc_fft_c R (Elem_R hook hook_npot) cfg n (Ptr bsr osr) (Ptr bsi osi)
       (Ptr bdr odr) (Ptr bdi odi) s1 m = Ok 0 m1 /\
     @dbc_ifft_c R (Elem_R hook hook_npot) cfg n (Ptr bdr odr) (Ptr bdi odi)
       (Ptr bdr odr) (Ptr bdi odi) s2 m1 = Ok 0 m2 /\
     forall j, 0 <= j < n ->
       cplx m2 bdr odr 1 bdi odi 1 j = cplx m bsr osr 1 bsi osi 1 j) /\
  (exists m1 m2,
     @dbc_ifft_c R (Elem_R hook hook_npot) cfg n (Ptr bsr osr) (Ptr bsi osi)
       (Ptr bdr odr) (Ptr bdi odi) s1 m = Ok 0 m1 /\
     @dbc_fft_c R (Elem_R hook hook_npot) cfg n (Ptr bdr odr) (Ptr bdi odi)
       (Ptr bdr odr) (Ptr bdi odi) s2 m1 = Ok 0 m2 /\
     forall j, 0 <= j < n ->
       cplx m2 bdr odr 1 bdi odi 1 j = cplx m bsr osr 1 bsi osi 1 j).
Proof.
  intros Ha Hnpot Hseed Hseedn Hn Hd Hbsr Hbsi Hbdr Hbdi Hpr Hpi Hheap Hs.
  unfold dbc_fft_c, dbc_ifft_c. split.
  - exact (there_and_back hook hook_npot cfg Ha Hnpot Hseed Hseedn false n
             bsr osr bsi osi bdr odr bdi odi s1 s2 m
             Hn Hd Hbsr Hbsi Hbdr Hbdi Hpr Hpi Hheap Hs).
  - exact (there_and_back hook hook_npot cfg Ha Hnpot Hseed Hseedn true n
             bsr osr bsi osi bdr odr bdi odi s1 s2 m
             Hn Hd Hbsr Hbsi Hbdr Hbdi Hpr Hpi Hheap Hs).
Qed.

Lemma inverse_undoes_forward_witness :
  (exists m1 m2,
     @dbc_fft_c R (Elem_R exact_seeds exact_seeds_npot) default_config 3 (Ptr 1 0) (Ptr 2 0)
       (Ptr 3 0) (Ptr 4 0) 1%R npot_mem = Ok 0 m1 /\
     @dbc_ifft_c R (Elem_R exact_seeds exact_seeds_npot) default_config 3 (Ptr 3 0) (Ptr 4 0)
       (Ptr 3 0) (Ptr 4 0) (/ 3)%R m1 = Ok 0 m2 /\
     forall j, 0 <= j < 3 ->
       cplx m2 3 0 1 4 0 1 j = cplx npot_mem 1 0 1 2 0 1 j) /\
  (exists m1 m2,
     @dbc_ifft_c R (Elem_R exact_seeds exact_seeds_npot) default_config 3 (Ptr 1 0) (Ptr 2 0)
       (Ptr 3 0) (Ptr 4 0) 1%R npot_mem = Ok 0 m1 /\
     @dbc_fft_c R (Elem_R exact_seeds exact_seeds_npot) default_config 3 (Ptr 3 0) (Ptr 4 0)
       (Ptr 3 0) (Ptr 4 0) (/ 3)%R m1 = Ok 0 m2 /\
     forall j, 0 <= j < 3 ->
       cplx m2 3 0 1 4 0 1 j = cplx npot_mem 1 0 1 2 0 1 j).
Proof.
  apply (inverse_undoes_forward exact_seeds exact_seeds_npot default_config
           3 1 0 2 0 3 0 4 0 1%R (/ 3)%R npot_mem);
    [ exact default_static_asserts
    | reflexivity
    | intros; apply exact_seeds_ok; assumption
    | intros; reflexivity
    | lia | lia
    | vm_compute; reflexivity | vm_compute; reflexivity
    | vm_compute; reflexivity | vm_compute; reflexivity
    | right; split; lia
    | right; split; lia
    | intro; reflexivity
    | lra ].
Defined.

(** * C5, amended: what the entry surface does with the strides *)

(** A call whose sources lie in other blocks than its destinations, with
    any source strides, over the reals with exact seeds: every size
    [n >= 1], through the power-of-two driver or the chirp-z driver. *)
Lemma strided_sources_spec
    (hook : option (Z -> R * R)) (hook_npot : option (Z -> Z -> R * R))
    (cfg : Config) (inverse : bool)
    (n bsr osr srs bsi osi sis bdr odr sdr bdi odi sdi : Z) (scale : R) (m : mem R) :
  static_asserts cfg ->
  (forall k, 0 <= k -> @dbcF_cexpm1 R (Elem_R hook hook_npot) k = expm1_exact k) ->
  1 <= n -> sdr <> 0 -> sdi <> 0 ->
  disjoint_views bdr odr sdr bdi odi sdi n ->
  bsr < next_block m -> bsi < next_block m ->
  bdr < next_block m -> bdi < next_block m ->
  bsr <> bdr -> bsr <> bdi -> bsi <> bdr -> bsi <> bdi ->
  (Z.land n (n - 1) = 0 /\ (scale = 1%R \/ (sdr = 1 /\ sdi = 1))) \/
  (Z.land n (n - 1) <> 0 /\ DBC_FFT_NO_NPOT cfg = false /\
   (forall p q, 0 < p -> 0 < q ->
      @dbcF_cexpm1_npot R (Elem_R hook hook_npot) p q = expm1_npot_exact p q) /\
   (forall bytes, heap_ok m bytes = true)) ->
  exists m',
    @dbcF_fft R (Elem_R hook hook_npot) cfg n (Ptr bsr osr) (Ptr bsi osi) srs sis
      (Ptr bdr odr) (Ptr bdi odi) sdr sdi inverse scale m = Ok 0 m' /\
    (forall j, 0 <= j < n ->
       cplx m' bdr odr sdr bdi odi sdi j
       = Cscale scale (dft inverse n (cplx m bsr osr srs bsi osi sis) j)).
Proof.
  intros Ha Hseed Hn Hsdr Hsdi Hdv Hbsr Hbsi Hbdr Hbdi H1 H2 H3 H4 Hsize.
  assert (Hal : alias_rejected (Ptr bsr osr) (Ptr bsi osi) srs sis
                  (Ptr bdr odr) (Ptr bdi odi) sdr sdi = false).
  { unfold alias_rejected.
    rewrite !ptr_eqb_neq by (intro; congruence). reflexivity. }
  destruct Hsize as [[Hl Hscale]|(Hl & Hnpot & Hseedn & Hheap)].
  - destruct (land_zero_pow2 n Hn Hl) as (p & Hp & ->).
    assert (Hrun0 := @fft_is_pot R (Elem_R hook hook_npot) cfg p (Ptr bsr osr) (Ptr bsi osi) srs sis (Ptr bdr odr)
                       (Ptr bdi odi) sdr sdi inverse scale m Hp Hal).
    destruct (fft_pot_spec hook hook_npot cfg inverse Ha Hseed p
                (Ptr bsr osr) (Ptr bsi osi) srs sis bdr odr sdr bdi odi sdi scale m
                Hp Hsdr Hsdi Hdv Hbdr Hbdi) as (m' & Hrun & Hv & _).
    + split; [exact Hbsr|]. right. right. apply blocks_apart. exact H1.
    + split; [exact Hbsi|]. right. right. apply blocks_apart. exact H4.
    + apply blocks_apart. exact H3.
    + exact Hscale.
    + exists m'. split; [exact (eq_trans Hrun0 Hrun)|]. exact Hv.
  - destruct (other_sizes_spec hook hook_npot cfg inverse n bsr osr srs bsi osi sis
                bdr odr sdr bdi odi sdi scale m Ha Hnpot Hseed Hseedn Hn Hl
                Hsdr Hsdi Hdv Hbsr Hbsi Hbdr Hbdi Hal Hheap)
      as (m' & Hrun & Hv & _).
    exists m'. split; [exact Hrun|exact Hv].
Qed.

(** C5, amended.  The entry surface does not look at the strides.

    For every element type: when the source pointers differ from the
    destination pointers, a call with [num_elements >= 1] of a size the
    build transforms does not return [INVALID_ARGUMENT], whatever the
    four strides are, zero included (a nonzero destination stride is the
    caller's obligation).

    Over the reals with exact seeds, for every size [n >= 1] and sources
    in other blocks than the destinations: the call returns 0 and the
    destination holds [scale] times the transform of the sequence
    [X[k] = (src_real[k*src_real_stride], src_imag[k*src_imag_stride])].
    A source stride of zero makes every [X[k]] the one element
    [src[0]]: the sequence is that value repeated [n] times. *)
Theorem strides_not_validated :
  (forall (T : Type) (E : Elem T) (cfg : Config) (n : Z) (sr si : ptr) (srs sis : Z)
          (dr di : ptr) (drs dis : Z) (inverse : bool) (scale : T) (m m' : mem T),
     1 <= n ->
     DBC_FFT_NO_NPOT cfg = false \/ Z.land n (n - 1) = 0 ->
     ptr_eqb sr dr = false -> ptr_eqb si di = false ->
     ptr_eqb si dr = false -> ptr_eqb sr di = false ->
     dbcF_fft cfg n sr si srs sis dr di drs dis inverse scale m
     <> Ok DBCF_ERROR_INVALID_ARGUMENT m') /\
  (forall (hook : option (Z -> R * R)) (hook_npot : option (Z -> Z -> R * R))
          (cfg : Config) (inverse : bool)
          (n bsr osr srs bsi osi sis bdr odr sdr bdi odi sdi : Z) (scale : R) (m : mem R),
     static_asserts cfg ->
     (forall k, 0 <= k -> @dbcF_cexpm1 R (Elem_R hook hook_npot) k = expm1_exact k) ->
     1 <= n -> sdr <> 0 -> sdi <> 0 ->
     disjoint_views bdr odr sdr bdi odi sdi n ->
     bsr < next_block m -> bsi < next_block m ->
     bdr < next_block m -> bdi < next_block m ->
     bsr <> bdr -> bsr <> bdi -> bsi <> bdr -> bsi <> bdi ->
     (Z.land n (n - 1) = 0 /\ (scale = 1%R \/ (sdr = 1 /\ sdi = 1))) \/
     (Z.land n (n - 1) <> 0 /\ DBC_FFT_NO_NPOT cfg = false /\
      (forall p q, 0 < p -> 0 < q ->
         @dbcF_cexpm1_npot R (Elem_R hook hook_npot) p q = expm1_npot_exact p q) /\
      (forall bytes, heap_ok m bytes = true)) ->
     exists m',
       @dbcF_fft R (Elem_R hook hook_npot) cfg n (Ptr bsr osr) (Ptr bsi osi) srs sis
         (Ptr bdr odr) (Ptr bdi odi) sdr sdi inverse scale m = Ok 0 m' /\
       (forall j, 0 <= j < n ->
          cplx m' bdr odr sdr bdi odi sdi j
          = Cscale scale
              (dft inverse n
                 (fun k => (cells m bsr (osr + k * srs), cells m bsi (osi + k * sis))) j)) /\
       (srs = 0 -> sis = 0 ->
        forall j, 0 <= j < n ->
          cplx m' bdr odr sdr bdi odi sdi j
          = Cscale scale
              (dft inverse n (fun _ => (cells m bsr osr, cells m bsi osi)) j))).
Proof.
  split.
  - intros T E cfg n sr si srs sis dr di drs dis inverse scale m m' Hn Hc E1 E2 E3 E4.
    apply fft_accepts; [exact Hn|exact Hc|].
    unfold alias_rejected. rewrite E1, E2, E3, E4. reflexivity.
  - intros hook hook_npot cfg inverse n bsr osr srs bsi osi sis bdr odr sdr bdi odi sdi
      scale m Ha Hseed Hn Hsdr Hsdi Hdv Hbsr Hbsi Hbdr Hbdi H1 H2 H3 H4 Hsize.
    destruct (strided_sources_spec hook hook_npot cfg inverse n bsr osr srs bsi osi sis
                bdr odr sdr bdi odi sdi scale m Ha Hseed Hn Hsdr Hsdi Hdv
                Hbsr Hbsi Hbdr Hbdi H1 H2 H3 H4 Hsize) as (m' & Hrun & Hv).
    exists m'. split; [exact Hrun|]. split; [exact Hv|].
    intros -> -> j Hj. rewrite (Hv j Hj). f_equal.
    apply dft_ext. intros k Hk. unfold cplx, cell.
    rewrite !Z.mul_0_r, !Z.add_0_r. reflexivity.
Qed.

(** Zero strides on both sides for two rationals; a broadcast of
    [(1, 0)] into four elements; a broadcast into three elements, through
    the chirp-z driver. *)
Lemma strides_not_validated_witness :
  (forall m', @dbcF_fft Q Elem_Q default_config 2 (Ptr 1 0) (Ptr 2 0) 0 0
                 (Ptr 3 0) (Ptr 4 0) 0 0 false 1%Q stride_mem
              <> Ok DBCF_ERROR_INVALID_ARGUMENT m') /\
  (exists m',
     @dbcF_fft R (Elem_R exact_seeds exact_seeds_npot) default_config 4
       (Ptr 1 0) (Ptr 2 0) 0 0 (Ptr 3 0) (Ptr 4 0) 1 1 false 1%R pot_mem = Ok 0 m' /\
     (forall j, 0 <= j < 4 ->
        cplx m' 3 0 1 4 0 1 j
        = Cscale 1
            (dft false 4
               (fun k => (cells pot_mem 1 (0 + k * 0), cells pot_mem 2 (0 + k * 0))) j)) /\
     (0 = 0 -> 0 = 0 ->
      forall j, 0 <= j < 4 ->
        cplx m' 3 0 1 4 0 1 j
        = Cscale 1 (dft false 4 (fun _ => (cells pot_mem 1 0, cells pot_mem 2 0)) j))) /\
  (exists m',
     @dbcF_fft R (Elem_R exact_seeds exact_seeds_npot) default_config 3
       (Ptr 1 0) (Ptr 2 0) 0 0 (Ptr 3 0) (Ptr 4 0) 2 1 true 5%R npot_mem = Ok 0 m' /\
     (forall j, 0 <= j < 3 ->
        cplx m' 3 0 2 4 0 1 j
        = Cscale 5
            (dft true 3
               (fun k => (cells npot_mem 1 (0 + k * 0), cells npot_mem 2 (0 + k * 0))) j)) /\
     (0 = 0 -> 0 = 0 ->
      forall j, 0 <= j < 3 ->
        cplx m' 3 0 2 4 0 1 j
        = Cscale 5 (dft true 3 (fun _ => (cells npot_mem 1 0, cells npot_mem 2 0)) j))).
Proof.
  split; [|split].
  - intro m'.
    apply (proj1 strides_not_validated Q Elem_Q default_config 2 (Ptr 1 0) (Ptr 2 0) 0 0
             (Ptr 3 0) (Ptr 4 0) 0 0 false 1%Q stride_mem m');
      [lia | left; reflexivity | reflexivity | reflexivity | reflexivity | reflexivity].
  - apply (proj2 strides_not_validated exact_seeds exact_seeds_npot default_config false
             4 1 0 0 2 0 0 3 0 1 4 0 1 1%R pot_mem);
      [ exact default_static_asserts
      | intros; apply exact_seeds_ok; assumption
      | lia | lia | lia
      | apply blocks_apart; lia
      | vm_compute; reflexivity | vm_compute; reflexivity
      | vm_compute; reflexivity | vm_compute; reflexivity
      | lia | lia | lia | lia
      | left; split; [reflexivity | left; reflexivity] ].
  - apply (proj2 strides_not_validated exact_seeds exact_seeds_npot default_config true
             3 1 0 0 2 0 0 3 0 2 4 0 1 5%R npot_mem);
      [ exact default_static_asserts
      | intros; apply exact_seeds_ok; assumption
      | lia | lia | lia
      | apply blocks_apart; lia
      | vm_compute; reflexivity | vm_compute; reflexivity
      | vm_compute; reflexivity | vm_compute; reflexivity
      | lia | lia | lia | lia
      | right; split; [vm_compute; discriminate|];
        split; [reflexivity|];
        split; [intros; apply exact_seeds_npot_ok | intro; reflexivity] ].
Defined.
